(* ===== verification/_CoqProject ===== *)
-Q . S2P
Prelude.v
Collections.v
Canon.v
CanonFacts.v
CanonDigest.v
BrokerAuth.v
Scheduler.v
SchedulerFacts.v
Protocol.v
Catalog.v
Store.v
Service.v
StoreFacts.v
ServiceFacts.v
StoreRun.v
StoreQueries.v
StoreWitness.v
