(* ===== verification/Prelude.v ===== *)
(** * CIGAR: a verification library for its Rust core

    CIGAR keeps the working context of software agents: canonical records with
    domain-separated digests, a broker that authenticates agents and schedules
    their requests, and a tenant-isolated store of immutable context on which
    the other services are built. This library models those three parts and the
    protocol records they exchange, and proves what they promise. Definitions
    keep the names of the Rust items they translate.

    ** Parts and files

    - Shared: Prelude (results, machine integers, tactics, hints), Collections
      (total orders, [BTreeMap] as a sorted association list, stable sorts,
      sums).
    - crates/cigar-canon, lib.rs: Canon (deterministic CBOR writer and strict
      reader, the strict JSON visitor, semantic envelopes, digest and signing
      bytes), CanonFacts (what the reader accepts and the writer produces),
      CanonDigest (JSON, envelopes, signing bytes).
    - crates/cigar-context/src/broker: BrokerAuth (authentication.rs, module
      [Auth]: the mutual handshake), Scheduler (scheduler.rs: registration,
      admission, dispatch, pruning, draining, cancellation), SchedulerFacts.
    - crates/cigar-protocol: Protocol (validation.rs, identity.rs, schema.rs,
      extension.rs, effect.rs), Catalog (atom.rs, catalog.rs, compilation.rs,
      coordination.rs: atoms, edges, snapshots, bundles, capability grants,
      context commits).
    - crates/cigar-store: Store (model.rs, memory.rs: the MVCC repository),
      Service (service_repository.rs: service records and worker leases),
      StoreFacts, ServiceFacts (preservation by every operation), StoreRun (runs
      and their theorems), StoreQueries (queries, pagination, the derivation-cycle
      search), StoreWitness (a concrete run).

    ** How the parts interact

    Transactions of the store stage protocol records that have passed the
    protocol validators; service batches and worker updates publish states of
    the same history. The handshake of a connection names a lane of the
    scheduler, which holds the key that the proof is checked against. Connection
    handlers and the scheduler share the cancellation cell of each job. Digests
    and signatures are taken over the canonical bytes of Canon.

    ** Modelling

    - [Result] is [result E], [?] its bind; [u64], [i64] and the like are [Z] with
      their checked operations written out. Text is its UTF-8 bytes. Timestamps
      and durations are nanosecond counts.
    - A [BTreeMap] is a sorted association list; order is part of the model where
      the code iterates.
    - State is passed explicitly. The repository ([InMemoryStore]) is the list of
      its published states, one per revision; a lock is held across each
      operation, so an operation is a function. A cancellation token is shared
      with other threads, so each check reads its own boolean.
    - The scheduler ([BrokerScheduler]) is passed with a [World] that holds the
      atomic cells and the clock; a cell is an index, so that a handler and a
      queued job alias it, and every [Instant::now()] is a reading of its own.
    - Reachability is an inductive step relation per system ([SchedulerFacts.run],
      the runs of StoreRun), over all operations of all callers in any order.
    - SHA-256, HMAC, randomness, [serde_json] and the ciborium encoder are
      parameters; digests are assumed to have 32 bytes where their shape matters
      ([Auth.digest_ok]), and no theorem assumes that hashes do not collide: the
      binding theorems are about the bytes that are hashed.

    ** What is proved

    - Canon: the reader accepts exactly the deterministic encodings, without help
      from its re-encoding comparison, and the writer produces them under the
      stated limits; envelopes cover exactly the fields not excluded, and digest
      preimages and signing bytes are injective.
    - Handshake: it completes between honest parties; only a live grant
      authenticates; the MAC input determines role, epoch, grant and both
      challenges.
    - Scheduler: counters and limits hold in every run; admitted jobs are the
      returned and the queued ones; a cancelled job is never dispatched, however
      the two race; draining cancels everything; and waiting is bounded: the
      oldest job of a lane is returned within a number of dispatch opportunities
      fixed by its place in the rotation, none of which is wasted before.
    - Protocol: along a chain of accepted delegations no grant exceeds the root.
    - Store: every reachable repository has one well-formed state per revision,
      each extending the last; a commit is rejected, publishes the next revision
      or replays; identities are answered once and for ever; no update is lost;
      snapshots stay readable; worker leases exclude each other; what is stored
      passes the validation on reopening; queries and recovery scans are
      complete; the cycle search terminates and is exact; rebuilt indexes are
      the maintained ones.

    ** Bounds and fuel

    Fuel is used only where Rust loops without a structural bound, and is enough
    by proof: the cycle search has a turn per edge and two more
    ([cycle_check_exact]), the CBOR reader the source's nesting limit, binary
    searches the slice length. Page followers in the statements have one turn
    per item. Effect envelopes and blobs are taken from their constructors ([StoreRun.built]).

    ** Not modelled

    Of the modelled crates: the Unicode normalization that Canon only calls, RFC
    3339 text and schema generation, the plans, manifests, materialized contexts
    and deltas of compilation.rs, and the overlays, handoffs and leases of
    coordination.rs. Of the rest: the effect engine, context spaces, policy,
    keys, the compiler, retrieval, catalog ingestion and replay; SQL, object and
    file storage with migration, backup and garbage collection (their
    publications use the same apply functions as the modelled repository); the
    HTTP, gRPC, MCP, command-line and dashboard front ends and the daemon that
    composes them; code intelligence and extension hosting; forks of third-party
    crates, generated code and test tooling. Poisoned locks and logging are not
    modelled. *)

From stdpp Require Export base list strings.
From Stdlib Require Export ZArith Lia.
From Stdlib Require Import Sorting.Permutation Sorting.Sorted.

#[export] Set Default Goal Selector "!".
Global Open Scope Z_scope.

(** ** Results

    Rust's [Result<A, E>] with the error type first so that [result E] is a
    monad; [?] is stdpp's bind notation [x ← c; k]. *)

Inductive result (E A : Type) : Type :=
| Ok (a : A)
| Err (e : E).
Arguments Ok {E A} _.
Arguments Err {E A} _.

#[export] Instance result_ret E : MRet (result E) := λ A a, Ok a.
#[export] Instance result_bind E : MBind (result E) := λ A B f r,
  match r with Ok a => f a | Err e => Err e end.

Declare Scope cigar_scope.
Delimit Scope cigar_scope with cigar.

(** [return Err(e)] unless the guard holds. *)
Definition ensure {E} (b : bool) (e : E) : result E unit :=
  if b then Ok tt else Err e.

(** [Option::ok_or]. *)
Definition ok_or {E A} (o : option A) (e : E) : result E A :=
  match o with Some a => Ok a | None => Err e end.

(** [Result::map_err]. *)
Definition map_err {E F A} (f : E → F) (r : result E A) : result F A :=
  match r with Ok a => Ok a | Err e => Err (f e) end.

(** [Result::is_ok]. *)
Definition is_ok {E A} (r : result E A) : bool :=
  match r with Ok _ => true | Err _ => false end.

(** [Option::is_some_and] and [Option::is_none_or]. *)
Definition is_some_and {A} (p : A → bool) (o : option A) : bool :=
  match o with Some a => p a | None => false end.
Definition is_none_or {A} (p : A → bool) (o : option A) : bool :=
  match o with Some a => p a | None => true end.

Lemma ensure_ok {E} (b : bool) (e : E) : ensure b e = Ok tt ↔ b = true.
Proof. destruct b; split; intros H; simpl in *; congruence. Qed.

Lemma bind_ok {E A B} (r : result E A) (f : A → result E B) b :
  (r ≫= f) = Ok b ↔ ∃ a, r = Ok a ∧ f a = Ok b.
Proof.
  destruct r as [a|e]; simpl; split.
  - intros H; eauto.
  - intros (a' & [= ->] & H); exact H.
  - intros [=].
  - intros (a' & [=] & _).
Qed.

Lemma ensure_bind_ok {E B} (b : bool) (e : E) (f : unit → result E B) x :
  (ensure b e ≫= f) = Ok x ↔ b = true ∧ f tt = Ok x.
Proof. destruct b; simpl; naive_solver. Qed.

(** Inverts a successful computation into the success of each of its steps. *)
Ltac inv_ok H :=
  lazymatch type of H with
  | mbind _ _ = Ok _ =>
      apply bind_ok in H;
      let a := fresh "a" in let H1 := fresh "Hok" in
      destruct H as (a & H1 & H);
      try (lazymatch type of H1 with
           | ensure _ _ = Ok _ => destruct a; apply ensure_ok in H1
           end)
  | ok_or ?o _ = Ok _ =>
      let E := fresh "Eo" in
      destruct o eqn:E; simpl in H; [|discriminate H]
  | ensure _ _ = Ok _ => apply ensure_ok in H
  end.

(** Destructs the scrutinee of a conditional in a hypothesis. *)
Ltac case_in H :=
  lazymatch type of H with
  | context [if ?b then _ else _] => let E := fresh "Eif" in destruct b eqn:E
  | context [match ?b with _ => _ end] => let E := fresh "Em" in destruct b eqn:E
  end.

(** Splits boolean conjunctions and disjunctions of hypotheses. *)
Ltac bsplit :=
  repeat match goal with
  | H : _ && _ = true |- _ => apply andb_true_iff in H; destruct H
  | H : _ || _ = false |- _ => apply orb_false_iff in H; destruct H
  | H : negb _ = true |- _ => apply negb_true_iff in H
  | H : negb _ = false |- _ => apply negb_false_iff in H
  | H : (_ <? _) = true |- _ => apply Z.ltb_lt in H
  | H : (_ <? _) = false |- _ => apply Z.ltb_ge in H
  | H : (_ <=? _) = true |- _ => apply Z.leb_le in H
  | H : (_ <=? _) = false |- _ => apply Z.leb_gt in H
  | H : (_ =? _) = true |- _ => apply Z.eqb_eq in H
  | H : (_ =? _) = false |- _ => apply Z.eqb_neq in H
  | H : bool_decide _ = true |- _ => apply bool_decide_eq_true in H
  | H : bool_decide _ = false |- _ => apply bool_decide_eq_false in H
  end.

(** ** Machine integers

    Rust's fixed-width integers are [Z]; [usize] is 64 bits wide on every
    supported target. Checked operations return [None] out of range. *)

Definition u8_max : Z := 255.
Definition u16_max : Z := 65535.
Definition u32_max : Z := 4294967295.
Definition u64_max : Z := 18446744073709551615.
Definition i64_min : Z := -9223372036854775808.
Definition i64_max : Z := 9223372036854775807.
Definition i128_min : Z := -170141183460469231731687303715884105728.
Definition i128_max : Z := 170141183460469231731687303715884105727.

(** [a.checked_add(b)] at an unsigned type whose maximum is [m]. *)
Definition checked_add (m a b : Z) : option Z :=
  if a + b <=? m then Some (a + b) else None.

(** [a.checked_sub(b)] at an unsigned type. *)
Definition checked_sub (a b : Z) : option Z :=
  if b <=? a then Some (a - b) else None.

(** [uN::try_from] of a non-negative value into a type with maximum [m]. *)
Definition try_from (m a : Z) : option Z :=
  if a <=? m then Some a else None.

(** [a.checked_add(b)] and [a.checked_sub(b)] at [i128]. *)
Definition checked_i128 (v : Z) : option Z :=
  if (i128_min <=? v) && (v <=? i128_max) then Some v else None.

(** [Vec::len], [String::len] as a [usize]. *)
Definition len {A} (l : list A) : Z := Z.of_nat (length l).
Definition str_len (s : string) : Z := Z.of_nat (String.length s).

Lemma len_nonneg {A} (l : list A) : 0 ≤ len l.
Proof. unfold len; lia. Qed.

Lemma len_nil {A} : len (@nil A) = 0.
Proof. reflexivity. Qed.

Lemma len_cons {A} (x : A) l : len (x :: l) = 1 + len l.
Proof. unfold len; simpl length; lia. Qed.

Lemma len_app {A} (l k : list A) : len (l ++ k) = len l + len k.
Proof. unfold len; rewrite length_app; lia. Qed.

Lemma len_zero {A} (l : list A) : len l = 0 → l = [].
Proof. destruct l; unfold len; simpl; [reflexivity|lia]. Qed.

Lemma checked_add_Some m a b c : checked_add m a b = Some c → c = a + b ∧ a + b ≤ m.
Proof. unfold checked_add; destruct (Z.leb_spec (a + b) m); intros [=]; subst; lia. Qed.

Create HintDb cigar.
Create Rewrite HintDb cigar.
#[export] Hint Resolve len_nonneg : cigar.
#[export] Hint Rewrite @len_nil @len_cons @len_app : cigar.
