(* ===== verification/Collections.v ===== *)
(** * Ordered collections of the Rust standard library

    [TotalOrd] is Rust's [Ord]; [btree] is [BTreeMap] as its in-order list of
    entries, so that iteration order is the list order; [sort_by] is the stable
    [slice::sort_by]. Look-up laws hold for every list; the ones that count
    entries or compare whole maps need the key order [bt_wf], which every
    operation preserves. *)

From S2P Require Import Prelude.
From stdpp Require Import sorting.
From Stdlib Require Import Sorting.Permutation Sorting.Sorted.
Local Open Scope Z_scope.

(** ** Total orders *)

Class TotalOrd (A : Type) := {
  ocmp : A → A → comparison;
  ocmp_eq a b : ocmp a b = Eq ↔ a = b;
  ocmp_antisym a b : ocmp b a = CompOpp (ocmp a b);
  ocmp_trans a b c : ocmp a b = Lt → ocmp b c = Lt → ocmp a c = Lt
}.

(** The derived comparison operators. *)
Definition oltb {A} `{TotalOrd A} (a b : A) : bool :=
  match ocmp a b with Lt => true | _ => false end.
Definition oleb {A} `{TotalOrd A} (a b : A) : bool :=
  match ocmp a b with Gt => false | _ => true end.
Definition oeqb {A} `{TotalOrd A} (a b : A) : bool :=
  match ocmp a b with Eq => true | _ => false end.
Definition olt {A} `{TotalOrd A} (a b : A) : Prop := ocmp a b = Lt.

Section order.
Context {A : Type} `{TotalOrd A}.
Implicit Types a b c : A.

Lemma ocmp_refl a : ocmp a a = Eq.
Proof. by apply ocmp_eq. Qed.

Lemma oeqb_eq a b : oeqb a b = true ↔ a = b.
Proof. unfold oeqb; rewrite <- ocmp_eq; destruct (ocmp a b); split; congruence. Qed.

Lemma oeqb_refl a : oeqb a a = true.
Proof. by apply oeqb_eq. Qed.

Lemma oltb_lt a b : oltb a b = true ↔ olt a b.
Proof. unfold oltb, olt; destruct (ocmp a b); split; congruence. Qed.

Lemma olt_irrefl a : ¬ olt a a.
Proof. unfold olt; rewrite ocmp_refl; congruence. Qed.

Lemma olt_ne a b : olt a b → a ≠ b.
Proof. intros Hl ->; exact (olt_irrefl _ Hl). Qed.

Lemma ocmp_gt a b : ocmp a b = Gt ↔ olt b a.
Proof. unfold olt; rewrite (ocmp_antisym a b); destruct (ocmp a b); simpl; split; congruence. Qed.

#[export] Instance olt_trans : Transitive (olt (A := A)).
Proof. intros a b c; apply ocmp_trans. Qed.

#[export] Instance olt_irreflexive : Irreflexive (olt (A := A)).
Proof. intros a Ha; exact (olt_irrefl _ Ha). Qed.

Definition ord_eq_dec : EqDecision A.
Proof.
  intros a b; destruct (ocmp a b) eqn:E.
  - left; by apply ocmp_eq.
  - right; intros ->; rewrite ocmp_refl in E; discriminate.
  - right; intros ->; rewrite ocmp_refl in E; discriminate.
Defined.

Lemma oleb_olt a b : oleb a b = false → olt b a.
Proof. unfold oleb; destruct (ocmp a b) eqn:E; try discriminate; intros _; by apply ocmp_gt. Qed.

Lemma oleb_total a b : oleb a b = true ∨ oleb b a = true.
Proof. unfold oleb; rewrite (ocmp_antisym a b); destruct (ocmp a b); simpl; auto. Qed.

Lemma oleb_true a b : oleb a b = true ↔ olt a b ∨ a = b.
Proof.
  unfold oleb, olt; rewrite <- ocmp_eq; destruct (ocmp a b); split; intros; try tauto;
    try congruence; intuition congruence.
Qed.
Lemma olt_oleb a b : olt b a → oleb a b = false.
Proof. unfold oleb. by intros ->%ocmp_gt. Qed.
Lemma oleb_antisym a b : oleb a b = true → oleb b a = true → a = b.
Proof.
  rewrite !oleb_true. intros [Hab| ->]; [|done]. intros [Hba| ->]; [|done].
  destruct (olt_irrefl a). by eapply ocmp_trans.
Qed.

Lemma oleb_trans a b c : oleb a b = true → oleb b c = true → oleb a c = true.
Proof.
  rewrite !oleb_true; intros [H1| ->] [H2| ->]; auto. left; by transitivity b.
Qed.
End order.

(** ** Instances: integers, byte strings, text, options, pairs *)

#[export] Program Instance Z_ord : TotalOrd Z := {| ocmp := Z.compare |}.
Next Obligation. intros; apply Z.compare_eq_iff. Qed.
Next Obligation. intros a b; apply Z.compare_antisym. Qed.
Next Obligation. intros a b c; rewrite !Z.compare_lt_iff; lia. Qed.

(** Lexicographic order of slices. *)
Fixpoint list_cmp {A} `{TotalOrd A} (l k : list A) : comparison :=
  match l, k with
  | [], [] => Eq
  | [], _ :: _ => Lt
  | _ :: _, [] => Gt
  | x :: l', y :: k' => match ocmp x y with Eq => list_cmp l' k' | c => c end
  end.

#[export] Program Instance list_ord {A} `{TotalOrd A} : TotalOrd (list A) :=
  {| ocmp := list_cmp |}.
Next Obligation.
  intros A O l; induction l as [|x l IH]; intros [|y k]; simpl; try (split; congruence).
  destruct (ocmp x y) eqn:E.
  - apply ocmp_eq in E as ->. rewrite IH; split; congruence.
  - split; [congruence|]. intros [= -> ->]. rewrite ocmp_refl in E; discriminate.
  - split; [congruence|]. intros [= -> ->]. rewrite ocmp_refl in E; discriminate.
Qed.
Next Obligation.
  intros A O l; induction l as [|x l IH]; intros [|y k]; simpl; try reflexivity.
  rewrite (ocmp_antisym x y); destruct (ocmp x y); simpl; auto.
Qed.
Next Obligation.
  intros A O l; induction l as [|x l IH]; intros [|y k] [|z m]; simpl; try congruence.
  destruct (ocmp x y) eqn:E1; try congruence; destruct (ocmp y z) eqn:E2; try congruence.
  - apply ocmp_eq in E1 as ->. rewrite E2. apply IH.
  - apply ocmp_eq in E1 as ->. by rewrite E2.
  - apply ocmp_eq in E2 as ->. by rewrite E1.
  - by rewrite (ocmp_trans _ _ _ E1 E2).
Qed.

(** The UTF-8 bytes of a string. Rust compares strings bytewise. *)
Fixpoint str_bytes (s : string) : list Z :=
  match s with
  | EmptyString => []
  | String c s' => Z.of_N (Ascii.N_of_ascii c) :: str_bytes s'
  end.

#[export] Instance str_bytes_inj : Inj (=) (=) str_bytes.
Proof.
  intros s; induction s as [|c s IH]; intros [|d t]; simpl; try congruence.
  intros [= Hc Hs%IH]; subst. f_equal. apply N2Z.inj in Hc.
  rewrite <- (Ascii.ascii_N_embedding c), <- (Ascii.ascii_N_embedding d); congruence.
Qed.

#[export] Program Instance string_ord : TotalOrd string :=
  {| ocmp := λ s t, ocmp (str_bytes s) (str_bytes t) |}.
Next Obligation.
  intros s t; split.
  - intros Hc%(ocmp_eq (A := list Z)). by apply (inj str_bytes).
  - intros ->; apply (ocmp_refl (A := list Z)).
Qed.
Next Obligation. intros s t; apply (ocmp_antisym (A := list Z)). Qed.
Next Obligation. intros s t u; apply (ocmp_trans (A := list Z)). Qed.

(** Lexicographic order of tuples. *)
Definition pair_cmp {A B} `{TotalOrd A, TotalOrd B} (p q : A * B) : comparison :=
  match ocmp p.1 q.1 with Eq => ocmp p.2 q.2 | c => c end.

#[export] Program Instance prod_ord {A B} `{TotalOrd A, TotalOrd B} : TotalOrd (A * B) :=
  {| ocmp := pair_cmp |}.
Next Obligation.
  intros A B OA OB [a b] [c d]; unfold pair_cmp; simpl. destruct (ocmp a c) eqn:E.
  - apply ocmp_eq in E as ->. rewrite (ocmp_eq b d); split; congruence.
  - split; [congruence|]; intros [= -> ->]; rewrite ocmp_refl in E; congruence.
  - split; [congruence|]; intros [= -> ->]; rewrite ocmp_refl in E; congruence.
Qed.
Next Obligation.
  intros A B OA OB [a b] [c d]; unfold pair_cmp; simpl. rewrite (ocmp_antisym a c).
  destruct (ocmp a c); simpl; auto using ocmp_antisym.
Qed.
Next Obligation.
  intros A B OA OB [a a'] [b b'] [c c']; unfold pair_cmp; simpl.
  destruct (ocmp a b) eqn:E1; try congruence; destruct (ocmp b c) eqn:E2; try congruence.
  - apply ocmp_eq in E1 as ->. rewrite E2. apply ocmp_trans.
  - apply ocmp_eq in E1 as ->. by rewrite E2.
  - apply ocmp_eq in E2 as ->. by rewrite E1.
  - by rewrite (ocmp_trans _ _ _ E1 E2).
Qed.

(** ** Sorted slices *)

(** [values.windows(2).all(|w| w[0] < w[1])]. *)
Fixpoint strictly_sorted {A} `{TotalOrd A} (l : list A) : bool :=
  match l with
  | x :: (y :: _) as t => oltb x y && strictly_sorted t
  | _ => true
  end.

Lemma strictly_sorted_spec {A} `{TotalOrd A} (l : list A) :
  strictly_sorted l = true ↔ StronglySorted olt l.
Proof.
  induction l as [|x [|y l] IH].
  - split; [constructor|reflexivity].
  - split; [repeat constructor|reflexivity].
  - change (strictly_sorted (x :: y :: l)) with (oltb x y && strictly_sorted (y :: l)).
    rewrite andb_true_iff, oltb_lt, IH. split.
    + intros [Hxy Hs]. constructor; [done|]. inversion_clear Hs as [|? ? _ Hy].
      constructor; [done|]. eapply Forall_impl; [exact Hy|]. intros z Hz; by transitivity y.
    + intros Hs; inversion_clear Hs as [|? ? Hs' Hx]. by inversion_clear Hx.
Qed.

Lemma sorted_lt_NoDup {A} `{TotalOrd A} (l : list A) : StronglySorted olt l → NoDup l.
Proof.
  induction 1 as [|x l Hs IH Hx]; constructor; [|done].
  intros Hin. rewrite Forall_forall in Hx. exact (olt_irrefl _ (Hx _ Hin)).
Qed.

(** ** BTreeMap *)

Abbreviation btree K V := (list (K * V)).

Section btree.
Context {K V : Type} `{TotalOrd K}.
Implicit Types (m : btree K V) (k : K) (v : V).
#[local] Existing Instance ord_eq_dec.

(** [BTreeMap::get]. *)
Fixpoint bt_get k m : option V :=
  match m with
  | [] => None
  | (k', v) :: m' => if oeqb k k' then Some v else bt_get k m'
  end.

(** [BTreeMap::insert], the map it leaves; [bt_get] before gives its result. *)
Fixpoint bt_insert k v m : btree K V :=
  match m with
  | [] => [(k, v)]
  | (k', v') :: m' =>
      match ocmp k k' with
      | Lt => (k, v) :: m
      | Eq => (k, v) :: m'
      | Gt => (k', v') :: bt_insert k v m'
      end
  end.

(** [BTreeMap::remove], the map it leaves. *)
Fixpoint bt_remove k m : btree K V :=
  match m with
  | [] => []
  | (k', v') :: m' => if oeqb k k' then bt_remove k m' else (k', v') :: bt_remove k m'
  end.

(** [BTreeMap::contains_key], [keys], [values], [retain]. *)
Definition bt_mem k m : bool := match bt_get k m with Some _ => true | None => false end.
Definition bt_keys m : list K := map fst m.
Definition bt_values m : list V := map snd m.
Definition bt_retain (p : K → V → bool) m : btree K V :=
  List.filter (λ kv, p kv.1 kv.2) m.

(** [self.extend(other)]. *)
Definition bt_extend m m' : btree K V :=
  fold_left (λ acc kv, bt_insert kv.1 kv.2 acc) m' m.

(** The key order a [BTreeMap] maintains. *)
Definition bt_wf m : Prop := StronglySorted olt (bt_keys m).

Lemma bt_get_insert_eq k v m : bt_get k (bt_insert k v m) = Some v.
Proof.
  induction m as [|[k' v'] m IH]; simpl.
  - by rewrite oeqb_refl.
  - destruct (ocmp k k') eqn:E; simpl.
    + by rewrite oeqb_refl.
    + by rewrite oeqb_refl.
    + unfold oeqb; rewrite E; exact IH.
Qed.

Lemma bt_get_insert_ne k k' v m : k ≠ k' → bt_get k (bt_insert k' v m) = bt_get k m.
Proof.
  intros Hne. assert (oeqb k k' = false) as Hf.
  { destruct (oeqb k k') eqn:E; [apply oeqb_eq in E; contradiction|done]. }
  induction m as [|[j w] m IH]; simpl.
  - by rewrite Hf.
  - destruct (ocmp k' j) eqn:E; simpl.
    + apply ocmp_eq in E as ->. by rewrite Hf.
    + by rewrite Hf.
    + by rewrite IH.
Qed.

Lemma bt_get_insert k k' v m :
  bt_get k (bt_insert k' v m) = if oeqb k k' then Some v else bt_get k m.
Proof.
  destruct (oeqb k k') eqn:E.
  - apply oeqb_eq in E as ->. apply bt_get_insert_eq.
  - apply bt_get_insert_ne. intros ->. by rewrite oeqb_refl in E.
Qed.

Lemma bt_get_remove_eq k m : bt_get k (bt_remove k m) = None.
Proof.
  induction m as [|[k' v'] m IH]; simpl; [done|].
  destruct (oeqb k k') eqn:E; [done|]. simpl; by rewrite E.
Qed.

Lemma bt_get_remove_ne k k' m : k ≠ k' → bt_get k (bt_remove k' m) = bt_get k m.
Proof.
  intros Hne. induction m as [|[j w] m IH]; simpl; [done|].
  destruct (oeqb k' j) eqn:E; simpl; [|by rewrite IH].
  apply oeqb_eq in E as ->. rewrite IH.
  destruct (oeqb k j) eqn:E'; [apply oeqb_eq in E'; contradiction|done].
Qed.

Lemma bt_get_In k v m : bt_get k m = Some v → In (k, v) m.
Proof.
  induction m as [|[k' v'] m IH]; simpl; [discriminate|].
  destruct (oeqb k k') eqn:E; [|by auto].
  apply oeqb_eq in E as ->. intros [= ->]; auto.
Qed.

Lemma bt_get_None k m : bt_get k m = None ↔ k ∉ bt_keys m.
Proof.
  induction m as [|[k' v'] m IH]; simpl.
  - split; [intros _; apply not_elem_of_nil|done].
  - rewrite not_elem_of_cons. destruct (oeqb k k') eqn:E.
    + apply oeqb_eq in E as ->. split; [discriminate|tauto].
    + rewrite IH. split; [|tauto]. intros Hn; split; [|done].
      intros ->; by rewrite oeqb_refl in E.
Qed.

Lemma bt_mem_true k m : bt_mem k m = true ↔ ∃ v, bt_get k m = Some v.
Proof. unfold bt_mem; destruct (bt_get k m); split; eauto; [done|by intros []]. Qed.

Lemma bt_mem_false k m : bt_mem k m = false ↔ bt_get k m = None.
Proof. unfold bt_mem; destruct (bt_get k m); split; congruence. Qed.

Lemma bt_wf_nil : bt_wf [].
Proof. constructor. Qed.

Lemma bt_wf_cons k v m : bt_wf ((k, v) :: m) ↔ Forall (olt k) (bt_keys m) ∧ bt_wf m.
Proof. split; [intros Hs; inversion_clear Hs; auto|intros []; by constructor]. Qed.

Lemma bt_keys_insert k v m j : j ∈ bt_keys (bt_insert k v m) ↔ j = k ∨ j ∈ bt_keys m.
Proof.
  destruct (ord_eq_dec j k) as [->|Hne].
  - pose proof (bt_get_insert_eq k v m) as Hg. split; [auto|]. intros _.
    destruct (decide (k ∈ bt_keys (bt_insert k v m))) as [Hin|Hn]; [done|].
    apply bt_get_None in Hn. congruence.
  - pose proof (bt_get_insert_ne j k v m Hne) as Hg.
    pose proof (bt_get_None j (bt_insert k v m)). pose proof (bt_get_None j m).
    rewrite Hg in *. destruct (decide (j ∈ bt_keys (bt_insert k v m)));
      destruct (decide (j ∈ bt_keys m)); tauto.
Qed.

Lemma bt_insert_Forall_keys (P : K → Prop) k v m :
  P k → Forall P (bt_keys m) → Forall P (bt_keys (bt_insert k v m)).
Proof.
  rewrite !Forall_forall. intros Hk Hm j [->|Hj]%bt_keys_insert; auto.
Qed.

Lemma bt_wf_insert k v m : bt_wf m → bt_wf (bt_insert k v m).
Proof.
  induction m as [|[k' v'] m IH]; simpl; intros Hwf.
  - constructor; constructor.
  - apply bt_wf_cons in Hwf as [Hk Hm]. destruct (ocmp k k') eqn:E.
    + apply ocmp_eq in E as ->. by apply bt_wf_cons.
    + apply bt_wf_cons; split; [|by apply bt_wf_cons]. simpl; constructor; [done|].
      eapply Forall_impl; [exact Hk|]. intros j Hj; by transitivity k'.
    + apply bt_wf_cons; split; [|by apply IH].
      apply bt_insert_Forall_keys; [by apply ocmp_gt|done].
Qed.

Lemma bt_keys_retain (p : K → V → bool) m j : j ∈ bt_keys (bt_retain p m) → j ∈ bt_keys m.
Proof.
  unfold bt_keys, bt_retain. rewrite !list_elem_of_In, !in_map_iff.
  intros (x & <- & Hx%filter_In). exists x; tauto.
Qed.

Lemma bt_wf_retain (p : K → V → bool) m : bt_wf m → bt_wf (bt_retain p m).
Proof.
  induction m as [|[k v] m IH]; simpl; intros Hwf; [constructor|].
  apply bt_wf_cons in Hwf as [Hk Hm]. destruct (p k v); [|by apply IH].
  apply bt_wf_cons; split; [|by apply IH].
  rewrite Forall_forall in *. intros j Hj. by apply Hk, (bt_keys_retain p).
Qed.

Lemma bt_remove_retain k m : bt_remove k m = bt_retain (λ j _, negb (oeqb k j)) m.
Proof.
  induction m as [|[j v] m IH]; simpl; [done|].
  destruct (oeqb k j); simpl; by rewrite IH.
Qed.

Lemma bt_wf_remove k m : bt_wf m → bt_wf (bt_remove k m).
Proof. rewrite bt_remove_retain; apply bt_wf_retain. Qed.

Lemma bt_wf_NoDup m : bt_wf m → NoDup (bt_keys m).
Proof. apply sorted_lt_NoDup. Qed.

Lemma bt_In_get k v m : bt_wf m → In (k, v) m → bt_get k m = Some v.
Proof.
  induction m as [|[k' v'] m IH]; simpl; [done|]. intros Hwf Hin.
  apply bt_wf_cons in Hwf as [Hk Hm]. destruct Hin as [[= -> ->]|Hin].
  - by rewrite oeqb_refl.
  - destruct (oeqb k k') eqn:E; [|by auto]. apply oeqb_eq in E as ->.
    rewrite Forall_forall in Hk. destruct (olt_irrefl k'); apply Hk.
    apply list_elem_of_In, in_map_iff. by exists (k', v).
Qed.

(** Two ordered maps with the same look-ups are the same map. *)
Lemma bt_ext m m' : bt_wf m → bt_wf m' → (∀ k, bt_get k m = bt_get k m') → m = m'.
Proof.
  revert m'; induction m as [|[k v] m IH]; intros [|[k' v'] m'] Hwf Hwf' Hext.
  - done.
  - specialize (Hext k'); simpl in Hext; rewrite oeqb_refl in Hext; discriminate.
  - specialize (Hext k); simpl in Hext; rewrite oeqb_refl in Hext; discriminate.
  - apply bt_wf_cons in Hwf as [Hk Hm]; apply bt_wf_cons in Hwf' as [Hk' Hm'].
    assert (∀ j w n, Forall (olt j) (bt_keys n) → bt_get j ((j, w) :: n) = Some w
            ∧ bt_get j n = None) as Hhd.
    { intros j w n Hj; simpl; rewrite oeqb_refl; split; [done|].
      apply bt_get_None; intros Hin; rewrite Forall_forall in Hj.
      exact (olt_irrefl _ (Hj _ Hin)). }
    assert (k = k') as ->.
    { pose proof (Hext k) as H1; pose proof (Hext k') as H2; simpl in H1, H2.
      rewrite oeqb_refl in H1, H2. destruct (ocmp k k') eqn:E.
      - by apply ocmp_eq in E.
      - unfold oeqb in H1; rewrite E in H1. symmetry in H1; apply bt_get_In in H1.
        rewrite Forall_forall in Hk'. destruct (olt_irrefl k). transitivity k'; [done|].
        apply Hk', list_elem_of_In, in_map_iff; by exists (k, v).
      - unfold oeqb in H2; rewrite (ocmp_antisym k k'), E in H2; simpl in H2.
        apply bt_get_In in H2. rewrite Forall_forall in Hk. destruct (olt_irrefl k').
        transitivity k; [by apply ocmp_gt|].
        apply Hk, list_elem_of_In, in_map_iff; by exists (k', v'). }
    pose proof (Hext k') as Hv; simpl in Hv; rewrite oeqb_refl in Hv.
    injection Hv as ->. f_equal. apply IH; [done|done|].
    intros j. specialize (Hext j); simpl in Hext.
    destruct (oeqb j k') eqn:E; [|done]. apply oeqb_eq in E as ->.
    by rewrite (proj2 (Hhd _ v' _ Hk)), (proj2 (Hhd _ v' _ Hk')).
Qed.
Lemma bt_insert_fresh_perm k v m :
  bt_get k m = None → Permutation (bt_insert k v m) ((k, v) :: m).
Proof.
  induction m as [|[k' v'] m IH]; simpl; [done|]. unfold oeqb.
  destruct (ocmp k k'); [done|done|]. intros Hg. rewrite (IH Hg). apply perm_swap.
Qed.

Lemma bt_perm_eq m m' : bt_wf m → bt_wf m' → Permutation m m' → m = m'.
Proof.
  intros Hm Hm' HP. apply bt_ext; [done|done|]. intros k.
  destruct (bt_get k m) as [v|] eqn:E.
  - symmetry. apply bt_In_get; [done|]. rewrite <- HP. by apply bt_get_In.
  - symmetry. apply bt_get_None. apply bt_get_None in E. unfold bt_keys in *. by rewrite <- HP.
Qed.

Lemma bt_wf_extend m m' : bt_wf m → bt_wf (bt_extend m m').
Proof.
  unfold bt_extend. revert m; induction m' as [|[k v] m' IH]; intros m Hm; simpl; [done|].
  by apply IH, bt_wf_insert.
Qed.

Lemma bt_extend_perm m m' :
  NoDup (bt_keys (m ++ m')) → Permutation (bt_extend m m') (m ++ m').
Proof.
  unfold bt_extend. revert m; induction m' as [|[k v] m' IH]; intros m Hd; simpl.
  - by rewrite app_nil_r.
  - assert (Permutation (bt_insert k v m) ((k, v) :: m)) as Hi.
    { apply bt_insert_fresh_perm, bt_get_None. unfold bt_keys in *.
      rewrite map_app in Hd. simpl in Hd. apply NoDup_app in Hd as (_ & Hd & _).
      intros Hin. apply (Hd k Hin). by left. }
    rewrite IH, Hi; [apply Permutation_middle|].
    unfold bt_keys in *. rewrite Hi. by rewrite <- Permutation_middle in Hd.
Qed.

(** A map as the multiset of its entries: one entry apart from the rest. *)
Lemma bt_insert_perm k v m :
  bt_wf m → Permutation (bt_insert k v m) ((k, v) :: bt_remove k m).
Proof.
  intros Hwf. rewrite <- bt_insert_fresh_perm by apply bt_get_remove_eq.
  assert (bt_insert k v m = bt_insert k v (bt_remove k m)) as ->; [|done].
  apply bt_ext; [by apply bt_wf_insert|by apply bt_wf_insert, bt_wf_remove|]. intros j.
  destruct (ord_eq_dec j k) as [->|Hne].
  - by rewrite !bt_get_insert_eq.
  - by rewrite !bt_get_insert_ne, bt_get_remove_ne.
Qed.

Lemma bt_get_perm k v m :
  bt_wf m → bt_get k m = Some v → Permutation m ((k, v) :: bt_remove k m).
Proof.
  intros Hwf Hg. rewrite <- bt_insert_perm by done.
  assert (bt_insert k v m = m) as ->; [|done].
  apply bt_ext; [by apply bt_wf_insert|done|]. intros j.
  destruct (ord_eq_dec j k) as [->|Hne].
  - by rewrite bt_get_insert_eq.
  - by rewrite bt_get_insert_ne.
Qed.

Lemma bt_remove_absent k m : bt_wf m → bt_get k m = None → bt_remove k m = m.
Proof.
  intros Hwf Hg. apply bt_ext; [by apply bt_wf_remove|done|]. intros j.
  destruct (ord_eq_dec j k) as [->|Hne].
  - by rewrite bt_get_remove_eq.
  - by rewrite bt_get_remove_ne.
Qed.

(** Removing several keys, one after the other. *)
Lemma bt_removes_out ks : ∀ m k, k ∉ ks →
  bt_get k (fold_left (λ m j, bt_remove j m) ks m) = bt_get k m.
Proof.
  induction ks as [|j ks IH]; intros m k Hk; simpl; [done|].
  apply not_elem_of_cons in Hk as [Hne Hk]. rewrite IH by done. by apply bt_get_remove_ne.
Qed.

Lemma bt_removes_in ks : ∀ m k, k ∈ ks →
  bt_get k (fold_left (λ m j, bt_remove j m) ks m) = None.
Proof.
  induction ks as [|j ks IH]; intros m k Hin; simpl; [by apply not_elem_of_nil in Hin|].
  destruct (decide (k ∈ ks)) as [Hk|Hk]; [by apply IH|].
  apply elem_of_cons in Hin as [->|?]; [|done].
  rewrite bt_removes_out by done. apply bt_get_remove_eq.
Qed.

Lemma bt_wf_removes ks : ∀ m, bt_wf m → bt_wf (fold_left (λ m j, bt_remove j m) ks m).
Proof. induction ks; intros m Hm; simpl; [done|]. by apply IHks, bt_wf_remove. Qed.

Lemma bt_removes_sublist ks : ∀ m, sublist (fold_left (λ m j, bt_remove j m) ks m) m.
Proof.
  induction ks as [|k ks IH]; intros m; simpl; [done|]. rewrite IH. clear.
  induction m as [|[j v] m IH]; simpl; [constructor|]. destruct (oeqb k j); by constructor.
Qed.

Lemma sublist_Forall {A} (P : A → Prop) (l k : list A) : sublist l k → Forall P k → Forall P l.
Proof.
  rewrite !Forall_forall. intros Hs HF x Hx. apply HF. by eapply elem_of_sublist.
Qed.

Lemma bt_removes_all m : fold_left (λ m j, bt_remove j m) (bt_keys m) m = [].
Proof.
  destruct (fold_left (λ m j, bt_remove j m) (bt_keys m) m) as [|[k v] m'] eqn:E; [done|].
  pose proof (bt_removes_sublist (bt_keys m) m) as Hs. rewrite E in Hs.
  assert (k ∈ bt_keys m) as Hk.
  { apply list_elem_of_In, in_map_iff. exists (k, v). split; [done|].
    apply list_elem_of_In. eapply elem_of_sublist; [|exact Hs]. by left. }
  apply (bt_removes_in _ m) in Hk. rewrite E in Hk. simpl in Hk. by rewrite oeqb_refl in Hk.
Qed.
End btree.

#[export] Hint Resolve bt_wf_nil bt_wf_insert bt_wf_remove bt_wf_retain : cigar.

(** ** Stable sort *)

Section sort.
Context {A : Type} (le : A → A → bool).

(** Insertion after every element the order does not place behind [x]. *)
Fixpoint sort_insert (x : A) (l : list A) : list A :=
  match l with
  | [] => [x]
  | y :: l' => if le x y then x :: l else y :: sort_insert x l'
  end.

(** [slice::sort_by]: a stable sort by the non-strict order [le]. *)
Fixpoint sort_by (l : list A) : list A :=
  match l with
  | [] => []
  | x :: l' => sort_insert x (sort_by l')
  end.

Lemma sort_insert_perm x l : Permutation (x :: l) (sort_insert x l).
Proof.
  induction l as [|y l IH]; simpl; [done|]. destruct (le x y); [done|].
  rewrite perm_swap. by constructor.
Qed.

Lemma sort_by_perm l : Permutation l (sort_by l).
Proof.
  induction l as [|x l IH]; simpl; [done|]. rewrite <- sort_insert_perm. by constructor.
Qed.

Context (le_total : ∀ x y, le x y = true ∨ le y x = true).
Context (le_trans : ∀ x y z, le x y = true → le y z = true → le x z = true).

Let R := λ x y, le x y = true.

Lemma sort_insert_sorted x l : StronglySorted R l → StronglySorted R (sort_insert x l).
Proof.
  induction 1 as [|y l Hs IH Hy]; simpl; [repeat constructor|].
  destruct (le x y) eqn:E.
  - constructor; [by constructor|]. constructor; [done|].
    eapply Forall_impl; [exact Hy|]. intros z; by apply le_trans.
  - constructor; [done|]. rewrite <- sort_insert_perm. constructor; [|done].
    destruct (le_total x y); [congruence|done].
Qed.

Lemma sort_by_sorted l : StronglySorted R (sort_by l).
Proof. induction l; simpl; [constructor|by apply sort_insert_sorted]. Qed.
End sort.

(** A list already in strict order is left alone by the sort. *)
Lemma sort_by_id {A} (le : A → A → bool) l :
  StronglySorted (λ x y, le x y = true) l → sort_by le l = l.
Proof.
  induction 1 as [|x l Hs IH Hx]; simpl; [done|]. rewrite IH.
  destruct l as [|y l]; [done|]. simpl. inversion_clear Hx as [|? ? Hxy _].
  by rewrite Hxy.
Qed.

(** A sort by a key is determined by the elements when their keys differ. *)
Section sort_key.
Context {A K : Type} `{TotalOrd K} (key : A → K).

Lemma sorted_key_inj es x y :
  StronglySorted (λ a b, olt (key a) (key b)) es → x ∈ es → y ∈ es → key x = key y → x = y.
Proof.
  induction 1 as [|e es Hs IH He]; [by intros ?%not_elem_of_nil|].
  rewrite Forall_forall in He. rewrite !elem_of_cons.
  intros [->|Hx] [->|Hy] Hk; [done|..|auto].
  - apply He in Hy. rewrite Hk in Hy. by apply olt_irrefl in Hy.
  - apply He in Hx. rewrite Hk in Hx. by apply olt_irrefl in Hx.
Qed.

Lemma sort_by_key_sorted l :
  StronglySorted (λ a b, oleb (key a) (key b) = true) (sort_by (λ a b, oleb (key a) (key b)) l).
Proof.
  apply (sort_by_sorted (λ a b, oleb (key a) (key b))).
  - intros x y. apply oleb_total.
  - intros x y z. apply oleb_trans.
Qed.

Lemma sort_by_key_unique l es :
  Permutation l es → StronglySorted (λ a b, olt (key a) (key b)) es →
  sort_by (λ a b, oleb (key a) (key b)) l = es.
Proof.
  intros HP Hs.
  apply (StronglySorted_unique_strong (λ a b, oleb (key a) (key b) = true)).
  - intros x y Hx Hy Hxy Hyx. apply (sorted_key_inj es); [done| |done|].
    + by rewrite <- HP, sort_by_perm.
    + by apply oleb_antisym.
  - apply sort_by_key_sorted.
  - clear HP. induction Hs as [|e es' Hs IH He]; constructor.
    + done.
    + eapply Forall_impl; [exact He|]. intros ? ?. apply oleb_true. by left.
  - by rewrite <- HP, <- sort_by_perm.
Qed.

(** Elements with distinct keys are sorted strictly. *)
Lemma sort_by_key_strict l :
  NoDup (map key l) →
  StronglySorted (λ a b, olt (key a) (key b)) (sort_by (λ a b, oleb (key a) (key b)) l).
Proof.
  intros Hd. pose proof (sort_by_key_sorted l) as Hs.
  assert (NoDup (map key (sort_by (λ a b, oleb (key a) (key b)) l))) as Hd'
    by (by rewrite <- sort_by_perm).
  induction Hs as [|e es Hs IH He]; simpl in *; constructor; inversion_clear Hd' as [|? ? Hn Hd''].
  - by apply IH.
  - rewrite Forall_forall in *. intros x Hx. destruct (proj1 (oleb_true _ _) (He x Hx)); [done|].
    destruct Hn. rewrite H0. apply list_elem_of_In, in_map. by apply list_elem_of_In.
Qed.
End sort_key.

(** ** Sums over lists *)

Definition zsum {A} (f : A → Z) (l : list A) : Z := fold_right (λ x acc, f x + acc) 0 l.

Section sums.
Context {A : Type} (f : A → Z).

Lemma zsum_nil : zsum f [] = 0.
Proof. done. Qed.

Lemma zsum_cons x l : zsum f (x :: l) = f x + zsum f l.
Proof. done. Qed.

Lemma zsum_app l k : zsum f (l ++ k) = zsum f l + zsum f k.
Proof. induction l as [|x l IH]; simpl; [done|]. rewrite IH. lia. Qed.

Lemma zsum_perm l k : Permutation l k → zsum f l = zsum f k.
Proof. induction 1; simpl; lia. Qed.

Lemma zsum_nonneg l : Forall (λ x, 0 ≤ f x) l → 0 ≤ zsum f l.
Proof. induction 1; simpl; lia. Qed.

Lemma zsum_ge x l : Forall (λ x, 0 ≤ f x) l → x ∈ l → f x ≤ zsum f l.
Proof.
  intros HF Hin. apply elem_of_Permutation in Hin as [k HP].
  rewrite HP in HF. inversion_clear HF as [|? ? Hx Hk].
  rewrite (zsum_perm _ _ HP), zsum_cons. pose proof (zsum_nonneg k Hk). lia.
Qed.
End sums.

#[global] Instance zsum_Permutation {A} (f : A → Z) : Proper (Permutation ==> eq) (zsum f).
Proof. intros l k. apply zsum_perm. Qed.

#[export] Hint Rewrite @zsum_nil @zsum_cons @zsum_app : cigar.
