(* ===== verification/Canon.v ===== *)
(** * Canonicalization: crates/cigar-canon/src/lib.rs

    The deterministic CBOR profile (encoder, strict parser), the strict JSON
    visitor, the semantic envelope and the domain-separated digest preimages.
    Bytes are [Z] in [0, 255]; a Rust [String] is the list of its UTF-8 bytes.
    [serde_json] and [sha2] are third-party and appear as parameters. *)

From S2P Require Import Prelude Collections.
From stdpp Require Import pretty.
Local Open Scope Z_scope.

Set Warnings "-register-all".

Module Canon.

Definition MAX_CANONICAL_INPUT_BYTES : Z := 67108864.
Definition MAX_CANONICAL_OUTPUT_BYTES : Z := 67108864.
Definition MAX_CANONICAL_DEPTH : nat := 64.
Definition MAX_CANONICAL_ARRAY_ITEMS : Z := 100000.
Definition MAX_CANONICAL_MAP_ENTRIES : Z := 100000.

Inductive CanonicalErrorCode :=
| InvalidInput | DuplicateKey | NullForbidden | FloatForbidden
| LimitExceeded | NonCanonical | BytesNotJson.

Abbreviation res := (result CanonicalErrorCode).

(** The UTF-8 bytes of a Rust [String]. *)
Abbreviation text := (list Z).

Inductive CanonicalNode : Type :=
| Boolean (b : bool)
| Unsigned (u : Z)
| Negative (i : Z)
| Bytes (b : list Z)
| Text (s : text)
| Array (l : list CanonicalNode)
| Map (m : btree text CanonicalNode).

(** ** The deterministic CBOR encoder *)

Definition push (output : list Z) (value : Z) : res (list Z) :=
  if len output =? MAX_CANONICAL_OUTPUT_BYTES then Err LimitExceeded
  else Ok (output ++ [value]).

Definition append (output value : list Z) : res (list Z) :=
  if is_none_or (λ length, MAX_CANONICAL_OUTPUT_BYTES <? length)
       (checked_add u64_max (len output) (len value))
  then Err LimitExceeded
  else Ok (output ++ value).

(** [uN::to_be_bytes] for an [n]-byte integer. *)
Fixpoint to_be_bytes (n : nat) (v : Z) : list Z :=
  match n with
  | O => []
  | S n' => (v / 256 ^ Z.of_nat n') mod 256 :: to_be_bytes n' v
  end.

(** [uN::from_be_bytes]. *)
Definition from_be_bytes (bs : list Z) : Z := fold_left (λ acc b, acc * 256 + b) bs 0.

Definition encode_head (major argument : Z) (output : list Z) : res (list Z) :=
  let prefix := Z.shiftl major 5 mod 256 in
  if argument <=? 23 then
    small ← ok_or (try_from u8_max argument) LimitExceeded;
    byte ← ok_or (checked_add u8_max prefix small) LimitExceeded;
    push output byte
  else if argument <=? 0xff then
    byte ← ok_or (checked_add u8_max prefix 24) LimitExceeded;
    output ← push output byte;
    value ← ok_or (try_from u8_max argument) LimitExceeded;
    push output value
  else if argument <=? 0xffff then
    byte ← ok_or (checked_add u8_max prefix 25) LimitExceeded;
    output ← push output byte;
    value ← ok_or (try_from u16_max argument) LimitExceeded;
    append output (to_be_bytes 2 value)
  else if argument <=? 0xffffffff then
    byte ← ok_or (checked_add u8_max prefix 26) LimitExceeded;
    output ← push output byte;
    value ← ok_or (try_from u32_max argument) LimitExceeded;
    append output (to_be_bytes 4 value)
  else
    byte ← ok_or (checked_add u8_max prefix 27) LimitExceeded;
    output ← push output byte;
    append output (to_be_bytes 8 argument).

Definition encode_length (major length : Z) (output : list Z) : res (list Z) :=
  length ← ok_or (try_from u64_max length) LimitExceeded;
  encode_head major length output.

(** The encoded key of a map entry, built in a buffer of its own. *)
Definition encode_key (key : text) : res (list Z) :=
  encoded_key ← encode_length 3 (len key) [];
  append encoded_key key.

(** The loop over the sorted [(encoded_key, child)] entries of a map; the child
    is represented by its pending call of [encode_cbor]. *)
Fixpoint encode_entries (entries : list (list Z * (list Z → res (list Z))))
    (output : list Z) : res (list Z) :=
  match entries with
  | [] => Ok output
  | (encoded_key, child) :: rest =>
      output ← append output encoded_key;
      output ← child output;
      encode_entries rest output
  end.

Definition entry_le {A} (first second : list Z * A) : bool := oleb first.1 second.1.

Fixpoint encode_cbor (value : CanonicalNode) (output : list Z) (depth : nat) : res (list Z) :=
  if (MAX_CANONICAL_DEPTH <? depth)%nat then Err LimitExceeded else
  match value with
  | Boolean false => push output 0xf4
  | Boolean true => push output 0xf5
  | Unsigned value => encode_head 0 value output
  | Negative value =>
      argument ← ok_or (v ← checked_i128 (-1 - value);
                        if 0 <=? v then try_from u64_max v else None) LimitExceeded;
      encode_head 1 argument output
  | Bytes value =>
      output ← encode_length 2 (len value) output;
      append output value
  | Text value =>
      output ← encode_length 3 (len value) output;
      append output value
  | Array values =>
      if MAX_CANONICAL_ARRAY_ITEMS <? len values then Err LimitExceeded else
      output ← encode_length 4 (len values) output;
      (fix children (values : list CanonicalNode) (output : list Z) : res (list Z) :=
         match values with
         | [] => Ok output
         | child :: values' =>
             output ← encode_cbor child output (S depth);
             children values' output
         end) values output
  | Map values =>
      if MAX_CANONICAL_MAP_ENTRIES <? len values then Err LimitExceeded else
      output ← encode_length 5 (len values) output;
      entries ←
        (fix keyed (values : btree text CanonicalNode) :=
           match values with
           | [] => Ok []
           | (key, child) :: values' =>
               encoded_key ← encode_key key;
               entries ← keyed values';
               Ok ((encoded_key, λ output, encode_cbor child output (S depth)) :: entries)
           end) values;
      encode_entries (sort_by entry_le entries) output
  end.

Definition to_deterministic_cbor (value : CanonicalNode) : res (list Z) :=
  encode_cbor value [] 1.

(** ** The strict CBOR parser *)

(** [std::str::from_utf8]: the well-formed sequences of RFC 3629. *)
Definition in_range (lo hi b : Z) : bool := (lo <=? b) && (b <=? hi).
Definition cont (b : Z) : bool := in_range 0x80 0xbf b.

Fixpoint utf8_valid (s : list Z) : bool :=
  match s with
  | [] => true
  | b0 :: t0 =>
      if b0 <? 0x80 then utf8_valid t0
      else match t0 with
      | [] => false
      | b1 :: t1 =>
          if in_range 0xc2 0xdf b0 then cont b1 && utf8_valid t1
          else match t1 with
          | [] => false
          | b2 :: t2 =>
              if b0 =? 0xe0 then in_range 0xa0 0xbf b1 && cont b2 && utf8_valid t2
              else if in_range 0xe1 0xec b0 || in_range 0xee 0xef b0
              then cont b1 && cont b2 && utf8_valid t2
              else if b0 =? 0xed then in_range 0x80 0x9f b1 && cont b2 && utf8_valid t2
              else match t2 with
              | [] => false
              | b3 :: t3 =>
                  if b0 =? 0xf0 then in_range 0x90 0xbf b1 && cont b2 && cont b3 && utf8_valid t3
                  else if in_range 0xf1 0xf3 b0 then cont b1 && cont b2 && cont b3 && utf8_valid t3
                  else if b0 =? 0xf4 then in_range 0x80 0x8f b1 && cont b2 && cont b3 && utf8_valid t3
                  else false
              end
          end
      end
  end.

(** Parser state: the position and [input[position..]]. *)
Record CborParser := mk_parser { rest : list Z; position : Z }.

Definition read_byte (p : CborParser) : res (Z * CborParser) :=
  match rest p with
  | [] => Err InvalidInput
  | value :: r => Ok (value, mk_parser r (position p + 1))
  end.

Definition read_exact (p : CborParser) (length : Z) : res (list Z * CborParser) :=
  end_ ← ok_or (checked_add u64_max (position p) length) LimitExceeded;
  if len (rest p) <? length then Err InvalidInput
  else Ok (take (Z.to_nat length) (rest p),
           mk_parser (drop (Z.to_nat length) (rest p)) end_).

Definition read_argument (p : CborParser) (additional : Z) : res (Z * CborParser) :=
  if additional <=? 23 then Ok (additional, p)
  else if additional =? 24 then
    '(value, p) ← read_byte p;
    if value <? 24 then Err NonCanonical else Ok (value, p)
  else if additional =? 25 then
    '(bytes, p) ← read_exact p 2;
    let value := from_be_bytes bytes in
    if value <=? 0xff then Err NonCanonical else Ok (value, p)
  else if additional =? 26 then
    '(bytes, p) ← read_exact p 4;
    let value := from_be_bytes bytes in
    if value <=? 0xffff then Err NonCanonical else Ok (value, p)
  else if additional =? 27 then
    '(bytes, p) ← read_exact p 8;
    let value := from_be_bytes bytes in
    if value <=? 0xffffffff then Err NonCanonical else Ok (value, p)
  else Err NonCanonical.

Definition read_length (p : CborParser) (additional maximum : Z) : res (Z * CborParser) :=
  '(value, p) ← read_argument p additional;
  value ← ok_or (try_from u64_max value) LimitExceeded;
  if maximum <? value then Err LimitExceeded else Ok (value, p).

Section items.
(** The recursive call [self.parse(depth + 1)]. *)
Context (parse_child : CborParser → res (CanonicalNode * CborParser)).

Fixpoint parse_items (n : nat) (p : CborParser) : res (list CanonicalNode * CborParser) :=
  match n with
  | O => Ok ([], p)
  | S n' =>
      '(value, p) ← parse_child p;
      '(values, p) ← parse_items n' p;
      Ok (value :: values, p)
  end.

Fixpoint parse_entries (n : nat) (p : CborParser) (previous_key_bytes : option (list Z))
    (values : btree text CanonicalNode) : res (btree text CanonicalNode * CborParser) :=
  match n with
  | O => Ok (values, p)
  | S n' =>
      '(key, p_end) ← parse_child p;
      match key with
      | Text key =>
          let encoded_key := take (Z.to_nat (position p_end - position p)) (rest p) in
          if is_some_and (λ previous, oleb encoded_key previous) previous_key_bytes
          then Err NonCanonical
          else
            '(value, p) ← parse_child p_end;
            match bt_get key values with
            | Some _ => Err DuplicateKey
            | None => parse_entries n' p (Some encoded_key) (bt_insert key value values)
            end
      | _ => Err NonCanonical
      end
  end.

Definition parse_map (p : CborParser) (additional : Z) : res (CanonicalNode * CborParser) :=
  '(length, p) ← read_length p additional MAX_CANONICAL_MAP_ENTRIES;
  '(values, p) ← parse_entries (Z.to_nat length) p None [];
  Ok (Map values, p).
End items.

(** [parse(depth)] with [levels = MAX_CANONICAL_DEPTH + 1 - depth] levels left:
    [depth > MAX_CANONICAL_DEPTH] is [levels = 0]. *)
Fixpoint parse (levels : nat) (p : CborParser) : res (CanonicalNode * CborParser) :=
  match levels with
  | O => Err LimitExceeded
  | S levels' =>
      '(initial, p) ← read_byte p;
      let major := Z.shiftr initial 5 in
      let additional := Z.land initial 0x1f in
      if major =? 0 then
        '(value, p) ← read_argument p additional; Ok (Unsigned value, p)
      else if major =? 1 then
        '(argument, p) ← read_argument p additional;
        let value := -1 - argument in
        if value <? i64_min then Err LimitExceeded else Ok (Negative value, p)
      else if major =? 2 then
        '(length, p) ← read_length p additional MAX_CANONICAL_OUTPUT_BYTES;
        '(bytes, p) ← read_exact p length; Ok (Bytes bytes, p)
      else if major =? 3 then
        '(length, p) ← read_length p additional MAX_CANONICAL_OUTPUT_BYTES;
        '(bytes, p) ← read_exact p length;
        if utf8_valid bytes then Ok (Text bytes, p) else Err InvalidInput
      else if major =? 4 then
        '(length, p) ← read_length p additional MAX_CANONICAL_ARRAY_ITEMS;
        '(values, p) ← parse_items (parse levels') (Z.to_nat length) p;
        Ok (Array values, p)
      else if major =? 5 then parse_map (parse levels') p additional
      else if major =? 6 then Err NonCanonical
      else if additional =? 20 then Ok (Boolean false, p)
      else if additional =? 21 then Ok (Boolean true, p)
      else if additional =? 22 then Err NullForbidden
      else if in_range 25 27 additional then Err FloatForbidden
      else Err NonCanonical
  end.

Definition from_deterministic_cbor (input : list Z) : res CanonicalNode :=
  if MAX_CANONICAL_INPUT_BYTES <? len input then Err LimitExceeded else
  '(value, p) ← parse MAX_CANONICAL_DEPTH (mk_parser input 0);
  if negb (position p =? len input) then Err NonCanonical else
  encoded ← to_deterministic_cbor value;
  if negb (oeqb encoded input) then Err NonCanonical else Ok value.

(** ** Strict JSON

    [JsonStream] is what [serde_json]'s streaming deserializer hands to the
    visitor: a value, or the point where the input stops being JSON. A sequence
    or map carries the elements read before its end and whether it was closed
    properly. *)
Inductive JsonStream : Type :=
| JNull
| JBool (b : bool)
| JU64 (n : Z)
| JI64 (n : Z)
| JF64
| JStr (s : text)
| JSeq (items : list JsonStream) (closed : bool)
| JMap (entries : list (text * JsonStream)) (closed : bool)
| JInvalid.

(** [NodeSeed]/[NodeVisitor]: [deserialize_any] at a depth. *)
Fixpoint visit (depth : nat) (value : JsonStream) : res CanonicalNode :=
  if (MAX_CANONICAL_DEPTH <? depth)%nat then Err LimitExceeded else
  match value with
  | JInvalid => Err InvalidInput
  | JNull => Err NullForbidden
  | JBool b => Ok (Boolean b)
  | JU64 n => Ok (Unsigned n)
  | JI64 n => if n <? 0 then Ok (Negative n) else Ok (Unsigned n)
  | JF64 => Err FloatForbidden
  | JStr s => Ok (Text s)
  | JSeq items closed =>
      (fix visit_seq (items : list JsonStream) (values : list CanonicalNode) :=
         match items with
         | [] => if closed then Ok (Array values) else Err InvalidInput
         | item :: items' =>
             value ← visit (S depth) item;
             if len values =? MAX_CANONICAL_ARRAY_ITEMS then Err LimitExceeded
             else visit_seq items' (values ++ [value])
         end) items []
  | JMap entries closed =>
      (fix visit_map (entries : list (text * JsonStream)) (values : btree text CanonicalNode) :=
         match entries with
         | [] => if closed then Ok (Map values) else Err InvalidInput
         | (key, item) :: entries' =>
             if len values =? MAX_CANONICAL_MAP_ENTRIES then Err LimitExceeded
             else if bt_mem key values then Err DuplicateKey
             else
               value ← visit (S depth) item;
               visit_map entries' (bt_insert key value values)
         end) entries []
  end.

Section json.
(** [serde_json]: reading (value and whether only whitespace follows it) and
    the rendering of a string literal. *)
Context (json_read : list Z → JsonStream * bool).
Context (json_string : text → list Z).

Definition parse_strict_json (input : list Z) : res CanonicalNode :=
  if MAX_CANONICAL_INPUT_BYTES <? len input then Err LimitExceeded else
  let '(stream, at_end) := json_read input in
  value ← visit 1 stream;
  if at_end then Ok value else Err InvalidInput.

Fixpoint write_json (value : CanonicalNode) (output : list Z) (depth : nat) : res (list Z) :=
  if (MAX_CANONICAL_DEPTH <? depth)%nat then Err LimitExceeded else
  match value with
  | Boolean b => append output (str_bytes (if b then "true" else "false")%string)
  | Unsigned u => append output (str_bytes (pretty u))
  | Negative i => append output (str_bytes (pretty i))
  | Bytes _ => Err BytesNotJson
  | Text s => append output (json_string s)
  | Array values =>
      if MAX_CANONICAL_ARRAY_ITEMS <? len values then Err LimitExceeded else
      output ← push output 91;
      output ←
        (fix children (first : bool) (values : list CanonicalNode) (output : list Z) :=
           match values with
           | [] => Ok output
           | child :: values' =>
               output ← if first then Ok output else push output 44;
               output ← write_json child output (S depth);
               children false values' output
           end) true values output;
      push output 93
  | Map values =>
      if MAX_CANONICAL_MAP_ENTRIES <? len values then Err LimitExceeded else
      output ← push output 123;
      output ←
        (fix entries (first : bool) (values : btree text CanonicalNode) (output : list Z) :=
           match values with
           | [] => Ok output
           | (key, child) :: values' =>
               output ← if first then Ok output else push output 44;
               output ← append output (json_string key);
               output ← push output 58;
               output ← write_json child output (S depth);
               entries false values' output
           end) true values output;
      push output 125
  end.

Definition to_normalized_json (value : CanonicalNode) : res (list Z) :=
  write_json value [] 1.
End json.

(** ** Digest domains and semantic envelopes *)

Inductive DigestDomain :=
| DAtom | DBundle | DManifest | DHandoff | DEffect | DReceipt | DExtensionManifest.

Inductive SemanticEnvelopeProfile :=
| PAtom | PBundle | PManifest | PHandoff | PEffect | PReceipt | PExtensionManifest.

(** [profile as u64]. *)
Definition profile_tag (p : SemanticEnvelopeProfile) : Z :=
  match p with
  | PAtom => 1 | PBundle => 2 | PManifest => 3 | PHandoff => 4
  | PEffect => 5 | PReceipt => 6 | PExtensionManifest => 7
  end.

Definition digest_domain (p : SemanticEnvelopeProfile) : DigestDomain :=
  match p with
  | PAtom => DAtom | PBundle => DBundle | PManifest => DManifest | PHandoff => DHandoff
  | PEffect => DEffect | PReceipt => DReceipt | PExtensionManifest => DExtensionManifest
  end.

Definition excluded_fields (p : SemanticEnvelopeProfile) : list text :=
  map str_bytes
    match p with
    | PAtom => ["atom_id"; "version_id"]
    | PBundle => ["bundle_id"]
    | PManifest => ["manifest_id"]
    | PHandoff => ["signature"]
    | PEffect => []
    | PReceipt => ["receipt_id"]
    | PExtensionManifest => ["signature"]
    end%string.

Definition separator (d : DigestDomain) : list Z :=
  str_bytes
    match d with
    | DAtom => "CIGAR-ATOM"
    | DBundle => "CIGAR-BUNDLE"
    | DManifest => "CIGAR-MANIFEST"
    | DHandoff => "CIGAR-HANDOFF"
    | DEffect => "CIGAR-EFFECT"
    | DReceipt => "CIGAR-RECEIPT"
    | DExtensionManifest => "CIGAR-EXTENSION-MANIFEST"
    end%string.

(** The bytes the digest and the signature cover: separator, NUL, [v1], NUL,
    canonical payload. *)
Definition domain_message (d : DigestDomain) (payload : list Z) : list Z :=
  separator d ++ [0] ++ str_bytes "v1" ++ [0] ++ payload.

(** [{byte:02x}]. *)
Definition hex_digit (d : Z) : Z := if d <? 10 then 48 + d else 87 + d.
Definition hex_byte (b : Z) : list Z := [hex_digit (b / 16); hex_digit (b mod 16)].

Section envelope.
Context (json_read : list Z → JsonStream * bool).
(** [sha2::Sha256]. *)
Context (sha256 : list Z → list Z).

(** The record is given by [serde_json::to_vec(record)]. *)
Definition semantic_envelope_v1 (profile : SemanticEnvelopeProfile)
    (record : option (list Z)) : res CanonicalNode :=
  json ← ok_or record InvalidInput;
  node ← parse_strict_json json_read json;
  match node with
  | Map fields =>
      let fields := fold_left (λ fields field, bt_remove field fields)
                      (excluded_fields profile) fields in
      Ok (Array [Unsigned (profile_tag profile); Map fields])
  | _ => Err InvalidInput
  end.

Definition digest_v1 (domain : DigestDomain) (canonical_payload : list Z) : list Z :=
  sha256 (domain_message domain canonical_payload).

Definition multihash_v1 (domain : DigestDomain) (canonical_payload : list Z) : text :=
  str_bytes "1220" ++ concat (map hex_byte (digest_v1 domain canonical_payload)).

Definition semantic_multihash_v1 (profile : SemanticEnvelopeProfile)
    (record : option (list Z)) : res text :=
  envelope ← semantic_envelope_v1 profile record;
  cbor ← to_deterministic_cbor envelope;
  Ok (multihash_v1 (digest_domain profile) cbor).

Definition semantic_signing_bytes_v1 (profile : SemanticEnvelopeProfile)
    (record : option (list Z)) : res (list Z) :=
  envelope ← semantic_envelope_v1 profile record;
  canonical ← to_deterministic_cbor envelope;
  let separator := separator (digest_domain profile) in
  capacity ← ok_or (c ← checked_add u64_max (len separator) (len canonical);
                    checked_add u64_max c 5) LimitExceeded;
  if MAX_CANONICAL_OUTPUT_BYTES <? capacity then Err LimitExceeded
  else Ok (separator ++ [0] ++ str_bytes "v1" ++ [0] ++ canonical).
End envelope.

End Canon.
