(* ===== verification/CanonFacts.v ===== *)
(** * Canonical CBOR: specification and proofs

    [cbor_bytes] is the specification of the deterministic encoding, a pure
    function with no buffer and no limits; [fits] collects the limits. The
    encoder is proved equal to them, and the strict parser is proved to accept
    exactly the specified encodings of well-formed nodes. *)

From S2P Require Import Prelude Collections Canon.
From stdpp Require Import sorting.
From Stdlib Require Import Sorting.Permutation Sorting.Sorted.
Local Open Scope Z_scope.
Set Warnings "-register-all".
Import Canon.

(** ** Specification *)

Definition head_bytes (major argument : Z) : list Z :=
  let prefix := major * 32 in
  if argument <=? 23 then [prefix + argument]
  else if argument <=? 0xff then [prefix + 24; argument]
  else if argument <=? 0xffff then (prefix + 25) :: to_be_bytes 2 argument
  else if argument <=? 0xffffffff then (prefix + 26) :: to_be_bytes 4 argument
  else (prefix + 27) :: to_be_bytes 8 argument.

Definition key_bytes (key : text) : list Z := head_bytes 3 (len key) ++ key.

Definition entry_bytes (e : list Z * list Z) : list Z := e.1 ++ e.2.

Fixpoint cbor_bytes (n : CanonicalNode) : list Z :=
  match n with
  | Boolean b => [if b then 0xf5 else 0xf4]
  | Unsigned u => head_bytes 0 u
  | Negative i => head_bytes 1 (-1 - i)
  | Bytes b => head_bytes 2 (len b) ++ b
  | Text s => head_bytes 3 (len s) ++ s
  | Array l => head_bytes 4 (len l) ++ concat (map cbor_bytes l)
  | Map m =>
      head_bytes 5 (len m) ++
      concat (map entry_bytes
        (sort_by entry_le (map (λ '(k, c), (key_bytes k, cbor_bytes c)) m)))
  end.

(** The limits on depth, collection sizes and negative integers. *)
Fixpoint fits (depth : nat) (n : CanonicalNode) : bool :=
  (depth <=? MAX_CANONICAL_DEPTH)%nat &&
  match n with
  | Negative i => i <? 0
  | Array l => (len l <=? MAX_CANONICAL_ARRAY_ITEMS) && forallb (fits (S depth)) l
  | Map m => (len m <=? MAX_CANONICAL_MAP_ENTRIES) && forallb (λ '(_, c), fits (S depth) c) m
  | _ => true
  end.

Definition byte_ok (b : Z) : Prop := 0 ≤ b < 256.

(** The values the Rust types admit. *)
Inductive node_ok : CanonicalNode → Prop :=
| ok_boolean b : node_ok (Boolean b)
| ok_unsigned u : 0 ≤ u ≤ u64_max → node_ok (Unsigned u)
| ok_negative i : i64_min ≤ i ≤ i64_max → node_ok (Negative i)
| ok_bytes b : Forall byte_ok b → node_ok (Bytes b)
| ok_text s : Forall byte_ok s → utf8_valid s = true → node_ok (Text s)
| ok_array l : Forall node_ok l → node_ok (Array l)
| ok_map (m : btree text CanonicalNode) :
    bt_wf m →
    Forall (λ k, Forall byte_ok k ∧ utf8_valid k = true) (bt_keys m) →
    Forall node_ok (bt_values m) →
    node_ok (Map m).

(** Structural induction through the nested lists. *)
Section node_induction.
Context (P : CanonicalNode → Prop).
Context (HB : ∀ b, P (Boolean b)) (HU : ∀ u, P (Unsigned u)) (HN : ∀ i, P (Negative i))
  (HY : ∀ b, P (Bytes b)) (HT : ∀ s, P (Text s))
  (HA : ∀ l, Forall P l → P (Array l))
  (HM : ∀ m : btree text CanonicalNode, Forall (λ e, P e.2) m → P (Map m)).

Fixpoint node_induction (n : CanonicalNode) : P n :=
  match n with
  | Boolean b => HB b
  | Unsigned u => HU u
  | Negative i => HN i
  | Bytes b => HY b
  | Text s => HT s
  | Array l =>
      HA l ((fix go (l : list CanonicalNode) : Forall P l :=
               match l with
               | [] => Forall_nil_2 _
               | x :: l' => Forall_cons_2 _ _ _ (node_induction x) (go l')
               end) l)
  | Map m =>
      HM m ((fix go (m : btree text CanonicalNode) : Forall (λ e, P e.2) m :=
               match m with
               | [] => Forall_nil_2 _
               | (k, x) :: m' =>
                   Forall_cons_2 (λ e, P e.2) (k, x) m' (node_induction x) (go m')
               end) m)
  end.
End node_induction.

(** ** Bounded output *)

(** The effect every encoder step has on the buffer: [bs] is appended when [ok]
    holds and the result is within the output limit. *)
Definition emit (ok : bool) (bs output : list Z) : res (list Z) :=
  if ok && (len output + len bs <=? MAX_CANONICAL_OUTPUT_BYTES) then Ok (output ++ bs)
  else Err LimitExceeded.

Definition within (output : list Z) : Prop := len output ≤ MAX_CANONICAL_OUTPUT_BYTES.

Lemma emit_within ok bs out out' : emit ok bs out = Ok out' → within out'.
Proof.
  unfold emit, within; case_match eqn:E; [|done]. intros [= <-]; bsplit.
  rewrite len_app; lia.
Qed.

Lemma emit_bind ok1 ok2 bs1 bs2 out (f : list Z → res (list Z)) :
  (∀ o, within o → f o = emit ok2 bs2 o) →
  (o ← emit ok1 bs1 out; f o) = emit (ok1 && ok2) (bs1 ++ bs2) out.
Proof.
  intros Hf. pose proof (len_nonneg bs2). destruct (emit ok1 bs1 out) as [o|e] eqn:E; simpl.
  - rewrite Hf by (by eapply emit_within). unfold emit in *. destruct ok1; simpl in *; [|done].
    case_match eqn:E1; [|done]. injection E as <-. rewrite !len_app, app_assoc.
    by rewrite Z.add_assoc.
  - unfold emit in *. destruct ok1; simpl in *; [|congruence].
    case_match eqn:E1; [done|]. injection E as <-. bsplit. rewrite len_app.
    destruct ok2; simpl; [|done]. case_match eqn:E2; [bsplit; lia|done].
Qed.

Lemma emit_false bs out : emit false bs out = Err LimitExceeded.
Proof. done. Qed.

Lemma push_emit out v : within out → push out v = emit true [v] out.
Proof.
  unfold within, push, emit; simpl; rewrite len_cons, len_nil. intros Ho.
  destruct (Z.eqb_spec (len out) MAX_CANONICAL_OUTPUT_BYTES) as [->|Hne].
  - done.
  - case_match eqn:E; [done|]. bsplit; lia.
Qed.

Lemma append_emit out bs : append out bs = emit true bs out.
Proof.
  unfold append, emit, checked_add; simpl.
  assert (MAX_CANONICAL_OUTPUT_BYTES < u64_max) by (unfold u64_max; vm_compute; done).
  destruct (Z.leb_spec (len out + len bs) u64_max); simpl.
  - destruct (Z.ltb_spec MAX_CANONICAL_OUTPUT_BYTES (len out + len bs));
      destruct (Z.leb_spec (len out + len bs) MAX_CANONICAL_OUTPUT_BYTES); done || lia.
  - case_match eqn:E; [bsplit; lia|done].
Qed.

Lemma emit_nil out : within out → emit true [] out = Ok out.
Proof.
  unfold emit, within; simpl; rewrite len_nil, app_nil_r. intros ?.
  case_match eqn:E; [done|bsplit; lia].
Qed.

(** ** Item heads *)

Lemma prefix_value major : 0 ≤ major ≤ 7 → Z.shiftl major 5 mod 256 = major * 32.
Proof. intros ?. rewrite Z.shiftl_mul_pow2 by lia. rewrite Z.mod_small; lia. Qed.

Lemma head_step major k (f : list Z → res (list Z)) out bs :
  0 ≤ major ≤ 7 → 0 ≤ k ≤ 31 → within out →
  (∀ o, within o → f o = emit true bs o) →
  (b ← ok_or (checked_add u8_max (major * 32) k) LimitExceeded;
   o ← push out b; f o) = emit true ((major * 32 + k) :: bs) out.
Proof.
  intros Hm Hk Ho Hf. unfold checked_add, u8_max.
  destruct (Z.leb_spec (major * 32 + k) 255); [|lia]. simpl.
  rewrite push_emit by done.
  by rewrite (emit_bind true true [major * 32 + k] bs out f Hf).
Qed.

Lemma encode_head_emit major argument out :
  0 ≤ major ≤ 7 → 0 ≤ argument ≤ u64_max → within out →
  encode_head major argument out = emit true (head_bytes major argument) out.
Proof.
  intros Hm Ha Ho. unfold encode_head, head_bytes. rewrite prefix_value by done.
  unfold try_from, u8_max, u16_max, u32_max in *.
  destruct (Z.leb_spec argument 23); [|destruct (Z.leb_spec argument 0xff);
    [|destruct (Z.leb_spec argument 0xffff); [|destruct (Z.leb_spec argument 0xffffffff)]]].
  - destruct (Z.leb_spec argument 255); [|lia]. simpl.
    unfold checked_add. destruct (Z.leb_spec (major * 32 + argument) 255); [|lia].
    simpl. by rewrite push_emit.
  - apply head_step; [done|lia|done|]. intros o Ho'; simpl. by rewrite push_emit.
  - apply head_step; [done|lia|done|]. intros o Ho'; simpl. apply append_emit.
  - apply head_step; [done|lia|done|]. intros o Ho'; simpl. apply append_emit.
  - apply head_step; [done|lia|done|]. intros o Ho'. apply append_emit.
Qed.

Lemma encode_length_emit major length out :
  0 ≤ major ≤ 7 → 0 ≤ length → within out →
  encode_length major length out =
  emit (length <=? u64_max) (head_bytes major length) out.
Proof.
  intros Hm Hl Ho. unfold encode_length, try_from.
  destruct (Z.leb_spec length u64_max); simpl; [|done].
  by apply encode_head_emit.
Qed.

Lemma head_bytes_pos major argument : 1 ≤ len (head_bytes major argument).
Proof.
  unfold head_bytes; repeat case_match; rewrite ?len_cons, ?len_nil;
    pose proof (len_nonneg (to_be_bytes 2 argument));
    pose proof (len_nonneg (to_be_bytes 4 argument));
    pose proof (len_nonneg (to_be_bytes 8 argument)); lia.
Qed.

(** ** The encoder meets its specification *)

Lemma keyed_emit_bytes bs major out :
  0 ≤ major ≤ 7 → within out →
  (o ← encode_length major (len bs) out; append o bs) =
  emit true (head_bytes major (len bs) ++ bs) out.
Proof.
  intros Hm Ho. rewrite encode_length_emit by auto with cigar.
  rewrite (emit_bind (len bs <=? u64_max) true (head_bytes major (len bs)) bs) by
    (intros; apply append_emit).
  destruct (Z.leb_spec (len bs) u64_max) as [_|Hlt]; [done|]. simpl.
  unfold emit; simpl. rewrite len_app.
  pose proof (head_bytes_pos major (len bs)). pose proof (len_nonneg out).
  case_match eqn:E; [|done]. bsplit. unfold u64_max, MAX_CANONICAL_OUTPUT_BYTES in *. lia.
Qed.

Lemma encode_key_emit key : encode_key key = emit true (key_bytes key) [].
Proof. apply keyed_emit_bytes; [lia|]. unfold within; rewrite len_nil; vm_compute; done. Qed.

Lemma sort_insert_map {A B} (g : A → B) (x : list Z * A) l :
  sort_insert entry_le (prod_map id g x) (map (prod_map id g) l) =
  map (prod_map id g) (sort_insert entry_le x l).
Proof.
  induction l as [|y l IH]; simpl; [done|]. unfold entry_le at 1 3; simpl.
  destruct (oleb x.1 y.1); simpl; [done|]. by rewrite IH.
Qed.

Lemma sort_by_map {A B} (g : A → B) (l : list (list Z * A)) :
  sort_by entry_le (map (prod_map id g) l) = map (prod_map id g) (sort_by entry_le l).
Proof. induction l as [|x l IH]; simpl; [done|]. by rewrite IH, sort_insert_map. Qed.

(** The children of a map keyed by their encoded keys, in encoding order. *)
Definition keyed_children (m : btree text CanonicalNode) : list (list Z * CanonicalNode) :=
  sort_by entry_le (map (λ '(k, c), (key_bytes k, c)) m).

Lemma keyed_children_bytes m :
  sort_by entry_le (map (λ '(k, c), (key_bytes k, cbor_bytes c)) m) =
  map (prod_map id cbor_bytes) (keyed_children m).
Proof.
  unfold keyed_children. rewrite <- sort_by_map, map_map. f_equal.
  apply map_ext; by intros [k c].
Qed.

Lemma keyed_children_perm m :
  Permutation (map (λ '(k, c), (key_bytes k, c)) m) (keyed_children m).
Proof. apply sort_by_perm. Qed.

Lemma keyed_children_Forall (P : CanonicalNode → Prop) m :
  Forall (λ e, P e.2) m → Forall (λ e, P e.2) (keyed_children m).
Proof.
  intros HP. rewrite <- keyed_children_perm. apply Forall_map.
  eapply Forall_impl; [exact HP|]. by intros [].
Qed.

Lemma forallb_perm {A} (p : A → bool) l k : Permutation l k → forallb p l = forallb p k.
Proof.
  induction 1; simpl; try congruence. by rewrite !andb_assoc, (andb_comm (p x)).
Qed.

Section encoder.
Context (depth : nat).

Definition encodes (n : CanonicalNode) : Prop :=
  ∀ out, within out → encode_cbor n out (S depth) = emit (fits (S depth) n) (cbor_bytes n) out.

(** The loop over array children. *)
Lemma children_emit l out :
  Forall encodes l → within out →
  (fix children (values : list CanonicalNode) (output : list Z) : res (list Z) :=
     match values with
     | [] => Ok output
     | child :: values' =>
         output ← encode_cbor child output (S depth);
         children values' output
     end) l out =
  emit (forallb (fits (S depth)) l) (concat (map cbor_bytes l)) out.
Proof.
  intros HF. revert out. induction HF as [|n l Hn _ IH]; intros out Ho.
  - by rewrite emit_nil.
  - rewrite Hn by done. apply emit_bind. exact IH.
Qed.

(** The loop over sorted map entries. *)
Lemma entries_emit (es : list (list Z * CanonicalNode)) out :
  Forall (λ e, encodes e.2) es → within out →
  encode_entries (map (prod_map id (λ c output, encode_cbor c output (S depth))) es) out =
  emit (forallb (λ e, fits (S depth) e.2) es)
    (concat (map entry_bytes (map (prod_map id cbor_bytes) es))) out.
Proof.
  intros HF. revert out. induction HF as [|[k n] es Hn _ IH]; intros out Ho.
  - simpl. by rewrite emit_nil.
  - simpl in *. rewrite append_emit. unfold entry_bytes at 1; simpl.
    rewrite <- app_assoc. rewrite <- (andb_true_l (fits _ _ && _)).
    apply emit_bind. intros o Ho'. rewrite Hn by done. apply emit_bind. exact IH.
Qed.

(** The entries of a map: either some key exceeds the output limit, or all
    are encoded and paired with the pending child calls. *)
Lemma keyed_ok (m : btree text CanonicalNode) :
  Forall (λ e, len (key_bytes e.1) ≤ MAX_CANONICAL_OUTPUT_BYTES) m →
  (fix keyed (values : btree text CanonicalNode) :=
     match values with
     | [] => Ok []
     | (key, child) :: values' =>
         encoded_key ← encode_key key;
         entries ← keyed values';
         Ok ((encoded_key, λ output, encode_cbor child output (S depth)) :: entries)
     end) m =
  Ok (map (prod_map id (λ c output, encode_cbor c output (S depth)))
        (map (λ '(k, c), (key_bytes k, c)) m)).
Proof.
  induction 1 as [|[k c] m Hk _ IH]; simpl; [done|]. simpl in Hk.
  rewrite encode_key_emit. unfold emit at 1; rewrite len_nil, Z.add_0_l; simpl.
  destruct (Z.leb_spec (len (key_bytes k)) MAX_CANONICAL_OUTPUT_BYTES); [|lia].
  simpl. rewrite IH. reflexivity.
Qed.

Lemma keyed_err (m : btree text CanonicalNode) :
  ¬ Forall (λ e, len (key_bytes e.1) ≤ MAX_CANONICAL_OUTPUT_BYTES) m →
  (fix keyed (values : btree text CanonicalNode) :=
     match values with
     | [] => Ok []
     | (key, child) :: values' =>
         encoded_key ← encode_key key;
         entries ← keyed values';
         Ok ((encoded_key, λ output, encode_cbor child output (S depth)) :: entries)
     end) m = Err LimitExceeded.
Proof.
  induction m as [|[k c] m IH]; intros Hn; [destruct Hn; constructor|].
  simpl. rewrite encode_key_emit. unfold emit at 1; rewrite len_nil, Z.add_0_l; simpl.
  destruct (Z.leb_spec (len (key_bytes k)) MAX_CANONICAL_OUTPUT_BYTES); simpl; [|done].
  rewrite IH; [done|]. intros HF; apply Hn; by constructor.
Qed.
End encoder.

Lemma fold_concat_len_ge (es : list (list Z * list Z)) e :
  e ∈ es → len e.1 ≤ len (concat (map entry_bytes es)).
Proof.
  induction es as [|f es IH]; intros Hin; [by apply not_elem_of_nil in Hin|].
  simpl. rewrite len_app. unfold entry_bytes at 1; rewrite len_app.
  pose proof (len_nonneg f.1); pose proof (len_nonneg f.2).
  pose proof (len_nonneg (concat (map entry_bytes es))).
  apply elem_of_cons in Hin as [->|Hin]; [lia|]. specialize (IH Hin). lia.
Qed.

(** A key whose own buffer overflows makes the whole map overflow. *)
Lemma long_key_overflow (m : btree text CanonicalNode) :
  ¬ Forall (λ e, len (key_bytes e.1) ≤ MAX_CANONICAL_OUTPUT_BYTES) m →
  MAX_CANONICAL_OUTPUT_BYTES < len (cbor_bytes (Map m)).
Proof.
  intros Hn. destruct (decide (MAX_CANONICAL_OUTPUT_BYTES < len (cbor_bytes (Map m))))
    as [|Hle]; [done|]. destruct Hn. apply Forall_forall. intros [k c] Hin.
  simpl in *. rewrite len_app in Hle.
  pose proof (head_bytes_pos 5 (len m)).
  enough (len (key_bytes k) ≤ len (concat (map entry_bytes (sort_by entry_le
           (map (λ '(k0, c0), (key_bytes k0, cbor_bytes c0)) m))))) by lia.
  apply (fold_concat_len_ge _ (key_bytes k, cbor_bytes c)).
  rewrite <- sort_by_perm. apply list_elem_of_In, in_map_iff. exists (k, c).
  split; [done|]. by apply list_elem_of_In.
Qed.

(** The body of the map case after the head, for any buffer. *)
Lemma encode_map_emit depth (m : btree text CanonicalNode) out :
  Forall (λ e, encodes depth e.2) m → within out →
  (o ← emit true (head_bytes 5 (len m)) out;
   entries ←
     (fix keyed (values : btree text CanonicalNode) :=
        match values with
        | [] => Ok []
        | (key, child) :: values' =>
            encoded_key ← encode_key key;
            entries ← keyed values';
            Ok ((encoded_key, λ output, encode_cbor child output (S depth)) :: entries)
        end) m;
   encode_entries (sort_by entry_le entries) o) =
  emit (forallb (λ '(_, c), fits (S depth) c) m) (cbor_bytes (Map m)) out.
Proof.
  intros Henc Ho. rewrite <- (andb_true_l (forallb _ m)).
  destruct (decide (Forall (λ e, len (key_bytes e.1) ≤ MAX_CANONICAL_OUTPUT_BYTES) m))
    as [Hk|Hk].
  - apply emit_bind. intros o Ho'. rewrite keyed_ok by done. simpl.
    rewrite sort_by_map. fold (keyed_children m). rewrite keyed_children_bytes.
    rewrite entries_emit; [|by apply keyed_children_Forall|done].
    f_equal. rewrite <- (forallb_perm _ _ _ (keyed_children_perm m)).
    clear. induction m as [|[k c] m IHm]; simpl; [done|]. by rewrite IHm.
  - pose proof (long_key_overflow _ Hk) as Hov. simpl in Hov.
    assert (∀ ok, emit ok (cbor_bytes (Map m)) out = Err LimitExceeded) as ->.
    { intros ok. unfold emit; case_match eqn:E'; [|done]. bsplit.
      pose proof (len_nonneg out). simpl in *. lia. }
    destruct (emit true (head_bytes 5 (len m)) out) as [o|e] eqn:E; simpl.
    + by rewrite keyed_err.
    + unfold emit in E. destruct (_ && _) in E; congruence.
Qed.

(** The encoder is the specification under the limits: it appends
    [cbor_bytes] exactly when the node fits and the output stays bounded, and
    otherwise fails with [LimitExceeded]. *)
Lemma encode_cbor_emit n : ∀ depth out, within out → node_ok n →
  encode_cbor n out depth = emit (fits depth n) (cbor_bytes n) out.
Proof.
  induction n as [b|u|i|b|s|l IH|m IH] using node_induction; intros depth out Ho Hok;
    unfold encode_cbor; fold encode_cbor; unfold fits; fold fits;
    rewrite Nat.leb_antisym; destruct (MAX_CANONICAL_DEPTH <? depth)%nat; simpl negb;
    rewrite ?andb_false_l, ?andb_true_l; try done; inversion_clear Hok.
  - destruct b; by rewrite push_emit.
  - by apply encode_head_emit.
  - unfold checked_i128, i128_min, i128_max, i64_min, i64_max, try_from, u64_max in *.
    destruct (Z.leb_spec (-170141183460469231731687303715884105728) (-1 - i)); [|lia].
    destruct (Z.leb_spec (-1 - i) 170141183460469231731687303715884105727); [|lia]. simpl.
    destruct (Z.leb_spec 0 (-1 - i)); destruct (Z.ltb_spec i 0); try lia; [|done].
    destruct (Z.leb_spec (-1 - i) 18446744073709551615); [|lia]. simpl.
    apply encode_head_emit; [lia|unfold u64_max; lia|done].
  - by apply keyed_emit_bytes.
  - by apply keyed_emit_bytes.
  - rewrite Z.leb_antisym. destruct (Z.ltb_spec MAX_CANONICAL_ARRAY_ITEMS (len l)); [done|].
    simpl. rewrite encode_length_emit by first [done|lia|apply len_nonneg].
    destruct (Z.leb_spec (len l) u64_max); [|unfold u64_max, MAX_CANONICAL_ARRAY_ITEMS in *; lia].
    rewrite <- (andb_true_l (forallb _ l)).
    apply emit_bind. intros o Ho'. apply children_emit; [|done].
    rewrite Forall_forall in *. intros n Hn out' Hout'. apply IH; auto.
  - rewrite Z.leb_antisym. destruct (Z.ltb_spec MAX_CANONICAL_MAP_ENTRIES (len m)); [done|].
    simpl. rewrite encode_length_emit by first [done|lia|apply len_nonneg].
    destruct (Z.leb_spec (len m) u64_max); [|unfold u64_max, MAX_CANONICAL_MAP_ENTRIES in *; lia].
    apply encode_map_emit; [|done]. unfold bt_values in *.
    rewrite Forall_forall in IH. rewrite Forall_forall in H1.
    apply Forall_forall. intros e He out' Hout'. apply IH; [done|done|].
    apply H1, list_elem_of_In, in_map. by apply list_elem_of_In.
Qed.

(** ** Big-endian integers *)

Lemma pow256_S (n : nat) : 256 ^ Z.of_nat (S n) = 256 * 256 ^ Z.of_nat n.
Proof. rewrite Nat2Z.inj_succ, Z.pow_succ_r; lia. Qed.

Lemma pow256_pos (n : nat) : 0 < 256 ^ Z.of_nat n.
Proof. apply Z.pow_pos_nonneg; lia. Qed.

Lemma from_be_fold bs acc :
  fold_left (λ acc b, acc * 256 + b) bs acc =
  acc * 256 ^ Z.of_nat (length bs) + from_be_bytes bs.
Proof.
  unfold from_be_bytes. revert acc. induction bs as [|b bs IH]; intros acc; cbn [fold_left length].
  - rewrite Z.pow_0_r. lia.
  - rewrite IH, (IH (0 * 256 + b)), pow256_S. ring.
Qed.

Lemma from_be_cons b bs :
  from_be_bytes (b :: bs) = b * 256 ^ Z.of_nat (length bs) + from_be_bytes bs.
Proof. unfold from_be_bytes at 1; cbn [fold_left]. by rewrite from_be_fold. Qed.

Lemma from_be_bound bs :
  Forall byte_ok bs → 0 ≤ from_be_bytes bs < 256 ^ Z.of_nat (length bs).
Proof.
  induction 1 as [|b bs Hb _ IH]; [by vm_compute|].
  rewrite from_be_cons. cbn [length]. rewrite pow256_S. unfold byte_ok in Hb. nia.
Qed.

Lemma to_be_length n v : length (to_be_bytes n v) = n.
Proof. induction n; simpl; congruence. Qed.

Lemma to_be_byte_ok n v : Forall byte_ok (to_be_bytes n v).
Proof.
  induction n; constructor; [|done]. unfold byte_ok. apply Z.mod_pos_bound; lia.
Qed.

Lemma from_to_be n v : from_be_bytes (to_be_bytes n v) = v mod 256 ^ Z.of_nat n.
Proof.
  induction n as [|n IH]; [by rewrite Z.pow_0_r, Z.mod_1_r|].
  cbn [to_be_bytes]. rewrite from_be_cons, to_be_length, IH, pow256_S.
  pose proof (pow256_pos n). rewrite (Z.mul_comm 256), Z.rem_mul_r by lia. ring.
Qed.

Lemma to_be_shift n j v c :
  (n ≤ j)%nat → to_be_bytes n (c * 256 ^ Z.of_nat j + v) = to_be_bytes n v.
Proof.
  induction n as [|n IH]; intros Hj; [done|]. cbn [to_be_bytes].
  f_equal; [|apply IH; lia].
  assert (256 ^ Z.of_nat j = 256 ^ (Z.of_nat j - Z.of_nat n - 1) * 256 * 256 ^ Z.of_nat n) as ->.
  { rewrite <- (Z.pow_1_r 256) at 3. rewrite <- !Z.pow_add_r by lia. f_equal; lia. }
  pose proof (pow256_pos n).
  replace (c * _ + v)
    with (v + (c * 256 ^ (Z.of_nat j - Z.of_nat n - 1) * 256) * 256 ^ Z.of_nat n) by ring.
  rewrite Z.div_add by lia. apply Z_mod_plus_full.
Qed.

Lemma to_from_be bs : Forall byte_ok bs → to_be_bytes (length bs) (from_be_bytes bs) = bs.
Proof.
  induction 1 as [|b bs Hb HF IH]; [done|]. cbn [length to_be_bytes].
  rewrite from_be_cons, to_be_shift, IH by lia. f_equal.
  pose proof (from_be_bound _ HF). unfold byte_ok in Hb.
  rewrite Z.add_comm, Z.div_add, Z.div_small, Z.mod_small; lia.
Qed.

(** ** Parser primitives *)

Lemma initial_byte major k :
  0 ≤ k ≤ 31 → Z.shiftr (major * 32 + k) 5 = major ∧ Z.land (major * 32 + k) 0x1f = k.
Proof.
  intros Hk. split.
  - rewrite Z.shiftr_div_pow2 by lia. change (2 ^ 5) with 32.
    rewrite Z.add_comm, Z.div_add, Z.div_small; lia.
  - change 0x1f with (Z.ones 5). rewrite Z.land_ones by lia. change (2 ^ 5) with 32.
    rewrite Z.add_comm, Z.mod_add, Z.mod_small; lia.
Qed.

Lemma initial_split initial : byte_ok initial →
  initial = Z.shiftr initial 5 * 32 + Z.land initial 0x1f ∧
  0 ≤ Z.shiftr initial 5 ≤ 7 ∧ 0 ≤ Z.land initial 0x1f ≤ 31.
Proof.
  unfold byte_ok. intros Hb. change (Z.land initial 0x1f) with (Z.land initial (Z.ones 5)).
  rewrite Z.land_ones, Z.shiftr_div_pow2 by lia. change (2 ^ 5) with 32.
  pose proof (Z.div_mod initial 32 ltac:(lia)).
  pose proof (Z.mod_pos_bound initial 32 ltac:(lia)).
  assert (0 ≤ initial / 32 < 8); [|lia].
  split; [apply Z.div_pos; lia|apply Z.div_lt_upper_bound; lia].
Qed.

Lemma read_exact_app bs r pos :
  pos + len bs ≤ u64_max →
  read_exact (mk_parser (bs ++ r) pos) (len bs) = Ok (bs, mk_parser r (pos + len bs)).
Proof.
  intros Hp. unfold read_exact, checked_add; simpl.
  destruct (Z.leb_spec (pos + len bs) u64_max); [|lia]. simpl.
  rewrite len_app. destruct (Z.ltb_spec (len bs + len r) (len bs));
    [pose proof (len_nonneg r); lia|].
  unfold len. by rewrite Nat2Z.id, take_app_length, drop_app_length.
Qed.

Lemma read_exact_ok p n bs p' :
  read_exact p n = Ok (bs, p') → 0 ≤ n →
  rest p = bs ++ rest p' ∧ len bs = n ∧ position p' = position p + n.
Proof.
  unfold read_exact, checked_add. destruct (_ <=? u64_max); simpl; [|done].
  destruct (_ <? n) eqn:E; [done|]. intros [= <- <-] Hn. bsplit. simpl.
  rewrite take_drop. repeat split. unfold len in *. rewrite length_take. lia.
Qed.

Lemma read_exact_be n v r pos :
  0 ≤ v < 256 ^ Z.of_nat n → pos + Z.of_nat n ≤ u64_max →
  (∃ bs, read_exact (mk_parser (to_be_bytes n v ++ r) pos) (Z.of_nat n) =
         Ok (bs, mk_parser r (pos + Z.of_nat n)) ∧ from_be_bytes bs = v).
Proof.
  intros Hv Hp. exists (to_be_bytes n v). rewrite from_to_be, Z.mod_small by lia.
  split; [|done]. assert (len (to_be_bytes n v) = Z.of_nat n) as Hl
    by (unfold len; by rewrite to_be_length).
  rewrite <- Hl. apply read_exact_app. lia.
Qed.

(** The multi-byte argument forms: additional information [k], [n] bytes, and
    the largest value [lim] that a shorter form represents. *)
Definition wide (k : Z) (n : nat) (lim : Z) : Prop :=
  (k = 25 ∧ n = 2%nat ∧ lim = 0xff) ∨ (k = 26 ∧ n = 4%nat ∧ lim = 0xffff) ∨
  (k = 27 ∧ n = 8%nat ∧ lim = 0xffffffff).

Lemma read_argument_wide k n lim p : wide k n lim →
  read_argument p k =
  ('(bytes, p) ← read_exact p (Z.of_nat n);
   let value := from_be_bytes bytes in
   if value <=? lim then Err NonCanonical else Ok (value, p)).
Proof. intros [(-> & -> & ->)|[(-> & -> & ->)|(-> & -> & ->)]]; reflexivity. Qed.

Lemma head_bytes_wide k n lim major arg : wide k n lim →
  lim < arg < 256 ^ Z.of_nat n → head_bytes major arg = (major * 32 + k) :: to_be_bytes n arg.
Proof.
  intros [(-> & -> & ->)|[(-> & -> & ->)|(-> & -> & ->)]];
    unfold head_bytes; cbn -[to_be_bytes]; intros Ha; repeat case_match; bsplit; done || lia.
Qed.

Lemma wide_form arg : 0xff < arg ≤ u64_max →
  ∃ k n lim, wide k n lim ∧ lim < arg < 256 ^ Z.of_nat n ∧ (n ≤ 8)%nat.
Proof.
  intros Ha. unfold wide.
  destruct (decide (arg ≤ 0xffff)); [|destruct (decide (arg ≤ 0xffffffff))].
  - exists 25, 2%nat, 0xff. split; [tauto|]. change (256 ^ _) with 65536. lia.
  - exists 26, 4%nat, 0xffff. split; [tauto|]. change (256 ^ _) with 4294967296. lia.
  - exists 27, 8%nat, 0xffffffff. split; [tauto|]. unfold u64_max in Ha.
    change (256 ^ _) with 18446744073709551616. lia.
Qed.

(** A head written by the encoder reads back. *)
Lemma read_head_complete major arg r pos :
  0 ≤ major ≤ 7 → 0 ≤ arg ≤ u64_max → pos + 9 ≤ u64_max →
  ∃ initial tail, head_bytes major arg = initial :: tail ∧
    Z.shiftr initial 5 = major ∧
    read_argument (mk_parser (tail ++ r) (pos + 1)) (Z.land initial 0x1f) =
      Ok (arg, mk_parser r (pos + len (head_bytes major arg))).
Proof.
  intros Hm Ha Hp. destruct (decide (0xff < arg)) as [Hw|Hn].
  - destruct (wide_form arg) as (k & n & lim & Hk & Hr & Hn); [lia|].
    rewrite (head_bytes_wide k n lim) by done. eexists _, _; split; [reflexivity|].
    destruct (initial_byte major k) as [-> ->]; [unfold wide in Hk; lia|]. split; [done|].
    rewrite (read_argument_wide k n lim) by done.
    assert (0 ≤ lim) by (unfold wide in Hk; lia).
    destruct (read_exact_be n arg r (pos + 1)) as (bs & -> & Hbs); [lia|lia|].
    simpl. rewrite Hbs. destruct (Z.leb_spec arg lim); [lia|].
    rewrite len_cons. unfold len. by rewrite to_be_length, Z.add_assoc.
  - unfold head_bytes. destruct (Z.leb_spec arg 23).
    + exists (major * 32 + arg), []. destruct (initial_byte major arg) as [-> ->]; [lia|].
      repeat split. unfold read_argument. by destruct (Z.leb_spec arg 23); [|lia].
    + destruct (Z.leb_spec arg 0xff); [|lia]. exists (major * 32 + 24), [arg].
      destruct (initial_byte major 24) as [-> ->]; [lia|].
      repeat split. unfold read_argument; simpl. destruct (Z.ltb_spec arg 24); [lia|].
      rewrite !len_cons, len_nil. by rewrite <- Z.add_assoc.
Qed.

(** An accepted head is the encoder's head. *)
Lemma read_head_sound initial p arg p' :
  byte_ok initial → Forall byte_ok (rest p) →
  read_argument p (Z.land initial 0x1f) = Ok (arg, p') →
  initial :: rest p = head_bytes (Z.shiftr initial 5) arg ++ rest p' ∧
  position p' + 1 = position p + len (head_bytes (Z.shiftr initial 5) arg) ∧
  0 ≤ arg ≤ u64_max.
Proof.
  intros Hi Hr. destruct (initial_split initial Hi) as (Hsplit & Hm & Hk).
  remember (Z.shiftr initial 5) as major. remember (Z.land initial 0x1f) as k.
  destruct (decide (25 ≤ k ≤ 27)) as [Hw|Hn].
  - assert (∃ n lim, wide k n lim ∧ 0 ≤ lim ∧ 256 ^ Z.of_nat n ≤ u64_max + 1)
      as (n & lim & Hwide & Hlim & Hpow).
    { unfold wide. destruct (decide (k = 25)); [|destruct (decide (k = 26))].
      - exists 2%nat, 0xff. split; [tauto|]. by vm_compute.
      - exists 4%nat, 0xffff. split; [tauto|]. by vm_compute.
      - exists 8%nat, 0xffffffff. split; [right; right; split; [lia|done]|]. by vm_compute. }
    rewrite (read_argument_wide k n lim) by done. intros H.
    destruct (read_exact p (Z.of_nat n)) as [[bs q]|] eqn:E; simpl in H; [|done].
    destruct (Z.leb_spec (from_be_bytes bs) lim); [done|]. injection H as <- <-.
    apply read_exact_ok in E as (E & Hl & Hpos); [|lia].
    assert (length bs = n) as <- by (unfold len in Hl; lia).
    rewrite E in Hr. apply Forall_app in Hr as [Hbs _].
    pose proof (from_be_bound _ Hbs).
    rewrite (head_bytes_wide k (length bs) lim), to_from_be by (done || lia).
    rewrite len_cons. unfold len. simpl. rewrite E, Hpos, Hsplit. repeat split; lia || done.
  - unfold read_argument, head_bytes. destruct (Z.leb_spec k 23).
    + intros [= <- <-]. destruct (Z.leb_spec k 23); [|lia].
      rewrite len_cons, len_nil. simpl. rewrite <- Hsplit. unfold u64_max. repeat split; lia || done.
    + destruct (Z.eqb_spec k 24); [subst k|repeat case_match; bsplit; done || lia].
      unfold read_byte. destruct p as [[|v r] pos]; simpl; [done|].
      destruct (Z.ltb_spec v 24); [done|]. intros [= <- <-]. simpl in Hr.
      inversion_clear Hr. unfold byte_ok in *.
      destruct (Z.leb_spec v 23); [lia|]. destruct (Z.leb_spec v 0xff); [|lia].
      rewrite !len_cons, len_nil. simpl. rewrite Hsplit, e. unfold u64_max. repeat split; lia || done.
Qed.

(** ** The parser accepts only the specified encodings *)

Definition parsed (depth : nat) (p : CborParser) (n : CanonicalNode) (p' : CborParser) : Prop :=
  rest p = cbor_bytes n ++ rest p' ∧ position p' = position p + len (cbor_bytes n) ∧
  node_ok n ∧ fits depth n = true.

Definition key_ok (k : text) : Prop := Forall byte_ok k ∧ utf8_valid k = true.

Lemma key_bytes_text k : key_bytes k = cbor_bytes (Text k).
Proof. done. Qed.

(** Map entries in the order of their encoded keys. *)
Definition key_lt (a b : text * CanonicalNode) : Prop := olt (key_bytes a.1) (key_bytes b.1).

Definition encoded_entry (e : text * CanonicalNode) : list Z := key_bytes e.1 ++ cbor_bytes e.2.

(** The encoded form of a map is that of any listing of it by increasing
    encoded key. *)
Lemma map_bytes_sorted (m es : btree text CanonicalNode) :
  Permutation m es → StronglySorted key_lt es →
  cbor_bytes (Map m) = head_bytes 5 (len es) ++ concat (map encoded_entry es).
Proof.
  intros HP Hs. simpl. replace (len m) with (len es)
    by (unfold len; by rewrite (Permutation_length HP)).
  f_equal. unfold entry_le. rewrite (sort_by_key_unique fst _ (map (λ '(k, c), (key_bytes k, cbor_bytes c)) es)).
  - rewrite map_map. f_equal. apply map_ext. by intros [k c].
  - by apply Permutation_map.
  - clear HP. induction Hs as [|[k c] es Hs IH He]; simpl; constructor; [done|].
    rewrite Forall_map. eapply Forall_impl; [exact He|]. by intros [].
Qed.

Lemma read_length_sound initial p maximum arg p' :
  byte_ok initial → Forall byte_ok (rest p) →
  read_length p (Z.land initial 0x1f) maximum = Ok (arg, p') →
  initial :: rest p = head_bytes (Z.shiftr initial 5) arg ++ rest p' ∧
  position p' + 1 = position p + len (head_bytes (Z.shiftr initial 5) arg) ∧
  0 ≤ arg ≤ maximum.
Proof.
  intros Hi Hr. unfold read_length.
  destruct (read_argument p (Z.land initial 31)) as [[v q]|] eqn:E; simpl; [|done].
  unfold try_from. destruct (v <=? u64_max); simpl; [|done].
  destruct (Z.ltb_spec maximum v); [done|]. intros [= <- <-].
  apply read_head_sound in E as (? & ? & ?); [|done..]. repeat split; done || lia.
Qed.

Section parse_loops.
Context (depth : nat) (child : CborParser → res (CanonicalNode * CborParser)).
Context (child_sound : ∀ p n p', Forall byte_ok (rest p) →
  child p = Ok (n, p') → parsed (S depth) p n p').

Lemma parse_items_sound k : ∀ p l p', Forall byte_ok (rest p) →
  parse_items child k p = Ok (l, p') →
  rest p = concat (map cbor_bytes l) ++ rest p' ∧
  position p' = position p + len (concat (map cbor_bytes l)) ∧
  Forall node_ok l ∧ forallb (fits (S depth)) l = true ∧ length l = k.
Proof.
  induction k as [|k IH]; intros p l p' Hb; simpl.
  - intros [= <- <-]. simpl. rewrite len_nil. repeat split; (lia || constructor).
  - intros H. inv_ok H. destruct a as [n q]. inv_ok H. destruct a as [ns q'].
    injection H as <- <-. apply child_sound in Hok as (E1 & P1 & N1 & F1); [|done].
    rewrite E1 in Hb. apply Forall_app in Hb as [_ Hb].
    apply IH in Hok0 as (E2 & P2 & N2 & F2 & L2); [|done].
    simpl. rewrite E1, E2, P2, P1, <- app_assoc, len_app, F1, F2, L2.
    repeat split; [lia|by constructor].
Qed.

(** Every key read so far is below the next one. *)
Definition keys_below (previous : option (list Z)) (m : btree text CanonicalNode) : Prop :=
  match previous with
  | None => m = []
  | Some b => Forall (λ e, oleb (key_bytes e.1) b = true) m
  end.

Definition above (previous : option (list Z)) (e : text * CanonicalNode) : Prop :=
  match previous with None => True | Some b => olt b (key_bytes e.1) end.

Lemma fresh_above previous m k c : bt_wf m →
  keys_below previous m → above previous (k, c) → bt_get k m = None.
Proof.
  intros Hwf. unfold keys_below, above. destruct previous as [b|]; [|by intros ->].
  intros Hb Ha. destruct (bt_get k m) as [c'|] eqn:E; [|done].
  apply bt_get_In in E. rewrite Forall_forall in Hb.
  apply list_elem_of_In, Hb in E. simpl in *.
  apply oleb_true in E as [E|<-]; [|by apply olt_irrefl in Ha].
  destruct (olt_irrefl b). by eapply ocmp_trans.
Qed.

Lemma keys_below_insert previous m k c : bt_wf m → keys_below previous m →
  above previous (k, c) → keys_below (Some (key_bytes k)) (bt_insert k c m).
Proof.
  intros Hwf Hb Ha. simpl. rewrite (bt_insert_fresh_perm k c m) by (by eapply fresh_above).
  constructor; [by apply oleb_true; right|].
  destruct previous as [b|]; simpl in *; [|subst; constructor].
  eapply Forall_impl; [exact Hb|]. intros e He.
  eapply oleb_trans; [exact He|]. apply oleb_true. by left.
Qed.

Lemma encoded_key_slice p q k :
  parsed (S depth) p (Text k) q →
  take (Z.to_nat (position q - position p)) (rest p) = key_bytes k ∧ key_ok k.
Proof.
  intros (E & P & N & _). inversion N; subst. split; [|done].
  rewrite E, P, key_bytes_text. unfold len. rewrite Z.add_simpl_l, Nat2Z.id.
  apply take_app_length.
Qed.

Definition entry_ok (e : text * CanonicalNode) : Prop :=
  key_ok e.1 ∧ node_ok e.2 ∧ fits (S depth) e.2 = true.

Lemma parse_entries_sound k : ∀ p previous m0 m p',
  Forall byte_ok (rest p) → bt_wf m0 → keys_below previous m0 →
  parse_entries child k p previous m0 = Ok (m, p') →
  ∃ es, Permutation m (m0 ++ es) ∧ bt_wf m ∧ StronglySorted key_lt es ∧
    Forall (above previous) es ∧ Forall entry_ok es ∧ length es = k ∧
    rest p = concat (map encoded_entry es) ++ rest p' ∧
    position p' = position p + len (concat (map encoded_entry es)).
Proof.
  induction k as [|k IH]; intros p prev m0 m p' Hb Hwf Hbelow; simpl.
  - intros [= <- <-]. exists []. rewrite app_nil_r. simpl. rewrite len_nil.
    split_and!; (done || lia || constructor).
  - intros H. inv_ok H. destruct a as [kn q]. destruct kn as [| | | |key| |]; try done.
    pose proof (child_sound _ _ _ Hb Hok) as Hparsed.
    destruct (encoded_key_slice _ _ _ Hparsed) as [Hslice Hkey]. rewrite Hslice in H.
    destruct (is_some_and _ prev) eqn:Eprev; [done|].
    destruct Hparsed as (E1 & P1 & _ & _). rewrite E1 in Hb. apply Forall_app in Hb as [_ Hb].
    inv_ok H. destruct a as [c q']. apply child_sound in Hok0 as (E2 & P2 & N2 & F2); [|done].
    rewrite E2 in Hb. apply Forall_app in Hb as [_ Hb].
    assert (above prev (key, c)) as Habove
      by (destruct prev; simpl in *; [by apply oleb_olt|done]).
    rewrite (fresh_above prev m0 key c) in H by done.
    apply IH in H as (es & HP & Hm & Hs & Ha & Ho & Hl & E3 & P3);
      [|done|by apply bt_wf_insert|by eapply keys_below_insert].
    exists ((key, c) :: es). simpl. unfold encoded_entry at 1 3; simpl.
    rewrite E1, E2, E3, P3, P2, P1, <- !app_assoc, !len_app, Hl, key_bytes_text.
    split_and!; try done.
    + rewrite HP, bt_insert_fresh_perm by (by eapply fresh_above). apply Permutation_middle.
    + by constructor.
    + constructor; [done|]. destruct prev as [b|]; simpl in *; [|by apply Forall_true].
      eapply Forall_impl; [exact Ha|]. intros e He. by eapply ocmp_trans.
    + by constructor.
    + lia.
Qed.
End parse_loops.

Lemma entries_node_ok depth (m es : btree text CanonicalNode) :
  Permutation m es → bt_wf m → Forall (entry_ok depth) es → node_ok (Map m).
Proof.
  intros HP Hwf Ho. rewrite <- HP in Ho. constructor; [done|..]; apply Forall_map;
    (eapply Forall_impl; [exact Ho|]); intros e (? & ? & ?); done.
Qed.

Lemma entries_fits depth (m es : btree text CanonicalNode) :
  Permutation m es → Forall (entry_ok depth) es →
  forallb (λ '(_, c), fits (S depth) c) m = true.
Proof.
  intros HP Ho. rewrite <- HP in Ho. apply forallb_forall. intros [k c] Hin.
  rewrite Forall_forall in Ho. by destruct (Ho (k, c)) as (_ & _ & ?); [apply list_elem_of_In|].
Qed.

(** Reads of a length-prefixed byte string. *)
Lemma read_string_sound initial r pos bs p' :
  byte_ok initial → Forall byte_ok r →
  ('(length, p) ← read_length (mk_parser r (pos + 1)) (Z.land initial 0x1f)
                    MAX_CANONICAL_OUTPUT_BYTES;
   read_exact p length) = Ok (bs, p') →
  initial :: r = (head_bytes (Z.shiftr initial 5) (len bs) ++ bs) ++ rest p' ∧
  position p' = pos + len (head_bytes (Z.shiftr initial 5) (len bs) ++ bs) ∧
  Forall byte_ok bs.
Proof.
  intros Hi Hr H. inv_ok H. destruct a as [n q].
  apply read_length_sound in Hok as (E & P & Hn); [|done..]. simpl in *.
  apply read_exact_ok in H as (E' & <- & P'); [|lia].
  assert (Forall byte_ok (initial :: r)) as Hall by (by constructor).
  rewrite E, E', P', !len_app, <- app_assoc in *.
  apply Forall_app in Hall as [_ [Hall _]%Forall_app]. repeat split; [lia|done].
Qed.

(** The body of [parse] after the initial byte, per major type. *)
Section parse_cases.
Context (depth : nat) (child : CborParser → res (CanonicalNode * CborParser)).
Context (child_sound : ∀ p n p', Forall byte_ok (rest p) →
  child p = Ok (n, p') → parsed (S depth) p n p').
Context (initial pos : Z) (r : list Z) (n : CanonicalNode) (p' : CborParser).
Context (Hd : (depth <=? MAX_CANONICAL_DEPTH)%nat = true).
Context (Hb : Forall byte_ok (initial :: r)).

Let p := mk_parser (initial :: r) pos.
Let q := mk_parser r (pos + 1).
Let additional := Z.land initial 0x1f.

#[local] Ltac bytes_in := inversion Hb as [|? ? Hi Hr]; subst.

Lemma parse_unsigned_sound : Z.shiftr initial 5 = 0 →
  ('(value, p) ← read_argument q additional; Ok (Unsigned value, p)) = Ok (n, p') →
  parsed depth p n p'.
Proof.
  intros E0 H. bytes_in. inv_ok H. destruct a as [v q']. injection H as <- <-.
  apply read_head_sound in Hok as (E & P & Hv); [|done..]. rewrite E0 in *. simpl in *.
  unfold parsed; cbn [fits]; rewrite Hd; simpl.
  split_and!; [done|lia|by constructor|done].
Qed.

Lemma parse_negative_sound : Z.shiftr initial 5 = 1 →
  ('(argument, p) ← read_argument q additional;
   let value := -1 - argument in
   if value <? i64_min then Err LimitExceeded else Ok (Negative value, p)) = Ok (n, p') →
  parsed depth p n p'.
Proof.
  intros E1 H. bytes_in. inv_ok H. destruct a as [v q']. cbv zeta in H.
  destruct (Z.ltb_spec (-1 - v) i64_min) as [|Hneg]; [done|]. injection H as <- <-.
  apply read_head_sound in Hok as (E & P & Hv); [|done..]. rewrite E1 in *. simpl in *.
  unfold parsed; cbn [fits cbor_bytes]; rewrite Hd; simpl.
  replace (-1 - (-1 - v)) with v by lia.
  split_and!; [done|lia|constructor; unfold i64_max; lia|apply Z.ltb_lt; lia].
Qed.

Lemma parse_bytes_sound : Z.shiftr initial 5 = 2 →
  ('(length, p) ← read_length q additional MAX_CANONICAL_OUTPUT_BYTES;
   '(bytes, p) ← read_exact p length; Ok (Bytes bytes, p)) = Ok (n, p') →
  parsed depth p n p'.
Proof.
  intros E2 H. bytes_in. inv_ok H. destruct a as [v q']. inv_ok H. destruct a as [bs q''].
  injection H as <- <-.
  destruct (read_string_sound initial r pos bs q'') as (E & P & Hbs);
    [done|done|by fold q additional; rewrite Hok; simpl|].
  unfold parsed; cbn [fits cbor_bytes]; rewrite Hd, E2 in *.
  split_and!; [done|done|by constructor|done].
Qed.

Lemma parse_text_sound : Z.shiftr initial 5 = 3 →
  ('(length, p) ← read_length q additional MAX_CANONICAL_OUTPUT_BYTES;
   '(bytes, p) ← read_exact p length;
   if utf8_valid bytes then Ok (Text bytes, p) else Err InvalidInput) = Ok (n, p') →
  parsed depth p n p'.
Proof.
  intros E3 H. bytes_in. inv_ok H. destruct a as [v q']. inv_ok H. destruct a as [bs q''].
  destruct (utf8_valid bs) eqn:U; [|done]. injection H as <- <-.
  destruct (read_string_sound initial r pos bs q'') as (E & P & Hbs);
    [done|done|by fold q additional; rewrite Hok; simpl|].
  unfold parsed; cbn [fits cbor_bytes]; rewrite Hd, E3 in *.
  split_and!; [done|done|by constructor|done].
Qed.

Lemma parse_array_sound : Z.shiftr initial 5 = 4 →
  ('(length, p) ← read_length q additional MAX_CANONICAL_ARRAY_ITEMS;
   '(values, p) ← parse_items child (Z.to_nat length) p;
   Ok (Array values, p)) = Ok (n, p') →
  parsed depth p n p'.
Proof.
  intros E4 H. bytes_in. inv_ok H. destruct a as [v q']. inv_ok H. destruct a as [l q''].
  injection H as <- <-.
  apply read_length_sound in Hok as (E & P & Hv); [|done..]. rewrite E4 in *. simpl in *.
  assert (Forall byte_ok (rest q')) as Hb'
    by (rewrite E in Hb; by apply Forall_app in Hb as [_ Hb]).
  apply (parse_items_sound depth) in Hok0 as (E' & P' & N & F & L); [|done..].
  assert (len l = v) as Hl by (unfold len; lia).
  unfold parsed; cbn [fits cbor_bytes]; rewrite Hd, Hl, F; subst p; simpl in *.
  rewrite E, E', P', len_app, app_assoc. split_and!; [done|lia|by constructor|].
  rewrite andb_true_r. apply Z.leb_le. lia.
Qed.

Lemma parse_map_sound : Z.shiftr initial 5 = 5 →
  parse_map child q additional = Ok (n, p') → parsed depth p n p'.
Proof.
  intros E5 H. bytes_in. unfold parse_map in H. inv_ok H. destruct a as [v q']. inv_ok H.
  destruct a as [m q'']. injection H as <- <-.
  apply read_length_sound in Hok as (E & P & Hv); [|done..]. rewrite E5 in *. simpl in *.
  assert (Forall byte_ok (rest q')) as Hb'
    by (rewrite E in Hb; by apply Forall_app in Hb as [_ Hb]).
  apply (parse_entries_sound depth) in Hok0
    as (es & HP & Hwf & Hs & _ & Ho & L & E' & P'); [|done|done|constructor|done].
  simpl in HP. unfold parsed. rewrite (map_bytes_sorted m es) by done. cbn [fits].
  assert (len es = v) as -> by (unfold len; lia).
  assert (len m = v) as -> by (unfold len; rewrite (Permutation_length HP); lia).
  rewrite Hd, (entries_fits depth m es) by done. subst p; simpl in *.
  rewrite E, E', P', len_app, app_assoc.
  split_and!; [done|lia|by eapply entries_node_ok|].
  rewrite andb_true_r. apply Z.leb_le. lia.
Qed.

Lemma parse_simple_sound (b : bool) :
  Z.shiftr initial 5 = 7 → additional = (if b then 21 else 20) →
  parsed depth p (Boolean b) q.
Proof.
  intros E7 Ea. bytes_in. destruct (initial_split initial Hi) as (Hsplit & _ & _).
  fold additional in Hsplit. rewrite E7, Ea in Hsplit.
  unfold parsed; cbn [fits]; rewrite Hd; subst p; simpl; rewrite Hsplit.
  destruct b; (split_and!; [done|done|constructor|done]).
Qed.
End parse_cases.

(** Whatever the parser accepts is the encoding of the node it returns, which
    is a value of the Rust type within the limits. *)
Lemma parse_sound levels : ∀ depth p n p',
  (depth + levels = S MAX_CANONICAL_DEPTH)%nat → Forall byte_ok (rest p) →
  parse levels p = Ok (n, p') → parsed depth p n p'.
Proof.
  induction levels as [|levels IH]; intros depth p n p' Hd Hb; [done|].
  destruct p as [[|initial r] pos]; [done|]. cbn -[Z.shiftr Z.land].
  assert ((depth <=? MAX_CANONICAL_DEPTH)%nat = true) as Hdepth by (apply Nat.leb_le; lia).
  assert (∀ p n p', Forall byte_ok (rest p) → parse levels p = Ok (n, p') →
            parsed (S depth) p n p') as Hchild by (intros *; apply IH; lia).
  simpl in Hb. assert (byte_ok initial) as Hi by (by inversion Hb).
  destruct (initial_split initial Hi) as (_ & Hm & _).
  repeat (case_match; bsplit).
  - by apply parse_unsigned_sound.
  - by apply parse_negative_sound.
  - by apply parse_bytes_sound.
  - by apply parse_text_sound.
  - by eapply parse_array_sound.
  - by eapply parse_map_sound.
  - done.
  - intros [= <- <-]. apply (parse_simple_sound _ _ _ _ Hdepth Hb false); [lia|done].
  - intros [= <- <-]. apply (parse_simple_sound _ _ _ _ Hdepth Hb true); [lia|done].
  - done.
  - done.
  - done.
Qed.

(** ** The parser accepts every specified encoding *)

Definition completes (child : CborParser → res (CanonicalNode * CborParser))
    (n : CanonicalNode) : Prop :=
  ∀ r pos, 0 ≤ pos → pos + len (cbor_bytes n) ≤ MAX_CANONICAL_OUTPUT_BYTES →
    child (mk_parser (cbor_bytes n ++ r) pos) = Ok (n, mk_parser r (pos + len (cbor_bytes n))).

Lemma max_output_u64 : MAX_CANONICAL_OUTPUT_BYTES + 9 ≤ u64_max.
Proof. by vm_compute. Qed.

Lemma key_bytes_inj k k' :
  len k ≤ u64_max → len k' ≤ u64_max → key_bytes k = key_bytes k' → k = k'.
Proof.
  intros Hk Hk' H. unfold key_bytes in H. pose proof max_output_u64.
  pose proof (len_nonneg k). pose proof (len_nonneg k').
  destruct (read_head_complete 3 (len k) k 0) as (i & t & E & _ & R);
    [lia|lia|unfold u64_max; lia|].
  destruct (read_head_complete 3 (len k') k' 0) as (i' & t' & E' & _ & R');
    [lia|lia|unfold u64_max; lia|].
  rewrite E, E' in H. simpl in H. injection H as <- H. rewrite H, R' in R. congruence.
Qed.

Section complete_loops.
Context (child : CborParser → res (CanonicalNode * CborParser)).

Lemma parse_items_complete l r : ∀ pos, Forall (completes child) l → 0 ≤ pos →
  pos + len (concat (map cbor_bytes l)) ≤ MAX_CANONICAL_OUTPUT_BYTES →
  parse_items child (length l) (mk_parser (concat (map cbor_bytes l) ++ r) pos) =
  Ok (l, mk_parser r (pos + len (concat (map cbor_bytes l)))).
Proof.
  induction l as [|n l IH]; intros pos HF Hp Hlen; simpl in *.
  - by rewrite len_nil, Z.add_0_r.
  - inversion_clear HF as [|? ? Hn Hl]. rewrite len_app in *.
    pose proof (len_nonneg (cbor_bytes n)). pose proof (len_nonneg (concat (map cbor_bytes l))).
    rewrite <- app_assoc, Hn by lia. simpl. rewrite IH by (done || lia). simpl.
    by rewrite Z.add_assoc.
Qed.

Lemma parse_entries_complete es r : ∀ pos previous m0,
  Forall (λ e, completes child (Text e.1) ∧ completes child e.2) es →
  StronglySorted key_lt es → Forall (above previous) es →
  bt_wf m0 → keys_below previous m0 → 0 ≤ pos →
  pos + len (concat (map encoded_entry es)) ≤ MAX_CANONICAL_OUTPUT_BYTES →
  parse_entries child (length es) (mk_parser (concat (map encoded_entry es) ++ r) pos)
    previous m0 =
  Ok (bt_extend m0 es, mk_parser r (pos + len (concat (map encoded_entry es)))).
Proof.
  induction es as [|[k c] es IH]; intros pos prev m0 HF Hs Ha Hwf Hb Hp Hlen; simpl in *.
  - by rewrite len_nil, Z.add_0_r.
  - inversion_clear HF as [|? ? [Hk Hc] Hes]. inversion_clear Hs as [|? ? Hs' Hlt].
    inversion_clear Ha as [|? ? Hak Ha']. cbn [fst snd] in Hk, Hc.
    change (encoded_entry (k, c)) with (cbor_bytes (Text k) ++ cbor_bytes c) in *.
    rewrite len_app, (len_app (cbor_bytes (Text k))) in Hlen.
    rewrite len_app, (len_app (cbor_bytes (Text k))).
    pose proof (len_nonneg (cbor_bytes (Text k))). pose proof (len_nonneg (cbor_bytes c)).
    pose proof (len_nonneg (concat (map encoded_entry es))).
    rewrite <- !app_assoc, Hk by lia. cbn [mbind result_bind position rest].
    assert (∀ y : list Z, take (Z.to_nat (pos + len (cbor_bytes (Text k)) - pos))
              (cbor_bytes (Text k) ++ y) = key_bytes k) as Htake.
    { intros y. unfold len. rewrite Z.add_simpl_l, Nat2Z.id. apply take_app_length. }
    rewrite Htake. replace (is_some_and _ prev) with false
      by (destruct prev; simpl in *; [symmetry; by apply olt_oleb|done]).
    rewrite Hc by lia. cbn [mbind result_bind].
    rewrite (fresh_above prev m0 k c) by done. rewrite IH; try done.
    + by rewrite !Z.add_assoc.
    + by apply bt_wf_insert.
    + by eapply keys_below_insert.
    + lia.
    + lia.
Qed.
End complete_loops.

(** The first step of [parse] on an encoded head. *)
Lemma parse_head_step levels major arg r pos :
  0 ≤ major ≤ 7 → 0 ≤ arg ≤ u64_max → 0 ≤ pos ≤ MAX_CANONICAL_OUTPUT_BYTES →
  ∃ initial p,
    parse (S levels) (mk_parser (head_bytes major arg ++ r) pos) =
      parse (S levels) (mk_parser (initial :: rest p) pos) ∧
    position p = pos + 1 ∧ Z.shiftr initial 5 = major ∧
    read_argument p (Z.land initial 0x1f) =
      Ok (arg, mk_parser r (pos + len (head_bytes major arg))).
Proof.
  intros Hm Ha Hp. pose proof max_output_u64.
  destruct (read_head_complete major arg r pos) as (i & t & E & Hi & R); [done|done|lia|].
  exists i, (mk_parser (t ++ r) (pos + 1)). rewrite E in *. by simpl.
Qed.

(** Map entries listed by increasing encoded key. *)
Definition by_encoded_key (m : btree text CanonicalNode) : btree text CanonicalNode :=
  sort_by (λ a b, oleb (key_bytes a.1) (key_bytes b.1)) m.

Lemma by_encoded_key_sorted m :
  bt_wf m → Forall (λ e, len (key_bytes e.1) ≤ MAX_CANONICAL_OUTPUT_BYTES) m →
  Permutation m (by_encoded_key m) ∧ StronglySorted key_lt (by_encoded_key m) ∧
  bt_extend [] (by_encoded_key m) = m.
Proof.
  intros Hwf Hk. pose proof (sort_by_perm (λ a b, oleb (key_bytes a.1) (key_bytes b.1)) m) as HP.
  split_and!; [done|..].
  - apply (sort_by_key_strict (λ e : text * CanonicalNode, key_bytes e.1)).
    rewrite <- (map_map fst key_bytes). apply NoDup_fmap_2_strong; [|by apply bt_wf_NoDup].
    pose proof max_output_u64. rewrite Forall_forall in Hk.
    assert (∀ k, k ∈ bt_keys m → len k ≤ u64_max) as Hlen.
    { intros k Hin. apply list_elem_of_In, in_map_iff in Hin as (e & <- & He).
      apply list_elem_of_In, Hk in He. unfold key_bytes in He. rewrite len_app in He.
      pose proof (head_bytes_pos 3 (len e.1)). lia. }
    intros k k' Hin Hin'. apply key_bytes_inj; by apply Hlen.
  - apply bt_perm_eq; [apply bt_wf_extend; constructor|done|].
    unfold by_encoded_key. rewrite bt_extend_perm; simpl; [by symmetry|].
    unfold bt_keys. rewrite <- HP. by apply bt_wf_NoDup.
Qed.

(** Rewrites [parse] on an encoded head into the continuation after it. *)
Ltac parse_head :=
  match goal with
  | |- parse (S ?levels) (mk_parser (head_bytes ?major ?arg ++ ?r) ?pos) = _ =>
      let i := fresh "i" in let q := fresh "q" in
      let E := fresh "E" in let P := fresh "P" in let Esh := fresh "Esh" in let R := fresh "R" in
      destruct (parse_head_step levels major arg r pos) as (i & q & E & P & Esh & R);
      [lia|lia|lia|];
      let qp := fresh "qp" in
      rewrite E; destruct q as [q qp]; simpl in P; subst qp;
      cbn -[Z.shiftr Z.land]; rewrite Esh; cbn -[Z.land Z.leb Z.ltb Z.to_nat];
      unfold parse_map, read_length; rewrite R;
      cbn -[Z.land Z.leb Z.ltb Z.to_nat]
  end.

Lemma read_length_try v maximum :
  0 ≤ v ≤ maximum → maximum ≤ u64_max →
  try_from u64_max v = Some v ∧ (maximum <? v) = false.
Proof. intros. unfold try_from. destruct (Z.leb_spec v u64_max), (Z.ltb_spec maximum v); lia || done. Qed.

Lemma parse_unsigned_complete levels u :
  0 ≤ u ≤ u64_max → completes (parse (S levels)) (Unsigned u).
Proof.
  intros Hu r pos Hp Hlen. cbn [cbor_bytes] in *. pose proof (head_bytes_pos 0 u).
  parse_head. done.
Qed.

Lemma parse_negative_complete levels i :
  i64_min ≤ i → i < 0 → completes (parse (S levels)) (Negative i).
Proof.
  intros Hi Hneg r pos Hp Hlen. cbn [cbor_bytes] in *. pose proof (head_bytes_pos 1 (-1 - i)).
  assert (0 ≤ -1 - i ≤ u64_max) by (unfold i64_min, u64_max in *; lia).
  parse_head. replace (-1 - (-1 - i)) with i by lia.
  destruct (Z.ltb_spec i i64_min); [lia|done].
Qed.

Lemma parse_bytes_complete levels bs : completes (parse (S levels)) (Bytes bs).
Proof.
  intros r pos Hp Hlen. pose proof max_output_u64. cbn [cbor_bytes] in *. rewrite len_app in *.
  pose proof (head_bytes_pos 2 (len bs)). pose proof (len_nonneg bs).
  rewrite <- app_assoc. parse_head.
  destruct (read_length_try (len bs) MAX_CANONICAL_OUTPUT_BYTES) as [-> Hlt]; [lia|lia|].
  simpl. rewrite Hlt. cbn [mbind result_bind]. rewrite read_exact_app by lia.
  simpl. by rewrite Z.add_assoc.
Qed.

Lemma parse_text_complete levels s :
  utf8_valid s = true → completes (parse (S levels)) (Text s).
Proof.
  intros U r pos Hp Hlen. pose proof max_output_u64. cbn [cbor_bytes] in *. rewrite len_app in *.
  pose proof (head_bytes_pos 3 (len s)). pose proof (len_nonneg s).
  rewrite <- app_assoc. parse_head.
  destruct (read_length_try (len s) MAX_CANONICAL_OUTPUT_BYTES) as [-> Hlt]; [lia|lia|].
  simpl. rewrite Hlt. cbn [mbind result_bind]. rewrite read_exact_app by lia.
  simpl. by rewrite U, Z.add_assoc.
Qed.

Lemma parse_array_complete levels l :
  len l ≤ MAX_CANONICAL_ARRAY_ITEMS → Forall (completes (parse levels)) l →
  completes (parse (S levels)) (Array l).
Proof.
  intros Hl HF r pos Hp Hlen. pose proof max_output_u64.
  cbn [cbor_bytes] in *. rewrite len_app in *. pose proof (head_bytes_pos 4 (len l)).
  pose proof (len_nonneg l). pose proof (len_nonneg (concat (map cbor_bytes l))).
  assert (MAX_CANONICAL_ARRAY_ITEMS ≤ u64_max) by by vm_compute.
  rewrite <- app_assoc. parse_head.
  destruct (read_length_try (len l) MAX_CANONICAL_ARRAY_ITEMS) as [-> Hlt]; [lia|lia|].
  simpl. rewrite Hlt. cbn [mbind result_bind].
  replace (Z.to_nat (len l)) with (length l) by (unfold len; lia).
  rewrite parse_items_complete; [|done|lia|lia]. simpl. by rewrite Z.add_assoc.
Qed.

Lemma parse_map_complete levels m :
  len m ≤ MAX_CANONICAL_MAP_ENTRIES → bt_wf m →
  Forall (λ e, completes (parse levels) (Text e.1) ∧ completes (parse levels) e.2) m →
  completes (parse (S levels)) (Map m).
Proof.
  intros Hl Hwf HF r pos Hp Hlen. pose proof max_output_u64.
  assert (Forall (λ e, len (key_bytes e.1) ≤ MAX_CANONICAL_OUTPUT_BYTES) m) as Hk.
  { apply dec_stable. intros Hn%long_key_overflow. lia. }
  destruct (by_encoded_key_sorted m) as (HP & Hs & Hext); [done|done|].
  remember (by_encoded_key m) as es eqn:Ees. clear Ees.
  assert (len m = len es) as Hlm by (unfold len; by rewrite (Permutation_length HP)).
  rewrite (map_bytes_sorted m es HP Hs) in *. rewrite len_app in *.
  pose proof (head_bytes_pos 5 (len es)). pose proof (len_nonneg es).
  pose proof (len_nonneg (concat (map encoded_entry es))).
  assert (MAX_CANONICAL_MAP_ENTRIES ≤ u64_max) by by vm_compute.
  rewrite <- app_assoc. parse_head.
  destruct (read_length_try (len es) MAX_CANONICAL_MAP_ENTRIES) as [-> Hlt]; [lia|lia|].
  simpl. rewrite Hlt. cbn [mbind result_bind].
  replace (Z.to_nat (len es)) with (length es) by (unfold len; lia).
  rewrite parse_entries_complete; try (done || lia || constructor).
  - rewrite Hext. simpl. by rewrite Z.add_assoc.
  - by rewrite <- HP.
  - by apply Forall_true.
Qed.

Lemma parse_complete n : ∀ depth levels,
  (depth + levels = S MAX_CANONICAL_DEPTH)%nat → node_ok n → fits depth n = true →
  completes (parse levels) n.
Proof.
  induction n as [b|u|i|bs|s|l IH|m IH] using node_induction;
    intros depth levels Hd Hok Hfit;
    (destruct levels as [|levels]; [simpl in Hfit; apply andb_true_iff in Hfit as [Hf _];
       apply Nat.leb_le in Hf; unfold MAX_CANONICAL_DEPTH in *; lia|]);
    inversion Hok; subst; clear Hok; cbn [fits] in Hfit; apply andb_true_iff in Hfit as [_ Hfit].
  - intros r pos _ _. destruct b; reflexivity.
  - by apply parse_unsigned_complete.
  - bsplit. apply parse_negative_complete; lia.
  - apply parse_bytes_complete.
  - by apply parse_text_complete.
  - apply andb_true_iff in Hfit as [Hl Hf]. apply Z.leb_le in Hl.
    apply parse_array_complete; [done|]. rewrite forallb_forall in Hf.
    rewrite Forall_forall in *. intros n Hn.
    apply (IH n Hn (S depth)); [lia|auto|]. apply Hf. by apply list_elem_of_In.
  - apply andb_true_iff in Hfit as [Hl Hf]. apply Z.leb_le in Hl.
    apply parse_map_complete; [done|done|]. rewrite forallb_forall in Hf.
    unfold bt_values in H2. apply Forall_map in H1. apply (Forall_map snd node_ok) in H2. rewrite !Forall_forall in *.
    intros [k c] Hin. assert (fits (S depth) c = true) as Hc
      by (apply (Hf (k, c)); by apply list_elem_of_In).
    split; [|by apply (IH (k, c) Hin (S depth)); [lia|apply (H2 (k, c))|]].
    destruct levels as [|levels].
    + destruct c; simpl in Hc; apply andb_true_iff in Hc as [Hc _];
        apply Nat.leb_le in Hc; unfold MAX_CANONICAL_DEPTH in *; lia.
    + apply parse_text_complete. by apply (H1 (k, c)).
Qed.

(** ** Theorems on deterministic CBOR *)


Lemma to_deterministic_cbor_ok n b : node_ok n →
  to_deterministic_cbor n = Ok b ↔
  b = cbor_bytes n ∧ fits 1 n = true ∧ len b ≤ MAX_CANONICAL_OUTPUT_BYTES.
Proof.
  intros Hok. unfold to_deterministic_cbor. rewrite encode_cbor_emit; [|by vm_compute|done].
  unfold emit. rewrite len_nil, Z.add_0_l. split.
  - case_match eqn:E; [|done]. intros [= <-]. by bsplit.
  - intros (-> & -> & Hl). simpl.
    by destruct (Z.leb_spec (len (cbor_bytes n)) MAX_CANONICAL_OUTPUT_BYTES); [|lia].
Qed.

Lemma from_deterministic_cbor_parse input n p :
  Forall byte_ok input → len input ≤ MAX_CANONICAL_INPUT_BYTES →
  parse MAX_CANONICAL_DEPTH (mk_parser input 0) = Ok (n, p) → position p = len input →
  node_ok n ∧ to_deterministic_cbor n = Ok input.
Proof.
  intros Hb Hl Hparse Hpos. apply (parse_sound _ 1) in Hparse as (E & P & N & F); [|done|done].
  simpl in *. split; [done|]. apply to_deterministic_cbor_ok; [done|].
  assert (rest p = []) as Hr.
  { apply len_zero. apply (f_equal len) in E. rewrite len_app in E. lia. }
  rewrite Hr, app_nil_r in E. subst input. split_and!; [done|done|].
  by unfold MAX_CANONICAL_INPUT_BYTES, MAX_CANONICAL_OUTPUT_BYTES in *.
Qed.

Lemma from_deterministic_cbor_complete n b :
  node_ok n → to_deterministic_cbor n = Ok b → from_deterministic_cbor b = Ok n.
Proof.
  intros Hok Hto. pose proof Hto as Hto'. apply to_deterministic_cbor_ok in Hto as (-> & F & L); [|done].
  unfold from_deterministic_cbor.
  destruct (Z.ltb_spec MAX_CANONICAL_INPUT_BYTES (len (cbor_bytes n)));
    [unfold MAX_CANONICAL_INPUT_BYTES, MAX_CANONICAL_OUTPUT_BYTES in *; lia|].
  pose proof (parse_complete n 1 MAX_CANONICAL_DEPTH eq_refl Hok F [] 0) as Hp.
  rewrite app_nil_r, Z.add_0_l in Hp. rewrite Hp by (done || lia).
  cbn [mbind result_bind position]. by rewrite Z.eqb_refl, Hto'; simpl; rewrite oeqb_refl.
Qed.

(** C1: the strict decoder is exactly the inverse of the encoder. It returns [n]
    on a byte string if and only if [n] is a value of the node type and the
    byte string is the deterministic encoding of [n]; in particular decoding an
    encoding gives the value back, and nothing else is accepted. *)
Theorem from_deterministic_cbor_iff input n :
  Forall byte_ok input →
  from_deterministic_cbor input = Ok n ↔ node_ok n ∧ to_deterministic_cbor n = Ok input.
Proof.
  intros Hb. split; [|intros [Hok Hto]; by apply from_deterministic_cbor_complete].
  unfold from_deterministic_cbor.
  destruct (Z.ltb_spec MAX_CANONICAL_INPUT_BYTES (len input)); [done|].
  intros H0. inv_ok H0. destruct a as [v p].
  destruct (Z.eqb_spec (position p) (len input)); [|done]. simpl in H0.
  inv_ok H0. destruct (oeqb a input); [|done]. injection H0 as <-.
  by eapply from_deterministic_cbor_parse.
Qed.

(** C23: the single-pass parser alone already rejects every non-canonical byte
    string: when it accepts the whole input, the re-encoding comparison that
    follows it always succeeds, so it can never turn an accepted parse into an
    error. *)
Theorem reencode_check_redundant input n p :
  Forall byte_ok input → len input ≤ MAX_CANONICAL_INPUT_BYTES →
  parse MAX_CANONICAL_DEPTH (mk_parser input 0) = Ok (n, p) → position p = len input →
  from_deterministic_cbor input = Ok n.
Proof.
  intros Hb Hl Hparse Hpos.
  destruct (from_deterministic_cbor_parse input n p) as [Hok Hto]; try done.
  by apply from_deterministic_cbor_complete.
Qed.

(** ** Witnesses *)

Definition sample_node : CanonicalNode :=
  Map [([97], Array [Unsigned 300; Boolean true]); ([98; 98], Negative (-5));
       ([99], Bytes [0; 255])].

Definition sample_bytes : list Z :=
  [0xa3; 0x61; 97; 0x82; 0x19; 1; 44; 0xf5; 0x61; 99; 0x42; 0; 255; 0x62; 98; 98; 0x24].

Lemma sample_node_ok : node_ok sample_node.
Proof.
  constructor; simpl.
  - repeat constructor.
  - repeat constructor; unfold byte_ok; lia.
  - repeat constructor; unfold byte_ok, u64_max, i64_min, i64_max; lia.
Qed.

Lemma sample_bytes_ok : Forall byte_ok sample_bytes.
Proof. repeat constructor; unfold byte_ok; lia. Qed.


Lemma from_deterministic_cbor_iff_witness :
  from_deterministic_cbor sample_bytes = Ok sample_node.
Proof.
  apply (from_deterministic_cbor_iff sample_bytes sample_node sample_bytes_ok).
  split; [exact sample_node_ok|vm_compute; reflexivity].
Defined.

Lemma reencode_check_redundant_witness :
  from_deterministic_cbor sample_bytes = Ok sample_node.
Proof.
  apply (reencode_check_redundant sample_bytes sample_node (mk_parser [] 17) sample_bytes_ok).
  - vm_compute. discriminate.
  - vm_compute. reflexivity.
  - vm_compute. reflexivity.
Defined.
