(* ===== verification/CanonDigest.v ===== *)
(** * Strict JSON, semantic envelopes and digest preimages: proofs

    What the strict JSON visitor accepts, which fields an envelope covers, and
    that distinct (profile, envelope) pairs never share signing bytes. *)

From S2P Require Import Prelude Collections Canon CanonFacts.
From Stdlib Require Import Sorting.Permutation Sorting.Sorted.
Local Open Scope Z_scope.
Set Warnings "-register-all".
Import Canon.

(** ** Strict JSON *)

(** What the Rust types promise of the values [serde_json] hands over: numbers
    in range of their type, strings that are UTF-8. *)
Inductive stream_ok : JsonStream → Prop :=
| sok_null : stream_ok JNull
| sok_bool b : stream_ok (JBool b)
| sok_u64 n : 0 ≤ n ≤ u64_max → stream_ok (JU64 n)
| sok_i64 n : i64_min ≤ n ≤ i64_max → stream_ok (JI64 n)
| sok_f64 : stream_ok JF64
| sok_str s : key_ok s → stream_ok (JStr s)
| sok_seq l closed : Forall stream_ok l → stream_ok (JSeq l closed)
| sok_map l closed :
    Forall (λ e, key_ok e.1) l → Forall stream_ok (map snd l) → stream_ok (JMap l closed)
| sok_invalid : stream_ok JInvalid.

(** A node of the Rust type within the limits at its depth. *)
Definition good (depth : nat) (n : CanonicalNode) : Prop := node_ok n ∧ fits depth n = true.

Section stream_induction.
Context (P : JsonStream → Prop).
Context (Hleaf : ∀ s, (∀ l c, s ≠ JSeq l c) → (∀ l c, s ≠ JMap l c) → P s).
Context (Hseq : ∀ l c, Forall P l → P (JSeq l c)).
Context (Hmap : ∀ (l : list (text * JsonStream)) c, Forall (λ e, P e.2) l → P (JMap l c)).

Fixpoint stream_induction (s : JsonStream) : P s.
Proof.
  destruct s as [|b|n|n| |s|l c|l c|].
  1,2,3,4,5,6,9: by apply Hleaf.
  - apply Hseq. induction l as [|x l IH]; constructor; [apply stream_induction|exact IH].
  - apply Hmap. induction l as [|[k x] l IH]; constructor; [apply stream_induction|exact IH].
Defined.
End stream_induction.

Section visit_loops.
Context (depth : nat) (closed : bool).
Context (Hd : (depth <=? MAX_CANONICAL_DEPTH)%nat = true).

Definition visits_good (s : JsonStream) : Prop :=
  ∀ n, visit (S depth) s = Ok n → good (S depth) n.

Lemma visit_seq_good items : ∀ values n,
  Forall visits_good items → Forall (good (S depth)) values →
  len values ≤ MAX_CANONICAL_ARRAY_ITEMS →
  (fix visit_seq (items : list JsonStream) (values : list CanonicalNode) :=
     match items with
     | [] => if closed then Ok (Array values) else Err InvalidInput
     | item :: items' =>
         value ← visit (S depth) item;
         if len values =? MAX_CANONICAL_ARRAY_ITEMS then Err LimitExceeded
         else visit_seq items' (values ++ [value])
     end) items values = Ok n → good depth n.
Proof.
  induction items as [|s items IH]; intros values n Hv Hg Hl H.
  - destruct closed; [|done]. injection H as <-. unfold good in *. cbn [fits].
    rewrite Hd. apply Forall_and in Hg as [Hok Hf]. split; [by constructor|].
    simpl. apply andb_true_iff. split; [by apply Z.leb_le|].
    apply forallb_forall. rewrite Forall_forall in Hf. intros x Hx.
    apply Hf. by apply list_elem_of_In.
  - inversion_clear Hv as [|? ? Hs Hi]. inv_ok H.
    destruct (Z.eqb_spec (len values) MAX_CANONICAL_ARRAY_ITEMS); [done|].
    apply IH in H; [done|done|..].
    + apply Forall_app. split; [done|]. constructor; [by apply Hs|constructor].
    + rewrite len_app, len_cons, len_nil. lia.
Qed.

Definition map_good (m : btree text CanonicalNode) : Prop :=
  bt_wf m ∧ Forall (λ e, key_ok e.1 ∧ good (S depth) e.2) m.

Lemma map_good_insert k c m :
  bt_get k m = None → key_ok k → good (S depth) c → map_good m → map_good (bt_insert k c m).
Proof.
  intros Hn Hk Hc [Hwf Hm]. split; [by apply bt_wf_insert|].
  rewrite bt_insert_fresh_perm by done. by constructor.
Qed.

Lemma map_good_node m :
  map_good m → len m ≤ MAX_CANONICAL_MAP_ENTRIES → good depth (Map m).
Proof.
  intros [Hwf Hm] Hl. unfold good. cbn [fits]. rewrite Hd. simpl. split.
  - apply (entries_node_ok depth m m); [done|done|].
    eapply Forall_impl; [exact Hm|]. intros e (? & ? & ?). by split_and!.
  - rewrite (entries_fits depth m m); [|done|].
    + rewrite andb_true_r. by apply Z.leb_le.
    + eapply Forall_impl; [exact Hm|]. intros e (? & ? & ?). by split_and!.
Qed.

Lemma visit_map_good entries : ∀ values n,
  Forall (λ e, key_ok e.1 ∧ visits_good e.2) entries → map_good values →
  len values ≤ MAX_CANONICAL_MAP_ENTRIES →
  (fix visit_map (entries : list (text * JsonStream)) (values : btree text CanonicalNode) :=
     match entries with
     | [] => if closed then Ok (Map values) else Err InvalidInput
     | (key, item) :: entries' =>
         if len values =? MAX_CANONICAL_MAP_ENTRIES then Err LimitExceeded
         else if bt_mem key values then Err DuplicateKey
         else
           value ← visit (S depth) item;
           visit_map entries' (bt_insert key value values)
     end) entries values = Ok n → good depth n.
Proof.
  induction entries as [|[k s] entries IH]; intros values n Hv Hg Hl H.
  - destruct closed; [|done]. injection H as <-. by apply map_good_node.
  - inversion_clear Hv as [|? ? [Hk Hs] Hi].
    destruct (Z.eqb_spec (len values) MAX_CANONICAL_MAP_ENTRIES); [done|].
    destruct (bt_mem k values) eqn:Em; [done|]. apply bt_mem_false in Em.
    inv_ok H. apply IH in H; [done|done|..].
    + apply map_good_insert; [done|done|by apply Hs|done].
    + unfold len. rewrite (Permutation_length (bt_insert_fresh_perm k a values Em)).
      simpl. unfold len in *. lia.
Qed.
End visit_loops.

Lemma visit_good s : ∀ depth n, stream_ok s → visit depth s = Ok n → good depth n.
Proof.
  induction s as [s Hs Hm|l c IH|l c IH] using stream_induction; intros depth n Hok H.
  - destruct s; cbn [visit] in H; (destruct (_ <? depth)%nat eqn:Ed; [done|]);
      rewrite Nat.ltb_antisym in Ed; apply negb_false_iff in Ed;
      inversion Hok; subst; try done; try (by destruct (Hs items closed));
      try (by destruct (Hm entries closed)).
    + injection H as <-. split; [constructor|]. cbn [fits]. by rewrite Ed.
    + injection H as <-. split; [by constructor|]. cbn [fits]. by rewrite Ed.
    + destruct (Z.ltb_spec n0 0); injection H as <-; (split; [constructor|cbn [fits]; rewrite Ed]).
      * done.
      * simpl. by apply Z.ltb_lt.
      * unfold i64_max, u64_max in *. lia.
      * done.
    + injection H as <-. destruct H1. split; [by constructor|]. cbn [fits]. by rewrite Ed.
  - cbn [visit] in H. destruct (_ <? depth)%nat eqn:Ed; [done|].
    rewrite Nat.ltb_antisym in Ed. apply negb_false_iff in Ed. inversion Hok; subst.
    eapply visit_seq_good; [done| | | |exact H]; [|constructor|by vm_compute].
    rewrite Forall_forall in *. intros s Hs m. apply IH; auto.
  - cbn [visit] in H. destruct (_ <? depth)%nat eqn:Ed; [done|].
    rewrite Nat.ltb_antisym in Ed. apply negb_false_iff in Ed. inversion Hok; subst.
    eapply visit_map_good; [done| | | |exact H]; [|repeat constructor|by vm_compute].
    apply (Forall_map snd stream_ok) in H3. rewrite !Forall_forall in *.
    intros e He. split; [auto|]. intros m. apply IH; auto.
Qed.

(** ** Semantic envelopes *)

Definition digested_fields (profile : SemanticEnvelopeProfile)
    (fields : btree text CanonicalNode) : btree text CanonicalNode :=
  fold_left (λ m f, bt_remove f m) (excluded_fields profile) fields.

Section envelopes.
Context (json_read : list Z → JsonStream * bool).
Context (json_read_ok : ∀ input, stream_ok (json_read input).1).

Lemma parse_strict_json_good input n :
  parse_strict_json json_read input = Ok n → good 1 n.
Proof.
  unfold parse_strict_json. destruct (_ <? _); [done|].
  pose proof (json_read_ok input) as Hok. destruct (json_read input) as [s e].
  intros H. inv_ok H. destruct e; [|done]. injection H as <-. by apply (visit_good s).
Qed.

Lemma envelope_ok profile record e :
  semantic_envelope_v1 json_read profile record = Ok e →
  ∃ json fields, record = Some json ∧ parse_strict_json json_read json = Ok (Map fields) ∧
    e = Array [Unsigned (profile_tag profile); Map (digested_fields profile fields)].
Proof.
  unfold semantic_envelope_v1. destruct record as [json|]; simpl; [|done].
  destruct (parse_strict_json json_read json) as [n|] eqn:E; simpl; [|done].
  destruct n; try done. intros [= <-]. eauto.
Qed.

Lemma envelope_node_ok profile record e :
  semantic_envelope_v1 json_read profile record = Ok e → node_ok e.
Proof.
  intros (json & fields & -> & Hj & ->)%envelope_ok.
  apply parse_strict_json_good in Hj as [Hn _]. inversion Hn as [| | | | | |m Hwf Hk Hv]; subst.
  constructor. constructor; [constructor; destruct profile; by vm_compute|].
  constructor; [|constructor]. unfold digested_fields.
  apply (Forall_map fst) in Hk. apply (Forall_map snd) in Hv.
  constructor; [by apply bt_wf_removes|..]; apply Forall_map;
    (eapply sublist_Forall; [apply bt_removes_sublist|done]).
Qed.

Lemma profile_tag_inj p q : profile_tag p = profile_tag q → p = q.
Proof. by destruct p, q. Qed.

(** C20: the semantic envelope of a record is its profile tag and all its
    fields but the excluded ones: two records of the same profile have the
    same envelope exactly when they agree on every field that is not
    excluded, and records of different profiles never do. *)
Theorem semantic_envelope_iff profile profile' json json' fields fields' :
  parse_strict_json json_read json = Ok (Map fields) →
  parse_strict_json json_read json' = Ok (Map fields') →
  semantic_envelope_v1 json_read profile (Some json) =
    semantic_envelope_v1 json_read profile' (Some json') ↔
  profile = profile' ∧
  ∀ k, k ∉ excluded_fields profile → bt_get k fields = bt_get k fields'.
Proof.
  intros Hj Hj'. unfold semantic_envelope_v1. simpl. rewrite Hj, Hj'. simpl.
  apply parse_strict_json_good in Hj as [Hn _], Hj' as [Hn' _].
  inversion Hn; inversion Hn'; subst. split.
  - intros [= Htag%profile_tag_inj Hf]. subst profile'. split; [done|]. intros k Hk.
    apply (f_equal (bt_get k)) in Hf. by rewrite !bt_removes_out in Hf.
  - intros [<- Hag]. do 5 f_equal. apply bt_ext; [by apply bt_wf_removes..|].
    intros k. destruct (decide (k ∈ excluded_fields profile)) as [Hin|Hout].
    + by rewrite !bt_removes_in.
    + rewrite !bt_removes_out by done. by apply Hag.
Qed.
End envelopes.

(** ** Digest preimages *)

Lemma separator_split d d' p p' :
  separator d ++ 0 :: p = separator d' ++ 0 :: p' → d = d' ∧ p = p'.
Proof.
  destruct d, d'; vm_compute; intros H; (by simplify_eq) || (simplify_eq; done).
Qed.

(** C26: the digest preimage determines its domain and its payload: no two
    (domain, canonical payload) pairs are hashed as the same byte string, so a
    digest of one artifact kind is never by construction that of another. *)
Theorem domain_message_inj d d' p p' :
  domain_message d p = domain_message d' p' → d = d' ∧ p = p'.
Proof.
  unfold domain_message. intros H. apply separator_split in H as [-> H].
  split; [done|]. by injection H.
Qed.

Lemma digest_domain_inj p q : digest_domain p = digest_domain q → p = q.
Proof. by destruct p, q. Qed.

Lemma signing_bytes_ok json_read profile record b :
  semantic_signing_bytes_v1 json_read profile record = Ok b →
  ∃ e c, semantic_envelope_v1 json_read profile record = Ok e ∧
    to_deterministic_cbor e = Ok c ∧ b = domain_message (digest_domain profile) c ∧
    len b < MAX_CANONICAL_OUTPUT_BYTES.
Proof.
  unfold semantic_signing_bytes_v1. intros H. inv_ok H. inv_ok H. inv_ok H.
  destruct (Z.ltb_spec MAX_CANONICAL_OUTPUT_BYTES a1); [done|]. injection H as <-.
  exists a, a0. split_and!; [done|done|done|].
  destruct (checked_add _ _ _ ≫= _) as [c|] eqn:Ec in Hok1; simpl in Hok1; [|done].
  injection Hok1 as <-. unfold checked_add in Ec. destruct (_ <=? u64_max); simpl in Ec; [|done].
  destruct (_ <=? u64_max); [|done]. injection Ec as <-.
  unfold domain_message. autorewrite with cigar. simpl. lia.
Qed.

(** C13: a signature binds the profile and the whole envelope: two records yield
    the same signing bytes only when they have the same profile and the same
    envelope. *)
Theorem signing_bytes_binding json_read profile profile' record record' b :
  (∀ input, stream_ok (json_read input).1) →
  semantic_signing_bytes_v1 json_read profile record = Ok b →
  semantic_signing_bytes_v1 json_read profile' record' = Ok b →
  profile = profile' ∧
  semantic_envelope_v1 json_read profile record =
    semantic_envelope_v1 json_read profile' record'.
Proof.
  intros Hread (e & c & He & Hc & -> & _)%signing_bytes_ok
    (e' & c' & He' & Hc' & Hb & _)%signing_bytes_ok.
  apply separator_split in Hb as [Hd%digest_domain_inj Hb]. injection Hb as <-.
  split; [done|]. rewrite He, He'. f_equal.
  apply envelope_node_ok in He, He'; [|done..].
  apply from_deterministic_cbor_complete in Hc, Hc'; [|done..]. congruence.
Qed.

(** ** Witnesses *)

(** A reader that sees [{"a":1,"receipt_id":"r"}] on a non-empty input that
    starts with byte 0, the same record under another identifier when it starts
    with 1, and invalid JSON elsewhere. *)
Definition sample_read (input : list Z) : JsonStream * bool :=
  match input with
  | 0 :: _ => (JMap [([97], JU64 1); (str_bytes "receipt_id", JStr [114])] true, true)
  | 1 :: _ => (JMap [(str_bytes "receipt_id", JStr [115]); ([97], JU64 1)] true, true)
  | _ => (JInvalid, true)
  end.

Lemma sample_read_ok input : stream_ok (sample_read input).1.
Proof.
  unfold sample_read. repeat case_match; simpl; repeat constructor;
    unfold byte_ok, u64_max; lia.
Qed.

Lemma domain_message_inj_witness : DAtom = DAtom ∧ [1; 2] = [1; 2].
Proof. apply (domain_message_inj DAtom DAtom [1; 2] [1; 2]). reflexivity. Defined.

Definition sample_fields (id : Z) : btree text CanonicalNode :=
  [([97], Unsigned 1); (str_bytes "receipt_id", Text [id])].

Lemma semantic_envelope_iff_witness :
  semantic_envelope_v1 sample_read PReceipt (Some [0]) =
  semantic_envelope_v1 sample_read PReceipt (Some [1]).
Proof.
  apply (semantic_envelope_iff sample_read sample_read_ok PReceipt PReceipt [0] [1]
           (sample_fields 114) (sample_fields 115)).
  - vm_compute. reflexivity.
  - vm_compute. reflexivity.
  - split; [reflexivity|]. intros k Hk. unfold sample_fields.
    change (bt_get k (bt_insert [97] (Unsigned 1) [(str_bytes "receipt_id", Text [114])]) =
            bt_get k (bt_insert [97] (Unsigned 1) [(str_bytes "receipt_id", Text [115])])).
    simpl. destruct (oeqb k [97]); [reflexivity|].
    destruct (oeqb k (str_bytes "receipt_id")) eqn:E; [|].
    + apply oeqb_eq in E. destruct Hk. rewrite E. by left.
    + unfold str_bytes in E; simpl in E. rewrite E. reflexivity.
Defined.

Lemma signing_bytes_binding_witness :
  PReceipt = PReceipt ∧
  semantic_envelope_v1 sample_read PReceipt (Some [0]) =
  semantic_envelope_v1 sample_read PReceipt (Some [1]).
Proof.
  eapply (signing_bytes_binding sample_read PReceipt PReceipt (Some [0]) (Some [1])).
  - exact sample_read_ok.
  - vm_compute. reflexivity.
  - vm_compute. reflexivity.
Defined.
