(* ===== verification/BrokerAuth.v ===== *)
(** * Broker handshake: crates/cigar-context/src/broker/authentication.rs

    Grant identities, hexadecimal secrets and the mutual challenge-response
    between an agent and the broker. Strings are lists of bytes. SHA-256,
    HMAC-SHA-256 and the operating system's randomness are third-party: the two
    functions are parameters, and each random identifier is an argument holding
    the outcome of its [getrandom::fill]. *)

From S2P Require Import Prelude Collections Canon CanonFacts.
Local Open Scope Z_scope.
Set Warnings "-register-all".

Module Auth.

Abbreviation text := (list Z).

(** broker/types.rs; [Context] carries the existing context error. *)
Inductive BrokerError :=
| AccessDenied | Stale | Conflict | Quota | InvalidInput | Unavailable | Context_.

Abbreviation res := (result BrokerError).

Definition BROKER_PROTOCOL : text := str_bytes "cigar.context-broker.v1".

Record BrokerCredential := mk_credential { epoch : text; secret : text }.

Record ClientHello := mk_hello {
  h_protocol : text; h_epoch : text; h_grant_id : text; h_nonce : text }.

Record ServerProof := mk_server_proof {
  s_protocol : text; s_epoch : text; s_grant_id : text;
  s_client_nonce : text; s_server_nonce : text; s_proof : text }.

Record ClientProof := mk_client_proof { c_protocol : text; c_proof : text }.

(** ** Hexadecimal *)

Definition is_ascii_digit (b : Z) : bool := (48 <=? b) && (b <=? 57).
Definition is_lower_hex (b : Z) : bool := (97 <=? b) && (b <=? 102).

Definition canonical_hex (text : text) : bool :=
  (len text =? 64) && forallb (λ byte, is_ascii_digit byte || is_lower_hex byte) text.

(** [char::to_digit(16)]. *)
Definition hex_value (b : Z) : option Z :=
  if is_ascii_digit b then Some (b - 48)
  else if is_lower_hex b then Some (b - 87)
  else if (65 <=? b) && (b <=? 70) then Some (b - 55)
  else None.

(** [u8::from_str_radix(digits, 16)] on a two-byte string. *)
Definition from_str_radix (first second : Z) : option Z :=
  if first =? 43 then hex_value second
  else a ← hex_value first; b ← hex_value second; Some (16 * a + b).

(** The loop over [text.as_bytes().chunks_exact(2)]. *)
Fixpoint unhex_pairs (text : text) : res (list Z) :=
  match text with
  | first :: second :: rest =>
      value ← ok_or (from_str_radix first second) AccessDenied;
      values ← unhex_pairs rest;
      Ok (value :: values)
  | _ => Ok []
  end.

Definition unhex (text : text) : res (list Z) :=
  if negb (canonical_hex text) then Err AccessDenied else unhex_pairs text.

(** broker/mod.rs [hex]: [{byte:02x}] of every byte. *)
Definition hex (bytes : list Z) : text := concat (map Canon.hex_byte bytes).

(** broker/mod.rs [random_id]: [None] when the system has no randomness. *)
Definition random_id (entropy : option (list Z)) : res text :=
  bytes ← ok_or entropy Unavailable; Ok (hex bytes).

(** ** The handshake *)

Definition valid (hello : ClientHello) : bool :=
  oeqb (h_protocol hello) BROKER_PROTOCOL && canonical_hex (h_epoch hello) &&
  canonical_hex (h_grant_id hello) && canonical_hex (h_nonce hello).

Definition matches (hello : ClientHello) (server : ServerProof) : bool :=
  valid hello && oeqb (s_protocol server) BROKER_PROTOCOL &&
  oeqb (s_epoch server) (h_epoch hello) && oeqb (s_grant_id server) (h_grant_id hello) &&
  oeqb (s_client_nonce server) (h_nonce hello) &&
  canonical_hex (s_server_nonce server) && canonical_hex (s_proof server).

Definition server_domain : list Z := str_bytes "cigar.broker-server-proof.v1" ++ [0].
Definition client_domain : list Z := str_bytes "cigar.broker-client-proof.v1" ++ [0].

(** The bytes fed to the MAC. *)
Definition mac_message (domain : list Z) (proof : ServerProof) : list Z :=
  domain ++ s_epoch proof ++ s_grant_id proof ++ s_client_nonce proof ++ s_server_nonce proof.

Section handshake.
(** [Sha256] and [Hmac<Sha256>] (which takes keys of any length). *)
Context (sha256 : list Z → list Z) (hmac : list Z → list Z → list Z).

Definition grant_id (credential : BrokerCredential) : res text :=
  if negb (canonical_hex (epoch credential)) || negb (canonical_hex (secret credential))
  then Err AccessDenied
  else Ok (hex (sha256 (str_bytes "cigar.broker-grant-id.v1" ++ [0] ++
                        epoch credential ++ secret credential))).

Definition hello_new (credential : BrokerCredential) (entropy : option (list Z)) : res ClientHello :=
  grant ← grant_id credential;
  nonce ← random_id entropy;
  Ok (mk_hello BROKER_PROTOCOL (epoch credential) grant nonce).

(** [ServerKey(Zeroizing<[u8; 32]>)] is its key bytes. *)
Definition server_key_new (credential : BrokerCredential) : res (list Z) :=
  unhex (secret credential).

Definition mac (key domain : list Z) (proof : ServerProof) : list Z :=
  hmac key (mac_message domain proof).

Definition prove (key : list Z) (hello : ClientHello) (entropy : option (list Z)) : res ServerProof :=
  if negb (valid hello) then Err AccessDenied else
  nonce ← random_id entropy;
  let proof := mk_server_proof BROKER_PROTOCOL (h_epoch hello) (h_grant_id hello)
                 (h_nonce hello) nonce [] in
  Ok (mk_server_proof BROKER_PROTOCOL (h_epoch hello) (h_grant_id hello)
        (h_nonce hello) nonce (hex (mac key server_domain proof))).

Definition verify_server (hello : ClientHello) (credential : BrokerCredential)
    (server : ServerProof) : res ClientProof :=
  if negb (oeqb (h_epoch hello) (epoch credential)) then Err AccessDenied else
  grant ← grant_id credential;
  if negb (oeqb (h_grant_id hello) grant) || negb (matches hello server)
  then Err AccessDenied else
  key ← server_key_new credential;
  tag ← unhex (s_proof server);
  if negb (oeqb (mac key server_domain server) tag) then Err AccessDenied else
  Ok (mk_client_proof BROKER_PROTOCOL (hex (mac key client_domain server))).

Definition verify_client (key : list Z) (hello : ClientHello) (server : ServerProof)
    (client : ClientProof) : res BrokerCredential :=
  if negb (matches hello server) || negb (oeqb (c_protocol client) BROKER_PROTOCOL)
  then Err AccessDenied else
  tag ← unhex (c_proof client);
  if negb (oeqb (mac key client_domain server) tag) then Err AccessDenied else
  Ok (mk_credential (h_epoch hello) (hex key)).
End handshake.

(** ** Proofs: hexadecimal *)

Import CanonFacts.

Lemma hex_digit_value d : 0 ≤ d < 16 →
  hex_value (Canon.hex_digit d) = Some d ∧
  is_ascii_digit (Canon.hex_digit d) || is_lower_hex (Canon.hex_digit d) = true ∧
  Canon.hex_digit d ≠ 43.
Proof.
  intros Hd. assert (d ∈ [0;1;2;3;4;5;6;7;8;9;10;11;12;13;14;15]) as Hin
    by (rewrite !elem_of_cons; lia).
  revert Hin. rewrite !elem_of_cons, elem_of_nil.
  intros H; repeat destruct H as [->|H]; [by vm_compute..|done].
Qed.

Lemma hex_byte_split b : byte_ok b → 0 ≤ b / 16 < 16 ∧ 0 ≤ b mod 16 < 16.
Proof.
  unfold byte_ok. intros Hb. split; [|apply Z.mod_pos_bound; lia].
  split; [apply Z.div_pos; lia|apply Z.div_lt_upper_bound; lia].
Qed.

Lemma unhex_pairs_hex bs : Forall byte_ok bs → unhex_pairs (hex bs) = Ok bs.
Proof.
  induction 1 as [|b bs Hb _ IH]; [done|].
  destruct (hex_byte_split b Hb) as [Hh Hl].
  apply hex_digit_value in Hh as (Eh & _ & Nh), Hl as (El & _ & _).
  unfold hex; simpl. unfold from_str_radix. destruct (Z.eqb_spec (Canon.hex_digit (b / 16)) 43); [done|].
  rewrite Eh, El. simpl. fold (hex bs). rewrite IH. simpl. f_equal. f_equal.
  pose proof (Z.div_mod b 16 ltac:(lia)). lia.
Qed.

Lemma hex_canonical bs : Forall byte_ok bs → len bs = 32 → canonical_hex (hex bs) = true.
Proof.
  intros Hb Hl. unfold canonical_hex. apply andb_true_iff. split.
  - apply Z.eqb_eq. assert (len (hex bs) = 2 * len bs) as ->; [|lia]. clear.
    unfold hex. induction bs as [|b bs IH]; [done|]. simpl. autorewrite with cigar. lia.
  - clear Hl. induction Hb as [|b bs Hb _ IH]; [done|].
    destruct (hex_byte_split b Hb) as [Hh Hl].
    apply hex_digit_value in Hh as (_ & Eh & _), Hl as (_ & El & _).
    unfold hex; simpl. rewrite Eh, El. exact IH.
Qed.

Lemma unhex_hex bs : Forall byte_ok bs → len bs = 32 → unhex (hex bs) = Ok bs.
Proof. intros Hb Hl. unfold unhex. rewrite hex_canonical by done. by apply unhex_pairs_hex. Qed.

Lemma hex_value_digit c v :
  is_ascii_digit c || is_lower_hex c = true → hex_value c = Some v →
  0 ≤ v < 16 ∧ Canon.hex_digit v = c.
Proof.
  unfold hex_value, is_ascii_digit, is_lower_hex, Canon.hex_digit. intros Hc.
  repeat case_match; intros [= <-]; bsplit; split; try lia; exfalso;
    repeat match goal with H : _ && _ = false |- _ => apply andb_false_iff in H end;
    apply orb_true_iff in Hc; bsplit; rewrite ?andb_true_iff in Hc; bsplit; lia.
Qed.

Lemma unhex_pairs_total n : ∀ t, length t = (2 * n)%nat →
  forallb (λ byte, is_ascii_digit byte || is_lower_hex byte) t = true →
  ∃ bs, unhex_pairs t = Ok bs ∧ hex bs = t ∧ Forall byte_ok bs ∧ length bs = n.
Proof.
  induction n as [|n IH]; intros t Hl Hc.
  - destruct t; [|done]. by exists [].
  - destruct t as [|a [|b t]]; simpl in Hl; [lia|lia|].
    simpl in Hc. apply andb_true_iff in Hc as [Ha Hc]. apply andb_true_iff in Hc as [Hb Hc].
    destruct (IH t) as (bs & E & Eh & Hok & Hlen); [lia|done|].
    assert (a ≠ 43) as Hne by (intros ->; done).
    assert (∀ c, is_ascii_digit c || is_lower_hex c = true → ∃ v, hex_value c = Some v) as Hv.
    { intros c. unfold hex_value. destruct (is_ascii_digit c), (is_lower_hex c); eauto; done. }
    destruct (Hv a Ha) as [x Hx], (Hv b Hb) as [y Hy].
    destruct (hex_value_digit a x) as [Hxr <-]; [done..|].
    destruct (hex_value_digit b y) as [Hyr <-]; [done..|].
    exists (16 * x + y :: bs). simpl. unfold from_str_radix. rewrite Hx, Hy.
    destruct (Z.eqb_spec (Canon.hex_digit x) 43); [done|]. simpl. rewrite E. simpl.
    split_and!; [done| |constructor; [unfold byte_ok; lia|done]|lia].
    unfold hex; simpl. rewrite (Z.mul_comm 16), Z.div_add_l, (Z.add_comm _ y), Z.mod_add by lia.
    rewrite (Z.div_small y), (Z.mod_small y), Z.add_0_r by lia. by rewrite <- Eh at 1.
Qed.

Lemma unhex_total t : canonical_hex t = true →
  ∃ bs, unhex t = Ok bs ∧ hex bs = t ∧ Forall byte_ok bs ∧ len bs = 32.
Proof.
  intros Hc. unfold unhex. rewrite Hc. unfold canonical_hex in Hc. bsplit.
  destruct (unhex_pairs_total 32 t) as (bs & ? & ? & ? & ?); [unfold len in *; lia|done|].
  exists bs. unfold len. split_and!; try done. lia.
Qed.

Lemma unhex_ok t bs : unhex t = Ok bs → hex bs = t ∧ Forall byte_ok bs ∧ len bs = 32.
Proof.
  intros H. assert (canonical_hex t = true) as Hc
    by (unfold unhex in H; destruct (canonical_hex t); done).
  destruct (unhex_total t Hc) as (bs' & E & ?). rewrite E in H. by injection H as <-.
Qed.

(** ** Proofs: the handshake *)

Section handshake_facts.
Context (sha256 : list Z → list Z) (hmac : list Z → list Z → list Z).

Definition digest_ok (d : list Z) : Prop := Forall byte_ok d ∧ len d = 32.

(** SHA-256 and its MAC return 32 bytes. *)
Context (sha_ok : ∀ m, digest_ok (sha256 m)) (hmac_ok : ∀ k m, digest_ok (hmac k m)).

Lemma grant_id_ok c g : grant_id sha256 c = Ok g →
  canonical_hex (epoch c) = true ∧ canonical_hex (secret c) = true ∧ canonical_hex g = true.
Proof.
  unfold grant_id. destruct (canonical_hex (epoch c)), (canonical_hex (secret c)); try done.
  simpl. intros [= <-]. split_and!; try done. destruct (sha_ok (str_bytes "cigar.broker-grant-id.v1"
    ++ [0] ++ epoch c ++ secret c)). by apply hex_canonical.
Qed.

Lemma unhex_hex_digest d : digest_ok d → unhex (hex d) = Ok d.
Proof. intros [? ?]. by apply unhex_hex. Qed.

(** C29: the mutual handshake completes for the holder of the registered secret:
    with fresh challenges, the broker's proof verifies at the client, and the
    client's answer authenticates it as exactly its own credential. *)
Theorem handshake_round_trip credential nonce server_nonce :
  is_ok (grant_id sha256 credential) = true → digest_ok nonce → digest_ok server_nonce →
  ∃ key hello server client,
    server_key_new credential = Ok key ∧
    hello_new sha256 credential (Some nonce) = Ok hello ∧
    prove hmac key hello (Some server_nonce) = Ok server ∧
    verify_server sha256 hmac hello credential server = Ok client ∧
    verify_client hmac key hello server client = Ok credential.
Proof.
  intros Hg [Hn Hnl] [Hs Hsl]. destruct (grant_id sha256 credential) as [g|] eqn:Eg; [|done].
  destruct (grant_id_ok _ _ Eg) as (He & Hsec & Hgc).
  destruct (unhex_total _ Hsec) as (key & Ekey & Hkey & _ & _).
  pose proof (hex_canonical _ Hn Hnl) as Cn. pose proof (hex_canonical _ Hs Hsl) as Cs.
  set (hello := mk_hello BROKER_PROTOCOL (epoch credential) g (hex nonce)).
  assert (valid hello = true) as Hvalid
    by (unfold valid, hello; cbn [h_protocol h_epoch h_grant_id h_nonce];
        by rewrite oeqb_refl, He, Hgc, Cn).
  set (tag := mac hmac key server_domain
    (mk_server_proof BROKER_PROTOCOL (epoch credential) g (hex nonce) (hex server_nonce) [])).
  set (server := mk_server_proof BROKER_PROTOCOL (epoch credential) g (hex nonce)
                   (hex server_nonce) (hex tag)).
  assert (digest_ok tag) as [Ht Htl] by apply hmac_ok.
  assert (matches hello server = true) as Hmatch.
  { unfold matches. rewrite Hvalid. unfold server, hello.
    cbn [h_epoch h_grant_id h_nonce s_protocol s_epoch s_grant_id s_client_nonce
         s_server_nonce s_proof].
    rewrite !oeqb_refl, Cs. simpl. by apply hex_canonical. }
  exists key, hello, server, (mk_client_proof BROKER_PROTOCOL (hex (mac hmac key client_domain server))).
  split_and!.
  - done.
  - unfold hello_new. rewrite Eg. done.
  - unfold prove. rewrite Hvalid. done.
  - unfold verify_server. simpl. rewrite oeqb_refl, Eg. simpl. rewrite oeqb_refl, Hmatch. simpl.
    unfold server_key_new. rewrite Ekey. simpl. rewrite unhex_hex by done. simpl.
    by rewrite oeqb_refl.
  - unfold verify_client. rewrite Hmatch. cbn [c_protocol c_proof]. rewrite oeqb_refl. simpl.
    rewrite unhex_hex_digest by apply hmac_ok. simpl. rewrite oeqb_refl. simpl.
    rewrite Hkey. by destruct credential.
Qed.

(** Equal-length concatenations split uniquely. *)
Lemma app_inj_len {A} (a b c d : list A) : len a = len b → a ++ c = b ++ d → a = b ∧ c = d.
Proof. intros Hl. apply app_inj_1. unfold len in Hl. lia. Qed.

Lemma canonical_len t : canonical_hex t = true → len t = 64.
Proof. unfold canonical_hex. intros. by bsplit. Qed.

Lemma verify_client_ok key hello server client credential :
  verify_client hmac key hello server client = Ok credential →
  matches hello server = true ∧ c_proof client = hex (mac hmac key client_domain server) ∧
  credential = mk_credential (h_epoch hello) (hex key).
Proof.
  unfold verify_client. destruct (matches hello server); [|done]. simpl.
  destruct (oeqb (c_protocol client) BROKER_PROTOCOL); [|done]. simpl. intros H.
  inv_ok H. destruct (oeqb (mac hmac key client_domain server) a) eqn:E; [|done].
  apply oeqb_eq in E as <-. injection H as <-. by apply unhex_ok in Hok as [<- _].
Qed.
End handshake_facts.

(** C28: a proof is bound to its role, grant, epoch and both challenges. No MAC
    input of the client role is one of the server role, and two accepted
    handshakes whose MAC inputs for the same role coincide agree on all four
    fields, so neither a reflected proof nor one of an older connection is the
    expected one. *)
Theorem mac_message_binding hello hello' server server' :
  matches hello server = true → matches hello' server' = true →
  mac_message client_domain server ≠ mac_message server_domain server' ∧
  (∀ domain, mac_message domain server = mac_message domain server' →
   s_epoch server = s_epoch server' ∧ s_grant_id server = s_grant_id server' ∧
   s_client_nonce server = s_client_nonce server' ∧
   s_server_nonce server = s_server_nonce server').
Proof.
  unfold matches, valid. intros H H'. bsplit.
  repeat match goal with E : oeqb _ _ = true |- _ => apply oeqb_eq in E end.
  split; [intros E; discriminate E|]. unfold mac_message. intros domain E.
  apply app_inv_head in E.
  repeat match goal with E : canonical_hex _ = true |- _ => apply canonical_len in E end.
  apply app_inj_len in E as [E1 E]; [|congruence].
  apply app_inj_len in E as [E2 E]; [|congruence].
  apply app_inj_len in E as [E3 E]; [|congruence]. done.
Qed.

(** ** Witnesses *)

Definition constant_digest (bs : list Z) : list Z := replicate 32 (len bs mod 256).

Lemma constant_digest_ok m : digest_ok (constant_digest m).
Proof.
  split; [|done]. apply Forall_replicate. unfold byte_ok. apply Z.mod_pos_bound. lia.
Qed.

Definition sample_credential : BrokerCredential :=
  mk_credential (replicate 64 101) (replicate 64 97).

Lemma handshake_round_trip_witness :
  ∃ key hello server client,
    server_key_new sample_credential = Ok key ∧
    hello_new constant_digest sample_credential (Some (constant_digest [])) = Ok hello ∧
    prove (λ k m, constant_digest (k ++ m)) key hello (Some (constant_digest [0])) = Ok server ∧
    verify_server constant_digest (λ k m, constant_digest (k ++ m)) hello sample_credential server
      = Ok client ∧
    verify_client (λ k m, constant_digest (k ++ m)) key hello server client = Ok sample_credential.
Proof.
  apply (handshake_round_trip constant_digest (λ k m, constant_digest (k ++ m))
           constant_digest_ok (λ k m, constant_digest_ok (k ++ m))).
  - vm_compute. reflexivity.
  - apply constant_digest_ok.
  - apply constant_digest_ok.
Defined.

Definition sample_hello : ClientHello :=
  mk_hello BROKER_PROTOCOL (replicate 64 101) (replicate 64 98) (replicate 64 48).

Definition sample_server (nonce : Z) : ServerProof :=
  mk_server_proof BROKER_PROTOCOL (replicate 64 101) (replicate 64 98) (replicate 64 48)
    (replicate 64 nonce) (replicate 64 48).

Lemma mac_message_binding_witness :
  mac_message client_domain (sample_server 49) ≠ mac_message server_domain (sample_server 50) ∧
  mac_message server_domain (sample_server 49) ≠ mac_message server_domain (sample_server 50).
Proof.
  destruct (mac_message_binding sample_hello sample_hello (sample_server 49) (sample_server 50)) as [Hroles Hfields];
    [vm_compute; reflexivity|vm_compute; reflexivity|].
  split; [exact Hroles|]. intros E. apply Hfields in E as (_ & _ & _ & E). vm_compute in E. discriminate E.
Defined.

End Auth.
