(* ===== verification/Scheduler.v ===== *)
(** * Broker scheduler: crates/cigar-context/src/broker/scheduler.rs

    Bounded admission, round-robin dispatch between agents and the host, and the
    cancellation cells shared with connection handlers.

    The atomic cells ([Arc<AtomicU8>]) live in [World] and are shared by index,
    so a handler's [Cancellation] and the queued job alias the same cell. Every
    [Instant::now()] is a fresh reading of the world's clock; instants and
    durations are nanosecond counts. *)

From S2P Require Import Prelude Collections BrokerAuth.
Local Open Scope Z_scope.
Set Warnings "-register-all".
Import Auth.

Module Scheduler.

Definition QUEUED : Z := 0.
Definition DISPATCHED : Z := 1.
Definition FINISHED : Z := 2.
Definition CANCELLED : Z := 3.

Definition MAX_LIFETIME_MS : Z := 86400000.

(** ** The shared world *)

Record World := mk_world { cells : list Z; clock : nat → Z; ticks : nat }.

(** [Instant::now()]. *)
Definition now (w : World) : Z * World :=
  (clock w (ticks w), mk_world (cells w) (clock w) (S (ticks w))).

(** [Arc::new(AtomicU8::new(v))]. *)
Definition alloc (v : Z) (w : World) : nat * World :=
  (length (cells w), mk_world (cells w ++ [v]) (clock w) (ticks w)).

Definition load (c : nat) (w : World) : Z := default CANCELLED (cells w !! c).

(** [compare_exchange(expected, new)]: [Ok]/[Err] with the value read. *)
Definition compare_exchange (c : nat) (expected new : Z) (w : World) : result Z Z * World :=
  if load c w =? expected
  then (Ok (load c w), mk_world (<[c := new]> (cells w)) (clock w) (ticks w))
  else (Err (load c w), w).

(** [Cancellation::cancel]. *)
Definition cancel (c : nat) (w : World) : bool * World :=
  match compare_exchange c QUEUED CANCELLED w with
  | (Ok _, w) => (true, w)
  | (Err v, w) => (v =? CANCELLED, w)
  end.

(** ** Data *)

Record QueueLimits := mk_queue_limits {
  max_agents : Z; max_agent_jobs : Z; max_agent_bytes : Z;
  max_host_jobs : Z; max_host_bytes : Z; max_wait_ms : Z }.

Definition default_queue_limits : QueueLimits :=
  mk_queue_limits 128 1024 (32 * 1024 * 1024) 8 (32 * 1024 * 1024) 30000.

Record AgentQueueLimits := mk_agent_limits { max_jobs : Z; max_bytes : Z }.

Definition default_agent_limits : AgentQueueLimits := mk_agent_limits 8 (4 * 1024 * 1024).

Inductive DispatchStatus := Ready | Expired | Cancelled.
#[global] Instance DispatchStatus_eq : EqDecision DispatchStatus.
Proof. solve_decision. Defined.

Section scheduler.
Context {T : Type}.

Record Queued := mk_queued {
  payload : T; q_bytes : Z; enqueued : Z; q_expires : Z; cancellation : nat }.

Record Scheduled := mk_scheduled {
  s_payload : option T; status : DispatchStatus; delay : Z; s_cancellation : nat }.

Record Lane := mk_lane {
  agent : text; key : list Z; l_limits : AgentQueueLimits; l_expires : Z;
  jobs : list Queued; l_bytes : Z }.

Record BrokerScheduler := mk_scheduler {
  b_epoch : text; limits : QueueLimits; lanes : btree text Lane;
  active : list text; host : list Queued; host_bytes : Z; host_turn : bool }.

(** [Scheduled::take] and [impl Drop for Scheduled]. *)
Definition take_payload (s : Scheduled) : option T * Scheduled :=
  (s_payload s, mk_scheduled None (status s) (delay s) (s_cancellation s)).
Definition drop_scheduled (s : Scheduled) (w : World) : World :=
  snd (compare_exchange (s_cancellation s) DISPATCHED FINISHED w).

(** The last instant the platform represents. *)
Context (instant_max : Z).

(** broker/mod.rs [deadline]. *)
Definition deadline (ms : Z) (w : World) : res Z * World :=
  let '(t, w) := now w in
  (if t + ms * 1000000 <=? instant_max then Ok (t + ms * 1000000) else Err InvalidInput, w).

(** graph.rs [valid_id]. *)
Definition is_ascii_graphic (b : Z) : bool := (33 <=? b) && (b <=? 126).
Definition valid_id (id : text) : bool :=
  negb (len id =? 0) && (len id <=? 128) && forallb is_ascii_graphic id.

Definition is_ascii_hexdigit (b : Z) : bool :=
  is_ascii_digit b || is_lower_hex b || ((65 <=? b) && (b <=? 70)).

Definition dispatch (queued : Queued) (w : World) : Scheduled * World :=
  let '(t, w) := now w in
  let c := cancellation queued in
  let '(st, w) :=
    if load c w =? CANCELLED then (Cancelled, w)
    else if q_expires queued <=? t then (Expired, snd (cancel c w))
    else match compare_exchange c QUEUED DISPATCHED w with
         | (Ok _, w) => (Ready, w)
         | (Err _, w) => (Cancelled, w)
         end in
  (mk_scheduled (Some (payload queued)) st (Z.max 0 (t - enqueued queued)) c, w).

(** ** Operations *)

Definition new (epoch : text) (l : QueueLimits) : res BrokerScheduler :=
  if negb (len epoch =? 64) || negb (forallb is_ascii_hexdigit epoch)
     || (max_agents l =? 0) || (128 <? max_agents l)
     || (max_agent_jobs l <? 2) || (65536 <? max_agent_jobs l)
     || (max_agent_bytes l <? 2) || (1024 * 1024 * 1024 <? max_agent_bytes l)
     || (max_host_jobs l =? 0) || (128 <? max_host_jobs l)
     || (max_host_bytes l =? 0) || (1024 * 1024 * 1024 <? max_host_bytes l)
     || (max_wait_ms l =? 0) || (MAX_LIFETIME_MS <? max_wait_ms l)
  then Err InvalidInput
  else Ok (mk_scheduler epoch l [] [] [] 0 true).

Definition validate_lane_limits (s : BrokerScheduler) (l : AgentQueueLimits) : res unit :=
  if (max_jobs l =? 0) || (max_agent_jobs (limits s) / 2 <? max_jobs l)
     || (max_bytes l =? 0) || (max_agent_bytes (limits s) / 2 <? max_bytes l)
  then Err InvalidInput else Ok tt.

Definition validate_job (s : BrokerScheduler) (bytes wait_ms : Z) : res unit :=
  if (bytes =? 0) || (wait_ms =? 0) || (max_wait_ms (limits s) <? wait_ms)
  then Err InvalidInput else Ok tt.

(** [job.cancellation.cancel()] then [dispatch(job)], over a queue. *)
Fixpoint cancel_jobs (queue : list Queued) (w : World) : list Scheduled * World :=
  match queue with
  | [] => ([], w)
  | job :: rest =>
      let '(_, w) := cancel (cancellation job) w in
      let '(scheduled, w) := dispatch job w in
      let '(out, w) := cancel_jobs rest w in
      (scheduled :: out, w)
  end.

Definition remove_lane (k : text) (s : BrokerScheduler) (w : World)
    : list Scheduled * BrokerScheduler * World :=
  let active' := List.filter (λ a, negb (oeqb a k)) (active s) in
  let s' := mk_scheduler (b_epoch s) (limits s) (bt_remove k (lanes s)) active'
              (host s) (host_bytes s) (host_turn s) in
  match bt_get k (lanes s) with
  | None => ([], s', w)
  | Some lane => let '(out, w) := cancel_jobs (jobs lane) w in (out, s', w)
  end.

(** [keys.into_iter().flat_map(|key| self.remove_lane(&key)).collect()]. *)
Fixpoint remove_lanes (ks : list text) (s : BrokerScheduler) (w : World)
    : list Scheduled * BrokerScheduler * World :=
  match ks with
  | [] => ([], s, w)
  | k :: ks' =>
      let '(out, s, w) := remove_lane k s w in
      let '(out', s, w) := remove_lanes ks' s w in
      (out ++ out', s, w)
  end.

(** [lanes.iter().find(|(_, lane)| lane.agent == agent)]. *)
Definition find_agent (name : text) (s : BrokerScheduler) : option text :=
  fst <$> List.find (λ kl, oeqb (agent kl.2) name) (lanes s).

Definition host_revoke (name : text) (s : BrokerScheduler) (w : World)
    : list Scheduled * BrokerScheduler * World :=
  match find_agent name s with
  | None => ([], s, w)
  | Some k => remove_lane k s w
  end.

Section keyed.
Context (sha256 : list Z → list Z) (hmac : list Z → list Z → list Z).

Definition credential_key (s : BrokerScheduler) (c : BrokerCredential) : res text :=
  if negb (oeqb (epoch c) (b_epoch s)) then Err AccessDenied else grant_id sha256 c.

Definition insert_lane (k : text) (lane : Lane) (s : BrokerScheduler) : BrokerScheduler :=
  mk_scheduler (b_epoch s) (limits s) (bt_insert k lane (lanes s)) (active s)
    (host s) (host_bytes s) (host_turn s).

Definition host_register (name : text) (c : BrokerCredential) (l : AgentQueueLimits)
    (lease_ms : Z) (s : BrokerScheduler) (w : World)
    : res (list Scheduled) * BrokerScheduler * World :=
  match (_ ← validate_lane_limits s l;
         _ ← ensure (valid_id name && negb (lease_ms =? 0) && (lease_ms <=? MAX_LIFETIME_MS))
               InvalidInput;
         k ← credential_key s c;
         server_key ← server_key_new c;
         Ok (k, server_key)) with
  | Err e => (Err e, s, w)
  | Ok (k, server_key) =>
      let previous := find_agent name s in
      if bt_mem k (lanes s) ||
         (negb (is_some_and (λ _, true) previous) && (max_agents (limits s) <=? len (lanes s)))
      then (Err Quota, s, w)
      else
        match deadline lease_ms w with
        | (Err e, w) => (Err e, s, w)
        | (Ok expires, w) =>
            let '(cancelled, s, w) :=
              match previous with
              | None => ([], s, w)
              | Some k' => remove_lane k' s w
              end in
            (Ok cancelled, insert_lane k (mk_lane name server_key l expires [] 0) s, w)
        end
  end.

Definition handshake_lane (s : BrokerScheduler) (hello : ClientHello) (w : World)
    : res Lane * World :=
  if negb (valid hello) || negb (oeqb (h_epoch hello) (b_epoch s)) then (Err AccessDenied, w) else
  match bt_get (h_grant_id hello) (lanes s) with
  | None => (Err AccessDenied, w)
  | Some lane =>
      let '(t, w) := now w in
      (if t <? l_expires lane then Ok lane else Err AccessDenied, w)
  end.

Definition server_proof (s : BrokerScheduler) (hello : ClientHello)
    (entropy : option (list Z)) (w : World) : res ServerProof * World :=
  let '(lane, w) := handshake_lane s hello w in
  (lane ← lane; prove hmac (key lane) hello entropy, w).

Definition authenticate_client (s : BrokerScheduler) (hello : ClientHello)
    (server : ServerProof) (client : ClientProof) (w : World) : res BrokerCredential * World :=
  let '(lane, w) := handshake_lane s hello w in
  (lane ← lane;
   c ← verify_client hmac (key lane) hello server client;
   grant ← grant_id sha256 c;
   if negb (oeqb grant (h_grant_id hello)) then Err AccessDenied else Ok c, w).

(** The fold over all lanes: queued jobs and bytes of agents. *)
Definition agent_totals (s : BrokerScheduler) : Z * Z :=
  fold_left (λ '(j, b) lane, (j + len (jobs lane), b + l_bytes lane)) (bt_values (lanes s)) (0, 0).

Definition enqueue_agent (c : BrokerCredential) (p : T) (encoded_bytes wait_ms : Z)
    (s : BrokerScheduler) (w : World) : res nat * BrokerScheduler * World :=
  match (_ ← validate_job s encoded_bytes wait_ms; credential_key s c) with
  | Err e => (Err e, s, w)
  | Ok k =>
    match bt_get k (lanes s) with
    | None => (Err AccessDenied, s, w)
    | Some lane =>
      let '(t, w) := now w in
      if negb (t <? l_expires lane) then (Err AccessDenied, s, w) else
      let '(total_jobs, total_bytes) := agent_totals s in
      if (max_agent_jobs (limits s) <=? total_jobs)
         || (max_agent_bytes (limits s) - total_bytes <? encoded_bytes)
         || (max_jobs (l_limits lane) <=? len (jobs lane))
         || (max_bytes (l_limits lane) - l_bytes lane <? encoded_bytes)
      then (Err Quota, s, w)
      else
        match deadline wait_ms w with
        | (Err e, w) => (Err e, s, w)
        | (Ok d, w) =>
            let expires := Z.min d (l_expires lane) in
            let '(cell, w) := alloc QUEUED w in
            let '(t', w) := now w in
            let lane' := mk_lane (agent lane) (key lane) (l_limits lane) (l_expires lane)
                           (jobs lane ++ [mk_queued p encoded_bytes t' expires cell])
                           (l_bytes lane + encoded_bytes) in
            let active' := match jobs lane with [] => active s ++ [k] | _ => active s end in
            (Ok cell,
             mk_scheduler (b_epoch s) (limits s) (bt_insert k lane' (lanes s)) active'
               (host s) (host_bytes s) (host_turn s), w)
        end
    end
  end.
End keyed.

Definition enqueue_host (p : T) (encoded_bytes wait_ms : Z) (s : BrokerScheduler) (w : World)
    : res nat * BrokerScheduler * World :=
  match validate_job s encoded_bytes wait_ms with
  | Err e => (Err e, s, w)
  | Ok _ =>
      if (max_host_jobs (limits s) <=? len (host s))
         || (max_host_bytes (limits s) - host_bytes s <? encoded_bytes)
      then (Err Quota, s, w)
      else
        let '(cell, w) := alloc QUEUED w in
        let '(t, w) := now w in
        match deadline wait_ms w with
        | (Err e, w) => (Err e, s, w)
        | (Ok d, w) =>
            (Ok cell,
             mk_scheduler (b_epoch s) (limits s) (lanes s) (active s)
               (host s ++ [mk_queued p encoded_bytes t d cell])
               (host_bytes s + encoded_bytes) (host_turn s), w)
        end
  end.

(** The choice and removal of the next queued job in [pop]. *)
Definition pop_queued (s : BrokerScheduler) : option Queued * BrokerScheduler :=
  if negb (bool_decide (host s = [])) && (host_turn s || bool_decide (active s = [])) then
    match host s with
    | [] => (None, mk_scheduler (b_epoch s) (limits s) (lanes s) (active s) [] (host_bytes s) false)
    | queued :: host' =>
        (Some queued,
         mk_scheduler (b_epoch s) (limits s) (lanes s) (active s) host'
           (host_bytes s - q_bytes queued) false)
    end
  else
    match active s with
    | [] => (None, s)
    | k :: active' =>
        let unserved := mk_scheduler (b_epoch s) (limits s) (lanes s) active'
                          (host s) (host_bytes s) true in
        match bt_get k (lanes s) with
        | None => (None, unserved)
        | Some lane =>
            match jobs lane with
            | [] => (None, unserved)
            | queued :: jobs' =>
                let lane' := mk_lane (agent lane) (key lane) (l_limits lane) (l_expires lane)
                               jobs' (l_bytes lane - q_bytes queued) in
                let active' := match jobs' with [] => active' | _ => active' ++ [k] end in
                (Some queued,
                 mk_scheduler (b_epoch s) (limits s) (bt_insert k lane' (lanes s)) active'
                   (host s) (host_bytes s) true)
            end
        end
    end.

Definition pop (s : BrokerScheduler) (w : World) : option Scheduled * BrokerScheduler * World :=
  match pop_queued s with
  | (None, s) => (None, s, w)
  | (Some queued, s) => let '(scheduled, w) := dispatch queued w in (Some scheduled, s, w)
  end.

(** [len] and [is_empty]. *)
Definition queue_len (s : BrokerScheduler) : Z :=
  len (host s) + fold_right Z.add 0 (map (λ lane, len (jobs lane)) (bt_values (lanes s))).
Definition is_empty (s : BrokerScheduler) : bool := queue_len s =? 0.

Definition host_prune (s : BrokerScheduler) (w : World)
    : list Scheduled * BrokerScheduler * World :=
  let '(t, w) := now w in
  remove_lanes (bt_keys (List.filter (λ kl, l_expires kl.2 <=? t) (lanes s))) s w.

Definition host_drain (s : BrokerScheduler) (w : World)
    : list Scheduled * BrokerScheduler * World :=
  let '(out, s, w) := remove_lanes (bt_keys (lanes s)) s w in
  let '(out', w) := cancel_jobs (host s) w in
  (out ++ out',
   mk_scheduler (b_epoch s) (limits s) (lanes s) (active s) [] 0 (host_turn s), w).

(** [impl Drop for BrokerScheduler]: the cells left behind. *)
Definition drop_scheduler (s : BrokerScheduler) (w : World) : World :=
  fold_left (λ w job, snd (cancel (cancellation job) w))
    (host s ++ concat (map jobs (bt_values (lanes s)))) w.

End scheduler.
Arguments Queued : clear implicits.
Arguments Scheduled : clear implicits.
Arguments Lane : clear implicits.
Arguments BrokerScheduler : clear implicits.

End Scheduler.
