(* ===== verification/SchedulerFacts.v ===== *)
(** * Broker scheduler: invariant, conservation, cancellation, fairness

    The life of a cancellation cell and the race of [cancel] with [dispatch]; the
    invariant of a scheduler and what each operation does to the queued jobs;
    runs of any operations of any callers; bounded waiting along such runs; the
    lanes that authenticate. *)

From S2P Require Import Prelude Collections BrokerAuth Scheduler.
From Stdlib Require Import Sorting.Permutation Sorting.Sorted.
Local Open Scope Z_scope.
Set Warnings "-register-all".
Import Auth Scheduler.

(** ** Cells

    The life of a cancellation cell: it leaves [QUEUED] once, to [CANCELLED] or
    to [DISPATCHED], and [DISPATCHED] only becomes [FINISHED]. *)

Inductive cell_le : Z → Z → Prop :=
| cell_refl v : cell_le v v
| cell_cancel : cell_le QUEUED CANCELLED
| cell_dispatch : cell_le QUEUED DISPATCHED
| cell_finish : cell_le DISPATCHED FINISHED
| cell_run : cell_le QUEUED FINISHED.

Lemma cell_le_trans a b c : cell_le a b → cell_le b c → cell_le a c.
Proof. intros H1 H2. inversion H1; subst; inversion H2; subst; constructor. Qed.

(** The cells only grow and each follows its life. *)
Definition world_le (w w' : World) : Prop :=
  ∀ c v, cells w !! c = Some v → ∃ v', cells w' !! c = Some v' ∧ cell_le v v'.

#[global] Instance world_le_preorder : PreOrder world_le.
Proof.
  split.
  - intros w c v Hv. exists v. split; [done|constructor].
  - intros w1 w2 w3 H12 H23 c v (v' & Hv' & L)%H12. apply H23 in Hv' as (v'' & Hv'' & L').
    exists v''. split; [done|]. by eapply cell_le_trans.
Qed.

Lemma load_Some c v w : cells w !! c = Some v → load c w = v.
Proof. unfold load. by intros ->. Qed.

Lemma now_cells w : cells (now w).2 = cells w.
Proof. done. Qed.

Lemma world_le_cells w w' : cells w' = cells w → world_le w w'.
Proof. intros E c v Hv. exists v. rewrite E. split; [done|constructor]. Qed.

Lemma alloc_le v w : world_le w (alloc v w).2.
Proof.
  intros c u Hu. exists u. split; [|constructor]. simpl. by apply lookup_app_l_Some.
Qed.

Lemma compare_exchange_le c a b w :
  cell_le a b → world_le w (compare_exchange c a b w).2.
Proof.
  intros Hab. unfold compare_exchange. destruct (Z.eqb_spec (load c w) a) as [E|E]; [|done].
  intros d v Hv. simpl. destruct (decide (d = c)) as [->|Hne].
  - exists b. rewrite list_lookup_insert_eq by (by eapply lookup_lt_Some).
    apply load_Some in Hv. split; [done|]. by replace v with a by congruence.
  - exists v. rewrite list_lookup_insert_ne by done. split; [done|constructor].
Qed.

Lemma cancel_le c w : world_le w (cancel c w).2.
Proof.
  unfold cancel. pose proof (compare_exchange_le c QUEUED CANCELLED w cell_cancel).
  by destruct (compare_exchange c QUEUED CANCELLED w) as [[]].
Qed.

(** [cancel] reports success exactly when the cell ends up cancelled. *)
Lemma cancel_spec c w v : cells w !! c = Some v →
  (cancel c w).1 = true ↔ cells (cancel c w).2 !! c = Some CANCELLED.
Proof.
  intros Hv. unfold cancel, compare_exchange. rewrite (load_Some _ _ _ Hv).
  destruct (Z.eqb_spec v QUEUED) as [->|Hne]; simpl.
  - by rewrite list_lookup_insert_eq by (by eapply lookup_lt_Some).
  - rewrite Hv, Z.eqb_eq. split; congruence.
Qed.

(** A job still waiting: its cell has not left the queue except by a cancel. *)
Definition waiting (w : World) (c : nat) : Prop :=
  cells w !! c = Some QUEUED ∨ cells w !! c = Some CANCELLED.

Lemma cancel_waiting c w : waiting w c →
  (cancel c w).1 = true ∧ cells (cancel c w).2 !! c = Some CANCELLED.
Proof.
  intros [Hv|Hv]; rewrite <- (cancel_spec c w _ Hv); unfold cancel, compare_exchange;
    by rewrite (load_Some _ _ _ Hv).
Qed.

Lemma compare_exchange_frame c d a b w : d ≠ c →
  cells (compare_exchange c a b w).2 !! d = cells w !! d.
Proof.
  intros Hne. unfold compare_exchange. destruct (_ =? a); [|done]. simpl.
  by rewrite list_lookup_insert_ne.
Qed.

Lemma cancel_frame c d w : d ≠ c → cells (cancel c w).2 !! d = cells w !! d.
Proof.
  intros Hne. unfold cancel. pose proof (compare_exchange_frame c d QUEUED CANCELLED w Hne).
  by destruct (compare_exchange c QUEUED CANCELLED w) as [[]].
Qed.

Section dispatching.
Context {T : Type}.
Implicit Type q : Queued T.

(** [dispatch] with the operations of other threads that run between its load
    and its next atomic operation made explicit. *)
Definition dispatch_with (interfere : World → World) q (w : World) : Scheduled T * World :=
  let '(t, w) := now w in
  let c := cancellation q in
  let '(st, w) :=
    if load c w =? CANCELLED then (Cancelled, interfere w)
    else
      let w := interfere w in
      if q_expires q <=? t then (Expired, snd (cancel c w))
      else match compare_exchange c QUEUED DISPATCHED w with
           | (Ok _, w) => (Ready, w)
           | (Err _, w) => (Cancelled, w)
           end in
  (mk_scheduled (Some (payload q)) st (Z.max 0 (t - enqueued q)) c, w).

Lemma dispatch_alone q w : dispatch q w = dispatch_with id q w.
Proof. done. Qed.

Lemma dispatch_id q w : s_cancellation (dispatch q w).1 = cancellation q ∧
  s_payload (dispatch q w).1 = Some (payload q).
Proof.
  unfold dispatch. simpl. destruct (_ =? CANCELLED); [done|].
  destruct (_ <=? _); [done|]. by destruct (compare_exchange _ _ _ _) as [[]].
Qed.

Lemma dispatch_le q w : world_le w (dispatch q w).2.
Proof.
  unfold dispatch. simpl. set (w1 := mk_world (cells w) (clock w) (S (ticks w))).
  assert (world_le w w1) as H1 by (by apply world_le_cells).
  destruct (_ =? CANCELLED); [done|]. destruct (_ <=? _).
  - simpl. rewrite H1. apply cancel_le.
  - pose proof (compare_exchange_le (cancellation q) QUEUED DISPATCHED w1 cell_dispatch).
    destruct (compare_exchange _ _ _ _) as [[] w']; simpl in *; by rewrite H1.
Qed.

Lemma dispatch_frame q w d : d ≠ cancellation q → cells (dispatch q w).2 !! d = cells w !! d.
Proof.
  intros Hne. unfold dispatch. simpl.
  set (w1 := mk_world (cells w) (clock w) (S (ticks w))).
  destruct (_ =? CANCELLED); [done|]. destruct (_ <=? _).
  - simpl. by rewrite cancel_frame.
  - pose proof (compare_exchange_frame (cancellation q) d QUEUED DISPATCHED w1 Hne).
    by destruct (compare_exchange _ _ _ _) as [[] w'].
Qed.

(** Dispatching a waiting job decides its cell. *)
Lemma dispatch_waiting q w : waiting w (cancellation q) →
  (status (dispatch q w).1 = Ready ∧ cells w !! cancellation q = Some QUEUED ∧
   cells (dispatch q w).2 !! cancellation q = Some DISPATCHED) ∨
  (status (dispatch q w).1 ≠ Ready ∧
   cells (dispatch q w).2 !! cancellation q = Some CANCELLED).
Proof.
  intros Hw. unfold dispatch. simpl.
  set (w1 := mk_world (cells w) (clock w) (S (ticks w))).
  assert (waiting w1 (cancellation q)) as Hw1 by exact Hw.
  destruct Hw as [Hv|Hv]; rewrite (load_Some _ _ w1 Hv); simpl; [|by right].
  destruct (_ <=? _); simpl.
  - right. split; [done|]. by apply cancel_waiting.
  - unfold compare_exchange. rewrite (load_Some _ _ w1 Hv). simpl. left.
    rewrite list_lookup_insert_eq by (by eapply lookup_lt_Some). done.
Qed.

Lemma dispatch_cancelled q w : cells w !! cancellation q = Some CANCELLED →
  status (dispatch q w).1 = Cancelled ∧ cells (dispatch q w).2 = cells w.
Proof.
  intros Hv. unfold dispatch. simpl.
  by rewrite (load_Some _ _ (mk_world (cells w) (clock w) (S (ticks w))) Hv).
Qed.

(** A run of [cancel] calls by other threads; the flag records whether one of
    them on cell [c] reported success. *)
Definition cancels_on (c : nat) (cancels : list nat) (w : World) : bool * World :=
  fold_left (λ '(seen, w) d, let '(b, w) := cancel d w in (seen || (b && (d =? c)%nat), w))
    cancels (false, w).

Lemma cancels_on_waiting c cancels w : waiting w c →
  waiting (cancels_on c cancels w).2 c ∧
  ((cancels_on c cancels w).1 = true →
   cells (cancels_on c cancels w).2 !! c = Some CANCELLED) ∧
  (cells w !! c = Some CANCELLED → cells (cancels_on c cancels w).2 !! c = Some CANCELLED).
Proof.
  intros Hw. unfold cancels_on.
  assert (false = true → cells w !! c = Some CANCELLED) as Hs by done. revert Hs.
  generalize false. revert w Hw.
  induction cancels as [|d cancels IH]; intros w Hw seen Hs; [done|]. cbn [fold_left].
  pose proof (cancel_waiting c w Hw) as [Hb Hc]. pose proof (cancel_frame d c w) as Hframe.
  destruct (cancel d w) as [b w'] eqn:E.
  assert ((d = c ∧ cells w' !! c = Some CANCELLED) ∨ (d ≠ c ∧ cells w' !! c = cells w !! c))
    as Hcase.
  { destruct (decide (d = c)) as [->|Hne]; [left|right; split; [done|apply Hframe; congruence]].
    rewrite E in Hc. done. }
  destruct (IH w') with (b := seen || b && (d =? c)%nat) as (H1 & H2 & H3).
  - unfold waiting in *. destruct Hcase as [[_ ->]|[_ ->]]; tauto.
  - destruct Hcase as [[_ ->]|[Hne ->]]; [done|].
    apply Nat.eqb_neq in Hne. rewrite Hne, andb_false_r, orb_false_r. exact Hs.
  - split_and!; [done|done|]. intros Hv. apply H3.
    by destruct Hcase as [[_ ->]|[_ ->]].
Qed.

(** C22: the race between cancellation and dispatch has one winner. Whatever
    [cancel] calls other threads run between the load and the
    compare-and-swap of [dispatch], the dispatch of a waiting job is [Ready]
    only if none of them reported success, and a later [cancel] then reports
    that the operation may have started; otherwise the cell is cancelled for
    good and a later [cancel] reports success. *)
Theorem dispatch_race_one_winner q w cancels :
  waiting w (cancellation q) →
  let '(scheduled, w') :=
    dispatch_with (λ w, (cancels_on (cancellation q) cancels w).2) q w in
  (status scheduled = Ready →
   (cancels_on (cancellation q) cancels (now w).2).1 = false ∧
   (cancel (cancellation q) w').1 = false) ∧
  (status scheduled ≠ Ready → (cancel (cancellation q) w').1 = true).
Proof.
  intros Hw. unfold dispatch_with. simpl.
  set (w1 := mk_world (cells w) (clock w) (S (ticks w))). set (c := cancellation q) in *.
  destruct (cancels_on_waiting c cancels w1 Hw) as (Hw2 & Hseen & Hstay).
  set (w2 := (cancels_on c cancels w1).2) in *.
  assert (cells w1 !! c = Some CANCELLED → (cancel c w2).1 = true) as Hdone
    by (intros ?%Hstay; apply cancel_waiting; by right).
  destruct Hw as [Hv|Hv]; rewrite (load_Some _ _ w1 Hv); simpl; [|by split; [|auto]].
  destruct (_ <=? _); simpl.
  { split; [done|]. intros _. apply cancel_waiting. right. by apply cancel_waiting. }
  destruct Hw2 as [Hq|Hq]; unfold compare_exchange; rewrite (load_Some _ _ w2 Hq); simpl.
  - split; [|done]. intros _. split.
    + destruct (cancels_on c cancels w1).1; [|done]. rewrite Hseen in Hq by done. done.
    + unfold cancel, compare_exchange. rewrite (load_Some c DISPATCHED); [done|].
      simpl. by rewrite list_lookup_insert_eq by (by eapply lookup_lt_Some).
  - split; [done|]. intros _. apply cancel_waiting. by right.
Qed.
End dispatching.

(** ** The invariant *)

Section invariant.
Context {T : Type}.

Definition queue_ok (queue : list (Queued T)) (bytes : Z) : Prop :=
  bytes = zsum q_bytes queue ∧ Forall (λ q, 0 < q_bytes q) queue.

Record limits_ok (l : QueueLimits) : Prop := {
  lo_agents : 0 < max_agents l ≤ 128;
  lo_jobs : 2 ≤ max_agent_jobs l ≤ 65536;
  lo_bytes : 2 ≤ max_agent_bytes l ≤ 1073741824;
  lo_host_jobs : 0 < max_host_jobs l ≤ 128;
  lo_host_bytes : 0 < max_host_bytes l ≤ 1073741824;
  lo_wait : 0 < max_wait_ms l ≤ MAX_LIFETIME_MS }.

(** A lane is within its own allowance, which is at most half of the agents'. *)
Record lane_inv (L : QueueLimits) (lane : Lane T) : Prop := {
  ln_queue : queue_ok (jobs lane) (l_bytes lane);
  ln_jobs : len (jobs lane) ≤ max_jobs (l_limits lane);
  ln_bytes : l_bytes lane ≤ max_bytes (l_limits lane);
  ln_half_jobs : 0 < max_jobs (l_limits lane) ≤ max_agent_jobs L / 2;
  ln_half_bytes : 0 < max_bytes (l_limits lane) ≤ max_agent_bytes L / 2 }.

Definition lane_len (kl : text * Lane T) : Z := len (jobs kl.2).
Definition lane_bytes (kl : text * Lane T) : Z := l_bytes kl.2.
Definition lane_agent (kl : text * Lane T) : text := agent kl.2.
Definition lane_jobs (m : btree text (Lane T)) : list (Queued T) := flat_map (λ kl, jobs kl.2) m.

(** [active] lists exactly the lanes with work, once each. *)
Record lanes_inv (L : QueueLimits) (m : btree text (Lane T)) (act : list text) : Prop := {
  li_wf : bt_wf m;
  li_lane : Forall (λ kl, lane_inv L kl.2) m;
  li_agents : NoDup (map lane_agent m);
  li_active : NoDup act;
  li_busy : ∀ k, k ∈ act ↔ ∃ lane, bt_get k m = Some lane ∧ jobs lane ≠ [];
  li_jobs : zsum lane_len m ≤ max_agent_jobs L;
  li_bytes : zsum lane_bytes m ≤ max_agent_bytes L }.

Record sched_inv (s : BrokerScheduler T) : Prop := {
  si_limits : limits_ok (limits s);
  si_lanes : lanes_inv (limits s) (lanes s) (active s);
  si_count : len (lanes s) ≤ max_agents (limits s);
  si_host : queue_ok (host s) (host_bytes s);
  si_host_jobs : len (host s) ≤ max_host_jobs (limits s);
  si_host_bytes : host_bytes s ≤ max_host_bytes (limits s) }.

Lemma queue_ok_nil : queue_ok [] 0.
Proof. split; [done|constructor]. Qed.

Lemma queue_ok_push queue b q :
  queue_ok queue b → 0 < q_bytes q → queue_ok (queue ++ [q]) (b + q_bytes q).
Proof.
  intros [-> HF] Hq. split.
  - autorewrite with cigar. lia.
  - apply Forall_app. by repeat constructor.
Qed.

Lemma queue_ok_pop queue b q :
  queue_ok (q :: queue) b → queue_ok queue (b - q_bytes q) ∧ 0 < q_bytes q ≤ b.
Proof.
  intros [-> HF]. inversion_clear HF as [|? ? Hq Hr]. rewrite zsum_cons.
  assert (0 ≤ zsum q_bytes queue).
  { apply zsum_nonneg. eapply Forall_impl; [exact Hr|]. simpl. lia. }
  split; [split; [lia|done]|lia].
Qed.

Lemma lane_len_nonneg (m : btree text (Lane T)) : Forall (λ kl, 0 ≤ lane_len kl) m.
Proof. apply Forall_true. intros kl. apply len_nonneg. Qed.

Lemma lane_bytes_nonneg L (m : btree text (Lane T)) :
  Forall (λ kl, lane_inv L kl.2) m → Forall (λ kl, 0 ≤ lane_bytes kl) m.
Proof.
  intros HF. eapply Forall_impl; [exact HF|]. intros kl [[Hb HF'] _ _ _ _].
  unfold lane_bytes. rewrite Hb. apply zsum_nonneg.
  eapply Forall_impl; [exact HF'|]. simpl. lia.
Qed.

(** The fold of [enqueue_agent] computes the totals of the invariant. *)
Lemma agent_totals_sum (s : BrokerScheduler T) :
  agent_totals s = (zsum lane_len (lanes s), zsum lane_bytes (lanes s)).
Proof.
  unfold agent_totals, bt_values.
  assert (∀ (m : btree text (Lane T)) j b,
    fold_left (λ '(j, b) lane, (j + len (jobs lane), b + l_bytes lane)) (map snd m) (j, b) =
    (j + zsum lane_len m, b + zsum lane_bytes m)) as Hgen.
  { induction m as [|kl m IH]; intros j b; simpl.
    - by rewrite !Z.add_0_r.
    - rewrite IH. unfold lane_len, lane_bytes. by rewrite !Z.add_assoc. }
  by rewrite Hgen.
Qed.

(** Dropping a lane. *)
Lemma lanes_inv_remove L m act k : lanes_inv L m act →
  lanes_inv L (bt_remove k m) (List.filter (λ a, negb (oeqb a k)) act).
Proof.
  intros [Hwf Hl Ha Hd Hb Hj Hby].
  assert (∀ j, j ∈ List.filter (λ a, negb (oeqb a k)) act ↔ j ∈ act ∧ j ≠ k) as Hin.
  { intros j. rewrite !list_elem_of_In, filter_In, negb_true_iff.
    assert (oeqb j k = false ↔ j ≠ k) as ->; [|done].
    rewrite <- not_true_iff_false, oeqb_eq. done. }
  constructor.
  - by apply bt_wf_remove.
  - destruct (bt_get k m) as [lane|] eqn:E; [|by rewrite bt_remove_absent].
    rewrite (bt_get_perm k lane m Hwf E) in Hl. by inversion Hl.
  - destruct (bt_get k m) as [lane|] eqn:E; [|by rewrite bt_remove_absent].
    rewrite (bt_get_perm k lane m Hwf E) in Ha. by inversion Ha.
  - by apply NoDup_ListNoDup, List.NoDup_filter, NoDup_ListNoDup.
  - intros j. rewrite Hin, Hb. destruct (decide (j = k)) as [->|Hne].
    + rewrite bt_get_remove_eq. split; [by intros [_ ?]|by intros (? & ? & _)].
    + rewrite bt_get_remove_ne by done. tauto.
  - destruct (bt_get k m) as [lane|] eqn:E; [|by rewrite bt_remove_absent].
    rewrite (bt_get_perm k lane m Hwf E), zsum_cons in Hj.
    change (lane_len (k, lane)) with (len (jobs lane)) in Hj. pose proof (len_nonneg (jobs lane)). simpl in Hj. lia.
  - destruct (bt_get k m) as [lane|] eqn:E; [|by rewrite bt_remove_absent].
    pose proof (lane_bytes_nonneg L m Hl) as Hn.
    rewrite (bt_get_perm k lane m Hwf E) in Hn. inversion_clear Hn.
    rewrite (bt_get_perm k lane m Hwf E), zsum_cons in Hby. lia.
Qed.

(** Replacing the queue of a lane. *)
Lemma lanes_inv_update L m act k lane lane' act' : lanes_inv L m act →
  bt_get k m = Some lane → agent lane' = agent lane → lane_inv L lane' →
  zsum lane_len m + len (jobs lane') - len (jobs lane) ≤ max_agent_jobs L →
  zsum lane_bytes m + l_bytes lane' - l_bytes lane ≤ max_agent_bytes L →
  NoDup act' → (∀ j, j ∈ act' ↔ (j = k ∧ jobs lane' ≠ []) ∨ (j ≠ k ∧ j ∈ act)) →
  lanes_inv L (bt_insert k lane' m) act'.
Proof.
  intros [Hwf Hl Ha Hd Hb Hj Hby] Hg Eag Hlane Hjobs Hbytes Hd' Hact.
  pose proof (bt_get_perm k lane m Hwf Hg) as Hm.
  pose proof (bt_insert_perm k lane' m Hwf) as Hm'.
  assert (zsum lane_len m = len (jobs lane) + zsum lane_len (bt_remove k m)) as Ej
    by (rewrite Hm at 1; by rewrite zsum_cons).
  assert (zsum lane_bytes m = l_bytes lane + zsum lane_bytes (bt_remove k m)) as Eb
    by (rewrite Hm at 1; by rewrite zsum_cons).
  constructor.
  - by apply bt_wf_insert.
  - rewrite Hm'. rewrite Hm in Hl. inversion Hl; subst. by constructor.
  - rewrite Hm'. rewrite Hm in Ha. cbn [map] in *.
    change (lane_agent (k, lane')) with (agent lane'). by rewrite Eag.
  - done.
  - intros j. rewrite Hact. destruct (decide (j = k)) as [->|Hne].
    + rewrite bt_get_insert_eq. split.
      * intros [[_ ?]|[? _]]; [by eauto|done].
      * intros (l & [= <-] & ?). by left.
    + rewrite bt_get_insert_ne, Hb by done. split; [intros [[? _]|[_ ?]]; done|by right].
  - rewrite Hm', zsum_cons. unfold lane_len at 1. simpl. lia.
  - rewrite Hm', zsum_cons. unfold lane_bytes at 1. simpl. lia.
Qed.

(** Registering an empty lane. *)
Lemma lanes_inv_register L m act k lane : lanes_inv L m act →
  bt_get k m = None → lane_inv L lane → jobs lane = [] → l_bytes lane = 0 →
  agent lane ∉ map lane_agent m → lanes_inv L (bt_insert k lane m) act.
Proof.
  intros [Hwf Hl Ha Hd Hb Hj Hby] Hg Hlane Ejobs Ebytes Hfresh.
  pose proof (bt_insert_fresh_perm k lane m Hg) as Hm.
  constructor.
  - by apply bt_wf_insert.
  - rewrite Hm. by constructor.
  - rewrite Hm. simpl. by constructor.
  - done.
  - intros j. rewrite Hb. destruct (decide (j = k)) as [->|Hne].
    + rewrite bt_get_insert_eq, Hg. split; [by intros (? & ? & _)|].
      intros (l & [= <-] & ?). done.
    + by rewrite bt_get_insert_ne.
  - rewrite Hm, zsum_cons. unfold lane_len at 1. simpl. rewrite Ejobs, len_nil. lia.
  - rewrite Hm, zsum_cons. unfold lane_bytes at 1. simpl. lia.
Qed.

(** ** Removal of queued work *)

Definition all_jobs (s : BrokerScheduler T) : list (Queued T) := host s ++ lane_jobs (lanes s).

(** A job is identified by its cell and carries its payload. *)
Definition tag (q : Queued T) : nat * option T := (cancellation q, Some (payload q)).
Definition out_tag (r : Scheduled T) : nat * option T := (s_cancellation r, s_payload r).

Definition ids (queue : list (Queued T)) : list nat := map cancellation queue.

(** Queued jobs own distinct cells that have not been dispatched. *)
Definition waiting_inv (s : BrokerScheduler T) (w : World) : Prop :=
  NoDup (ids (all_jobs s)) ∧ Forall (waiting w) (ids (all_jobs s)).

Lemma world_le_cancelled w w' c :
  world_le w w' → cells w !! c = Some CANCELLED → cells w' !! c = Some CANCELLED.
Proof. intros Hle (v & Hv & Hc)%Hle. rewrite Hv. by inversion Hc. Qed.

Lemma cancel_jobs_spec queue : ∀ w out w', cancel_jobs queue w = (out, w') →
  Forall (waiting w) (ids queue) →
  map out_tag out = map tag queue ∧ Forall (λ r, status r = Cancelled) out ∧ world_le w w' ∧
  (∀ d, d ∉ ids queue → cells w' !! d = cells w !! d) ∧
  Forall (λ c, cells w' !! c = Some CANCELLED) (ids queue).
Proof.
  induction queue as [|q queue IH]; intros w out w' H Hw; simpl in H.
  - injection H as <- <-. split_and!; (done || constructor).
  - inversion_clear Hw as [|? ? Hq Hqs].
    destruct (cancel_waiting _ _ Hq) as [_ Hc]. pose proof (cancel_le (cancellation q) w) as L1.
    pose proof (cancel_frame (cancellation q)) as F1.
    destruct (cancel (cancellation q) w) as [b w1] eqn:E1. simpl in *.
    destruct (dispatch_cancelled q w1 Hc) as [Hst Ecells].
    destruct (dispatch_id q w1) as [Hid Hpay]. pose proof (dispatch_le q w1) as L2.
    destruct (dispatch q w1) as [r w2] eqn:E2. simpl in *.
    destruct (cancel_jobs queue w2) as [out' w3] eqn:E3. injection H as <- <-.
    apply IH in E3 as (Ht & Hs & L3 & Hf & Hall).
    + split_and!.
      * simpl. rewrite Ht. unfold out_tag at 1, tag at 1. by rewrite Hid, Hpay.
      * by constructor.
      * by rewrite L1, L2.
      * intros d Hd. apply not_elem_of_cons in Hd as [Hd1 Hd2].
        rewrite (Hf d Hd2), Ecells. specialize (F1 d w Hd1). by rewrite E1 in F1.
      * constructor; [|done]. apply (world_le_cancelled w2); [done|]. by rewrite Ecells.
    + eapply Forall_impl; [exact Hqs|]. intros c Hwc. unfold waiting. rewrite Ecells.
      destruct (decide (c = cancellation q)) as [->|Hne]; [by right|].
      specialize (F1 c w Hne). rewrite E1 in F1. simpl in F1. by rewrite F1.
Qed.

(** What removing work from the queues means: the removed jobs come back, each
    once, definitively cancelled, and the rest of the scheduler is intact. *)
Record removed (s : BrokerScheduler T) (w : World) (out : list (Scheduled T))
    (s' : BrokerScheduler T) (w' : World) : Prop := {
  rm_inv : sched_inv s';
  rm_perm : Permutation (map tag (all_jobs s)) (map tag (all_jobs s') ++ map out_tag out);
  rm_status : Forall (λ r, status r = Cancelled) out;
  rm_cells : Forall (λ r, cells w' !! s_cancellation r = Some CANCELLED) out;
  rm_world : world_le w w';
  rm_waiting : waiting_inv s' w' }.

Lemma ids_tags queue : ids queue = map fst (map tag queue).
Proof. unfold ids. by rewrite map_map. Qed.

Lemma removed_nil s w : sched_inv s → waiting_inv s w → removed s w [] s w.
Proof. intros. constructor; (done || constructor || by rewrite app_nil_r). Qed.

Lemma removed_trans s w out s1 w1 out' s2 w2 :
  removed s w out s1 w1 → removed s1 w1 out' s2 w2 → removed s w (out ++ out') s2 w2.
Proof.
  intros [I1 P1 S1 C1 L1 W1] [I2 P2 S2 C2 L2 W2]. constructor.
  - done.
  - rewrite P1, P2, map_app, <- !app_assoc. by rewrite (Permutation_app_comm (map out_tag out')).
  - by apply Forall_app.
  - apply Forall_app. split; [|done]. eapply Forall_impl; [exact C1|].
    intros r Hr. by apply (world_le_cancelled w1).
  - by rewrite L1.
  - done.
Qed.

(** The part of a removal that concerns the queue taken out. *)
Lemma removed_queue s w queue out s' w' :
  sched_inv s' → waiting_inv s w → cancel_jobs queue w = (out, w') →
  Permutation (all_jobs s) (all_jobs s' ++ queue) → removed s w out s' w'.
Proof.
  intros Hinv [Hd Hw] Hc HP. unfold ids in Hd, Hw. rewrite HP, map_app in Hd, Hw.
  apply NoDup_app in Hd as (Hd1 & Hdisj & Hd2). apply Forall_app in Hw as [Hw1 Hw2].
  destruct (cancel_jobs_spec _ _ _ _ Hc Hw2) as (Ht & Hs & L & Hf & Hall).
  constructor; [done| |done| |done|split; [done|]].
  - by rewrite HP, map_app, Ht.
  - assert (map s_cancellation out = ids queue) as E.
    { rewrite ids_tags, <- Ht, map_map. done. }
    rewrite <- E in Hall. by apply Forall_map in Hall.
  - apply Forall_forall. intros c Hc'. unfold waiting. rewrite Hf by (by apply Hdisj).
    rewrite Forall_forall in Hw1. by apply Hw1.
Qed.

Lemma lane_jobs_perm m m' : Permutation m m' → Permutation (lane_jobs m) (lane_jobs m').
Proof. intros HP. unfold lane_jobs. by rewrite HP. Qed.

Lemma remove_lane_removed k s w out s' w' :
  sched_inv s → waiting_inv s w → remove_lane k s w = (out, s', w') →
  removed s w out s' w' ∧ limits s' = limits s ∧ lanes s' = bt_remove k (lanes s).
Proof.
  intros Hinv Hw. unfold remove_lane.
  set (s1 := mk_scheduler _ _ _ _ _ _ _).
  pose proof (li_wf _ _ _ (si_lanes _ Hinv)) as Hwf.
  assert (sched_inv s1) as Hinv1.
  { destruct Hinv. constructor; simpl; try done.
    - by apply lanes_inv_remove.
    - rewrite bt_remove_retain. unfold bt_retain, len in *.
      pose proof (filter_length_le (λ kv : text * Lane T, negb (oeqb k kv.1)) (lanes s)). lia. }
  destruct (bt_get k (lanes s)) as [lane|] eqn:E.
  - destruct (cancel_jobs (jobs lane) w) as [o w1] eqn:Ec. intros [= <- <- <-].
    split; [|done]. apply (removed_queue s w (jobs lane)); [done..|].
    unfold all_jobs. simpl. rewrite <- app_assoc. apply Permutation_app_head.
    rewrite (lane_jobs_perm _ _ (bt_get_perm k lane _ Hwf E)). simpl. apply Permutation_app_comm.
  - intros [= <- <- <-]. split; [|done]. apply (removed_queue s w []); [done..|].
    rewrite app_nil_r. unfold all_jobs. simpl. by rewrite bt_remove_absent.
Qed.

Lemma remove_lanes_removed ks : ∀ s w out s' w',
  sched_inv s → waiting_inv s w → remove_lanes ks s w = (out, s', w') →
  removed s w out s' w' ∧ lanes s' = fold_left (λ m k, bt_remove k m) ks (lanes s).
Proof.
  induction ks as [|k ks IH]; intros s w out s' w' Hinv Hw; simpl.
  - intros [= <- <- <-]. split; [by apply removed_nil|done].
  - destruct (remove_lane k s w) as [[o1 s1] w1] eqn:E1.
    destruct (remove_lanes ks s1 w1) as [[o2 s2] w2] eqn:E2. intros [= <- <- <-].
    apply remove_lane_removed in E1 as (R1 & _ & El); [|done..].
    apply IH in E2 as [R2 El2]; [|apply R1..].
    split; [by eapply removed_trans|]. by rewrite El2, El.
Qed.

Lemma host_revoke_removed name s w out s' w' :
  sched_inv s → waiting_inv s w → host_revoke name s w = (out, s', w') → removed s w out s' w'.
Proof.
  intros Hinv Hw. unfold host_revoke. destruct (find_agent name s) as [k|].
  - intros H. by eapply remove_lane_removed.
  - intros [= <- <- <-]. by apply removed_nil.
Qed.

(** Reading the clock changes no cell. *)
Lemma removed_tick s w w0 out s' w' : cells w = cells w0 →
  removed s w out s' w' → removed s w0 out s' w'.
Proof.
  intros E [? ? ? ? L ?]. constructor; try done. etrans; [|exact L]. by apply world_le_cells.
Qed.

Lemma waiting_tick s w w0 : cells w = cells w0 → waiting_inv s w0 → waiting_inv s w.
Proof. intros E [? ?]. split; [done|]. unfold waiting in *. by rewrite E. Qed.

Lemma host_prune_removed s w out s' w' :
  sched_inv s → waiting_inv s w → host_prune s w = (out, s', w') →
  removed s w out s' w' ∧ Forall (λ kl, clock w (ticks w) < l_expires kl.2) (lanes s').
Proof.
  intros Hinv Hw. unfold host_prune. destruct (now w) as [t w1] eqn:En. intros H.
  assert (cells w1 = cells w ∧ t = clock w (ticks w)) as [Ec ->] by (by injection En as <- <-).
  apply remove_lanes_removed in H as [R El]; [|done|by eapply waiting_tick].
  split; [by eapply removed_tick|]. clear En. set (t := clock w (ticks w)) in *.
  pose proof (li_wf _ _ _ (si_lanes _ Hinv)) as Hwf.
  pose proof (li_wf _ _ _ (si_lanes _ (rm_inv _ _ _ _ _ R))) as Hwf'.
  apply Forall_forall. intros [k lane] Hin. apply list_elem_of_In, bt_In_get in Hin; [|done].
  rewrite El in Hin. simpl. destruct (Z.leb_spec (l_expires lane) t); [|done].
  destruct (decide (k ∈ bt_keys (List.filter (λ kl, l_expires kl.2 <=? t) (lanes s)))) as [Hk|Hk].
  - by rewrite bt_removes_in in Hin.
  - rewrite bt_removes_out in Hin by done. destruct Hk.
    unfold bt_keys. apply list_elem_of_In, in_map_iff. exists (k, lane). split; [done|].
    apply filter_In. split; [by apply bt_get_In|]. by apply Z.leb_le.
Qed.

Lemma host_drain_removed s w out s' w' :
  sched_inv s → waiting_inv s w → host_drain s w = (out, s', w') →
  removed s w out s' w' ∧ all_jobs s' = [].
Proof.
  intros Hinv Hw. unfold host_drain.
  destruct (remove_lanes (bt_keys (lanes s)) s w) as [[o1 s1] w1] eqn:E1.
  destruct (cancel_jobs (host s1) w1) as [o2 w2] eqn:E2. intros [= <- <- <-].
  apply remove_lanes_removed in E1 as [R1 El]; [|done..].
  assert (lanes s1 = []) as Elanes.
  { rewrite El. apply bt_removes_all. }
  pose proof R1 as [I1 _ _ _ _ W1].
  assert (sched_inv (mk_scheduler (b_epoch s1) (limits s1) (lanes s1) (active s1) [] 0 (host_turn s1)))
    as Hinv'.
  { destruct I1. constructor; simpl; try (done || apply queue_ok_nil).
    - rewrite len_nil. destruct si_limits0. lia.
    - destruct si_limits0. lia. }
  split.
  - eapply removed_trans; [exact R1|]. apply (removed_queue _ _ (host s1)); [done..|].
    unfold all_jobs. simpl. rewrite Elanes. simpl. by rewrite app_nil_r.
  - unfold all_jobs. simpl. by rewrite Elanes.
Qed.

(** ** Registration *)

Lemma find_agent_Some name s k : sched_inv s → find_agent name s = Some k →
  ∃ lane, bt_get k (lanes s) = Some lane ∧ agent lane = name.
Proof.
  intros Hinv. unfold find_agent. destruct (List.find _ _) as [[k' lane]|] eqn:E; [|done].
  intros [= <-]. apply List.find_some in E as [Hin Heq]. exists lane. split.
  - apply bt_In_get; [apply Hinv|done].
  - by apply oeqb_eq.
Qed.

Lemma find_agent_None name s : find_agent name s = None → name ∉ map lane_agent (lanes s).
Proof.
  unfold find_agent. destruct (List.find _ _) eqn:E; [done|]. intros _ Hin.
  apply list_elem_of_In, in_map_iff in Hin as (kl & Ha & Hin).
  apply (List.find_none _ _ E) in Hin. simpl in Hin. unfold lane_agent in Ha.
  by rewrite Ha, oeqb_refl in Hin.
Qed.

(** The lanes a registration starts from, with the agent's old lane gone. *)
Lemma previous_removed name s w out s' w' :
  sched_inv s → waiting_inv s w →
  (match find_agent name s with None => ([], s, w) | Some k => remove_lane k s w end)
    = (out, s', w') →
  (negb (is_some_and (λ _, true) (find_agent name s)) &&
     (max_agents (limits s) <=? len (lanes s))) = false →
  removed s w out s' w' ∧ limits s' = limits s ∧ (name ∉ map lane_agent (lanes s')) ∧
  len (lanes s') < max_agents (limits s) ∧ sublist (lanes s') (lanes s).
Proof.
  intros Hinv Hw H Hcap. destruct (find_agent name s) as [k|] eqn:Ef; simpl in Hcap.
  - apply remove_lane_removed in H as (R & El & Em); [|done..].
    destruct (find_agent_Some _ _ _ Hinv Ef) as (lane & Hg & <-).
    pose proof (bt_get_perm k lane _ (li_wf _ _ _ (si_lanes _ Hinv)) Hg) as HP.
    rewrite Em. split_and!; [done|done|..].
    + pose proof (li_agents _ _ _ (si_lanes _ Hinv)) as Hd. rewrite HP in Hd. by inversion Hd.
    + pose proof (si_count _ Hinv) as Hc. unfold len in *. rewrite HP in Hc. simpl in Hc. lia.
    + apply (bt_removes_sublist [k]).
  - injection H as <- <- <-. bsplit.
    split_and!; [by apply removed_nil|done|by apply find_agent_None|done|done].
Qed.

Lemma lane_limits_inv s l k e : sched_inv s → validate_lane_limits s l = Ok tt →
  0 ≤ max_jobs l → 0 ≤ max_bytes l → ∀ name, lane_inv (limits s) (mk_lane name k l e [] 0).
Proof.
  unfold validate_lane_limits. intros Hinv. case_match eqn:E; [done|]. intros _ Hj Hb name. bsplit.
  constructor; simpl; [apply queue_ok_nil|rewrite ?len_nil; lia..].
Qed.

Section keyed.
Context (instant_max : Z) (sha256 : list Z → list Z).

Lemma deadline_cells ms w r w' : deadline instant_max ms w = (r, w') → cells w' = cells w.
Proof. unfold deadline. simpl. intros [= <- <-]. done. Qed.

Lemma host_register_spec name c l lease s w r s' w' :
  sched_inv s → waiting_inv s w → 0 ≤ max_jobs l → 0 ≤ max_bytes l →
  host_register instant_max sha256 name c l lease s w = (r, s', w') →
  match r with
  | Err _ => s' = s ∧ cells w' = cells w
  | Ok out => removed s w out s' w'
  end.
Proof.
  intros Hinv Hw Hj Hb. unfold host_register.
  destruct (_ ← validate_lane_limits s l; _) as [[k sk]|e] eqn:Ev; [|by intros [= <- <- <-]].
  inv_ok Ev. destruct a.
  destruct (bt_mem k (lanes s) || _) eqn:Eq; [by intros [= <- <- <-]|].
  apply orb_false_iff in Eq as [Em Hcap]. apply bt_mem_false in Em.
  destruct (deadline instant_max lease w) as [[e|] w1] eqn:Ed;
    pose proof (deadline_cells _ _ _ _ Ed) as Ecells; [|by intros [= <- <- <-]].
  destruct (match find_agent name s with None => _ | Some _ => _ end) as [[o s1] w2] eqn:Ep.
  intros [= <- <- <-].
  apply previous_removed in Ep as (R & El & Hfresh & Hcount & Hsub);
    [|done|by eapply waiting_tick|done].
  assert (bt_get k (lanes s1) = None) as Hk.
  { apply bt_get_None. apply bt_get_None in Em. contradict Em.
    unfold bt_keys in *. eapply elem_of_sublist; [exact Em|]. by apply fmap_sublist. }
  assert (Permutation (lanes (insert_lane k (mk_lane name sk l e [] 0) s1))
            ((k, mk_lane name sk l e [] 0) :: lanes s1)) as HP by by apply bt_insert_fresh_perm.
  apply (removed_tick _ _ w) in R; [|done].
  assert (Permutation (all_jobs (insert_lane k (mk_lane name sk l e [] 0) s1)) (all_jobs s1)) as HPj.
  { unfold all_jobs. apply Permutation_app_head. by rewrite (lane_jobs_perm _ _ HP). }
  destruct R as [[] P S C L [Wd Ww]]. constructor; try done.
  - constructor; simpl; try done.
    + apply lanes_inv_register; simpl; try done. rewrite El. by eapply lane_limits_inv.
    + unfold len in *. rewrite HP. simpl. rewrite El. lia.
  - by rewrite HPj.
  - split; unfold ids; by rewrite HPj.
Qed.

(** ** Admission *)

(** Admitting one job into a fresh cell. *)
Record admits (s : BrokerScheduler T) (w : World) (c : nat) (p : T)
    (s' : BrokerScheduler T) (w' : World) : Prop := {
  ad_cell : c = length (cells w);
  ad_inv : sched_inv s';
  ad_perm : Permutation (map tag (all_jobs s')) ((c, Some p) :: map tag (all_jobs s));
  ad_world : world_le w w';
  ad_waiting : waiting_inv s' w' }.

(** The waiting jobs after one more with a freshly allocated cell. *)
Lemma waiting_admit s s' w w' q :
  waiting_inv s w → Permutation (all_jobs s') (q :: all_jobs s) →
  cells w' = cells w ++ [QUEUED] → cancellation q = length (cells w) → waiting_inv s' w'.
Proof.
  intros [Hd Hw] HP Ec Eq. unfold waiting_inv, ids in *. rewrite HP. simpl. rewrite Eq, Forall_forall in *.
  assert (∀ c, waiting w c → waiting w' c) as Hmono.
  { intros c. unfold waiting. rewrite Ec. intros [Hc|Hc]; [left|right]; by apply lookup_app_l_Some. }
  split.
  - constructor; [|done]. intros Hin%Hw. unfold waiting in Hin.
    destruct Hin as [Hin|Hin]; apply lookup_lt_Some in Hin; lia.
  - intros c [->|Hc]%elem_of_cons; [|by apply Hmono, Hw]. left. rewrite Ec.
    by apply list_lookup_middle.
Qed.

Lemma validate_job_ok (s : BrokerScheduler T) b ms :
  validate_job s b ms = Ok tt → 0 ≤ b → 0 ≤ ms → 0 < b ∧ 0 < ms ≤ max_wait_ms (limits s).
Proof. unfold validate_job. case_match eqn:E; [done|]. intros _. bsplit. lia. Qed.

Lemma enqueue_host_spec p b ms s w r s' w' :
  sched_inv s → waiting_inv s w → 0 ≤ b → 0 ≤ ms →
  enqueue_host instant_max p b ms s w = (r, s', w') →
  match r with
  | Err _ => s' = s ∧ ∃ fresh, cells w' = cells w ++ fresh
  | Ok c => admits s w c p s' w'
  end.
Proof.
  intros Hinv Hw Hb Hms. unfold enqueue_host.
  destruct (validate_job s b ms) as [[]|e] eqn:Ev; [|intros [= <- <- <-]; split; [done|]; exists []; by rewrite app_nil_r].
  apply validate_job_ok in Ev as [Hb' Hms']; [|done..].
  destruct (_ || _) eqn:Ecap; [intros [= <- <- <-]; split; [done|]; exists []; by rewrite app_nil_r|]. bsplit.
  destruct (alloc QUEUED w) as [cell w1] eqn:Ea. destruct (now w1) as [t w2] eqn:En.
  pose proof (alloc_le QUEUED w) as La. rewrite Ea in La. simpl in La.
  assert (cells w2 = cells w1) as E2 by (by injection En as <- <-).
  destruct (deadline instant_max ms w2) as [[d|e] w3] eqn:Ed;
    pose proof (deadline_cells _ _ _ _ Ed) as E3; intros [= <- <- <-].
  - assert (cells w3 = cells w ++ [QUEUED] ∧ cell = length (cells w)) as [Ecell ->]
      by (injection Ea as <- <-; split; [by rewrite E3, E2|done]).
    set (q := mk_queued p b t d (length (cells w))).
    set (s' := mk_scheduler _ _ _ _ _ _ _).
    assert (Permutation (all_jobs s') (q :: all_jobs s)) as HP.
    { unfold all_jobs. simpl. rewrite <- app_assoc. symmetry. apply Permutation_middle. }
    constructor; [done|..].
    + destruct Hinv. constructor; simpl; try done.
      * by apply (queue_ok_push _ _ q).
      * rewrite len_app, len_cons, len_nil. lia.
      * lia.
    + by rewrite HP.
    + rewrite La. by apply world_le_cells; rewrite E3.
    + by eapply waiting_admit.
  - split; [done|]. exists [QUEUED]. injection Ea as <- <-. by rewrite E3, E2.
Qed.

(** The lane after a push, and the scheduler holding it. *)
Definition push_lane (lane : Lane T) (q : Queued T) : Lane T :=
  mk_lane (agent lane) (key lane) (l_limits lane) (l_expires lane)
    (jobs lane ++ [q]) (l_bytes lane + q_bytes q).

Definition push_agent (k : text) (lane : Lane T) (q : Queued T) (s : BrokerScheduler T)
    : BrokerScheduler T :=
  mk_scheduler (b_epoch s) (limits s) (bt_insert k (push_lane lane q) (lanes s))
    (match jobs lane with [] => active s ++ [k] | _ => active s end)
    (host s) (host_bytes s) (host_turn s).

Lemma push_agent_inv k lane q s :
  sched_inv s → bt_get k (lanes s) = Some lane → 0 < q_bytes q →
  zsum lane_len (lanes s) < max_agent_jobs (limits s) →
  q_bytes q ≤ max_agent_bytes (limits s) - zsum lane_bytes (lanes s) →
  len (jobs lane) < max_jobs (l_limits lane) →
  q_bytes q ≤ max_bytes (l_limits lane) - l_bytes lane →
  sched_inv (push_agent k lane q s) ∧ Permutation (all_jobs (push_agent k lane q s)) (q :: all_jobs s).
Proof.
  intros Hinv Hg Hq Hj Hb Hlj Hlb.
  pose proof (si_lanes _ Hinv) as Hl. pose proof (li_wf _ _ _ Hl) as Hwf.
  pose proof (bt_get_perm k lane _ Hwf Hg) as HP.
  pose proof (bt_insert_perm k (push_lane lane q) _ Hwf) as HP'.
  assert (lane_inv (limits s) lane) as [Hq' _ _ ? ?].
  { pose proof (li_lane _ _ _ Hl) as HF. rewrite HP in HF. by inversion HF. }
  assert (k ∈ active s ↔ jobs lane ≠ []) as Hk.
  { rewrite (li_busy _ _ _ Hl). split; [intros (l & Hl' & ?); congruence|eauto]. }
  split.
  - destruct Hinv. constructor; simpl; try done.
    + apply (lanes_inv_update (limits s) (lanes s) (active s) k lane); simpl; try done.
      * constructor; simpl; try done; [by apply queue_ok_push| |lia].
        rewrite len_app, len_cons, len_nil. lia.
      * rewrite len_app, len_cons, len_nil. lia.
      * lia.
      * destruct (jobs lane) as [|q0 js] eqn:Ej; [|by apply Hl].
        apply NoDup_app. split_and!; [by apply Hl| |apply NoDup_singleton].
        intros j Hj1 ->%list_elem_of_singleton. by apply Hk.
      * intros j. destruct (decide (j = k)) as [->|Hne].
        -- destruct (jobs lane) as [|q0 js] eqn:Ej; rewrite ?elem_of_app, ?list_elem_of_singleton;
             [by split; [left|right]|]. split; [by left|]. intros _. by apply Hk.
        -- destruct (jobs lane) as [|q0 js] eqn:Ej; rewrite ?elem_of_app, ?list_elem_of_singleton;
             (split; [intros H'; right; split; [done|tauto]|intros [[? _]|[_ ?]]; tauto]).
    + unfold len in *. rewrite HP'. rewrite HP in si_count0. simpl in *. lia.
  - unfold all_jobs. simpl. rewrite (lane_jobs_perm _ _ HP'), (lane_jobs_perm _ _ HP). simpl.
    rewrite <- app_assoc. simpl. rewrite <- Permutation_middle, app_assoc, <- Permutation_middle.
    by rewrite <- app_assoc.
Qed.

Lemma enqueue_agent_spec c p b ms s w r s' w' :
  sched_inv s → waiting_inv s w → 0 ≤ b → 0 ≤ ms →
  enqueue_agent instant_max sha256 c p b ms s w = (r, s', w') →
  match r with
  | Err _ => s' = s ∧ ∃ fresh, cells w' = cells w ++ fresh
  | Ok cell => admits s w cell p s' w'
  end.
Proof.
  intros Hinv Hw Hb Hms. unfold enqueue_agent.
  destruct (_ ← validate_job s b ms; credential_key sha256 s c) as [k|e] eqn:Ev;
    [|intros [= <- <- <-]; split; [done|]; exists []; by rewrite app_nil_r].
  inv_ok Ev. destruct a. apply validate_job_ok in Hok as [Hb' Hms']; [|done..].
  destruct (bt_get k (lanes s)) as [lane|] eqn:Eg; [|intros [= <- <- <-]; split; [done|]; exists []; by rewrite app_nil_r].
  destruct (now w) as [t w0] eqn:En0.
  assert (cells w0 = cells w) as E0 by (by injection En0 as <- <-).
  destruct (negb (t <? l_expires lane)); [intros [= <- <- <-]; split; [done|]; exists []; by rewrite app_nil_r|].
  rewrite agent_totals_sum. destruct (_ || _) eqn:Ecap;
    [intros [= <- <- <-]; split; [done|]; exists []; by rewrite app_nil_r|]. bsplit.
  destruct (deadline instant_max ms w0) as [[d|e] w1] eqn:Ed;
    pose proof (deadline_cells _ _ _ _ Ed) as E1;
    [|intros [= <- <- <-]; split; [done|]; exists []; rewrite app_nil_r; congruence].
  destruct (alloc QUEUED w1) as [cell w2] eqn:Ea. destruct (now w2) as [t' w3] eqn:En.
  intros [= <- <- <-].
  assert (cells w3 = cells w ++ [QUEUED] ∧ cell = length (cells w)) as [Ecell ->]
    by (injection En as <- <-; injection Ea as <- <-; simpl; by rewrite E1, E0).
  set (q := mk_queued p b t' (Z.min d (l_expires lane)) (length (cells w))).
  change (admits s w (length (cells w)) p (push_agent k lane q s) w3).
  destruct (push_agent_inv k lane q s) as [Hinv' HP]; simpl; try (done || lia).
  constructor; [done|done|by rewrite HP| |by eapply waiting_admit].
  intros c' v Hv. exists v. split; [|constructor]. rewrite Ecell. by apply lookup_app_l_Some.
Qed.
End keyed.

(** ** Dispatch *)

(** The lane after its first job is taken, and the scheduler holding it. *)
Definition shift_lane (lane : Lane T) (q : Queued T) (rest : list (Queued T)) : Lane T :=
  mk_lane (agent lane) (key lane) (l_limits lane) (l_expires lane) rest (l_bytes lane - q_bytes q).

Definition shift_agent (k : text) (lane : Lane T) (q : Queued T) (rest : list (Queued T))
    (act : list text) (s : BrokerScheduler T) : BrokerScheduler T :=
  mk_scheduler (b_epoch s) (limits s) (bt_insert k (shift_lane lane q rest) (lanes s))
    (match rest with [] => act | _ => act ++ [k] end) (host s) (host_bytes s) true.

Lemma shift_agent_inv k lane q rest act s :
  sched_inv s → active s = k :: act → bt_get k (lanes s) = Some lane → jobs lane = q :: rest →
  sched_inv (shift_agent k lane q rest act s) ∧
  Permutation (all_jobs s) (q :: all_jobs (shift_agent k lane q rest act s)).
Proof.
  intros Hinv Ha Hg Ej.
  pose proof (si_lanes _ Hinv) as Hl. pose proof (li_wf _ _ _ Hl) as Hwf.
  pose proof (bt_get_perm k lane _ Hwf Hg) as HP.
  pose proof (bt_insert_perm k (shift_lane lane q rest) _ Hwf) as HP'.
  assert (lane_inv (limits s) lane) as [Hq' ? ? ? ?].
  { pose proof (li_lane _ _ _ Hl) as HF. rewrite HP in HF. by inversion HF. }
  rewrite Ej in *. apply queue_ok_pop in Hq' as [Hq' Hqb]. rewrite len_cons in *.
  pose proof (li_active _ _ _ Hl) as Hd. rewrite Ha in Hd. inversion_clear Hd as [|? ? Hk Hd'].
  split.
  - destruct Hinv. constructor; simpl; try done.
    + apply (lanes_inv_update (limits s) (lanes s) (active s) k lane); simpl; try done.
      * constructor; simpl; done || lia.
      * rewrite Ej, len_cons. destruct Hl. lia.
      * destruct Hl. lia.
      * destruct rest; [done|]. apply NoDup_app. split_and!; [done| |apply NoDup_singleton].
        by intros j Hj ->%list_elem_of_singleton.
      * intros j. rewrite Ha, elem_of_cons. destruct (decide (j = k)) as [->|Hne].
        -- destruct rest; rewrite ?elem_of_app, ?list_elem_of_singleton; [|by split; [left|right]].
           split; [done|]. intros [[_ ?]|[? _]]; done.
        -- destruct rest; rewrite ?elem_of_app, ?list_elem_of_singleton; tauto.
    + unfold len in *. rewrite HP'. rewrite HP in si_count0. simpl in *. lia.
  - unfold all_jobs. simpl. rewrite (lane_jobs_perm _ _ HP'), (lane_jobs_perm _ _ HP). simpl.
    rewrite Ej. simpl. symmetry. apply Permutation_middle.
Qed.

Lemma idle_no_jobs (s : BrokerScheduler T) :
  sched_inv s → host s = [] → active s = [] → all_jobs s = [].
Proof.
  intros Hinv Eh Ea. unfold all_jobs. rewrite Eh. simpl.
  pose proof (si_lanes _ Hinv) as Hl. unfold lane_jobs.
  assert (Forall (λ kl, jobs kl.2 = []) (lanes s)) as HF.
  { apply Forall_forall. intros [k lane] Hin. simpl.
    destruct (jobs lane) as [|q js] eqn:Ej; [done|].
    apply list_elem_of_In, bt_In_get in Hin; [|apply Hl].
    assert (k ∈ active s) as Hk by (apply (li_busy _ _ _ Hl); exists lane; rewrite Ej; done).
    rewrite Ea in Hk. by apply not_elem_of_nil in Hk. }
  clear - HF. induction HF as [|kl m Hkl _ IH]; [done|]. simpl. by rewrite Hkl.
Qed.

Lemma pop_queued_spec (s : BrokerScheduler T) r s' : sched_inv s → pop_queued s = (r, s') →
  match r with
  | None => s' = s ∧ all_jobs s = []
  | Some q => sched_inv s' ∧ Permutation (all_jobs s) (q :: all_jobs s')
  end.
Proof.
  intros Hinv. unfold pop_queued. destruct (negb _ && _) eqn:Eh.
  - apply andb_true_iff in Eh as [Hh _]. destruct (host s) as [|q h] eqn:Ehost; [done|].
    intros [= <- <-]. split.
    + destruct Hinv. rewrite Ehost, ?len_cons in *. apply queue_ok_pop in si_host0 as [Hq Hqb].
      constructor; simpl; done || lia.
    + unfold all_jobs. by rewrite Ehost.
  - destruct (active s) as [|k act] eqn:Ea.
    + intros [= <- <-]. split; [done|]. apply idle_no_jobs; [done| |done].
      destruct (host s); [done|]. simpl in Eh. by rewrite orb_true_r in Eh.
    + assert (k ∈ active s) as Hk by (rewrite Ea; by left).
      apply (li_busy _ _ _ (si_lanes _ Hinv)) in Hk as (lane & Hg & Hne). rewrite Hg.
      destruct (jobs lane) as [|q rest] eqn:Ej; [done|]. intros [= <- <-].
      by apply (shift_agent_inv k lane q rest act).
Qed.

(** What one dispatch opportunity does. *)
Record dispatches (s : BrokerScheduler T) (w : World) (r : Scheduled T)
    (s' : BrokerScheduler T) (w' : World) : Prop := {
  di_inv : sched_inv s';
  di_perm : Permutation (map tag (all_jobs s)) (out_tag r :: map tag (all_jobs s'));
  di_world : world_le w w';
  di_waiting : waiting_inv s' w';
  di_ready : status r = Ready → cells w !! s_cancellation r = Some QUEUED ∧
                                cells w' !! s_cancellation r = Some DISPATCHED;
  di_failed : status r ≠ Ready → cells w' !! s_cancellation r = Some CANCELLED }.

Lemma pop_spec (s : BrokerScheduler T) w r s' w' :
  sched_inv s → waiting_inv s w → pop s w = (r, s', w') →
  match r with
  | None => s' = s ∧ w' = w ∧ all_jobs s = []
  | Some r => dispatches s w r s' w'
  end.
Proof.
  intros Hinv [Hd Hw]. unfold pop. destruct (pop_queued s) as [[q|] s1] eqn:Ep;
    apply pop_queued_spec in Ep; try done.
  - destruct Ep as [Hinv1 HP]. destruct (dispatch q w) as [r' w1] eqn:Ed. intros [= <- <- <-].
    unfold ids in Hd, Hw. rewrite HP in Hd, Hw. simpl in *.
    inversion_clear Hd as [|? ? Hq Hd1]. inversion_clear Hw as [|? ? Hwq Hw1].
    pose proof (dispatch_id q w) as [Hid Hpay]. pose proof (dispatch_le q w) as Hle.
    pose proof (dispatch_frame q w) as Hf. pose proof (dispatch_waiting q w Hwq) as Hdec.
    rewrite Ed in *. simpl in *. constructor; try done.
    + rewrite HP. simpl. unfold out_tag. by rewrite Hid, Hpay.
    + split; [done|]. rewrite Forall_forall in *. intros c Hc. unfold waiting.
      rewrite Hf by (intros ->; done). by apply Hw1.
    + rewrite Hid. by destruct Hdec as [(? & ? & ?)|[? ?]].
    + rewrite Hid. by destruct Hdec as [(? & ? & ?)|[? ?]].
  - destruct Ep as [-> ?]. intros [= <- <- <-]. done.
Qed.

(** ** Runs

    The scheduler's methods, the handlers' [cancel] and the drop of a returned
    job as steps of one system, with the observable events of each step. *)

Inductive Event :=
| EAdmitted (c : nat) (p : T)
| EScheduled (r : Scheduled T)
| ECancel (c : nat) (b : bool).

Section runs.
Context (instant_max : Z) (sha256 : list Z → list Z).

Definition admitted_event (p : T) (r : res nat) : list Event :=
  match r with Ok c => [EAdmitted c p] | Err _ => [] end.

Inductive step (s : BrokerScheduler T) (w : World)
    : list Event → BrokerScheduler T → World → Prop :=
| step_register name c l lease r s' w' :
    0 ≤ max_jobs l → 0 ≤ max_bytes l →
    host_register instant_max sha256 name c l lease s w = (r, s', w') →
    step s w (match r with Ok out => map EScheduled out | Err _ => [] end) s' w'
| step_revoke name out s' w' :
    host_revoke name s w = (out, s', w') → step s w (map EScheduled out) s' w'
| step_prune out s' w' : host_prune s w = (out, s', w') → step s w (map EScheduled out) s' w'
| step_drain out s' w' : host_drain s w = (out, s', w') → step s w (map EScheduled out) s' w'
| step_enqueue_agent c p b ms r s' w' :
    0 ≤ b → 0 ≤ ms → enqueue_agent instant_max sha256 c p b ms s w = (r, s', w') →
    step s w (admitted_event p r) s' w'
| step_enqueue_host p b ms r s' w' :
    0 ≤ b → 0 ≤ ms → enqueue_host instant_max p b ms s w = (r, s', w') →
    step s w (admitted_event p r) s' w'
| step_pop r s' w' :
    pop s w = (r, s', w') →
    step s w (match r with Some r => [EScheduled r] | None => [] end) s' w'
| step_cancel c b w' :
    (c < length (cells w))%nat → cancel c w = (b, w') → step s w [ECancel c b] s w'
| step_finish (r : Scheduled T) : step s w [] s (drop_scheduled r w).

Inductive run : list Event → BrokerScheduler T → World → Prop :=
| run_new epoch l s clk :
    0 ≤ max_agents l → 0 ≤ max_host_jobs l → 0 ≤ max_host_bytes l → 0 ≤ max_wait_ms l →
    new epoch l = Ok s → run [] s (mk_world [] clk 0)
| run_step evs evs' s w s' w' : run evs s w → step s w evs' s' w' → run (evs ++ evs') s' w'.

Definition admitted (evs : list Event) : list (nat * option T) :=
  flat_map (λ e, match e with EAdmitted c p => [(c, Some p)] | _ => [] end) evs.
Definition returned (evs : list Event) : list (nat * option T) :=
  flat_map (λ e, match e with EScheduled r => [out_tag r] | _ => [] end) evs.

Lemma admitted_scheduled out : admitted (map EScheduled out) = [].
Proof. by induction out. Qed.

Lemma returned_scheduled out : returned (map EScheduled out) = map out_tag out.
Proof. induction out as [|r out IH]; [done|]. simpl. by rewrite IH. Qed.

(** The fate of an observed event, read off the cells. *)
Definition event_cell (w : World) (e : Event) : Prop :=
  match e with
  | EAdmitted c _ => (c < length (cells w))%nat
  | EScheduled r =>
      if decide (status r = Ready)
      then cells w !! s_cancellation r = Some DISPATCHED ∨ cells w !! s_cancellation r = Some FINISHED
      else cells w !! s_cancellation r = Some CANCELLED
  | ECancel c b => (c < length (cells w))%nat ∧ (b = true → cells w !! c = Some CANCELLED)
  end.

Record step_ok (s : BrokerScheduler T) (w : World) (evs : list Event)
    (s' : BrokerScheduler T) (w' : World) : Prop := {
  so_inv : sched_inv s';
  so_waiting : waiting_inv s' w';
  so_world : world_le w w';
  so_perm : Permutation (admitted evs ++ map tag (all_jobs s)) (returned evs ++ map tag (all_jobs s'));
  so_fresh : Forall (λ t, (length (cells w) ≤ t.1)%nat) (admitted evs) ∧ NoDup (map fst (admitted evs));
  so_cells : Forall (event_cell w') evs }.

Lemma world_le_length w w' : world_le w w' → (length (cells w) ≤ length (cells w'))%nat.
Proof.
  intros Hle. destruct (decide (length (cells w) = 0%nat)) as [->|Hne]; [lia|].
  destruct (lookup_lt_is_Some_2 (cells w) (length (cells w) - 1)) as [v Hv]; [lia|].
  apply Hle in Hv as (v' & Hv' & _). apply lookup_lt_Some in Hv'. lia.
Qed.

Lemma event_cell_mono w w' e : world_le w w' → event_cell w e → event_cell w' e.
Proof.
  intros Hle. pose proof (world_le_length _ _ Hle). destruct e as [c p|r|c b]; simpl.
  - lia.
  - case_decide; [|by apply world_le_cancelled].
    intros [Hc|Hc]; apply Hle in Hc as (v & Hv & Hcell); rewrite Hv; inversion Hcell; auto.
  - intros [Hc Hb]. split; [lia|]. intros ?. apply (world_le_cancelled w); auto.
Qed.

Lemma removed_step s w out s' w' : removed s w out s' w' → step_ok s w (map EScheduled out) s' w'.
Proof.
  intros [I P S C L W]. constructor; try done.
  - rewrite admitted_scheduled, returned_scheduled. simpl. rewrite P. apply Permutation_app_comm.
  - rewrite admitted_scheduled. split; constructor.
  - apply Forall_map. rewrite Forall_forall in *. intros r Hr. simpl.
    rewrite decide_False; [by apply C|]. by rewrite (S r Hr).
Qed.

Lemma quiet_step s w w' : sched_inv s → waiting_inv s w' → world_le w w' → step_ok s w [] s w'.
Proof. intros. constructor; try done; simpl; split; constructor. Qed.

Lemma waiting_le s w w' : waiting_inv s w → world_le w w' →
  (∀ c, waiting w c → waiting w' c) → waiting_inv s w'.
Proof. intros [Hd Hw] Hle Hmono. split; [done|]. by eapply Forall_impl. Qed.

(** A rejected enqueue leaves at most an unused cell behind. *)
Lemma fresh_step s w s' w' : sched_inv s → waiting_inv s w →
  s' = s ∧ (∃ fresh, cells w' = cells w ++ fresh) → step_ok s w [] s' w'.
Proof.
  intros Hinv Hw [-> [fresh E]].
  assert (∀ c v, cells w !! c = Some v → cells w' !! c = Some v) as Hkeep
    by (intros c v Hv; rewrite E; by apply lookup_app_l_Some).
  assert (world_le w w') as L by (intros c v Hv%Hkeep; exists v; split; [done|constructor]).
  apply quiet_step; [done| |done]. eapply waiting_le; [done|done|].
  intros c [Hc|Hc]; [left|right]; by apply Hkeep.
Qed.

Lemma admits_step s w c p s' w' :
  admits s w c p s' w' → step_ok s w [EAdmitted c p] s' w'.
Proof.
  intros [Hc I P L W]. constructor; try done; simpl.
  - split; repeat constructor; [simpl; lia|apply not_elem_of_nil].
  - constructor; [|constructor]. simpl. destruct W as [_ W].
    rewrite ids_tags, P in W. simpl in W. inversion_clear W as [|? ? Hq _].
    destruct Hq as [Hq|Hq]; by apply lookup_lt_Some in Hq.
Qed.

Lemma dispatches_step s w r s' w' : dispatches s w r s' w' → step_ok s w [EScheduled r] s' w'.
Proof.
  intros [I P L W Hr Hf]. constructor; try done; simpl.
  - split; constructor.
  - constructor; [|constructor]. simpl. case_decide; [left; by apply Hr|by apply Hf].
Qed.

Lemma cancel_step s w c b w' : sched_inv s → waiting_inv s w →
  (c < length (cells w))%nat → cancel c w = (b, w') → step_ok s w [ECancel c b] s w'.
Proof.
  intros Hinv Hw Hc Ec. pose proof (cancel_le c w) as L. pose proof (cancel_frame c) as F.
  destruct (lookup_lt_is_Some_2 (cells w) c Hc) as [v Hv].
  pose proof (cancel_spec c w v Hv) as Hspec. pose proof (λ d, cancel_waiting d w) as Hcw.
  rewrite Ec in *. simpl in *. pose proof (world_le_length _ _ L).
  constructor; try done; simpl; [|split; constructor|].
  - eapply waiting_le; [done|done|]. intros d Hd.
    destruct (decide (d = c)) as [->|Hne].
    + right. destruct (Hcw c Hd) as [_ Hcc]. by rewrite Ec in Hcc.
    + specialize (F d w Hne). rewrite Ec in F. simpl in F. unfold waiting. by rewrite F.
  - constructor; [|constructor]. simpl. split; [lia|]. by rewrite Hspec.
Qed.

Lemma finish_step s w (r : Scheduled T) : sched_inv s → waiting_inv s w →
  step_ok s w [] s (drop_scheduled r w).
Proof.
  intros Hinv Hw. pose proof (compare_exchange_le (s_cancellation r) DISPATCHED FINISHED w cell_finish) as L.
  apply quiet_step; [done| |done]. eapply waiting_le; [done|done|]. intros c Hc.
  unfold drop_scheduled. destruct (decide (c = s_cancellation r)) as [->|Hne].
  - unfold compare_exchange. destruct Hc as [Hc|Hc]; rewrite (load_Some _ _ _ Hc); simpl;
      [by left|by right].
  - unfold waiting. by rewrite compare_exchange_frame.
Qed.

Lemma step_sound s w evs s' w' : sched_inv s → waiting_inv s w → step s w evs s' w' →
  step_ok s w evs s' w'.
Proof.
  intros Hinv Hw Hstep.
  assert (∀ w', cells w' = cells w → waiting_inv s w') as Htick
    by (intros w1 ?; by eapply waiting_tick).
  destruct Hstep as [name c l lease r s' w' ? ? H|name out s' w' H|out s' w' H|out s' w' H
    |c p b ms r s' w' ? ? H|p b ms r s' w' ? ? H|r s' w' H|c b w' Hc H|r].
  - apply host_register_spec in H; [|done..]. destruct r as [out|e]; [by apply removed_step|].
    destruct H as [-> E]. apply quiet_step; [done|by apply Htick|by apply world_le_cells].
  - apply removed_step. by eapply host_revoke_removed.
  - apply removed_step. by eapply host_prune_removed.
  - apply removed_step. by eapply host_drain_removed.
  - apply enqueue_agent_spec in H; [|done..]. by destruct r; [apply admits_step|apply fresh_step].
  - apply enqueue_host_spec in H; [|done..]. by destruct r; [apply admits_step|apply fresh_step].
  - apply pop_spec in H; [|done..]. destruct r as [r|]; [by apply dispatches_step|].
    destruct H as (-> & -> & _). by apply quiet_step.
  - by apply cancel_step.
  - by apply finish_step.
Qed.

Lemma new_inv epoch l (s : BrokerScheduler T) clk :
  0 ≤ max_agents l → 0 ≤ max_host_jobs l → 0 ≤ max_host_bytes l → 0 ≤ max_wait_ms l →
  new epoch l = Ok s → sched_inv s ∧ waiting_inv s (mk_world [] clk 0) ∧ all_jobs s = [].
Proof.
  intros H1 H2 H3 H4. unfold new. destruct (_ || _) eqn:E in |- *; [done|]. intros [= <-].
  repeat match goal with H : _ || _ = false |- _ => apply orb_false_iff in H as [? ?] end. bsplit.
  split; [|split; [split; constructor|done]].
  constructor; simpl; rewrite ?len_nil; try lia; [constructor; lia| |apply queue_ok_nil].
  constructor; simpl; [apply bt_wf_nil|constructor|constructor|constructor| |lia|lia].
  intros k. split; [by intros ?%not_elem_of_nil|by intros (? & ? & _)].
Qed.

Record run_ok (evs : list Event) (s : BrokerScheduler T) (w : World) : Prop := {
  ro_inv : sched_inv s;
  ro_waiting : waiting_inv s w;
  ro_perm : Permutation (admitted evs) (returned evs ++ map tag (all_jobs s));
  ro_fresh : Forall (λ t, (t.1 < length (cells w))%nat) (admitted evs);
  ro_nodup : NoDup (map fst (admitted evs));
  ro_cells : Forall (event_cell w) evs }.

Lemma run_sound evs s w : run evs s w → run_ok evs s w.
Proof.
  induction 1 as [epoch l s clk H1 H2 H3 H4 Hnew|evs evs' s w s' w' _ IH Hstep].
  - destruct (new_inv epoch l s clk) as (I & W & J); [done..|].
    constructor; try (done || constructor). by rewrite J.
  - destruct IH as [I W P F N C]. apply step_sound in Hstep as [I' W' L P' [F' N'] C']; [|done..].
    pose proof (world_le_length _ _ L) as Hlen.
    assert (admitted (evs ++ evs') = admitted evs ++ admitted evs') as Ea by apply flat_map_app.
    assert (returned (evs ++ evs') = returned evs ++ returned evs') as Er by apply flat_map_app.
    assert (Forall (λ t, (t.1 < length (cells w'))%nat) (admitted evs')) as Fnew.
    { apply Forall_forall. intros t Ht. unfold admitted in Ht.
      apply list_elem_of_In, in_flat_map in Ht as (e & He & Ht). destruct e; try done.
      destruct Ht as [<-|[]]. rewrite Forall_forall in C'.
      apply list_elem_of_In, C' in He. done. }
    constructor; try done.
    + rewrite Ea, Er, P, <- !app_assoc, (Permutation_app_comm (map tag _)), P'. done.
    + rewrite Ea. apply Forall_app. split; [|done]. eapply Forall_impl; [exact F|]. simpl. lia.
    + rewrite Ea, map_app. apply NoDup_app. split_and!; [done| |done].
      intros c Hc Hc'. apply list_elem_of_In, in_map_iff in Hc as (t & <- & Ht).
      apply list_elem_of_In, in_map_iff in Hc' as (t' & Et & Ht').
      rewrite Forall_forall in F, F'. apply list_elem_of_In, F in Ht.
      apply list_elem_of_In, F' in Ht'. lia.
    + apply Forall_app. split; [|done]. eapply Forall_impl; [exact C|].
      intros e. by apply event_cell_mono.
Qed.

(** C3: every reachable scheduler is well formed: byte and job counters are the
    sums of what is queued, no lane, agent total or host queue exceeds its
    limit (so no counter subtraction can underflow), every agent has one lane,
    and the rotation lists exactly the lanes with work, once each. *)
Theorem scheduler_invariant evs s w : run evs s w → sched_inv s ∧ waiting_inv s w.
Proof. intros []%run_sound. done. Qed.

(** C6: no job is lost or duplicated: along every run, the admitted jobs are
    exactly those returned by dispatch, revocation, replacement, pruning or
    draining together with those still queued, and they own distinct cells. *)
Theorem job_conservation evs s w : run evs s w →
  Permutation (admitted evs) (returned evs ++ map tag (all_jobs s)) ∧
  NoDup (map fst (admitted evs)).
Proof. intros []%run_sound. done. Qed.

(** C5: a successful [cancel] is definitive: along every run, a job whose
    handler was told that it cannot start is never dispatched as [Ready],
    before or after. *)
Theorem cancel_excludes_dispatch evs s w c r : run evs s w →
  ECancel c true ∈ evs → EScheduled r ∈ evs → s_cancellation r = c → status r ≠ Ready.
Proof.
  intros [_ _ _ _ _ C]%run_sound Hc Hr <- Hready. rewrite Forall_forall in C.
  apply C in Hc as [_ Hc], Hr. specialize (Hc eq_refl). simpl in Hr.
  rewrite decide_True in Hr by done. destruct Hr as [Hr|Hr]; rewrite Hc in Hr; done.
Qed.

(** C21: draining cancels all waiting work: it empties the queues, returns every
    queued job once, and each is definitively cancelled in its shared cell. *)
Theorem drain_cancels_everything evs s w out s' w' : run evs s w →
  host_drain s w = (out, s', w') →
  all_jobs s' = [] ∧ Permutation (map tag (all_jobs s)) (map out_tag out) ∧
  Forall (λ r, status r = Cancelled ∧ cells w' !! s_cancellation r = Some CANCELLED) out.
Proof.
  intros [I W _ _ _ _]%run_sound Hd.
  apply host_drain_removed in Hd as [[_ P S C _ _] E]; [|done..]. rewrite E in P.
  split_and!; [done|done|]. by apply Forall_and.
Qed.

(** ** Fairness *)

(** The cell of the oldest job of a lane. *)
Definition head_cell (k : text) (s : BrokerScheduler T) : option nat :=
  lane ← bt_get k (lanes s); q ← head (jobs lane); Some (cancellation q).

(** Any steps of any callers, of which the dispatch opportunities counted in [rs]
    returned [rs]; [evs] are the events of all steps. *)
Inductive execution : list (option (Scheduled T)) → list Event →
    BrokerScheduler T → World → BrokerScheduler T → World → Prop :=
| exec_nil s w : execution [] [] s w s w
| exec_pop r rs evs s w s1 w1 s' w' :
    pop s w = (r, s1, w1) → execution rs evs s1 w1 s' w' →
    execution (r :: rs) (match r with Some r => [EScheduled r] | None => [] end ++ evs) s w s' w'
| exec_step rs evs evs' s w s1 w1 s' w' :
    step s w evs s1 w1 → execution rs evs' s1 w1 s' w' → execution rs (evs ++ evs') s w s' w'.

Definition turn_cost (s : BrokerScheduler T) : nat := if host_turn s then 1 else 0.

(** [c] heads lane [k], and at most [m] opportunities can come before its turn. *)
Definition ahead (k : text) (c m : nat) (s : BrokerScheduler T) : Prop :=
  ∃ pre post, active s = pre ++ k :: post ∧ head_cell k s = Some c ∧
    (2 * length pre + turn_cost s ≤ m)%nat.

(** The job of cell [c] is among what was returned. *)
Definition gives_back (c : nat) (evs : list Event) : Prop :=
  ∃ r, EScheduled r ∈ evs ∧ s_cancellation r = c.

Lemma gives_back_app c evs evs' : gives_back c evs ∨ gives_back c evs' → gives_back c (evs ++ evs').
Proof. intros [(r & Hr & ?)|(r & Hr & ?)]; exists r; (split; [apply elem_of_app; auto|done]). Qed.

Lemma gives_back_scheduled c out : c ∈ map s_cancellation out → gives_back c (map EScheduled out).
Proof.
  intros (r & -> & Hr)%list_elem_of_fmap. exists r. split; [|done]. apply list_elem_of_fmap. eauto.
Qed.

Lemma head_cell_Some k s c : head_cell k s = Some c ↔
  ∃ lane q js, bt_get k (lanes s) = Some lane ∧ jobs lane = q :: js ∧ cancellation q = c.
Proof.
  unfold head_cell. destruct (bt_get k (lanes s)) as [lane|]; simpl; [|naive_solver].
  destruct (jobs lane) as [|q js] eqn:E; simpl; naive_solver congruence.
Qed.

Lemma cancel_jobs_cells queue : ∀ w, map s_cancellation (cancel_jobs queue w).1 = ids queue.
Proof.
  induction queue as [|q queue IH]; intros w; simpl; [done|].
  destruct (cancel (cancellation q) w) as [b w1]. pose proof (dispatch_id q w1) as [Hid _].
  destruct (dispatch q w1) as [r w2]. specialize (IH w2). destruct (cancel_jobs queue w2) as [out w3].
  simpl in *. by rewrite Hid, IH.
Qed.

Lemma filter_split k j (pre post : list text) : j ≠ k →
  ∃ pre' post', List.filter (λ a, negb (oeqb a j)) (pre ++ k :: post) = pre' ++ k :: post' ∧
    (length pre' ≤ length pre)%nat.
Proof.
  intros Hne. rewrite List.filter_app. simpl.
  assert (oeqb k j = false) as ->
    by (apply not_true_iff_false; rewrite oeqb_eq; congruence). simpl.
  eexists _, _. split; [reflexivity|]. apply filter_length_le.
Qed.

(** Removing a lane returns its jobs, and brings the others no further back. *)
Lemma remove_lane_ahead k c m j s w out s' w' : ahead k c m s →
  remove_lane j s w = (out, s', w') → c ∈ map s_cancellation out ∨ ahead k c m s'.
Proof.
  intros (pre & post & Ea & Hh & Hm). apply head_cell_Some in Hh as (lane & q & js & Hg & Ej & <-).
  unfold remove_lane. destruct (decide (j = k)) as [->|Hne].
  - rewrite Hg. pose proof (cancel_jobs_cells (jobs lane) w) as Hc.
    destruct (cancel_jobs (jobs lane) w) as [o w1]. intros [= <- <- <-]. left. simpl in Hc.
    rewrite Hc, Ej. left.
  - intros H. right. destruct (filter_split k j pre post Hne) as (pre' & post' & Ef & Hlen).
    assert (active s' = pre' ++ k :: post' ∧ lanes s' = bt_remove j (lanes s) ∧ host_turn s' = host_turn s)
      as (Ea' & El & Et).
    { rewrite <- Ef, <- Ea. destruct (bt_get j (lanes s)) as [l|]; [destruct (cancel_jobs (jobs l) w)|];
        by injection H as <- <- <-. }
    exists pre', post'. split; [done|]. split.
    + apply head_cell_Some. exists lane, q, js. rewrite El, bt_get_remove_ne by congruence. done.
    + unfold turn_cost in *. rewrite Et. lia.
Qed.

Lemma remove_lanes_ahead k c m ks : ∀ s w out s' w', ahead k c m s →
  remove_lanes ks s w = (out, s', w') → c ∈ map s_cancellation out ∨ ahead k c m s'.
Proof.
  induction ks as [|j ks IH]; intros s w out s' w' Ha; simpl.
  - intros [= <- <- <-]. by right.
  - destruct (remove_lane j s w) as [[o1 s1] w1] eqn:E1.
    destruct (remove_lanes ks s1 w1) as [[o2 s2] w2] eqn:E2. intros [= <- <- <-].
    rewrite map_app, elem_of_app. apply (remove_lane_ahead k c m) in E1 as [?|Ha1]; [by left; left| |done].
    apply IH in E2 as [?|?]; [by left; right|by right|done].
Qed.

(** A job in a lane with work is not there after the lanes are all removed. *)
Lemma drain_ahead k c m s w out s' w' : sched_inv s → waiting_inv s w → ahead k c m s →
  host_drain s w = (out, s', w') → c ∈ map s_cancellation out.
Proof.
  intros I W Ha. unfold host_drain. destruct (remove_lanes _ s w) as [[o1 s1] w1] eqn:E1.
  destruct (cancel_jobs (host s1) w1) as [o2 w2]. intros [= <- <- <-]. rewrite map_app, elem_of_app. left.
  pose proof (remove_lanes_removed _ _ _ _ _ _ I W E1) as [_ El]. rewrite bt_removes_all in El.
  apply (remove_lanes_ahead k c m) in E1 as [?|(pre & post & _ & Hh & _)]; [done| |done].
  apply head_cell_Some in Hh as (lane & q & js & Hg & _). by rewrite El in Hg.
Qed.

Lemma register_ahead k c m name cr l lease s w r s' w' : ahead k c m s →
  host_register instant_max sha256 name cr l lease s w = (r, s', w') →
  match r with Ok out => c ∈ map s_cancellation out | Err _ => False end ∨ ahead k c m s'.
Proof.
  intros Ha. unfold host_register.
  destruct (_ ← validate_lane_limits s l; _) as [[k' sk]|e]; [|intros [= <- <- <-]; by right].
  destruct (bt_mem k' (lanes s) || _) eqn:Eq; [intros [= <- <- <-]; by right|].
  apply orb_false_iff in Eq as [Ek _]. apply bt_mem_false in Ek.
  destruct (deadline instant_max lease w) as [[d|e] w1]; [|intros [= <- <- <-]; by right].
  assert (k' ≠ k) as Hne.
  { intros ->. destruct Ha as (pre & post & _ & Hh & _). apply head_cell_Some in Hh as (lane & ? & ? & Hg & _).
    congruence. }
  assert (∀ s1 lane, ahead k c m s1 → ahead k c m (insert_lane k' lane s1)) as Hins.
  { intros s1 lane (pre & post & Ea & Hh & Hm). exists pre, post. split; [done|]. split; [|done].
    unfold head_cell in *. simpl. by rewrite bt_get_insert_ne. }
  destruct (find_agent name s) as [j|].
  - destruct (remove_lane j s w1) as [[o s1] w2] eqn:E1. intros [= <- <- <-].
    apply (remove_lane_ahead k c m) in E1 as [?|?]; [by left|right; by apply Hins|done].
  - intros [= <- <- <-]. right. by apply Hins.
Qed.

Lemma enqueue_agent_pushes cr (p : T) b ms s w r s' w' :
  enqueue_agent instant_max sha256 cr p b ms s w = (r, s', w') →
  s' = s ∨ ∃ j l q, bt_get j (lanes s) = Some l ∧ s' = push_agent j l q s.
Proof.
  unfold enqueue_agent. intros H.
  destruct (_ ← validate_job s b ms; _) as [j|]; [|injection H as <- <- <-; by left].
  destruct (bt_get j (lanes s)) as [l|] eqn:Eg; [|injection H as <- <- <-; by left].
  destruct (now w) as [t w0]. destruct (negb _); [injection H as <- <- <-; by left|].
  destruct (agent_totals s) as [tj tb]. destruct (_ || _); [injection H as <- <- <-; by left|].
  destruct (deadline instant_max ms w0) as [[d|] w1]; [|injection H as <- <- <-; by left].
  destruct (alloc QUEUED w1) as [cell w2]. destruct (now w2) as [t' w3]. injection H as <- <- <-. right.
  exists j, l, (mk_queued p b t' (Z.min d (l_expires l)) cell). split; [done|reflexivity].
Qed.

Lemma enqueue_agent_ahead k c m cr (p : T) b ms s w r s' w' : ahead k c m s →
  enqueue_agent instant_max sha256 cr p b ms s w = (r, s', w') → ahead k c m s'.
Proof.
  intros Ha [->|(j & l & x & Hl & ->)]%enqueue_agent_pushes; [done|].
  destruct Ha as (pre & post & Ea & Hh & Hm). apply head_cell_Some in Hh as (lane & q & js & Hg & Ej & Hc).
  exists pre, (post ++ match jobs l with [] => [j] | _ => [] end). unfold push_agent. simpl. split; [|split; [|done]].
  - rewrite Ea. destruct (jobs l); rewrite ?app_nil_r, <- ?app_assoc; done.
  - apply head_cell_Some. simpl. destruct (decide (j = k)) as [->|Hne].
    + rewrite Hg in Hl. injection Hl as <-. rewrite bt_get_insert_eq. eexists _, q, _. split; [done|].
      simpl. by rewrite Ej.
    + rewrite bt_get_insert_ne by congruence. by exists lane, q, js.
Qed.

Lemma enqueue_host_ahead k c m p b ms s w r s' w' : ahead k c m s →
  enqueue_host instant_max p b ms s w = (r, s', w') → ahead k c m s'.
Proof. unfold enqueue_host. intros Ha H. repeat (case_match; try (by injection H as <- <- <-)). Qed.

(** A dispatch opportunity while a lane has work returns a job: the head of the
    lane, or another one, and then the lane is nearer its turn. *)
Lemma pop_ahead k c m s w r s' w' : sched_inv s → ahead k c m s → pop s w = (r, s', w') →
  ∃ r', r = Some r' ∧ (s_cancellation r' = c ∨ ∃ m', (S m' ≤ m)%nat ∧ ahead k c m' s').
Proof.
  intros I (pre & post & Ea & Hh & Hm). unfold pop.
  apply head_cell_Some in Hh as (lane & q & js & Hg & Ej & <-).
  assert (∃ x s1, pop_queued s = (Some x, s1) ∧
    (x = q ∨ ∃ m', (S m' ≤ m)%nat ∧ ahead k (cancellation q) m' s1)) as (x & s1 & -> & Hx).
  { unfold pop_queued. assert (bool_decide (active s = []) = false) as ->
      by (apply bool_decide_eq_false; rewrite Ea; by destruct pre).
    rewrite orb_false_r. unfold turn_cost in Hm. destruct (negb _ && host_turn s) eqn:Eh.
    - apply andb_true_iff in Eh as [Hne Eh]. destruct (host s) as [|x h]; [done|]. rewrite Eh in Hm.
      eexists x, _. split; [done|]. right. exists (2 * length pre)%nat. split; [lia|].
      exists pre, post. split; [done|]. split; [|unfold turn_cost; simpl; lia].
      apply head_cell_Some. by exists lane, q, js.
    - rewrite Ea. destruct pre as [|y pre]; simpl.
      + rewrite Hg, Ej. eexists q, _. split; [done|]. by left.
      + assert (y ≠ k) as Hyk.
        { pose proof (li_active _ _ _ (si_lanes _ I)) as Hd. rewrite Ea in Hd. simpl in Hd.
          apply NoDup_cons in Hd as [Hy _]. intros ->. apply Hy, elem_of_app. right. left. }
        assert (y ∈ active s) as Hy by (rewrite Ea; left).
        apply (li_busy _ _ _ (si_lanes _ I)) in Hy as (ly & Hgy & Hjy). rewrite Hgy.
        destruct (jobs ly) as [|x jy]; [done|]. eexists x, _. split; [done|]. right.
        exists (2 * length pre + 1)%nat. simpl in Hm. split; [destruct (host_turn s); lia|].
        exists pre, (post ++ match jy with [] => [] | _ => [y] end). simpl. split; [|split].
        * destruct jy; rewrite ?app_nil_r, <- ?app_assoc; done.
        * apply head_cell_Some. simpl. rewrite bt_get_insert_ne by congruence. by exists lane, q, js.
        * unfold turn_cost. simpl. lia. }
  pose proof (dispatch_id x w) as [Hid _]. destruct (dispatch x w) as [r' w1]. intros [= <- <- <-].
  exists r'. split; [done|]. simpl in Hid. rewrite Hid. destruct Hx as [->|Hx]; [by left|by right].
Qed.

(** No step of any caller pushes a waiting lane back without returning its head. *)
Lemma step_ahead k c m s w evs s' w' : sched_inv s → waiting_inv s w → ahead k c m s →
  step s w evs s' w' → gives_back c evs ∨ ahead k c m s'.
Proof.
  intros I W Ha Hstep.
  destruct Hstep as [name cr l lease r s' w' ? ? H|name out s' w' H|out s' w' H|out s' w' H
    |cr p b ms r s' w' ? ? H|p b ms r s' w' ? ? H|r s' w' H|d b w' Hc H|r].
  - apply (register_ahead k c m) in H as [H|?]; [|by right|done]. destruct r as [out|]; [|done].
    left. by apply gives_back_scheduled.
  - unfold host_revoke in H. destruct (find_agent name s) as [j|]; [|injection H as <- <- <-; by right].
    apply (remove_lane_ahead k c m) in H as [?|?]; [left; by apply gives_back_scheduled|by right|done].
  - unfold host_prune in H. destruct (now w) as [t w1].
    apply (remove_lanes_ahead k c m) in H as [?|?]; [left; by apply gives_back_scheduled|by right|done].
  - left. apply gives_back_scheduled. by eapply drain_ahead.
  - right. by eapply enqueue_agent_ahead.
  - right. by eapply enqueue_host_ahead.
  - apply (pop_ahead k c m) in H as (r' & -> & [Hc|(m' & Hm & pre & post & Ea & Hh & Hle)]); [| |done..].
    + left. exists r'. split; [left|done].
    + right. exists pre, post. split; [done|]. split; [done|lia].
  - by right.
  - by right.
Qed.

Lemma execution_serves rs evs s w s' w' : execution rs evs s w s' w' → ∀ k c m,
  sched_inv s → waiting_inv s w → ahead k c m s →
  gives_back c evs ∨ ((length rs ≤ m)%nat ∧ None ∉ rs).
Proof.
  induction 1 as [s w|r rs evs s w s1 w1 s' w' Hp _ IH|rs evs evs' s w s1 w1 s' w' Hs _ IH];
    intros k c m I W Ha.
  - right. split; [simpl; lia|by apply not_elem_of_nil].
  - destruct (pop_ahead k c m s w r s1 w1 I Ha Hp) as (r' & -> & [Hc|(m' & Hm & Ha1)]).
    + left. exists r'. split; [left|done].
    + pose proof (pop_spec s w (Some r') s1 w1 I W Hp) as [I1 _ _ W1 _ _].
      destruct (IH k c m' I1 W1 Ha1) as [Hg|[Hlen Hn]]; [left; apply gives_back_app; by right|].
      right. simpl. split; [lia|]. by rewrite elem_of_cons; intros [?|?].
  - destruct (step_sound s w evs s1 w1 I W Hs) as [I1 W1 _ _ _ _].
    destruct (step_ahead k c m s w evs s1 w1 I W Ha Hs) as [Hg|Ha1]; [left; apply gives_back_app; by left|].
    destruct (IH k c m I1 W1 Ha1) as [Hg|?]; [left; apply gives_back_app; by right|by right].
Qed.

(** C9: bounded waiting: in every reachable scheduler, the oldest job of a lane
    with work that has [length pre] lanes before it in the rotation is returned
    within [2 * length pre + 2] dispatch opportunities (one less when it is the
    agents' turn), whatever steps all callers take meanwhile (admissions,
    registrations, revocations, pruning, cancellations, completions). Until it
    is returned, every dispatch opportunity returns some job: none is wasted. *)
Theorem bounded_waiting evs0 s w k lane q js pre post rs evs s' w' : run evs0 s w →
  bt_get k (lanes s) = Some lane → jobs lane = q :: js → active s = pre ++ k :: post →
  execution rs evs s w s' w' →
  ((2 * length pre + turn_cost s < length rs)%nat ∨ None ∈ rs) →
  ∃ r, EScheduled r ∈ evs ∧ s_cancellation r = cancellation q.
Proof.
  intros [I W _ _ _ _]%run_sound Hg Ej Ea He Hmany.
  destruct (execution_serves rs evs s w s' w' He k (cancellation q) (2 * length pre + turn_cost s)) as [?|[Hlen Hn]];
    [done|done| |done|].
  - exists pre, post. split; [done|]. split; [|done]. apply head_cell_Some. by exists lane, q, js.
  - destruct Hmany; [lia|done].
Qed.

(** Every lane with work is in the rotation, so twice as many opportunities as
    lanes with work are enough for any of them. *)
Lemma lane_in_rotation evs0 s w k lane : run evs0 s w → bt_get k (lanes s) = Some lane → jobs lane ≠ [] →
  ∃ pre post, active s = pre ++ k :: post ∧ (2 * length pre + turn_cost s < 2 * length (active s))%nat.
Proof.
  intros [I _ _ _ _ _]%run_sound Hg Hj.
  assert (k ∈ active s) as Hk by (apply (li_busy _ _ _ (si_lanes _ I)); eauto).
  apply list_elem_of_split in Hk as (pre & post & Ea). exists pre, post. split; [done|].
  rewrite Ea, length_app. unfold turn_cost. destruct (host_turn s); simpl; lia.
Qed.
End runs.

(** C27: only a live grant authenticates: a completed client handshake names a
    lane that is registered and unexpired at that moment, under the scheduler's
    epoch, the proof is the MAC of exactly this connection's challenges under
    that lane's key, and the returned credential is the one whose grant identity
    the client presented. *)
Theorem authenticate_client_live sha256 hmac (s : BrokerScheduler T) hello server client w c w' :
  authenticate_client sha256 hmac s hello server client w = (Ok c, w') →
  ∃ lane, bt_get (h_grant_id hello) (lanes s) = Some lane ∧
    clock w (ticks w) < l_expires lane ∧ matches hello server = true ∧
    c_proof client = hex (mac hmac (key lane) client_domain server) ∧
    c = mk_credential (b_epoch s) (hex (key lane)) ∧
    grant_id sha256 c = Ok (h_grant_id hello).
Proof.
  unfold authenticate_client, handshake_lane.
  destruct (negb (valid hello) || _) eqn:Ev; [done|].
  apply orb_false_iff in Ev as [_ Ee]. apply negb_false_iff, oeqb_eq in Ee.
  destruct (bt_get (h_grant_id hello) (lanes s)) as [lane|]; [|done].
  simpl. destruct (Z.ltb_spec (clock w (ticks w)) (l_expires lane)); [|done]. simpl.
  intros [= Hc _]. inv_ok Hc. apply verify_client_ok in Hok as (Hm & Hp & ->).
  inv_ok Hc. destruct (oeqb a (h_grant_id hello)) eqn:Eg; [|done].
  apply oeqb_eq in Eg as ->. injection Hc as <-. rewrite Ee in *. exists lane. by split_and!.
Qed.
End invariant.

(** ** Witnesses *)

Module SchedulerWitness.
Definition imax : Z := 10 ^ 30.
Definition w0 : World := mk_world [] Z.of_nat 0.
Definition sample_epoch : text := replicate 64 101.
Definition s0 : BrokerScheduler nat :=
  mk_scheduler sample_epoch default_queue_limits [] [] [] 0 true.

Lemma run0 : run imax constant_digest [] s0 w0.
Proof. by apply (run_new _ _ sample_epoch default_queue_limits). Qed.

(** A host job is admitted, cancelled by its handler and then popped. *)
Definition st1 := enqueue_host imax 7%nat 100 1000 s0 w0.
Definition s1 := st1.1.2.
Definition w1 := st1.2.
Definition w2 := (cancel 0 w1).2.
Definition st3 := pop s1 w2.
Definition r3 := mk_scheduled (Some 7%nat) Cancelled 2 0.

Lemma run1 : run imax constant_digest [EAdmitted 0 7%nat] s1 w1.
Proof.
  apply (run_step _ _ [] [EAdmitted 0 7%nat] s0 w0); [exact run0|].
  by apply (step_enqueue_host _ _ _ _ 7%nat 100 1000 (Ok 0%nat)).
Qed.

Definition trace3 : list (@Event nat) := [EAdmitted 0 7%nat; ECancel 0 true; EScheduled r3].

Lemma run3 : run imax constant_digest trace3 st3.1.2 st3.2.
Proof.
  apply (run_step _ _ [EAdmitted 0 7%nat; ECancel 0 true] [EScheduled r3] s1 w2).
  - apply (run_step _ _ [EAdmitted 0 7%nat] [ECancel 0 true] s1 w1); [exact run1|].
    by apply step_cancel; [apply Nat.ltb_lt|].
  - by apply (step_pop _ _ _ _ (Some r3)).
Qed.

(** A registered agent with one job behind a host job. *)
Definition grant : text := match grant_id constant_digest sample_credential with
                           | Ok k => k | Err _ => [] end.
Definition st4 := host_register imax constant_digest [97] sample_credential
                    default_agent_limits 60000 s1 w1.
Definition st5 := enqueue_agent imax constant_digest sample_credential 8%nat 50 1000 st4.1.2 st4.2.
Definition s5 := st5.1.2.
Definition w5 := st5.2.

Lemma run5 : run imax constant_digest [EAdmitted 0 7%nat; EAdmitted 1 8%nat] s5 w5.
Proof.
  apply (run_step _ _ [EAdmitted 0 7%nat] [EAdmitted 1 8%nat] st4.1.2 st4.2).
  - apply (run_step _ _ [EAdmitted 0 7%nat] [] s1 w1); [exact run1|].
    by apply (step_register _ _ _ _ [97] sample_credential default_agent_limits 60000 (Ok [])).
  - by apply (step_enqueue_agent _ _ _ _ sample_credential 8%nat 50 1000 (Ok 1%nat)).
Qed.
End SchedulerWitness.

Import SchedulerWitness.

Definition witness_job : Queued nat := mk_queued 7%nat 100 0 1000 0.

Lemma dispatch_race_one_winner_witness :
  let '(scheduled, w') := dispatch_with (λ w, (cancels_on 0 [0%nat] w).2) witness_job w1 in
  (status scheduled = Ready →
   (cancels_on 0 [0%nat] (now w1).2).1 = false ∧ (cancel 0 w').1 = false) ∧
  (status scheduled ≠ Ready → (cancel 0 w').1 = true).
Proof. exact (dispatch_race_one_winner witness_job w1 [0%nat] (or_introl eq_refl)). Defined.

Lemma scheduler_invariant_witness : sched_inv s5 ∧ waiting_inv s5 w5.
Proof. apply (scheduler_invariant imax constant_digest _ _ _ run5). Defined.

Lemma job_conservation_witness :
  Permutation [(0%nat, Some 7%nat); (1%nat, Some 8%nat)] (map tag (all_jobs s5)) ∧ NoDup [0%nat; 1%nat].
Proof. apply (job_conservation imax constant_digest _ _ _ run5). Defined.

Lemma cancel_excludes_dispatch_witness : status r3 ≠ Ready.
Proof.
  apply (cancel_excludes_dispatch imax constant_digest trace3 st3.1.2 st3.2 0 r3 run3).
  - right. left.
  - right. right. left.
  - reflexivity.
Defined.

Lemma drain_cancels_everything_witness :
  all_jobs (host_drain s5 w5).1.2 = [].
Proof.
  apply (drain_cancels_everything imax constant_digest _ s5 w5 (host_drain s5 w5).1.1
           (host_drain s5 w5).1.2 (host_drain s5 w5).2 run5).
  vm_compute. reflexivity.
Defined.

(** The host's job first, then the agent's, as the second opportunity. *)
Definition st6 := pop s5 w5.
Definition st7 := pop st6.1.2 st6.2.
Definition served_events : list (@Event nat) := Eval vm_compute in
  match st6.1.1, st7.1.1 with Some r, Some r' => [EScheduled r; EScheduled r'] | _, _ => [] end.

Lemma bounded_waiting_witness : ∃ r, EScheduled r ∈ served_events ∧ s_cancellation r = 1%nat.
Proof.
  destruct (bt_get grant (lanes s5)) as [lane|] eqn:Eg; [|vm_compute in Eg; discriminate Eg].
  destruct (jobs lane) as [|q js] eqn:Ej; [vm_compute in Eg; injection Eg as <-; discriminate Ej|].
  assert (cancellation q = 1%nat) as <- by (vm_compute in Eg; injection Eg as <-; by injection Ej as <- _).
  apply (bounded_waiting imax constant_digest [EAdmitted 0 7%nat; EAdmitted 1 8%nat] s5 w5 grant lane q js [] []
    [st6.1.1; st7.1.1] served_events st7.1.2 st7.2 run5 Eg Ej).
  - vm_compute. reflexivity.
  - apply (exec_pop imax constant_digest st6.1.1 [st7.1.1] (drop 1 served_events) s5 w5 st6.1.2 st6.2);
      [vm_compute; reflexivity|].
    apply (exec_pop imax constant_digest st7.1.1 [] [] st6.1.2 st6.2 st7.1.2 st7.2); [vm_compute; reflexivity|].
    apply exec_nil.
  - left. vm_compute. repeat constructor.
Defined.

Definition witness_hello : ClientHello :=
  mk_hello BROKER_PROTOCOL sample_epoch grant (replicate 64 48).
Definition witness_server : ServerProof :=
  mk_server_proof BROKER_PROTOCOL sample_epoch grant (replicate 64 48) (replicate 64 49)
    (replicate 64 50).
Definition witness_hmac (k m : list Z) : list Z := constant_digest (k ++ m).
Definition witness_client : ClientProof :=
  mk_client_proof BROKER_PROTOCOL (hex (witness_hmac (replicate 32 170) (mac_message client_domain witness_server))).

Lemma authenticate_client_live_witness :
  ∃ lane, bt_get grant (lanes s5) = Some lane ∧
    clock w5 (ticks w5) < l_expires lane ∧ matches witness_hello witness_server = true ∧
    c_proof witness_client = hex (mac witness_hmac (key lane) client_domain witness_server) ∧
    sample_credential = mk_credential (b_epoch s5) (hex (key lane)) ∧
    grant_id constant_digest sample_credential = Ok grant.
Proof.
  eapply (authenticate_client_live constant_digest witness_hmac s5 witness_hello witness_server
            witness_client w5 sample_credential).
  vm_compute. reflexivity.
Defined.
