(* ===== verification/Protocol.v ===== *)
(** * Protocol records: crates/cigar-protocol/src

    Validation results (validation.rs), identities (identity.rs), schema
    versions (schema.rs), extension values (extension.rs) and the effect records
    with their validators (effect.rs). Identifiers, digests and names are the
    UTF-8 bytes of their text; timestamps are signed nanosecond counts. *)

From S2P Require Import Prelude Collections BrokerAuth.
From stdpp Require Import pretty.
Local Open Scope Z_scope.
Set Warnings "-register-all".

Module Protocol.

Create Rewrite HintDb validators.

Abbreviation text := (list Z).

(** ** Validation results *)

Inductive ValidationCode :=
| LimitExceeded | InvalidSchema | UnsupportedSchema | InvalidIdentity
| InvalidExtensionKey | UnknownMandatoryExtension | InvalidValue.

(** An issue is its code and path; messages carry no information. *)
Definition ValidationIssue : Type := ValidationCode * text.
Definition ValidationErrors : Type := list ValidationIssue.

Definition MAX_VALIDATION_ERRORS : Z := 32.

Definition push_issue (errors : ValidationErrors) (i : ValidationIssue) : ValidationErrors :=
  if len errors <? MAX_VALIDATION_ERRORS then errors ++ [i] else errors.

Definition merge (errors other : ValidationErrors) : ValidationErrors :=
  fold_left push_issue other errors.

Definition into_result (errors : ValidationErrors) : result ValidationErrors unit :=
  match errors with [] => Ok tt | _ => Err errors end.

(** [if cond { errors.push(issue(..)) }]. *)
Definition push_if (cond : bool) (code : ValidationCode) (path : text)
    (errors : ValidationErrors) : ValidationErrors :=
  if cond then push_issue errors (code, path) else errors.

(** ** Identities *)

Definition UUID_TEXT_BYTES : Z := 36.
Definition MAX_IDEMPOTENCY_KEY_BYTES : Z := 128.

Definition hyphen_index (i : Z) : bool := (i =? 8) || (i =? 13) || (i =? 18) || (i =? 23).
Definition byte_at (bytes : text) (i : nat) (p : Z → bool) : bool := is_some_and p (bytes !! i).

Fixpoint enumerate_all (p : Z → Z → bool) (i : Z) (bytes : text) : bool :=
  match bytes with [] => true | b :: rest => p i b && enumerate_all p (i + 1) rest end.

Definition validate_uuid_v7 (value path : text) : result ValidationErrors unit :=
  let valid_length := len value =? UUID_TEXT_BYTES in
  let valid_hyphens := valid_length && forallb (λ i, byte_at value i (Z.eqb 45)) [8; 13; 18; 23]%nat in
  let valid_hex := enumerate_all (λ i b, hyphen_index i || Auth.is_ascii_digit b || Auth.is_lower_hex b)
                     0 value in
  let valid_version := byte_at value 14 (Z.eqb 55) in
  let valid_variant := byte_at value 19 (λ b, (b =? 56) || (b =? 57) || (b =? 97) || (b =? 98)) in
  if valid_length && valid_hyphens && valid_hex && valid_version && valid_variant
  then Ok tt else Err (push_issue [] (InvalidIdentity, path)).

Fixpoint starts_with (prefix s : text) : bool :=
  match prefix, s with
  | [], _ => true
  | a :: p, b :: t => (a =? b) && starts_with p t
  | _, [] => false
  end.

Definition validate_multihash (value path : text) : result ValidationErrors unit :=
  if (len value =? 68) && starts_with (str_bytes "1220") value &&
     forallb (λ b, Auth.is_ascii_digit b || Auth.is_lower_hex b) value
  then Ok tt else Err (push_issue [] (InvalidIdentity, path)).

(** [ContentDigest::new]. *)
Definition content_digest_new (value : text) : result ValidationErrors text :=
  _ ← validate_multihash value (str_bytes "/content_digest"); Ok value.

Definition is_ascii_graphic (b : Z) : bool := (33 <=? b) && (b <=? 126).
Definition is_ascii_lowercase (b : Z) : bool := (97 <=? b) && (b <=? 122).
Definition is_ascii_control (b : Z) : bool := (b <=? 31) || (b =? 127).

Definition idempotency_key_new (value : text) : result ValidationErrors text :=
  if negb (len value =? 0) && (len value <=? MAX_IDEMPOTENCY_KEY_BYTES) &&
     forallb is_ascii_graphic value
  then Ok value
  else Err (push_issue [] (InvalidIdentity, str_bytes "/idempotency_key")).

(** ** Schema versions *)

Definition MAX_SCHEMA_FAMILY_BYTES : Z := 64.

Record SchemaVersion := mk_schema { family : text; major : Z }.

(** [s.contains("..")]. *)
Fixpoint contains_dotdot (s : text) : bool :=
  match s with
  | a :: ((b :: _) as t) => ((a =? 46) && (b =? 46)) || contains_dotdot t
  | _ => false
  end.

Definition valid_family (f : text) : bool :=
  negb (is_some_and (Z.eqb 46) (head f)) && negb (is_some_and (Z.eqb 46) (last f)) &&
  negb (contains_dotdot f) &&
  forallb (λ b, is_ascii_lowercase b || Auth.is_ascii_digit b || (b =? 46) || (b =? 45)) f.

Definition schema_version_new (f : text) (v : Z) : result ValidationErrors SchemaVersion :=
  let path := str_bytes "/schema_version" in
  let errors := push_if ((len f =? 0) || (MAX_SCHEMA_FAMILY_BYTES <? len f)) LimitExceeded path [] in
  let errors := push_if (negb (valid_family f)) InvalidSchema path errors in
  let errors := push_if (v =? 0) InvalidSchema path errors in
  _ ← into_result errors; Ok (mk_schema f v).

Definition require_v1 (v : SchemaVersion) (expected_family : text) : result ValidationErrors unit :=
  let path := str_bytes "/schema_version" in
  let errors := push_if (negb (oeqb (family v) expected_family)) InvalidSchema path [] in
  let errors := push_if (negb (major v =? 1)) UnsupportedSchema path errors in
  into_result errors.

Definition validate_version (v : SchemaVersion) (f : text) (errors : ValidationErrors) : ValidationErrors :=
  match require_v1 v f with Ok _ => errors | Err found => merge errors found end.

(** ** Extensions *)

Definition MAX_EXTENSION_KEY_BYTES : Z := 128.
Definition MAX_EXTENSION_ENTRIES : Z := 64.
Definition MAX_EXTENSION_DEPTH : nat := 16.
Definition MAX_EXTENSION_COLLECTION_ITEMS : Z := 256.
Definition MAX_EXTENSION_TEXT_BYTES : Z := 65536.
Definition MAX_EXTENSION_BYTES : Z := 65536.

Definition extension_key_new (value : text) : result ValidationErrors text :=
  let lower_digit b := is_ascii_lowercase b || Auth.is_ascii_digit b in
  let valid_first := is_some_and lower_digit (head value) in
  let valid_rest := forallb (λ b, lower_digit b || (b =? 46) || (b =? 95) || (b =? 47) || (b =? 45))
                      (tail value) in
  if valid_first && valid_rest && (len value <=? MAX_EXTENSION_KEY_BYTES) then Ok value
  else Err (push_issue [] (InvalidExtensionKey, str_bytes "/extensions")).

Definition is_mandatory (key : text) : bool := starts_with (str_bytes "required/") key.

Inductive CanonicalValue : Type :=
| VBoolean (b : bool)
| VInteger (i : Z)
| VText (s : text)
| VBytes (b : text)
| VArray (l : list CanonicalValue)
| VObject (m : btree text CanonicalValue).

Fixpoint validate_at (value : CanonicalValue) (depth : nat) (path : text)
    (errors : ValidationErrors) : ValidationErrors :=
  if (MAX_EXTENSION_DEPTH <? depth)%nat then push_issue errors (LimitExceeded, path) else
  match value with
  | VText s => push_if (MAX_EXTENSION_TEXT_BYTES <? len s) LimitExceeded path errors
  | VBytes b => push_if (MAX_EXTENSION_BYTES <? len b) LimitExceeded path errors
  | VArray values =>
      let errors := push_if (MAX_EXTENSION_COLLECTION_ITEMS <? len values) LimitExceeded path errors in
      (fix items (index : Z) (values : list CanonicalValue) (errors : ValidationErrors) :=
         match values with
         | [] => errors
         | v :: rest =>
             items (index + 1) rest
               (validate_at v (S depth) (path ++ [47] ++ str_bytes (pretty index)) errors)
         end) 0 values errors
  | VObject values =>
      let errors := push_if (MAX_EXTENSION_COLLECTION_ITEMS <? len values) LimitExceeded path errors in
      (fix entries (values : btree text CanonicalValue) (errors : ValidationErrors) :=
         match values with
         | [] => errors
         | (key, v) :: rest => entries rest (validate_at v (S depth) (path ++ [47] ++ key) errors)
         end) values errors
  | VBoolean _ | VInteger _ => errors
  end.

Definition canonical_value_validate (value : CanonicalValue) : result ValidationErrors unit :=
  into_result (validate_at value 1 (str_bytes "/value") []).

Definition ExtensionMap : Type := btree text CanonicalValue.

Definition validate_known (extensions : ExtensionMap) (known_keys : list text)
    : result ValidationErrors unit :=
  let path := str_bytes "/extensions" in
  let errors := push_if (MAX_EXTENSION_ENTRIES <? len extensions) LimitExceeded path [] in
  into_result
    (fold_left (λ errors '(key, value),
       let errors := push_if (is_mandatory key && negb (existsb (oeqb key) known_keys))
                       UnknownMandatoryExtension path errors in
       validate_at value 1 (path ++ [47] ++ key) errors) extensions errors).

Definition validate_extensions (extensions : ExtensionMap) (errors : ValidationErrors)
    : ValidationErrors :=
  match validate_known extensions [] with Ok _ => errors | Err found => merge errors found end.

(** ** Effect records *)

Definition MAX_EFFECT_SELECTOR_BYTES : Z := 1024.
Definition MAX_EFFECT_PRECONDITIONS : Z := 256.
Definition MAX_RECONCILIATION_EVIDENCE : Z := 256.

Inductive EffectState :=
| Prepared | PendingApproval | Authorized | Dispatching | Succeeded | Failed | Unknown
| AuthorizedForRetry | ManualResolution | Rejected | Expired | Cancelled
| CompensationPending | Compensating | Compensated | CompensationFailed.

Definition can_transition_to (self target : EffectState) : bool :=
  match self, target with
  | Prepared, (PendingApproval | Authorized | Expired | Cancelled)
  | PendingApproval, (Authorized | Rejected | Expired | Cancelled)
  | Authorized, (Dispatching | Expired | Cancelled)
  | Dispatching, (Succeeded | Failed | Unknown)
  | Unknown, (Unknown | Succeeded | Failed | AuthorizedForRetry | ManualResolution)
  | AuthorizedForRetry, (Dispatching | Expired | Cancelled)
  | Succeeded, CompensationPending
  | CompensationPending, Compensating
  | Compensating, (Compensated | CompensationFailed | Unknown) => true
  | _, _ => false
  end.

Inductive RiskLevel := Low | Medium | High | Critical.

Inductive RetryPolicy :=
| Never
| SameKeyIdempotent (max_attempts : Z)
| ReconcileBeforeRetry.

(** coordination.rs [Capability]. *)
Inductive Capability :=
| ReadContext | CompileContext | WriteOverlay | PublishOverlay | CreateHandoff
| AcceptHandoff | InvokeTool | ProposeEffect | ApproveEffect | ReconcileEffect.

(** atom.rs [BlobRef]. *)
Record BlobRef := mk_blob_ref { digest : text; size_bytes : Z; media_type : text }.

Record CompensationSpec := mk_compensation_spec {
  cs_operation : text; cs_arguments_digest : text; cs_encrypted_arguments : BlobRef }.

Record EffectIntent := mk_intent {
  ei_schema_version : SchemaVersion; ei_effect_id : text; ei_connector : text;
  ei_operation : text; ei_arguments_digest : text; ei_encrypted_arguments : BlobRef;
  ei_target : text; ei_preconditions : list text; ei_result_schema_digest : text;
  ei_risk : RiskLevel; ei_source_decision_id : text; ei_bundle_id : text;
  ei_required_capability : Capability; ei_idempotency_scope : text;
  ei_idempotency_key : text; ei_retry_policy : RetryPolicy; ei_created_at : Z;
  ei_expires_at : Z; ei_compensation : option CompensationSpec; ei_extensions : ExtensionMap }.

Definition validate_selector (value path : text) (errors : ValidationErrors) : ValidationErrors :=
  push_if ((len value =? 0) || (MAX_EFFECT_SELECTOR_BYTES <? len value)) LimitExceeded path errors.

Definition intent_validate (i : EffectIntent) : result ValidationErrors unit :=
  let errors := validate_version (ei_schema_version i) (str_bytes "cigar.effect-intent") [] in
  let errors := validate_selector (ei_connector i) (str_bytes "/connector") errors in
  let errors := validate_selector (ei_operation i) (str_bytes "/operation") errors in
  let errors := validate_selector (ei_target i) (str_bytes "/target") errors in
  let errors := validate_selector (ei_idempotency_scope i) (str_bytes "/idempotency_scope") errors in
  let errors := push_if ((MAX_EFFECT_PRECONDITIONS <? len (ei_preconditions i)) ||
                         negb (strictly_sorted (ei_preconditions i)))
                  InvalidValue (str_bytes "/preconditions") errors in
  let errors := push_if (ei_expires_at i <=? ei_created_at i) InvalidValue (str_bytes "/expires_at") errors in
  let errors := push_if (match ei_retry_policy i with SameKeyIdempotent n => n =? 0 | _ => false end)
                  InvalidValue (str_bytes "/retry_policy/max_attempts") errors in
  let errors := match ei_compensation i with
                | Some c => validate_selector (cs_operation c) (str_bytes "/compensation/operation") errors
                | None => errors
                end in
  into_result (validate_extensions (ei_extensions i) errors).

Inductive ApprovalKind := Human | Policy.

Record EffectApproval := mk_approval {
  ap_schema_version : SchemaVersion; ap_approval_id : text; ap_effect_id : text;
  ap_intent_digest : text; ap_target_digest : text; ap_risk : RiskLevel;
  ap_bundle_id : text; ap_conditions_digest : text; ap_approver_id : text;
  ap_kind : ApprovalKind; ap_approved_at : Z; ap_expires_at : Z }.

Definition high_or_critical (r : RiskLevel) : bool :=
  match r with High | Critical => true | _ => false end.
Definition is_human (k : ApprovalKind) : bool := match k with Human => true | Policy => false end.

Definition approval_validate (a : EffectApproval) : result ValidationErrors unit :=
  let errors := validate_version (ap_schema_version a) (str_bytes "cigar.effect-approval") [] in
  let errors := push_if (ap_expires_at a <=? ap_approved_at a) InvalidValue (str_bytes "/expires_at") errors in
  let errors := push_if (high_or_critical (ap_risk a) && negb (is_human (ap_kind a)))
                  InvalidValue (str_bytes "/kind") errors in
  into_result errors.

Record EffectAttempt := mk_attempt {
  at_schema_version : SchemaVersion; at_attempt_id : text; at_effect_id : text;
  at_attempt_number : Z; at_fencing_token : Z; at_request_digest : text;
  at_started_at : Z; at_deadline : Z }.

Definition attempt_validate (a : EffectAttempt) : result ValidationErrors unit :=
  let errors := validate_version (at_schema_version a) (str_bytes "cigar.effect-attempt") [] in
  let errors := push_if ((at_attempt_number a =? 0) || (at_fencing_token a =? 0) ||
                         (at_deadline a <=? at_started_at a))
                  InvalidValue (str_bytes "/attempt_number") errors in
  into_result errors.

Inductive ReceiptOutcome := RSucceeded | RFailed | RUnknown.

Record EffectReceipt := mk_receipt {
  rc_schema_version : SchemaVersion; rc_receipt_id : text; rc_effect_id : text;
  rc_attempt_id : text; rc_outcome : ReceiptOutcome; rc_remote_operation_id : option text;
  rc_protected_response : option BlobRef; rc_response_digest : option text;
  rc_observed_at : Z; rc_verification_digest : option text }.

Definition is_none {A} (o : option A) : bool := match o with None => true | Some _ => false end.

Definition receipt_validate (r : EffectReceipt) : result ValidationErrors unit :=
  let errors := validate_version (rc_schema_version r) (str_bytes "cigar.effect-receipt") [] in
  let errors := match rc_remote_operation_id r with
                | Some id => validate_selector id (str_bytes "/remote_operation_id") errors
                | None => errors
                end in
  let errors := push_if (match rc_outcome r with RSucceeded => true | _ => false end &&
                         (is_none (rc_response_digest r) || is_none (rc_verification_digest r)))
                  InvalidValue (str_bytes "/verification_digest") errors in
  into_result errors.

Record EffectJournalEvent := mk_event {
  je_schema_version : SchemaVersion; je_event_id : text; je_effect_id : text;
  je_sequence : Z; je_expected_effect_version : Z; je_from_state : EffectState;
  je_to_state : EffectState; je_actor_id : text; je_payload_digest : text;
  je_previous_event_digest : option text; je_event_digest : text; je_recorded_at : Z }.

Definition event_validate (e : EffectJournalEvent) : result ValidationErrors unit :=
  let errors := validate_version (je_schema_version e) (str_bytes "cigar.effect-journal-event") [] in
  let errors := push_if ((je_sequence e =? 0) ||
                         xorb (je_sequence e =? 1) (is_none (je_previous_event_digest e)) ||
                         negb (can_transition_to (je_from_state e) (je_to_state e)))
                  InvalidValue (str_bytes "/to_state") errors in
  into_result errors.

Inductive ReconciliationOutcome :=
| ConfirmedSuccess | ConfirmedFailure | ProvenNotExecuted | Inconclusive | Manual.

Record ReconciliationReport := mk_report {
  rr_schema_version : SchemaVersion; rr_report_id : text; rr_effect_id : text;
  rr_attempt_id : option text; rr_outcome : ReconciliationOutcome;
  rr_evidence_digests : list text; rr_reconciled_at : Z; rr_certainty_window_end : option Z }.

Definition report_validate (r : ReconciliationReport) : result ValidationErrors unit :=
  let errors := validate_version (rr_schema_version r) (str_bytes "cigar.reconciliation-report") [] in
  let errors := push_if ((len (rr_evidence_digests r) =? 0) ||
                         (MAX_RECONCILIATION_EVIDENCE <? len (rr_evidence_digests r)) ||
                         negb (strictly_sorted (rr_evidence_digests r)))
                  InvalidValue (str_bytes "/evidence_digests") errors in
  let errors := push_if (match rr_outcome r with Inconclusive => true | _ => false end &&
                         is_none (rr_certainty_window_end r))
                  InvalidValue (str_bytes "/certainty_window_end") errors in
  into_result errors.

Record CompensationLink := mk_link {
  cl_schema_version : SchemaVersion; cl_original_effect_id : text;
  cl_compensation_effect_id : text; cl_compensation_spec_digest : text; cl_created_at : Z }.

Definition link_validate (l : CompensationLink) : result ValidationErrors unit :=
  let errors := validate_version (cl_schema_version l) (str_bytes "cigar.compensation-link") [] in
  let errors := push_if (oeqb (cl_original_effect_id l) (cl_compensation_effect_id l))
                  InvalidValue (str_bytes "/compensation_effect_id") errors in
  into_result errors.

(** ** Decidable equality *)

#[global] Instance ValidationCode_eq : EqDecision ValidationCode.
Proof. solve_decision. Defined.
#[global] Instance SchemaVersion_eq : EqDecision SchemaVersion.
Proof. solve_decision. Defined.
#[global] Instance EffectState_eq : EqDecision EffectState.
Proof. solve_decision. Defined.
#[global] Instance RiskLevel_eq : EqDecision RiskLevel.
Proof. solve_decision. Defined.
#[global] Instance RetryPolicy_eq : EqDecision RetryPolicy.
Proof. solve_decision. Defined.
#[global] Instance Capability_eq : EqDecision Capability.
Proof. solve_decision. Defined.
#[global] Instance BlobRef_eq : EqDecision BlobRef.
Proof. solve_decision. Defined.
#[global] Instance CompensationSpec_eq : EqDecision CompensationSpec.
Proof. solve_decision. Defined.
#[global] Instance ApprovalKind_eq : EqDecision ApprovalKind.
Proof. solve_decision. Defined.
#[global] Instance EffectApproval_eq : EqDecision EffectApproval.
Proof. solve_decision. Defined.
#[global] Instance EffectAttempt_eq : EqDecision EffectAttempt.
Proof. solve_decision. Defined.
#[global] Instance ReceiptOutcome_eq : EqDecision ReceiptOutcome.
Proof. solve_decision. Defined.
#[global] Instance EffectReceipt_eq : EqDecision EffectReceipt.
Proof. solve_decision. Defined.
#[global] Instance EffectJournalEvent_eq : EqDecision EffectJournalEvent.
Proof. solve_decision. Defined.
#[global] Instance ReconciliationOutcome_eq : EqDecision ReconciliationOutcome.
Proof. solve_decision. Defined.
#[global] Instance ReconciliationReport_eq : EqDecision ReconciliationReport.
Proof. solve_decision. Defined.
#[global] Instance CompensationLink_eq : EqDecision CompensationLink.
Proof. solve_decision. Defined.

#[global] Instance CanonicalValue_eq : EqDecision CanonicalValue.
Proof.
  unfold EqDecision, RelDecision. fix go 1; intros x y.
  destruct x as [b|i|s|b|l|m], y as [b'|i'|s'|b'|l'|m']; try (right; discriminate).
  - destruct (decide (b = b')); [left; congruence|right; congruence].
  - destruct (decide (i = i')); [left; congruence|right; congruence].
  - destruct (decide (s = s')); [left; congruence|right; congruence].
  - destruct (decide (b = b')); [left; congruence|right; congruence].
  - assert (Decision (l = l')) as [->|Hne]; [|by left|right; congruence].
    revert l'. induction l as [|x l IH]; intros [|y l']; [by left|by right|by right|].
    destruct (go x y) as [->|]; [|right; congruence].
    destruct (IH l') as [->|]; [by left|right; congruence].
  - assert (Decision (m = m')) as [->|Hne]; [|by left|right; congruence].
    revert m'. induction m as [|[k x] m IH]; intros [|[k' y] m']; [by left|by right|by right|].
    destruct (decide (k = k')) as [->|]; [|right; congruence].
    destruct (go x y) as [->|]; [|right; congruence].
    destruct (IH m') as [->|]; [by left|right; congruence].
Defined.

#[global] Instance EffectIntent_eq : EqDecision EffectIntent.
Proof. solve_decision. Defined.

(** ** Validators accept exactly when no check fails

    A validator threads its error list through its checks; the list is empty at
    the end exactly when no check pushed, whatever the cap on its length. *)

Lemma push_issue_cons errors i : push_issue errors i ≠ [].
Proof. unfold push_issue. destruct (len errors <? MAX_VALIDATION_ERRORS) eqn:E; [by destruct errors|].
  bsplit. intros ->. unfold MAX_VALIDATION_ERRORS, len in E. simpl in E. lia. Qed.

Lemma push_if_nil cond code path errors :
  push_if cond code path errors = [] ↔ cond = false ∧ errors = [].
Proof.
  unfold push_if. destruct cond; [|tauto].
  split; [intros H; by apply push_issue_cons in H|intros [[=] _]].
Qed.

Lemma merge_nil errors other : merge errors other = [] ↔ errors = [] ∧ other = [].
Proof.
  unfold merge. revert errors. induction other as [|i other IH]; intros errors; simpl; [naive_solver|].
  rewrite IH. split; [intros [H _]; by apply push_issue_cons in H|intros [_ [=]]].
Qed.

Lemma into_result_ok errors : into_result errors = Ok tt ↔ errors = [].
Proof. by destruct errors. Qed.

Lemma into_result_err errors found : into_result errors = Err found → found ≠ [].
Proof. destruct errors; [done|]. by intros [= <-]. Qed.

Lemma validate_version_nil v f errors :
  validate_version v f errors = [] ↔ v = mk_schema f 1 ∧ errors = [].
Proof.
  unfold validate_version. destruct (require_v1 v f) as [[]|found] eqn:E.
  - unfold require_v1 in E. rewrite into_result_ok, !push_if_nil in E.
    destruct E as (Hm & Hf & _). bsplit. apply oeqb_eq in Hf. destruct v; simpl in *; subst. naive_solver.
  - rewrite merge_nil. apply into_result_err in E as Hne. split; [naive_solver|].
    intros [-> ->]. unfold require_v1 in E; simpl in E. rewrite oeqb_refl in E. discriminate.
Qed.

Lemma validate_extensions_nil x errors :
  validate_extensions x errors = [] ↔ validate_known x [] = Ok tt ∧ errors = [].
Proof.
  unfold validate_extensions. destruct (validate_known x []) as [[]|found] eqn:E; [naive_solver|].
  rewrite merge_nil. apply into_result_err in E. naive_solver.
Qed.

Lemma validate_selector_nil v path errors :
  validate_selector v path errors = [] ↔ 0 < len v ≤ MAX_EFFECT_SELECTOR_BYTES ∧ errors = [].
Proof.
  unfold validate_selector. rewrite push_if_nil, orb_false_iff, Z.eqb_neq, Z.ltb_ge.
  pose proof (len_nonneg v). intuition lia.
Qed.

#[export] Hint Rewrite into_result_ok push_if_nil merge_nil validate_version_nil
  validate_extensions_nil validate_selector_nil : validators.

(** Turns a validator's acceptance into its conditions. *)
Ltac validator H := autorewrite with validators in H; destruct_and?; bsplit.

(** ** The state machine *)

(** No transition leaves a terminal state. *)
Definition terminal (s : EffectState) : bool :=
  match s with
  | Failed | ManualResolution | Rejected | Expired | Cancelled | Compensated | CompensationFailed => true
  | _ => false
  end.

Lemma terminal_absorbing s t : terminal s = true → can_transition_to s t = false.
Proof. by destruct s, t. Qed.

(** [Dispatching] is entered only with an authorization. *)
Lemma dispatching_entry s : can_transition_to s Dispatching = true →
  s = Authorized ∨ s = AuthorizedForRetry.
Proof. destruct s; simpl; auto; done. Qed.

Lemma retry_entry s : can_transition_to s AuthorizedForRetry = true → s = Unknown.
Proof. by destruct s. Qed.

Lemma authorized_entry s : can_transition_to s Authorized = true → s = Prepared ∨ s = PendingApproval.
Proof. destruct s; simpl; auto; done. Qed.

(** Nothing returns to the pre-dispatch states. *)
Lemma prepared_never_entered s : can_transition_to s Prepared = false.
Proof. by destruct s. Qed.

End Protocol.
