(* ===== verification/Catalog.v ===== *)
(** * Catalog and coordination records: crates/cigar-protocol/src

    The immutable catalog records (atom.rs, catalog.rs), compiled bundles
    (compilation.rs), capability grants and context-space commits
    (coordination.rs), each with its validator, in the validators' order of
    checks. Primitive strings (primitive.rs) are their UTF-8 bytes. The theorems
    are about delegated authority: an accepted grant never exceeds its parent,
    and delegation chains are finite. *)

From S2P Require Import Prelude Collections BrokerAuth Protocol.
From stdpp Require Import pretty sets.
From Stdlib Require Import Sorting.Sorted.
Import Protocol.
Local Open Scope Z_scope.

Module Catalog.

(** Order of an enumeration by declaration position. *)
Program Definition ord_by {A} (f : A → Z) (Hf : Inj (=) (=) f) : TotalOrd A :=
  {| ocmp := λ a b, Z.compare (f a) (f b) |}.
Next Obligation. intros A f Hf a b. rewrite Z.compare_eq_iff. split; [apply Hf|by intros ->]. Qed.
Next Obligation. intros A f Hf a b. apply Z.compare_antisym. Qed.
Next Obligation. intros A f Hf a b c. rewrite !Z.compare_lt_iff. lia. Qed.

(** ** Primitive strings *)

Definition MAX_URI_BYTES : Z := 4096.
Definition MAX_PATH_BYTES : Z := 4096.
Definition MAX_MEDIA_TYPE_BYTES : Z := 255.

Definition is_ascii_uppercase (b : Z) : bool := (65 <=? b) && (b <=? 90).
Definition is_ascii_alphabetic (b : Z) : bool := is_ascii_lowercase b || is_ascii_uppercase b.
Definition is_ascii_alphanumeric (b : Z) : bool := is_ascii_alphabetic b || Auth.is_ascii_digit b.

(** [str::split_once] at an ASCII byte. *)
Fixpoint split_once (c : Z) (s : text) : option (text * text) :=
  match s with
  | [] => None
  | b :: t => if b =? c then Some ([], t)
              else match split_once c t with Some (p, q) => Some (b :: p, q) | None => None end
  end.

Definition validate_uri (value : text) : result ValidationErrors unit :=
  let path := str_bytes "/source/uri" in
  let errors := push_if ((len value =? 0) || (MAX_URI_BYTES <? len value)) LimitExceeded path [] in
  let scheme_valid :=
    is_some_and (λ '(scheme, remainder),
      is_some_and is_ascii_alphabetic (head scheme) &&
      forallb (λ b, is_ascii_alphanumeric b || (b =? 43) || (b =? 45) || (b =? 46)) (tail scheme) &&
      negb (len remainder =? 0)) (split_once 58 value) in
  into_result
    (push_if (negb scheme_valid || existsb (λ b, is_ascii_control b || (b =? 32)) value)
       InvalidValue path errors).

Definition media_token_byte (b : Z) : bool :=
  is_ascii_alphanumeric b ||
  existsb (Z.eqb b) [33; 35; 36; 38; 94; 95; 46; 43; 45].

Definition validate_media_type (value : text) : result ValidationErrors unit :=
  if negb (len value =? 0) && (len value <=? MAX_MEDIA_TYPE_BYTES) &&
     is_some_and (λ '(kind, subtype),
       negb (len kind =? 0) && negb (len subtype =? 0) &&
       forallb media_token_byte (kind ++ subtype)) (split_once 47 value)
  then Ok tt else Err (push_issue [] (InvalidValue, str_bytes "/media_type")).

Definition relative_path_new (value : list Z) : result ValidationErrors (list Z) :=
  let invalid_prefix := is_some_and (λ b, (b =? 47) || (b =? 92)) (head value) in
  if negb (len value =? 0) && (len value <=? MAX_PATH_BYTES) && negb invalid_prefix &&
     negb (existsb (Z.eqb 0) value)
  then Ok value else Err (push_issue [] (InvalidValue, str_bytes "/source/relative_path")).

Definition FIXED_POINT_ONE : Z := 1000000.
Definition fixed_point_new (value : Z) : result ValidationErrors Z :=
  if value <=? FIXED_POINT_ONE then Ok value
  else Err (push_issue [] (InvalidValue, str_bytes "/fixed_point")).

(** ** Atoms *)

Definition MAX_SOURCE_REVISION_BYTES : Z := 512.
Definition MAX_SELECTOR_BYTES : Z := 512.
Definition MAX_INLINE_TEXT_BYTES : Z := 1048576.
Definition MAX_SCOPE_PROJECTS : Z := 256.
Definition MAX_GOVERNANCE_SELECTORS : Z := 256.
Definition MAX_RETRIEVAL_TERMS : Z := 1024.
Definition MAX_RETRIEVAL_TERM_BYTES : Z := 512.

Inductive AtomKind :=
| Instruction | SourceCode | Documentation | Decision | Conversation | ToolResult | Schema
| PolicyMaterial | Test | Artifact.

Inductive AtomPayload :=
| InlineText (s : text)
| Structured (v : CanonicalValue)
| Blob (b : BlobRef).

Record SourceDescriptor := mk_source {
  src_uri : text; src_relative_path : option (list Z); src_revision : text;
  src_snapshot_digest : text }.

Record ScopeEnvelope := mk_scope { sc_tenant_id : text; sc_project_ids : list text }.

Record TemporalEnvelope := mk_temporal {
  valid_from : Z; valid_until : option Z; observed_at : Z }.

Inductive Classification := Public | Internal | Confidential | Restricted.
Inductive InstructionAuthority := Data | Advisory | Project | System.

Record GovernanceEnvelope := mk_governance {
  classification : Classification; allowed_purposes : list text;
  processor_constraints : list text; instruction_authority : InstructionAuthority }.

Record QualityEnvelope := mk_quality { confidence : Z; coverage : Z; authority : Z }.

Record RetrievalEnvelope := mk_retrieval {
  exact_terms : list text; lexical_enabled : bool; embedding_eligible : bool }.

Inductive Lifecycle := Active | Superseded | Tombstoned | Quarantined.

Record ContextAtomV1 := mk_atom {
  atom_schema_version : SchemaVersion; atom_id : text; lineage_id : text; version_id : text;
  atom_content_digest : text; atom_kind : AtomKind; payload : AtomPayload;
  source : SourceDescriptor; scope : ScopeEnvelope; temporal : TemporalEnvelope;
  governance : GovernanceEnvelope; quality : QualityEnvelope; retrieval : RetrievalEnvelope;
  lifecycle : Lifecycle; superseded_by : option text; atom_extensions : ExtensionMap }.

Definition validate_payload (p : AtomPayload) (errors : ValidationErrors) : ValidationErrors :=
  match p with
  | InlineText value =>
      push_if ((len value =? 0) || (MAX_INLINE_TEXT_BYTES <? len value)) LimitExceeded
        (str_bytes "/payload/value") errors
  | Structured value =>
      match canonical_value_validate value with Ok _ => errors | Err found => merge errors found end
  | Blob value =>
      push_if (size_bytes value =? 0) InvalidValue (str_bytes "/payload/value/size_bytes") errors
  end.

Definition validate_source (s : SourceDescriptor) (errors : ValidationErrors) : ValidationErrors :=
  push_if ((len (src_revision s) =? 0) || (MAX_SOURCE_REVISION_BYTES <? len (src_revision s)))
    LimitExceeded (str_bytes "/source/revision") errors.

Definition validate_scope (s : ScopeEnvelope) (errors : ValidationErrors) : ValidationErrors :=
  let path := str_bytes "/scope/project_ids" in
  let errors := push_if ((len (sc_project_ids s) =? 0) || (MAX_SCOPE_PROJECTS <? len (sc_project_ids s)))
                  LimitExceeded path errors in
  push_if (negb (strictly_sorted (sc_project_ids s))) InvalidValue path errors.

Definition validate_temporal (t : TemporalEnvelope) (errors : ValidationErrors) : ValidationErrors :=
  let errors := push_if (is_some_and (λ until, until <=? valid_from t) (valid_until t)) InvalidValue
                  (str_bytes "/temporal/valid_until") errors in
  push_if (observed_at t <? valid_from t) InvalidValue (str_bytes "/temporal/observed_at") errors.

Definition validate_string_set (values : list text) (non_empty : bool) (path : text)
    (errors : ValidationErrors) : ValidationErrors :=
  let errors := push_if ((non_empty && (len values =? 0)) || (MAX_GOVERNANCE_SELECTORS <? len values))
                  LimitExceeded path errors in
  let errors := push_if (existsb (λ v, (len v =? 0) || (MAX_SELECTOR_BYTES <? len v)) values)
                  LimitExceeded path errors in
  push_if (negb (strictly_sorted values)) InvalidValue path errors.

Definition validate_governance (g : GovernanceEnvelope) (errors : ValidationErrors)
    : ValidationErrors :=
  let errors := validate_string_set (allowed_purposes g) true
                  (str_bytes "/governance/allowed_purposes") errors in
  validate_string_set (processor_constraints g) false
    (str_bytes "/governance/processor_constraints") errors.

Definition validate_retrieval (r : RetrievalEnvelope) (errors : ValidationErrors)
    : ValidationErrors :=
  let path := str_bytes "/retrieval/exact_terms" in
  let errors := push_if (MAX_RETRIEVAL_TERMS <? len (exact_terms r)) LimitExceeded path errors in
  let errors := push_if (existsb (λ v, (len v =? 0) || (MAX_RETRIEVAL_TERM_BYTES <? len v))
                           (exact_terms r)) LimitExceeded path errors in
  push_if (negb (strictly_sorted (exact_terms r))) InvalidValue path errors.

(** The lifecycle/successor agreement shared by atoms and edges. *)
Definition validate_successor (l : Lifecycle) (successor : bool) (errors : ValidationErrors)
    : ValidationErrors :=
  match l, successor with
  | Superseded, false => push_issue errors (InvalidValue, str_bytes "/superseded_by")
  | (Active | Tombstoned | Quarantined), true =>
      push_issue errors (InvalidValue, str_bytes "/superseded_by")
  | Superseded, true | (Active | Tombstoned | Quarantined), false => errors
  end.

Definition is_some {A} (o : option A) : bool := negb (is_none o).

Definition atom_validate (a : ContextAtomV1) : result ValidationErrors unit :=
  let errors := validate_version (atom_schema_version a) (str_bytes "cigar.atom") [] in
  let errors := validate_payload (payload a) errors in
  let errors := validate_source (source a) errors in
  let errors := validate_scope (scope a) errors in
  let errors := validate_temporal (temporal a) errors in
  let errors := validate_governance (governance a) errors in
  let errors := push_if (authority (quality a) =? 0) InvalidValue (str_bytes "/quality/authority")
                  errors in
  let errors := validate_retrieval (retrieval a) errors in
  let errors := validate_successor (lifecycle a) (is_some (superseded_by a)) errors in
  into_result (validate_extensions (atom_extensions a) errors).

(** ** Source snapshots and edges *)

Record SourceSnapshot := mk_snapshot {
  ss_schema_version : SchemaVersion; snapshot_id : text; source_uri : text;
  source_revision : text; captured_at : Z; ss_manifest_digest : text; entry_count : Z;
  total_bytes : Z; complete : bool; ss_extensions : ExtensionMap }.

Definition snapshot_validate (s : SourceSnapshot) : result ValidationErrors unit :=
  let errors := validate_version (ss_schema_version s) (str_bytes "cigar.source-snapshot") [] in
  let errors := push_if ((len (source_revision s) =? 0) ||
                         (MAX_SOURCE_REVISION_BYTES <? len (source_revision s)))
                  LimitExceeded (str_bytes "/source_revision") errors in
  let errors := push_if ((entry_count s =? 0) && negb (total_bytes s =? 0))
                  InvalidValue (str_bytes "/total_bytes") errors in
  into_result (validate_extensions (ss_extensions s) errors).

Inductive EdgeKind :=
| DependsOn | Defines | References | Supersedes | Contradicts | Supports | DerivedFrom | AppliesTo.

Record ContextEdge := mk_edge {
  edge_schema_version : SchemaVersion; edge_id : text; from_version : text; to_version : text;
  edge_kind : EdgeKind; provenance_digest : text; edge_lifecycle : Lifecycle;
  edge_superseded_by : option text; edge_extensions : ExtensionMap }.

Definition edge_validate (e : ContextEdge) : result ValidationErrors unit :=
  let errors := validate_version (edge_schema_version e) (str_bytes "cigar.edge") [] in
  let errors := push_if (oeqb (from_version e) (to_version e)) InvalidValue
                  (str_bytes "/to_version") errors in
  let errors := validate_successor (edge_lifecycle e) (is_some (edge_superseded_by e)) errors in
  into_result (validate_extensions (edge_extensions e) errors).

(** ** Compiled bundles *)

Definition MAX_CONTEXT_BLOCKS : Z := 10000.

Inductive LaneKind := Rules | Task | Evidence | History | Tools.
Definition lane_index (l : LaneKind) : Z :=
  match l with Rules => 0 | Task => 1 | Evidence => 2 | History => 3 | Tools => 4 end.
#[export] Instance lane_index_inj : Inj (=) (=) lane_index.
Proof. intros [] []; done. Qed.
#[export] Instance lane_ord : TotalOrd LaneKind := ord_by lane_index _.

Inductive RepresentationKind := Exact | Extracted | Summarized | RedactedMarker.

Record ContextBlock := mk_block {
  block_id : text; lane : LaneKind; representation : RepresentationKind;
  block_content_digest : text; token_count : Z; provenance : list text;
  transform_receipt : option text }.

Record ContextBundle := mk_bundle {
  bundle_schema_version : SchemaVersion; bundle_id : text; contract_digest : text;
  bundle_manifest_digest : text; blocks : list ContextBlock; total_tokens : Z;
  bundle_extensions : ExtensionMap }.

Definition block_path (index : Z) (field : string) : text :=
  str_bytes "/blocks/" ++ str_bytes (pretty index) ++ str_bytes field.

Definition block_validate_into (b : ContextBlock) (index : Z) (errors : ValidationErrors)
    : ValidationErrors :=
  let errors := push_if (token_count b =? 0) InvalidValue (block_path index "/token_count") errors in
  let errors := push_if ((len (provenance b) =? 0) || (MAX_CONTEXT_BLOCKS <? len (provenance b)) ||
                         negb (strictly_sorted (provenance b)))
                  InvalidValue (block_path index "/provenance") errors in
  let receipt_required :=
    match representation b with Exact | RedactedMarker => false | Extracted | Summarized => true end in
  push_if (xorb receipt_required (is_some (transform_receipt b))) InvalidValue
    (block_path index "/transform_receipt") errors.

(** [sorted_unique_by] with the order of keys [key]. *)
Definition sorted_unique_by {A K} `{TotalOrd K} (key : A → K) (values : list A) : bool :=
  strictly_sorted (map key values).

(** [try_fold(0_u32, checked_add)]. *)
Fixpoint checked_sum (total : Z) (values : list Z) : option Z :=
  match values with
  | [] => Some total
  | v :: rest => match checked_add u32_max total v with
                 | Some t => checked_sum t rest
                 | None => None
                 end
  end.

Fixpoint validate_blocks (index : Z) (bs : list ContextBlock) (errors : ValidationErrors)
    : ValidationErrors :=
  match bs with
  | [] => errors
  | b :: rest => validate_blocks (index + 1) rest (block_validate_into b index errors)
  end.

Definition bundle_validate (b : ContextBundle) : result ValidationErrors unit :=
  let errors := validate_version (bundle_schema_version b) (str_bytes "cigar.context-bundle") [] in
  let errors := push_if ((MAX_CONTEXT_BLOCKS <? len (blocks b)) ||
                         negb (sorted_unique_by (λ x, (lane x, block_id x)) (blocks b)))
                  InvalidValue (str_bytes "/blocks") errors in
  let errors := push_if (negb (is_some_and (Z.eqb (total_tokens b))
                                 (checked_sum 0 (map token_count (blocks b)))))
                  InvalidValue (str_bytes "/total_tokens") errors in
  let errors := validate_blocks 0 (blocks b) errors in
  into_result (validate_extensions (bundle_extensions b) errors).

(** ** Capability grants *)

Definition MAX_CAPABILITIES : Z := 128.
Definition MAX_HANDOFF_REFERENCES : Z := 10000.
Definition MAX_HANDOFF_TEXT_BYTES : Z := 65536.
Definition MAX_COORDINATION_EVENTS : Z := 10000.

Definition capability_index (c : Capability) : Z :=
  match c with
  | ReadContext => 0 | CompileContext => 1 | WriteOverlay => 2 | PublishOverlay => 3
  | CreateHandoff => 4 | AcceptHandoff => 5 | InvokeTool => 6 | ProposeEffect => 7
  | ApproveEffect => 8 | ReconcileEffect => 9
  end.
#[export] Instance capability_index_inj : Inj (=) (=) capability_index.
Proof. intros [] []; done. Qed.
#[export] Instance capability_ord : TotalOrd Capability := ord_by capability_index _.

Record CapabilityGrant := mk_grant {
  grant_schema_version : SchemaVersion; grant_id : text; issuer_id : text; subject_id : text;
  parent_grant_id : option text; capabilities : list Capability; project_ids : list text;
  processors : list text; not_before : Z; grant_expires_at : Z; delegation_depth : Z;
  grant_extensions : ExtensionMap }.

(** [<[T]>::binary_search(..).is_ok()]: the half-open window [base, base + size). *)
Fixpoint binary_search_from {A} `{TotalOrd A} (fuel : nat) (values : list A) (x : A)
    (base size : nat) : bool :=
  match fuel with
  | O => false
  | S fuel =>
      match size with
      | O => false
      | S O => is_some_and (λ v, oeqb v x) (values !! base)
      | _ =>
          let half := (size / 2)%nat in
          let mid := (base + half)%nat in
          let base := if is_some_and (λ v, match ocmp v x with Gt => true | _ => false end)
                           (values !! mid) then base else mid in
          binary_search_from fuel values x base (size - half)
      end
  end.
Definition binary_search {A} `{TotalOrd A} (values : list A) (x : A) : bool :=
  binary_search_from (S (length values)) values x 0 (length values).

Definition is_subset {A} `{TotalOrd A} (child parent : list A) : bool :=
  forallb (binary_search parent) child.

Definition opt_eqb (a b : option text) : bool :=
  match a, b with Some x, Some y => oeqb x y | None, None => true | _, _ => false end.

Definition validate_attenuation_of (self parent : CapabilityGrant) : result ValidationErrors unit :=
  let errors := push_if (negb (opt_eqb (parent_grant_id self) (Some (grant_id parent))) ||
                         negb (oeqb (issuer_id self) (subject_id parent)))
                  InvalidValue (str_bytes "/parent_grant_id") [] in
  let errors := push_if (negb (is_subset (capabilities self) (capabilities parent)) ||
                         negb (is_subset (project_ids self) (project_ids parent)) ||
                         negb (is_subset (processors self) (processors parent)))
                  InvalidValue (str_bytes "/capabilities") errors in
  let errors := push_if ((not_before self <? not_before parent) ||
                         (grant_expires_at parent <? grant_expires_at self) ||
                         (delegation_depth parent <=? delegation_depth self))
                  InvalidValue (str_bytes "/expires_at") errors in
  into_result errors.

(** [s.trim().is_empty()]: every character has the Unicode White_Space property. *)
Fixpoint all_whitespace (s : text) : bool :=
  match s with
  | [] => true
  | b :: t =>
      if ((9 <=? b) && (b <=? 13)) || (b =? 32) then all_whitespace t
      else match t with
           | c :: t' =>
               if (b =? 194) && ((c =? 133) || (c =? 160)) then all_whitespace t'
               else match t' with
                    | d :: u =>
                        (((b =? 225) && (c =? 154) && (d =? 128)) ||
                         ((b =? 226) && (c =? 128) &&
                          (((128 <=? d) && (d <=? 138)) || (d =? 168) || (d =? 169) || (d =? 175))) ||
                         ((b =? 226) && (c =? 129) && (d =? 159)) ||
                         ((b =? 227) && (c =? 128) && (d =? 128))) && all_whitespace u
                    | [] => false
                    end
           | [] => false
           end
  end.

Definition validate_text (value path : text) (errors : ValidationErrors) : ValidationErrors :=
  push_if (all_whitespace value || (MAX_HANDOFF_TEXT_BYTES <? len value)) LimitExceeded path errors.

Definition validate_strings (values : list text) (non_empty : bool) (path : text)
    (errors : ValidationErrors) : ValidationErrors :=
  let errors := push_if ((non_empty && (len values =? 0)) || (MAX_HANDOFF_REFERENCES <? len values))
                  LimitExceeded path errors in
  fold_left (λ errors v, validate_text v path errors) values errors.

Definition validate_sorted_set {A} `{TotalOrd A} (values : list A) (maximum : Z) (non_empty : bool)
    (path : text) (errors : ValidationErrors) : ValidationErrors :=
  push_if ((non_empty && (len values =? 0)) || (maximum <? len values) ||
           negb (strictly_sorted values)) InvalidValue path errors.

Definition grant_validate (g : CapabilityGrant) : result ValidationErrors unit :=
  let errors := validate_version (grant_schema_version g) (str_bytes "cigar.capability-grant") [] in
  let errors := validate_sorted_set (capabilities g) MAX_CAPABILITIES true
                  (str_bytes "/capabilities") errors in
  let errors := validate_sorted_set (project_ids g) MAX_SCOPE_PROJECTS true
                  (str_bytes "/project_ids") errors in
  let errors := validate_strings (processors g) false (str_bytes "/processors") errors in
  let errors := push_if (grant_expires_at g <=? not_before g) InvalidValue (str_bytes "/expires_at")
                  errors in
  into_result (validate_extensions (grant_extensions g) errors).

(** ** Context-space commits *)

Inductive CoordinationEventKind :=
| ContextCommitted | AtomInvalidated | BundleInvalidated | TaskCheckpointed | HandoffCreated
| HandoffAccepted | HandoffRevoked | AgentResultProposed | MergeConflictCreated
| EffectStateChanged | PolicySnapshotChanged.

Record CoordinationEvent := mk_coordination_event {
  event_id : text; event_kind : CoordinationEventKind; event_payload_digest : text }.

Record ContextCommit := mk_commit {
  commit_schema_version : SchemaVersion; commit_id : text; space_id : text; sequence : Z;
  parent_commit_id : option text; author_id : text; purpose : text;
  events : list CoordinationEvent; root_digest : text; policy_snapshot_digest : text;
  committed_at : Z; commit_extensions : ExtensionMap }.

(** [values.iter().all(|v| seen.insert(v))]. *)
Fixpoint all_unique_from {A} `{TotalOrd A} (seen values : list A) : bool :=
  match values with
  | [] => true
  | v :: rest => negb (existsb (oeqb v) seen) && all_unique_from (v :: seen) rest
  end.
Definition all_unique {A} `{TotalOrd A} (values : list A) : bool := all_unique_from [] values.

Definition commit_validate (c : ContextCommit) : result ValidationErrors unit :=
  let errors := validate_version (commit_schema_version c) (str_bytes "cigar.context-commit") [] in
  let errors := push_if ((sequence c =? 0) || xorb (sequence c =? 1) (is_none (parent_commit_id c)))
                  InvalidValue (str_bytes "/parent_commit_id") errors in
  let errors := validate_text (purpose c) (str_bytes "/purpose") errors in
  let errors := push_if ((len (events c) =? 0) || (MAX_COORDINATION_EVENTS <? len (events c)))
                  LimitExceeded (str_bytes "/events") errors in
  let errors := push_if (negb (all_unique (map event_id (events c)))) InvalidValue
                  (str_bytes "/events") errors in
  into_result (validate_extensions (commit_extensions c) errors).

(** ** Decidable equality of the records *)

#[global] Instance AtomKind_eq : EqDecision AtomKind.
Proof. solve_decision. Defined.
#[global] Instance AtomPayload_eq : EqDecision AtomPayload.
Proof. solve_decision. Defined.
#[global] Instance SourceDescriptor_eq : EqDecision SourceDescriptor.
Proof. solve_decision. Defined.
#[global] Instance ScopeEnvelope_eq : EqDecision ScopeEnvelope.
Proof. solve_decision. Defined.
#[global] Instance TemporalEnvelope_eq : EqDecision TemporalEnvelope.
Proof. solve_decision. Defined.
#[global] Instance Classification_eq : EqDecision Classification.
Proof. solve_decision. Defined.
#[global] Instance InstructionAuthority_eq : EqDecision InstructionAuthority.
Proof. solve_decision. Defined.
#[global] Instance GovernanceEnvelope_eq : EqDecision GovernanceEnvelope.
Proof. solve_decision. Defined.
#[global] Instance QualityEnvelope_eq : EqDecision QualityEnvelope.
Proof. solve_decision. Defined.
#[global] Instance RetrievalEnvelope_eq : EqDecision RetrievalEnvelope.
Proof. solve_decision. Defined.
#[global] Instance Lifecycle_eq : EqDecision Lifecycle.
Proof. solve_decision. Defined.
#[global] Instance ContextAtomV1_eq : EqDecision ContextAtomV1.
Proof. solve_decision. Defined.
#[global] Instance SourceSnapshot_eq : EqDecision SourceSnapshot.
Proof. solve_decision. Defined.
#[global] Instance EdgeKind_eq : EqDecision EdgeKind.
Proof. solve_decision. Defined.
#[global] Instance ContextEdge_eq : EqDecision ContextEdge.
Proof. solve_decision. Defined.
#[global] Instance LaneKind_eq : EqDecision LaneKind.
Proof. solve_decision. Defined.
#[global] Instance RepresentationKind_eq : EqDecision RepresentationKind.
Proof. solve_decision. Defined.
#[global] Instance ContextBlock_eq : EqDecision ContextBlock.
Proof. solve_decision. Defined.
#[global] Instance ContextBundle_eq : EqDecision ContextBundle.
Proof. solve_decision. Defined.
#[global] Instance CoordinationEventKind_eq : EqDecision CoordinationEventKind.
Proof. solve_decision. Defined.
#[global] Instance CoordinationEvent_eq : EqDecision CoordinationEvent.
Proof. solve_decision. Defined.
#[global] Instance ContextCommit_eq : EqDecision ContextCommit.
Proof. solve_decision. Defined.

(** ** Membership by binary search *)

Section binary_search.
Context {A : Type} `{TotalOrd A}.
Implicit Types (l : list A) (x : A).

(** A hit is an element, whether or not the slice is sorted. *)
Lemma binary_search_from_sound fuel l x : ∀ base size,
  binary_search_from fuel l x base size = true → x ∈ l.
Proof.
  induction fuel as [|fuel IH]; intros base [|[|size]]; simpl; try done.
  - destruct (l !! base) as [v|] eqn:E; simpl; [|done]. intros ->%oeqb_eq. by eapply list_elem_of_lookup_2.
  - apply IH.
Qed.

Lemma binary_search_sound l x : binary_search l x = true → x ∈ l.
Proof. apply binary_search_from_sound. Qed.

Lemma sorted_lookup_lt l i j a b :
  StronglySorted olt l → l !! i = Some a → l !! j = Some b → (i < j)%nat → olt a b.
Proof.
  intros Hs. revert i j. induction Hs as [|y l Hs IH Hy]; intros [|i] [|j]; simpl; try done; try lia.
  - intros [= ->] Hj _. rewrite Forall_forall in Hy. apply Hy. by eapply list_elem_of_lookup_2.
  - intros Hi Hj Hlt. eapply IH; eauto; lia.
Qed.

Lemma binary_search_from_complete l x i :
  StronglySorted olt l → l !! i = Some x → ∀ fuel base size,
  (size < fuel)%nat → (base ≤ i < base + size)%nat → (base + size ≤ length l)%nat →
  binary_search_from fuel l x base size = true.
Proof.
  intros Hs Hi fuel. induction fuel as [|fuel IH]; intros base size Hf Hr Hl; [lia|].
  destruct size as [|[|size]]; [lia|simpl|].
  - assert (base = i) as -> by lia. rewrite Hi; simpl. apply oeqb_refl.
  - cbn [binary_search_from]. set (sz := S (S size)) in *. set (half := (sz / 2)%nat).
    assert (0 < half)%nat by (apply Nat.div_str_pos; unfold sz; lia).
    assert (half < sz)%nat by (apply Nat.div_lt; unfold sz; lia).
    assert (2 * half ≤ sz)%nat by (apply Nat.Div0.mul_div_le).
    destruct (lookup_lt_is_Some_2 l (base + half)%nat) as [v Hv]; [lia|].
    rewrite Hv; simpl. destruct (ocmp v x) eqn:E; (apply IH; [lia| |lia]).
    + apply ocmp_eq in E as ->. destruct (decide (i = base + half)%nat) as [->|]; [lia|].
      destruct (decide (i < base + half)%nat) as [Hlt|].
      * exfalso. eapply olt_irrefl, (sorted_lookup_lt l i); eauto.
      * lia.
    + destruct (decide (i < base + half)%nat) as [Hlt|]; [|lia].
      exfalso. eapply olt_irrefl. transitivity v; [|exact E]. by eapply (sorted_lookup_lt l i).
    + destruct (decide (base + half ≤ i)%nat) as [Hle|]; [|lia]. exfalso.
      apply ocmp_gt in E. destruct (decide (i = base + half)%nat) as [->|].
      * assert (v = x) as -> by congruence. by apply olt_irrefl in E.
      * eapply olt_irrefl. transitivity v; [exact E|]. eapply (sorted_lookup_lt l (base + half)); eauto. lia.
Qed.

Lemma binary_search_spec l x :
  StronglySorted olt l → binary_search l x = true ↔ x ∈ l.
Proof.
  intros Hs. split; [apply binary_search_sound|].
  intros [i Hi]%list_elem_of_lookup_1. apply lookup_lt_Some in Hi as Hlt.
  eapply binary_search_from_complete; eauto; lia.
Qed.

Lemma is_subset_sound l k : is_subset l k = true → l ⊆ k.
Proof.
  unfold is_subset. rewrite forallb_forall. intros Hall x Hx%list_elem_of_In.
  by apply binary_search_sound, Hall.
Qed.

Lemma is_subset_spec l k : StronglySorted olt k → is_subset l k = true ↔ l ⊆ k.
Proof.
  intros Hs. split; [apply is_subset_sound|]. unfold is_subset. rewrite forallb_forall.
  intros Hsub x Hx%list_elem_of_In. by apply binary_search_spec, Hsub.
Qed.

End binary_search.

(** ** Delegated authority *)

(** The authority of [self] is within that of [parent]. *)
Record within (self parent : CapabilityGrant) : Prop := {
  within_capabilities : capabilities self ⊆ capabilities parent;
  within_projects : project_ids self ⊆ project_ids parent;
  within_processors : processors self ⊆ processors parent;
  within_start : not_before parent ≤ not_before self;
  within_end : grant_expires_at self ≤ grant_expires_at parent }.

#[export] Instance within_preorder : PreOrder within.
Proof.
  split.
  - intros g. by split.
  - intros a b c [] []. split; (lia || set_solver).
Qed.

Lemma attenuation_within self parent : validate_attenuation_of self parent = Ok tt →
  within self parent ∧ delegation_depth self < delegation_depth parent ∧
  parent_grant_id self = Some (grant_id parent) ∧ issuer_id self = subject_id parent.
Proof.
  unfold validate_attenuation_of. intros Hv. validator Hv.
  repeat match goal with H : is_subset _ _ = true |- _ => apply is_subset_sound in H end.
  destruct (parent_grant_id self) as [p|]; simpl in *; [|discriminate].
  repeat match goal with H : oeqb _ _ = true |- _ => apply oeqb_eq in H end. subst.
  split; [by split|]. split; [lia|]. auto.
Qed.

(** A chain of grants, each an attenuation of the one before it. *)
Fixpoint delegation_chain (root : CapabilityGrant) (chain : list CapabilityGrant) : Prop :=
  match chain with
  | [] => True
  | g :: rest => validate_attenuation_of g root = Ok tt ∧ delegation_chain g rest
  end.

(** C19: along every chain of grants accepted by [validate_attenuation_of], no
    grant has a capability, project, processor or instant outside the root
    grant, and the chain has at most as many delegations as the root grant's
    depth allows. *)
Theorem delegation_chain_attenuates root chain :
  Forall (λ g, 0 ≤ delegation_depth g) (root :: chain) → delegation_chain root chain →
  Forall (λ g, within g root) chain ∧ len chain ≤ delegation_depth root.
Proof.
  revert root. induction chain as [|g chain IH]; intros root Hd; simpl.
  - intros _. inversion_clear Hd. split; [constructor|]. unfold len; simpl. lia.
  - intros [Hg Hrest]. inversion_clear Hd as [|? ? Hr Hd'].
    destruct (attenuation_within _ _ Hg) as (Hw & Hlt & _).
    destruct (IH g Hd' Hrest) as [Hall Hlen]. split.
    + constructor; [done|]. eapply Forall_impl; [exact Hall|]. intros h Hh. by transitivity g.
    + rewrite len_cons. lia.
Qed.

(** The validator accepts every attenuation between grants with sorted sets. *)
Lemma attenuation_complete self parent :
  StronglySorted olt (capabilities parent) → StronglySorted olt (project_ids parent) →
  StronglySorted olt (processors parent) →
  within self parent → delegation_depth self < delegation_depth parent →
  parent_grant_id self = Some (grant_id parent) → issuer_id self = subject_id parent →
  validate_attenuation_of self parent = Ok tt.
Proof.
  intros Hc Hp Hr [? ? ? ? ?] Hd Hpar Hiss. unfold validate_attenuation_of.
  rewrite (proj2 (is_subset_spec _ _ Hc)), (proj2 (is_subset_spec _ _ Hp)),
    (proj2 (is_subset_spec _ _ Hr)) by done.
  rewrite Hpar, Hiss. simpl. rewrite !oeqb_refl. simpl.
  rewrite (proj2 (Z.ltb_ge _ _)), (proj2 (Z.ltb_ge _ _)), (proj2 (Z.leb_gt _ _)) by lia. done.
Qed.

Module GrantExample.
Definition root : CapabilityGrant := mk_grant (mk_schema (str_bytes "cigar.capability-grant") 1)
  (str_bytes "g0") (str_bytes "alice") (str_bytes "bob") None
  [ReadContext; WriteOverlay; InvokeTool] [str_bytes "p1"; str_bytes "p2"] [] 10 100 2 [].
Definition child : CapabilityGrant := mk_grant (mk_schema (str_bytes "cigar.capability-grant") 1)
  (str_bytes "g1") (str_bytes "bob") (str_bytes "carol") (Some (str_bytes "g0"))
  [ReadContext; InvokeTool] [str_bytes "p2"] [] 20 90 1 [].
Definition leaf : CapabilityGrant := mk_grant (mk_schema (str_bytes "cigar.capability-grant") 1)
  (str_bytes "g2") (str_bytes "carol") (str_bytes "dave") (Some (str_bytes "g1"))
  [InvokeTool] [str_bytes "p2"] [] 20 80 0 [].
End GrantExample.

Lemma delegation_chain_attenuates_witness :
  Forall (λ g, within g GrantExample.root) [GrantExample.child; GrantExample.leaf] ∧
  len [GrantExample.child; GrantExample.leaf] ≤ delegation_depth GrantExample.root.
Proof.
  apply (delegation_chain_attenuates GrantExample.root [GrantExample.child; GrantExample.leaf]).
  - repeat constructor; vm_compute; discriminate.
  - vm_compute. auto.
Defined.

End Catalog.
