(* ===== verification/Store.v ===== *)
(** * Repository: crates/cigar-store/src/{model,memory,service_repository}.rs

    The in-memory MVCC repository: a history of whole committed states, read
    transactions pinned to one of them, write transactions that stage mutations
    and publish them with an optimistic revision check and request-bound
    idempotency, and the service-record and worker-lease operations on the same
    history. A lock is held across each operation, so an operation is a function
    of the store; cancellation tokens are shared with other threads, so each
    check reads its own boolean. SHA-256 and the ciborium encoder are third-party
    and appear as parameters. *)

From S2P Require Import Prelude Collections Canon BrokerAuth Protocol Catalog.
Import Protocol Catalog.
Local Open Scope Z_scope.

Module Store.

(** ** Repository contracts: model.rs *)

Definition MAX_QUERY_PAGE_ITEMS : Z := 1000.
Definition MAX_ATOM_BATCH_ITEMS : Z := 1000.
Definition MAX_PURPOSE_BYTES : Z := 256.
Definition MAX_OUTBOX_TOPIC_BYTES : Z := 256.
Definition MAX_BLOB_BYTES : Z := 67108864.
Definition MAX_EFFECT_RECORD_BYTES : Z := 16777216.

Inductive StoreErrorCode :=
| InvalidContext | NotFound | RevisionConflict | InvalidRecord | StoreLimitExceeded
| MixedSnapshot | Cancelled | InjectedAbort | Unavailable.

Abbreviation res := (result StoreErrorCode).

(** The bounded printable selector of [AccessContext], [IdempotencyIdentity] and
    [OutboxMessage]. *)
Definition bad_selector (maximum : Z) (s : text) : bool :=
  (len s =? 0) || (maximum <? len s) || existsb is_ascii_control s.

Record AccessContext := mk_access { tenant_id : text; access_purpose : text }.

Definition access_context_new (tenant purpose : text) : res AccessContext :=
  if bad_selector MAX_PURPOSE_BYTES purpose then Err InvalidContext
  else Ok (mk_access tenant purpose).

Inductive SnapshotSelection := Latest | Revision (r : Z).

Record AtomSelector := mk_selector { sel_kind : option AtomKind }.
Record AtomCursor := mk_atom_cursor { cur_revision : Z; cur_last_version : text }.
Record AtomPage := mk_atom_page { page_items : list ContextAtomV1; page_next : option AtomCursor }.

Record BlobRecord := mk_blob_record { blob_reference : BlobRef; blob_bytes : list Z }.
Definition blob_record_new (reference : BlobRef) (bytes : list Z) : res BlobRecord :=
  if (MAX_BLOB_BYTES <? len bytes) || negb (len bytes =? size_bytes reference)
  then Err InvalidRecord else Ok (mk_blob_record reference bytes).

Record IdempotencyIdentity := mk_identity {
  id_scope : text; id_key : text; id_request_digest : text }.
Definition idempotency_identity_new (scope key digest : text) : res IdempotencyIdentity :=
  if bad_selector MAX_PURPOSE_BYTES scope then Err InvalidContext
  else Ok (mk_identity scope key digest).

Record OutboxMessage := mk_message { message_id : text; topic : text; msg_payload_digest : text }.
Definition message_validate (m : OutboxMessage) : res unit :=
  if bad_selector MAX_OUTBOX_TOPIC_BYTES (topic m) then Err InvalidRecord else Ok tt.
Record OutboxRecord := mk_outbox_record { message : OutboxMessage; causal_revision : Z }.

Record EffectRecordEnvelope := mk_envelope {
  env_effect_id : text; env_effect_version : Z; env_record_digest : text; env_bytes : list Z }.

Record CommitReceipt := mk_commit_receipt { receipt_revision : Z; replayed : bool }.

(** model.rs [sha256_multihash], memory.rs [blob_digest]. *)
Definition sha256_multihash (sha256 : list Z → list Z) (bytes : list Z) : text :=
  str_bytes "1220" ++ Auth.hex (sha256 bytes).

Definition envelope_new (sha256 : list Z → list Z) (effect_id : text) (version : Z)
    (digest : text) (bytes : list Z) : res EffectRecordEnvelope :=
  if (len bytes =? 0) || (MAX_EFFECT_RECORD_BYTES <? len bytes) ||
     negb (oeqb (sha256_multihash sha256 bytes) digest)
  then Err InvalidRecord else Ok (mk_envelope effect_id version digest bytes).

(** memory.rs [BlobState]. *)
Record BlobState := mk_blob_state { bs_reference : BlobRef; bs_bytes : option (list Z) }.

Definition blob_state_in_memory (b : BlobRecord) : BlobState :=
  mk_blob_state (blob_reference b) (Some (blob_bytes b)).
Definition blob_state_record (b : BlobState) : res (option BlobRecord) :=
  match bs_bytes b with
  | None => Ok None
  | Some bytes => r ← blob_record_new (bs_reference b) bytes; Ok (Some r)
  end.

(** ** Service records and workers: service_repository.rs *)

Record ServiceRecordLocator := mk_locator { loc_tenant : text; loc_namespace : text; loc_key : text }.

Record ServiceRecord := mk_service_record {
  sr_locator : ServiceRecordLocator; sr_version : Z; sr_store_revision : Z; sr_digest : text;
  sr_bytes : list Z }.

Record ServiceResponse := mk_response {
  status_code : Z; content_type : text; resp_digest : text; resp_bytes : list Z }.

Record ServiceRecordVersion := mk_record_version {
  srv_namespace : text; srv_key : text; srv_version : Z; srv_digest : text }.

Record ServiceBatchReceipt := mk_batch_receipt {
  br_revision : Z; br_records : list ServiceRecordVersion; br_response : ServiceResponse;
  br_replayed : bool }.

Record ServiceIdempotencyEntry := mk_service_entry {
  se_request_digest : text; se_receipt : ServiceBatchReceipt }.

Record WorkerLocator := mk_worker_locator { wl_tenant : text; wl_worker : text }.

Record WorkerState := mk_worker {
  ws_locator : WorkerLocator; ws_version : Z; ws_store_revision : Z; ws_cursor_digest : text;
  ws_cursor : list Z; ws_heartbeat : Z; ws_lease_owner : option text; ws_fencing_token : Z;
  ws_lease_expires_at : option Z }.

(** ** Committed states: memory.rs *)

Record TenantState := mk_tenant {
  atoms : btree text ContextAtomV1;
  atom_versions_by_id : btree text text;
  current_versions_by_lineage : btree text text;
  edges : btree text ContextEdge;
  bundles : btree text ContextBundle;
  snapshots : btree text SourceSnapshot;
  context_commits : btree text (list ContextCommit);
  effects : btree text (list EffectJournalEvent);
  effect_records : btree text EffectRecordEnvelope;
  blobs : btree text BlobState;
  outbox : list OutboxRecord;
  idempotency : btree (text * text) (text * CommitReceipt);
  service_records : btree (text * text) (list ServiceRecord);
  service_idempotency : btree (text * text) ServiceIdempotencyEntry;
  worker_states : btree text WorkerState }.

Definition empty_tenant : TenantState := mk_tenant [] [] [] [] [] [] [] [] [] [] [] [] [] [] [].

Definition set_atoms (x : btree text ContextAtomV1) (t : TenantState) : TenantState :=
  mk_tenant x (atom_versions_by_id t) (current_versions_by_lineage t) (edges t) (bundles t) (snapshots t) (context_commits t) (effects t) (effect_records t) (blobs t) (outbox t) (idempotency t) (service_records t) (service_idempotency t) (worker_states t).
Definition set_atom_versions_by_id (x : btree text text) (t : TenantState) : TenantState :=
  mk_tenant (atoms t) x (current_versions_by_lineage t) (edges t) (bundles t) (snapshots t) (context_commits t) (effects t) (effect_records t) (blobs t) (outbox t) (idempotency t) (service_records t) (service_idempotency t) (worker_states t).
Definition set_current_versions_by_lineage (x : btree text text) (t : TenantState) : TenantState :=
  mk_tenant (atoms t) (atom_versions_by_id t) x (edges t) (bundles t) (snapshots t) (context_commits t) (effects t) (effect_records t) (blobs t) (outbox t) (idempotency t) (service_records t) (service_idempotency t) (worker_states t).
Definition set_edges (x : btree text ContextEdge) (t : TenantState) : TenantState :=
  mk_tenant (atoms t) (atom_versions_by_id t) (current_versions_by_lineage t) x (bundles t) (snapshots t) (context_commits t) (effects t) (effect_records t) (blobs t) (outbox t) (idempotency t) (service_records t) (service_idempotency t) (worker_states t).
Definition set_bundles (x : btree text ContextBundle) (t : TenantState) : TenantState :=
  mk_tenant (atoms t) (atom_versions_by_id t) (current_versions_by_lineage t) (edges t) x (snapshots t) (context_commits t) (effects t) (effect_records t) (blobs t) (outbox t) (idempotency t) (service_records t) (service_idempotency t) (worker_states t).
Definition set_snapshots (x : btree text SourceSnapshot) (t : TenantState) : TenantState :=
  mk_tenant (atoms t) (atom_versions_by_id t) (current_versions_by_lineage t) (edges t) (bundles t) x (context_commits t) (effects t) (effect_records t) (blobs t) (outbox t) (idempotency t) (service_records t) (service_idempotency t) (worker_states t).
Definition set_context_commits (x : btree text (list ContextCommit)) (t : TenantState) : TenantState :=
  mk_tenant (atoms t) (atom_versions_by_id t) (current_versions_by_lineage t) (edges t) (bundles t) (snapshots t) x (effects t) (effect_records t) (blobs t) (outbox t) (idempotency t) (service_records t) (service_idempotency t) (worker_states t).
Definition set_effects (x : btree text (list EffectJournalEvent)) (t : TenantState) : TenantState :=
  mk_tenant (atoms t) (atom_versions_by_id t) (current_versions_by_lineage t) (edges t) (bundles t) (snapshots t) (context_commits t) x (effect_records t) (blobs t) (outbox t) (idempotency t) (service_records t) (service_idempotency t) (worker_states t).
Definition set_effect_records (x : btree text EffectRecordEnvelope) (t : TenantState) : TenantState :=
  mk_tenant (atoms t) (atom_versions_by_id t) (current_versions_by_lineage t) (edges t) (bundles t) (snapshots t) (context_commits t) (effects t) x (blobs t) (outbox t) (idempotency t) (service_records t) (service_idempotency t) (worker_states t).
Definition set_blobs (x : btree text BlobState) (t : TenantState) : TenantState :=
  mk_tenant (atoms t) (atom_versions_by_id t) (current_versions_by_lineage t) (edges t) (bundles t) (snapshots t) (context_commits t) (effects t) (effect_records t) x (outbox t) (idempotency t) (service_records t) (service_idempotency t) (worker_states t).
Definition set_outbox (x : list OutboxRecord) (t : TenantState) : TenantState :=
  mk_tenant (atoms t) (atom_versions_by_id t) (current_versions_by_lineage t) (edges t) (bundles t) (snapshots t) (context_commits t) (effects t) (effect_records t) (blobs t) x (idempotency t) (service_records t) (service_idempotency t) (worker_states t).
Definition set_idempotency (x : btree (text * text) (text * CommitReceipt)) (t : TenantState) : TenantState :=
  mk_tenant (atoms t) (atom_versions_by_id t) (current_versions_by_lineage t) (edges t) (bundles t) (snapshots t) (context_commits t) (effects t) (effect_records t) (blobs t) (outbox t) x (service_records t) (service_idempotency t) (worker_states t).
Definition set_service_records (x : btree (text * text) (list ServiceRecord)) (t : TenantState) : TenantState :=
  mk_tenant (atoms t) (atom_versions_by_id t) (current_versions_by_lineage t) (edges t) (bundles t) (snapshots t) (context_commits t) (effects t) (effect_records t) (blobs t) (outbox t) (idempotency t) x (service_idempotency t) (worker_states t).
Definition set_service_idempotency (x : btree (text * text) ServiceIdempotencyEntry) (t : TenantState) : TenantState :=
  mk_tenant (atoms t) (atom_versions_by_id t) (current_versions_by_lineage t) (edges t) (bundles t) (snapshots t) (context_commits t) (effects t) (effect_records t) (blobs t) (outbox t) (idempotency t) (service_records t) x (worker_states t).
Definition set_worker_states (x : btree text WorkerState) (t : TenantState) : TenantState :=
  mk_tenant (atoms t) (atom_versions_by_id t) (current_versions_by_lineage t) (edges t) (bundles t) (snapshots t) (context_commits t) (effects t) (effect_records t) (blobs t) (outbox t) (idempotency t) (service_records t) (service_idempotency t) x.

Record CommittedState := mk_state { revision : Z; tenants : btree text TenantState }.

Record InMemoryStore := mk_store { history : list CommittedState; fail_next_commit : bool }.

Definition default_store : InMemoryStore := mk_store [mk_state 0 []] false.

(** [InMemoryStore::fail_next_commit]. *)
Definition arm_failure (s : InMemoryStore) : InMemoryStore := mk_store (history s) true.

(** [cancellation.check()]. *)
Definition check (cancelled : bool) : res unit := ensure (negb cancelled) Cancelled.

(** [InMemoryStore::revision]. *)
Definition store_revision (s : InMemoryStore) : res Z :=
  st ← ok_or (last (history s)) Unavailable; Ok (revision st).

(** [history.iter().find(|state| state.revision == revision)]. *)
Definition find_revision (r : Z) (h : list CommittedState) : option CommittedState :=
  List.find (λ st, revision st =? r) h.

(** ** Read transactions *)

Record ReadTx := mk_read { rd_state : CommittedState; rd_context : AccessContext }.

Definition begin_read (s : InMemoryStore) (context : AccessContext) (selection : SnapshotSelection)
    (cancelled : bool) : res ReadTx :=
  _ ← check cancelled;
  st ← ok_or (match selection with
              | Latest => last (history s)
              | Revision r => find_revision r (history s)
              end) NotFound;
  Ok (mk_read st context).

Definition rd_tenant (tx : ReadTx) : option TenantState :=
  bt_get (tenant_id (rd_context tx)) (tenants (rd_state tx)).

(** [self.tenant().and_then(|tenant| tenant.field.get(key)).cloned()]. *)
Definition rd_lookup {V} (field : TenantState → btree text V) (tx : ReadTx) (key : text) : option V :=
  t ← rd_tenant tx; bt_get key (field t).

Definition get_atom (tx : ReadTx) (c : bool) (version : text) : res (option ContextAtomV1) :=
  _ ← check c; Ok (rd_lookup atoms tx version).
Definition get_bundle (tx : ReadTx) (c : bool) (bundle : text) : res (option ContextBundle) :=
  _ ← check c; Ok (rd_lookup bundles tx bundle).
Definition get_snapshot (tx : ReadTx) (c : bool) (snapshot : text) : res (option SourceSnapshot) :=
  _ ← check c; Ok (rd_lookup snapshots tx snapshot).
Definition read_context_commits (tx : ReadTx) (c : bool) (space : text) : res (list ContextCommit) :=
  _ ← check c; Ok (default [] (rd_lookup context_commits tx space)).
Definition get_effect (tx : ReadTx) (c : bool) (effect : text) : res (list EffectJournalEvent) :=
  _ ← check c; Ok (default [] (rd_lookup effects tx effect)).
Definition get_effect_record (tx : ReadTx) (c : bool) (effect : text)
    : res (option EffectRecordEnvelope) :=
  _ ← check c; Ok (rd_lookup effect_records tx effect).
Definition read_outbox (tx : ReadTx) (c : bool) : res (list OutboxRecord) :=
  _ ← check c; Ok (match rd_tenant tx with Some t => outbox t | None => [] end).

(** The atom an index entry names, checked against the index. *)
Definition indexed_atom (t : TenantState) (id version : text) : res ContextAtomV1 :=
  a ← ok_or (bt_get version (atoms t)) InvalidRecord;
  _ ← ensure (oeqb (atom_id a) id) InvalidRecord;
  Ok a.

(** The loop of [get_atoms_by_id]; [checks] gives the token's value at each turn. *)
Fixpoint get_atoms_loop (tx : ReadTx) (checks : nat → bool) (turn : nat) (unique : list text)
    (ids : list text) : res (list (option ContextAtomV1)) :=
  match ids with
  | [] => Ok []
  | id :: rest =>
      _ ← check (checks turn);
      _ ← ensure (negb (existsb (oeqb id) unique)) InvalidRecord;
      a ← match rd_tenant tx with
          | Some t => match bt_get id (atom_versions_by_id t) with
                      | Some version => a ← indexed_atom t id version; Ok (Some a)
                      | None => Ok None
                      end
          | None => Ok None
          end;
      more ← get_atoms_loop tx checks (S turn) (id :: unique) rest;
      Ok (a :: more)
  end.

Definition get_atoms_by_id (tx : ReadTx) (c : bool) (checks : nat → bool) (ids : list text)
    : res (list (option ContextAtomV1)) :=
  _ ← check c;
  if MAX_ATOM_BATCH_ITEMS <? len ids then Err StoreLimitExceeded
  else get_atoms_loop tx checks 0 [] ids.

Definition get_active_atom_by_id (tx : ReadTx) (c : bool) (id : text) : res (option ContextAtomV1) :=
  _ ← check c;
  match rd_tenant tx with
  | None => Ok None
  | Some t =>
      match bt_get id (atom_versions_by_id t) with
      | None => Ok None
      | Some version =>
          a ← indexed_atom t id version;
          Ok (if bool_decide (lifecycle a = Active) &&
                 opt_eqb (bt_get (lineage_id a) (current_versions_by_lineage t)) (Some version)
              then Some a else None)
      end
  end.

Definition query_atoms (tx : ReadTx) (c : bool) (selector : AtomSelector) (limit : Z)
    (cursor : option AtomCursor) : res AtomPage :=
  _ ← check c;
  if (limit =? 0) || (MAX_QUERY_PAGE_ITEMS <? limit) then Err StoreLimitExceeded
  else if is_some_and (λ cur, negb (cur_revision cur =? revision (rd_state tx))) cursor
  then Err MixedSnapshot
  else
    let all := match rd_tenant tx with Some t => atoms t | None => [] end in
    let matching := List.filter (λ '(version, a),
      is_none_or (λ cur, oltb (cur_last_version cur) version) cursor &&
      is_none_or (λ k, bool_decide (atom_kind a = k)) (sel_kind selector)) all in
    let items := map snd (take (Z.to_nat (limit + 1)) matching) in
    let has_more := limit <? len items in
    let items := if has_more then take (Z.to_nat limit) items else items in
    let next := if has_more
                then a ← last items; Some (mk_atom_cursor (revision (rd_state tx)) (version_id a))
                else None in
    Ok (mk_atom_page items next).

Definition edges_from (tx : ReadTx) (c : bool) (version : text) (kind : option EdgeKind) (limit : Z)
    : res (list ContextEdge) :=
  _ ← check c;
  if (limit =? 0) || (MAX_QUERY_PAGE_ITEMS <? limit) then Err StoreLimitExceeded
  else
    let all := match rd_tenant tx with Some t => bt_values (edges t) | None => [] end in
    Ok (take (Z.to_nat limit)
          (List.filter (λ e, oeqb (from_version e) version &&
                             is_none_or (λ k, bool_decide (edge_kind e = k)) kind) all)).

Definition idempotent_result (tx : ReadTx) (c : bool) (identity : IdempotencyIdentity)
    : res (option CommitReceipt) :=
  _ ← check c;
  match (t ← rd_tenant tx; bt_get (id_scope identity, id_key identity) (idempotency t)) with
  | None => Ok None
  | Some (digest, receipt) =>
      _ ← ensure (oeqb digest (id_request_digest identity)) InvalidRecord;
      Ok (Some receipt)
  end.

(** [get_blob]; the external blob repository is a parameter. *)
Definition get_blob (tx : ReadTx) (c : bool)
    (blob_repository : option (text → BlobRef → res (option BlobRecord))) (digest : text)
    : res (option BlobRecord) :=
  _ ← check c;
  match rd_lookup blobs tx digest with
  | None => Ok None
  | Some b =>
      r ← blob_state_record b;
      match r with
      | Some record => Ok (Some record)
      | None =>
          repo ← ok_or blob_repository Unavailable;
          repo (tenant_id (rd_context tx)) (bs_reference b)
      end
  end.

(** ** Write transactions *)

Inductive StagedMutation :=
| MSnapshot (s : SourceSnapshot)
| MAtoms (atoms : list ContextAtomV1) (edges : list ContextEdge)
| MBundle (b : ContextBundle)
| MContextCommit (c : ContextCommit)
| MEffectEvent (e : EffectJournalEvent)
| MEffectRecord (r : EffectRecordEnvelope)
| MBlob (b : BlobRecord)
| MOutbox (m : OutboxMessage).

Record WriteTx := mk_write {
  wr_context : AccessContext; expected_revision : Z; staged : list StagedMutation }.

Definition begin_write (context : AccessContext) (expected : Z) (cancelled : bool) : res WriteTx :=
  _ ← check cancelled; Ok (mk_write context expected []).

Definition stage (tx : WriteTx) (c : bool) (m : StagedMutation) : res WriteTx :=
  _ ← check c; Ok (mk_write (wr_context tx) (expected_revision tx) (staged tx ++ [m])).

Definition validate (r : result ValidationErrors unit) : res unit :=
  map_err (λ _, InvalidRecord) r.

Definition stage_snapshot (tx : WriteTx) (c : bool) (s : SourceSnapshot) : res WriteTx :=
  _ ← validate (snapshot_validate s); stage tx c (MSnapshot s).

Fixpoint validate_atoms (tenant : text) (l : list ContextAtomV1) : res unit :=
  match l with
  | [] => Ok tt
  | a :: rest =>
      _ ← validate (atom_validate a);
      _ ← ensure (oeqb (sc_tenant_id (scope a)) tenant) InvalidContext;
      validate_atoms tenant rest
  end.

Fixpoint validate_edges (l : list ContextEdge) : res unit :=
  match l with [] => Ok tt | e :: rest => _ ← validate (edge_validate e); validate_edges rest end.

Definition publish_atoms (tx : WriteTx) (c : bool) (l : list ContextAtomV1) (es : list ContextEdge)
    : res WriteTx :=
  if len l =? 0 then Err InvalidRecord
  else
    _ ← validate_atoms (tenant_id (wr_context tx)) l;
    _ ← validate_edges es;
    stage tx c (MAtoms l es).

Definition put_bundle (tx : WriteTx) (c : bool) (b : ContextBundle) : res WriteTx :=
  _ ← validate (bundle_validate b); stage tx c (MBundle b).

Definition append_context_commit (tx : WriteTx) (c : bool) (commit : ContextCommit) : res WriteTx :=
  _ ← validate (commit_validate commit);
  _ ← ensure (oeqb (purpose commit) (access_purpose (wr_context tx))) InvalidContext;
  stage tx c (MContextCommit commit).

Definition append_effect_event (tx : WriteTx) (c : bool) (e : EffectJournalEvent) : res WriteTx :=
  _ ← validate (event_validate e); stage tx c (MEffectEvent e).

Definition put_effect_record (tx : WriteTx) (c : bool) (r : EffectRecordEnvelope) : res WriteTx :=
  stage tx c (MEffectRecord r).

Definition put_blob (sha256 : list Z → list Z) (tx : WriteTx) (c : bool) (b : BlobRecord)
    : res WriteTx :=
  _ ← ensure (oeqb (sha256_multihash sha256 (blob_bytes b)) (digest (blob_reference b))) InvalidRecord;
  stage tx c (MBlob b).

Definition enqueue_outbox (tx : WriteTx) (c : bool) (m : OutboxMessage) : res WriteTx :=
  _ ← message_validate m; stage tx c (MOutbox m).

(** ** Applying mutations *)

Definition insert_immutable {V} `{EqDecision V} (values : btree text V) (key : text) (value : V)
    : res (btree text V) :=
  match bt_get key values with
  | Some existing => if decide (existing = value) then Ok values else Err InvalidRecord
  | None => Ok (bt_insert key value values)
  end.

Definition update_current_lineage (atoms : btree text ContextAtomV1) (current : btree text text)
    (candidate : ContextAtomV1) : res (btree text text) :=
  replace ← match bt_get (lineage_id candidate) current with
            | Some version =>
                existing ← ok_or (bt_get version atoms) InvalidRecord;
                Ok (oltb (observed_at (temporal existing), version_id existing)
                         (observed_at (temporal candidate), version_id candidate))
            | None => Ok true
            end;
  Ok (if replace : bool then bt_insert (lineage_id candidate) (version_id candidate) current else current).

Definition derived_targets (es : btree text ContextEdge) (current : text) : list text :=
  map to_version
    (List.filter (λ e, bool_decide (edge_kind e = DerivedFrom) && oeqb (from_version e) current)
       (bt_values es)).

Definition MAX_DERIVATION_VISITED : Z := 100000.

(** The depth-first loop; the head of [pending] is the top of the stack. [None]
    is running out of fuel, which [creates_derivation_cycle] never does. *)
Fixpoint cycle_loop (fuel : nat) (es : btree text ContextEdge) (target : text)
    (pending visited : list text) : option (res bool) :=
  match fuel with
  | O => None
  | S fuel =>
      match pending with
      | [] => Some (Ok false)
      | current :: pending =>
          if oeqb current target then Some (Ok true)
          else if existsb (oeqb current) visited then cycle_loop fuel es target pending visited
          else
            let visited := current :: visited in
            if MAX_DERIVATION_VISITED <? len visited then Some (Err StoreLimitExceeded)
            else cycle_loop fuel es target (rev (derived_targets es current) ++ pending) visited
      end
  end.

Definition creates_derivation_cycle (es : btree text ContextEdge) (candidate : ContextEdge)
    : res bool :=
  if decide (edge_kind candidate ≠ DerivedFrom) then Ok false
  else default (Err StoreLimitExceeded)
         (cycle_loop (S (S (length es))) es (from_version candidate) [to_version candidate] []).

Definition apply_atom (t : TenantState) (a : ContextAtomV1) : res TenantState :=
  _ ← ensure (negb (is_some_and (λ version, negb (oeqb version (version_id a)))
                      (bt_get (atom_id a) (atom_versions_by_id t)))) InvalidRecord;
  atoms' ← insert_immutable (atoms t) (version_id a) a;
  let by_id := bt_insert (atom_id a) (version_id a) (atom_versions_by_id t) in
  stored ← ok_or (bt_get (version_id a) atoms') InvalidRecord;
  current ← update_current_lineage atoms' (current_versions_by_lineage t) stored;
  Ok (set_current_versions_by_lineage current (set_atom_versions_by_id by_id (set_atoms atoms' t))).

Definition apply_edge (t : TenantState) (e : ContextEdge) : res TenantState :=
  bad ← (if negb (bt_mem (from_version e) (atoms t)) || negb (bt_mem (to_version e) (atoms t))
         then Ok true else creates_derivation_cycle (edges t) e);
  _ ← ensure (negb bad) InvalidRecord;
  edges' ← insert_immutable (edges t) (edge_id e) e;
  Ok (set_edges edges' t).

(** [for x in items { apply(tenant, x)? }]. *)
Fixpoint apply_all {X} (apply : TenantState → X → res TenantState) (t : TenantState) (l : list X)
    : res TenantState :=
  match l with [] => Ok t | x :: rest => t' ← apply t x; apply_all apply t' rest end.

Definition apply_context_commit (t : TenantState) (c : ContextCommit) : res TenantState :=
  let commits := default [] (bt_get (space_id c) (context_commits t)) in
  expected_sequence ← ok_or (checked_add u64_max (len commits) 1) StoreLimitExceeded;
  _ ← ensure ((sequence c =? expected_sequence) &&
              opt_eqb (parent_commit_id c) (commit_id <$> last commits)) RevisionConflict;
  Ok (set_context_commits (bt_insert (space_id c) (commits ++ [c]) (context_commits t)) t).

Definition apply_effect_event (t : TenantState) (e : EffectJournalEvent) : res TenantState :=
  let journal := default [] (bt_get (je_effect_id e) (effects t)) in
  expected_sequence ← ok_or (checked_add u64_max (len journal) 1) StoreLimitExceeded;
  _ ← ensure ((je_sequence e =? expected_sequence) &&
              (je_expected_effect_version e =? len journal) &&
              opt_eqb (je_previous_event_digest e) (je_event_digest <$> last journal) &&
              is_none_or (λ current, bool_decide (je_to_state current = je_from_state e))
                (last journal)) RevisionConflict;
  Ok (set_effects (bt_insert (je_effect_id e) (journal ++ [e]) (effects t)) t).

Definition apply_effect_record (t : TenantState) (r : EffectRecordEnvelope) : res TenantState :=
  expected_version ← match bt_get (env_effect_id r) (effect_records t) with
                     | Some current =>
                         ok_or (checked_add u64_max (env_effect_version current) 1) StoreLimitExceeded
                     | None => Ok 0
                     end;
  _ ← ensure (env_effect_version r =? expected_version) RevisionConflict;
  Ok (set_effect_records (bt_insert (env_effect_id r) r (effect_records t)) t).

Definition apply_outbox (t : TenantState) (m : OutboxMessage) (rev : Z) : res TenantState :=
  _ ← ensure (negb (existsb (λ r, oeqb (message_id (message r)) (message_id m)) (outbox t))) InvalidRecord;
  Ok (set_outbox (outbox t ++ [mk_outbox_record m rev]) t).

#[global] Instance BlobState_eq : EqDecision BlobState.
Proof. solve_decision. Defined.

Definition apply_mutation (rev : Z) (t : TenantState) (m : StagedMutation) : res TenantState :=
  match m with
  | MSnapshot s => v ← insert_immutable (snapshots t) (snapshot_id s) s; Ok (set_snapshots v t)
  | MAtoms l es => t' ← apply_all apply_atom t l; apply_all apply_edge t' es
  | MBundle b => v ← insert_immutable (bundles t) (bundle_id b) b; Ok (set_bundles v t)
  | MContextCommit c => apply_context_commit t c
  | MEffectEvent e => apply_effect_event t e
  | MEffectRecord r => apply_effect_record t r
  | MBlob b =>
      v ← insert_immutable (blobs t) (digest (blob_reference b)) (blob_state_in_memory b);
      Ok (set_blobs v t)
  | MOutbox m => apply_outbox t m rev
  end.

(** ** Rebuilding the atom indexes of an older encoding *)

Definition MAX_LEGACY_ATOM_INDEX_REBUILD_ITEMS : Z := 100000.

Fixpoint rebuild_loop (all : btree text ContextAtomV1) (by_id current : btree text text)
    (l : list ContextAtomV1) : res (btree text text * btree text text) :=
  match l with
  | [] => Ok (by_id, current)
  | a :: rest =>
      let existing := bt_get (atom_id a) by_id in
      let by_id := bt_insert (atom_id a) (version_id a) by_id in
      _ ← ensure (negb (is_some_and (λ v, negb (oeqb v (version_id a))) existing)) InvalidRecord;
      current ← update_current_lineage all current a;
      rebuild_loop all by_id current rest
  end.

Definition rebuild_atom_indexes (t : TenantState) : res TenantState :=
  if MAX_LEGACY_ATOM_INDEX_REBUILD_ITEMS <? len (atoms t) then Err StoreLimitExceeded
  else
    p ← rebuild_loop (atoms t) [] [] (bt_values (atoms t));
    Ok (set_current_versions_by_lineage p.2 (set_atom_versions_by_id p.1 t)).

Fixpoint ensure_atom_indexes (l : btree text TenantState) : res (btree text TenantState) :=
  match l with
  | [] => Ok []
  | (id, t) :: rest =>
      let index_missing := negb (len (atom_versions_by_id t) =? len (atoms t)) ||
                           (negb (len (atoms t) =? 0) && (len (current_versions_by_lineage t) =? 0)) in
      t' ← (if index_missing then rebuild_atom_indexes t else Ok t);
      rest' ← ensure_atom_indexes rest;
      Ok ((id, t') :: rest')
  end.

Definition is_outbox (m : StagedMutation) : bool := match m with MOutbox _ => true | _ => false end.

(** The publication itself, on the latest committed state: the next state, or
    [None] with the receipt of an earlier identical request. *)
Definition prepare_commit (latest : CommittedState) (tx : WriteTx)
    (identity : option IdempotencyIdentity) : res (option CommittedState * CommitReceipt) :=
  let tenant := bt_get (tenant_id (wr_context tx)) (tenants latest) in
  match (i ← identity; t ← tenant; bt_get (id_scope i, id_key i) (idempotency t)), identity with
  | Some (digest, receipt), Some i =>
      _ ← ensure (oeqb digest (id_request_digest i)) InvalidRecord;
      Ok (None, mk_commit_receipt (receipt_revision receipt) true)
  | _, _ =>
      _ ← ensure (revision latest =? expected_revision tx) RevisionConflict;
      rev ← ok_or (checked_add u64_max (revision latest) 1) StoreLimitExceeded;
      t ← apply_all (apply_mutation rev) (default empty_tenant tenant) (staged tx);
      let receipt := mk_commit_receipt rev false in
      let t := match identity with
               | Some i => set_idempotency
                             (bt_insert (id_scope i, id_key i) (id_request_digest i, receipt)
                                (idempotency t)) t
               | None => t
               end in
      Ok (Some (mk_state rev (bt_insert (tenant_id (wr_context tx)) t (tenants latest))), receipt)
  end.

(** [WriteTransaction::commit]: the two cancellation checks read [c1] and [c2]. *)
Definition commit (s : InMemoryStore) (tx : WriteTx) (c1 c2 : bool)
    (identity : option IdempotencyIdentity) : InMemoryStore * res CommitReceipt :=
  if c1 then (s, Err Cancelled)
  else if (len (staged tx) =? 0) ||
          (existsb is_outbox (staged tx) && negb (existsb (λ m, negb (is_outbox m)) (staged tx)))
  then (s, Err InvalidRecord)
  else
    match last (history s) with
    | None => (s, Err Unavailable)
    | Some latest =>
        match prepare_commit latest tx identity with
        | Err e => (s, Err e)
        | Ok (None, receipt) => (s, Ok receipt)
        | Ok (Some next, receipt) =>
            if c2 then (s, Err Cancelled)
            else if fail_next_commit s then (mk_store (history s) false, Err InjectedAbort)
            else (mk_store (history s ++ [next]) (fail_next_commit s), Ok receipt)
        end
    end.

End Store.
