(* ===== verification/Service.v ===== *)
(** * Service records and workers: crates/cigar-store/src/service_repository.rs

    The object-safe service facade over the committed states of [Store]:
    versioned service records with per-record compare-and-swap, request-bound
    replay of exact responses, snapshot-pinned listings, effect and outbox
    recovery enumeration, and durable worker leases with fencing tokens. *)

From S2P Require Import Prelude Collections Canon BrokerAuth Protocol Catalog Store.
Import Protocol Catalog Store.
Local Open Scope Z_scope.

Module Service.

Definition MAX_SERVICE_NAMESPACE_BYTES : Z := 128.
Definition MAX_SERVICE_KEY_BYTES : Z := 512.
Definition MAX_SERVICE_RECORD_BYTES : Z := 16777216.
Definition MAX_SERVICE_RESPONSE_BYTES : Z := MAX_SERVICE_RECORD_BYTES + 8192.
Definition MAX_SERVICE_BATCH_BYTES : Z := 67108864.
Definition MAX_SERVICE_BATCH_RECORDS : Z := 256.
Definition MAX_SERVICE_PAGE_ITEMS : Z := 1000.
Definition MAX_WORKER_CURSOR_BYTES : Z := 65536.
Definition MAX_WORKER_SELECTOR_BYTES : Z := 128.
Definition MAX_RETAINED_SERVICE_IDEMPOTENCY_ENTRIES : Z := 16384.
Definition MAX_RETAINED_SERVICE_RECORD_KEYS : Z := 16384.
Definition MAX_RETAINED_SERVICE_VERSIONS_PER_KEY : Z := 1024.
Definition MAX_RETAINED_SERVICE_VERSIONS_PER_TENANT : Z := 65536.
Definition MAX_RETAINED_SERVICE_STATE_BYTES : Z := 67108864.

Inductive ServiceErrorCode :=
| SInvalidInput | SNotFound | SRevisionConflict | IdempotencyConflict | CursorScopeMismatch
| SLimitExceeded | SCancelled | SInjectedAbort | SUnavailable.

Abbreviation sres := (result ServiceErrorCode).

Definition map_store_error (e : StoreErrorCode) : ServiceErrorCode :=
  match e with
  | InvalidContext | InvalidRecord => SInvalidInput
  | NotFound | MixedSnapshot => SNotFound
  | RevisionConflict => SRevisionConflict
  | StoreLimitExceeded => SLimitExceeded
  | Cancelled => SCancelled
  | InjectedAbort => SInjectedAbort
  | Unavailable => SUnavailable
  end.

Definition check_cancellation (c : bool) : sres unit := map_err map_store_error (check c).

(** [corrupt()]. *)
Abbreviation corrupt := SUnavailable.

(** ** Selectors and constructors *)

Definition validate_selector (value : text) (maximum : Z) (allow_empty : bool) : sres unit :=
  if (negb allow_empty && (len value =? 0)) || (maximum <? len value) ||
     negb (forallb is_ascii_graphic value)
  then Err SInvalidInput else Ok tt.

Definition validate_page_limit (limit : Z) : sres unit :=
  if (limit =? 0) || (MAX_SERVICE_PAGE_ITEMS <? limit) then Err SLimitExceeded else Ok tt.

Inductive ServiceExpectedVersion := Absent | Version (v : Z).
Inductive ServiceRecordSelection := SelLatest | SelVersion (v : Z).

Definition validate_expected (e : ServiceExpectedVersion) : sres unit :=
  match e with Version v => ensure (negb (v =? 0)) SInvalidInput | Absent => Ok tt end.

Definition check_expected (e : ServiceExpectedVersion) (actual : option Z) : sres unit :=
  ensure (match e, actual with
          | Absent, None => true
          | Version v, Some a => a =? v
          | _, _ => false
          end) SRevisionConflict.

Definition next_revision (r : Z) : sres Z := ok_or (checked_add u64_max r 1) SLimitExceeded.
Definition increment (v : Z) : sres Z := ok_or (checked_add u64_max v 1) SLimitExceeded.

Definition locator_new (tenant namespace key : text) : sres ServiceRecordLocator :=
  _ ← validate_selector namespace MAX_SERVICE_NAMESPACE_BYTES false;
  _ ← validate_selector key MAX_SERVICE_KEY_BYTES false;
  Ok (mk_locator tenant namespace key).

Record ServiceRecordWrite := mk_record_write {
  w_namespace : text; w_key : text; w_expected : ServiceExpectedVersion; w_bytes : list Z }.

Definition record_write_new (namespace key : text) (expected : ServiceExpectedVersion)
    (bytes : list Z) : sres ServiceRecordWrite :=
  _ ← validate_selector namespace MAX_SERVICE_NAMESPACE_BYTES false;
  _ ← validate_selector key MAX_SERVICE_KEY_BYTES false;
  _ ← validate_expected expected;
  _ ← ensure (negb ((len bytes =? 0) || (MAX_SERVICE_RECORD_BYTES <? len bytes))) SLimitExceeded;
  Ok (mk_record_write namespace key expected bytes).

Record ServiceIdempotency := mk_service_idempotency {
  si_operation : text; si_key : text; si_request_digest : text }.

Definition service_idempotency_new (operation key digest : text) : sres ServiceIdempotency :=
  _ ← validate_selector operation MAX_SERVICE_NAMESPACE_BYTES false;
  Ok (mk_service_idempotency operation key digest).

Record ServiceBatch := mk_batch {
  b_tenant : text; b_expected_store_revision : option Z; b_writes : list ServiceRecordWrite;
  b_idempotency : option ServiceIdempotency; b_response : ServiceResponse }.

(** The loop of [validate_writes]: bytes so far and the keys seen. *)
Fixpoint validate_writes_loop (total : Z) (keys : list (text * text)) (ws : list ServiceRecordWrite)
    : sres unit :=
  match ws with
  | [] => Ok tt
  | w :: rest =>
      _ ← validate_selector (w_namespace w) MAX_SERVICE_NAMESPACE_BYTES false;
      _ ← validate_selector (w_key w) MAX_SERVICE_KEY_BYTES false;
      _ ← validate_expected (w_expected w);
      _ ← ensure (negb ((len (w_bytes w) =? 0) || (MAX_SERVICE_RECORD_BYTES <? len (w_bytes w))))
            SLimitExceeded;
      total ← ok_or (checked_add u64_max total (len (w_bytes w))) SLimitExceeded;
      _ ← ensure (negb ((MAX_SERVICE_BATCH_BYTES <? total) ||
                        existsb (oeqb (w_namespace w, w_key w)) keys)) SInvalidInput;
      validate_writes_loop total ((w_namespace w, w_key w) :: keys) rest
  end.

Definition validate_writes (ws : list ServiceRecordWrite) : sres unit :=
  if (len ws =? 0) || (MAX_SERVICE_BATCH_RECORDS <? len ws) then Err SLimitExceeded
  else validate_writes_loop 0 [] ws.

Definition batch_new (tenant : text) (ws : list ServiceRecordWrite) (response : ServiceResponse)
    : sres ServiceBatch :=
  _ ← validate_writes ws; Ok (mk_batch tenant None ws None response).
Definition with_expected_store_revision (b : ServiceBatch) (r : Z) : ServiceBatch :=
  mk_batch (b_tenant b) (Some r) (b_writes b) (b_idempotency b) (b_response b).
Definition with_idempotency (b : ServiceBatch) (i : ServiceIdempotency) : ServiceBatch :=
  mk_batch (b_tenant b) (b_expected_store_revision b) (b_writes b) (Some i) (b_response b).

Record ServiceListScope := mk_list_scope {
  ls_tenant : text; ls_namespace : text; ls_key_prefix : option text }.
Record ServiceListCursor := mk_list_cursor {
  lc_scope : ServiceListScope; lc_revision : Z; lc_last_key : text }.
Record ServiceListQuery := mk_list_query {
  lq_scope : ServiceListScope; lq_limit : Z; lq_cursor : option ServiceListCursor }.
Record ServiceListPage := mk_list_page {
  lp_revision : Z; lp_items : list ServiceRecord; lp_next : option ServiceListCursor }.

#[global] Instance ServiceListScope_eq : EqDecision ServiceListScope.
Proof. solve_decision. Defined.

Definition list_scope_new (tenant namespace : text) (prefix : option text) : sres ServiceListScope :=
  _ ← validate_selector namespace MAX_SERVICE_NAMESPACE_BYTES false;
  _ ← match prefix with Some p => validate_selector p MAX_SERVICE_KEY_BYTES true | None => Ok tt end;
  Ok (mk_list_scope tenant namespace prefix).

Definition list_cursor_resume (scope : ServiceListScope) (rev : Z) (last_key : text)
    : sres ServiceListCursor :=
  _ ← validate_selector last_key MAX_SERVICE_KEY_BYTES false;
  _ ← ensure (negb ((rev =? 0) ||
                    is_some_and (λ p, negb (starts_with p last_key)) (ls_key_prefix scope))) SInvalidInput;
  Ok (mk_list_cursor scope rev last_key).

Definition list_query_new (scope : ServiceListScope) (limit : Z) (cursor : option ServiceListCursor)
    : sres ServiceListQuery :=
  _ ← validate_page_limit limit;
  _ ← ensure (is_none_or (λ c, bool_decide (lc_scope c = scope)) cursor) CursorScopeMismatch;
  Ok (mk_list_query scope limit cursor).

Record EffectRecoveryCursor := mk_effect_cursor {
  ec_tenant : text; ec_revision : Z; ec_last_effect_id : text }.
Record EffectRecoveryQuery := mk_effect_query {
  eq_tenant : text; eq_limit : Z; eq_cursor : option EffectRecoveryCursor }.
Record EffectRecoveryItem := mk_recovery_item {
  ri_record : EffectRecordEnvelope; ri_latest_event : option EffectJournalEvent }.
Record EffectRecoveryPage := mk_effect_page {
  ep_revision : Z; ep_items : list EffectRecoveryItem; ep_next : option EffectRecoveryCursor }.

Definition effect_query_new (tenant : text) (limit : Z) (cursor : option EffectRecoveryCursor)
    : sres EffectRecoveryQuery :=
  _ ← validate_page_limit limit;
  _ ← ensure (is_none_or (λ c, oeqb (ec_tenant c) tenant) cursor) CursorScopeMismatch;
  Ok (mk_effect_query tenant limit cursor).

Record OutboxRecoveryCursor := mk_outbox_cursor {
  oc_tenant : text; oc_revision : Z; oc_last_causal_revision : Z; oc_last_message_id : text }.
Record OutboxRecoveryQuery := mk_outbox_query {
  oq_tenant : text; oq_limit : Z; oq_cursor : option OutboxRecoveryCursor }.
Record OutboxRecoveryPage := mk_outbox_page {
  op_revision : Z; op_items : list OutboxRecord; op_next : option OutboxRecoveryCursor }.

Definition worker_locator_new (tenant worker : text) : sres WorkerLocator :=
  _ ← validate_selector worker MAX_WORKER_SELECTOR_BYTES false;
  Ok (mk_worker_locator tenant worker).

Inductive WorkerUpdate :=
| Claim (expected : ServiceExpectedVersion) (owner : text) (now expires_at : Z)
| Checkpoint (expected : ServiceExpectedVersion) (owner : text) (fencing_token : Z)
    (cursor : list Z) (heartbeat expires_at : Z)
| Release (expected : ServiceExpectedVersion) (owner : text) (fencing_token heartbeat : Z).

Definition validate_worker_update (u : WorkerUpdate) : sres unit :=
  let '(expected, owner, heartbeat, expiry, cursor_length) :=
    match u with
    | Claim e o now x => (e, o, now, Some x, 0)
    | Checkpoint e o _ cursor h x => (e, o, h, Some x, len cursor)
    | Release e o _ h => (e, o, h, None, 0)
    end in
  _ ← validate_expected expected;
  _ ← validate_selector owner MAX_WORKER_SELECTOR_BYTES false;
  ensure (negb ((heartbeat =? 0) || is_some_and (λ x, x <=? heartbeat) expiry ||
                (MAX_WORKER_CURSOR_BYTES <? cursor_length))) SInvalidInput.

#[global] Instance WorkerLocator_eq : EqDecision WorkerLocator.
Proof. solve_decision. Defined.
#[global] Instance EffectRecordEnvelope_eq : EqDecision EffectRecordEnvelope.
Proof. solve_decision. Defined.

Section service.
Context (sha256 : list Z → list Z).
(** Length of the ciborium encoding of a tenant's service state; [None] when the
    encoder fails. *)
Context (encoded_len : btree (text * text) (list ServiceRecord) →
                       btree (text * text) ServiceIdempotencyEntry →
                       btree text WorkerState → option Z).

Definition exact_digest (bytes : list Z) : sres text :=
  map_err (λ _, SUnavailable) (content_digest_new (sha256_multihash sha256 bytes)).

Definition response_new (status : Z) (content_type : text) (bytes : list Z) : sres ServiceResponse :=
  _ ← ensure (negb (negb ((100 <=? status) && (status <=? 599)) || (len content_type =? 0) ||
                    (128 <? len content_type) || negb (forallb is_ascii_graphic content_type) ||
                    (MAX_SERVICE_RESPONSE_BYTES <? len bytes))) SInvalidInput;
  d ← exact_digest bytes;
  Ok (mk_response status content_type d bytes).

(** ** Validation of retained state *)

Fixpoint validate_history_loop (state_revision : Z) (tenant namespace key : text) (index prior : Z)
    (h : list ServiceRecord) : sres unit :=
  match h with
  | [] => Ok tt
  | r :: rest =>
      expected_version ← ok_or (checked_add u64_max index 1) corrupt;
      d ← exact_digest (sr_bytes r);
      _ ← ensure (negb (negb (oeqb (loc_tenant (sr_locator r)) tenant) ||
                        negb (oeqb (loc_namespace (sr_locator r)) namespace) ||
                        negb (oeqb (loc_key (sr_locator r)) key) ||
                        negb (sr_version r =? expected_version) ||
                        (sr_store_revision r <=? prior) ||
                        (state_revision <? sr_store_revision r) ||
                        (len (sr_bytes r) =? 0) ||
                        (MAX_SERVICE_RECORD_BYTES <? len (sr_bytes r)) ||
                        negb (oeqb d (sr_digest r)))) corrupt;
      validate_history_loop state_revision tenant namespace key (index + 1) (sr_store_revision r) rest
  end.

Definition validate_record_history (state_revision : Z) (tenant namespace key : text)
    (h : list ServiceRecord) : sres unit :=
  validate_history_loop state_revision tenant namespace key 0 0 h.

Definition validate_response (r : ServiceResponse) : sres unit :=
  d ← exact_digest (resp_bytes r);
  ensure (negb (negb ((100 <=? status_code r) && (status_code r <=? 599)) ||
                (len (content_type r) =? 0) || (128 <? len (content_type r)) ||
                negb (forallb is_ascii_graphic (content_type r)) ||
                (MAX_SERVICE_RESPONSE_BYTES <? len (resp_bytes r)) ||
                negb (oeqb d (resp_digest r)))) corrupt.

Definition receipt_record_ok (state : CommittedState) (tenant : text) (rev : Z)
    (v : ServiceRecordVersion) : sres unit :=
  _ ← map_err (λ _, corrupt) (validate_selector (srv_namespace v) MAX_SERVICE_NAMESPACE_BYTES false);
  _ ← map_err (λ _, corrupt) (validate_selector (srv_key v) MAX_SERVICE_KEY_BYTES false);
  _ ← ensure (negb (srv_version v =? 0)) corrupt;
  record ← ok_or (t ← bt_get tenant (tenants state);
                  h ← bt_get (srv_namespace v, srv_key v) (service_records t);
                  h !! Z.to_nat (srv_version v - 1)) corrupt;
  ensure (oeqb (sr_digest record) (srv_digest v) && (sr_store_revision record =? rev)) corrupt.

(** [for x in items { f(x)? }]. *)
Fixpoint for_each {X} (f : X → sres unit) (l : list X) : sres unit :=
  match l with [] => Ok tt | x :: rest => _ ← f x; for_each f rest end.

Definition validate_idempotency_entry (state : CommittedState) (tenant : text)
    (entry : ServiceIdempotencyEntry) : sres unit :=
  let receipt := se_receipt entry in
  _ ← validate_response (br_response receipt);
  _ ← ensure (negb (br_replayed receipt || (br_revision receipt =? 0) ||
                    (revision state <? br_revision receipt) || (len (br_records receipt) =? 0) ||
                    (MAX_SERVICE_BATCH_RECORDS <? len (br_records receipt)))) corrupt;
  for_each (receipt_record_ok state tenant (br_revision receipt)) (br_records receipt).

Definition validate_worker_state (state_revision : Z) (locator : WorkerLocator) (w : WorkerState)
    : sres unit :=
  let lease_shape_valid :=
    match ws_lease_owner w, ws_lease_expires_at w with
    | Some owner, Some expiry =>
        is_ok (validate_selector owner MAX_WORKER_SELECTOR_BYTES false) && (ws_heartbeat w <? expiry)
    | None, None => true
    | _, _ => false
    end in
  d ← exact_digest (ws_cursor w);
  ensure (negb (negb (bool_decide (ws_locator w = locator)) || (ws_version w =? 0) ||
                (ws_store_revision w =? 0) || (state_revision <? ws_store_revision w) ||
                (MAX_WORKER_CURSOR_BYTES <? len (ws_cursor w)) ||
                negb (oeqb d (ws_cursor_digest w)) || (ws_heartbeat w =? 0) ||
                (ws_fencing_token w =? 0) || negb lease_shape_valid)) corrupt.

(** [usize::saturating_add] folded over the history lengths. *)
Definition saturating_add (a b : Z) : Z := Z.min (a + b) u64_max.
Definition retained_versions (m : btree (text * text) (list ServiceRecord)) : Z :=
  fold_left saturating_add (map len (bt_values m)) 0.

Definition validate_tenant_service_retention (t : TenantState) : sres unit :=
  _ ← ensure (negb ((MAX_RETAINED_SERVICE_IDEMPOTENCY_ENTRIES <? len (service_idempotency t)) ||
                    (MAX_RETAINED_SERVICE_RECORD_KEYS <? len (service_records t)) ||
                    existsb (λ h, MAX_RETAINED_SERVICE_VERSIONS_PER_KEY <? len h)
                      (bt_values (service_records t)) ||
                    (MAX_RETAINED_SERVICE_VERSIONS_PER_TENANT <?
                       retained_versions (service_records t)))) SLimitExceeded;
  bytes ← ok_or (encoded_len (service_records t) (service_idempotency t) (worker_states t)) SUnavailable;
  ensure (negb (MAX_RETAINED_SERVICE_STATE_BYTES <? bytes)) SLimitExceeded.

Definition validate_tenant_state (state : CommittedState) (entry : text * TenantState) : sres unit :=
  let '(tenant, t) := entry in
  _ ← validate_tenant_service_retention t;
  _ ← for_each (λ '((namespace, key), h),
        validate_record_history (revision state) tenant namespace key h) (service_records t);
  _ ← for_each (validate_idempotency_entry state tenant) (bt_values (service_idempotency t));
  for_each (λ '(name, w), validate_worker_state (revision state) (mk_worker_locator tenant name) w)
    (worker_states t).

Definition validate_committed_service_state (state : CommittedState) : sres unit :=
  for_each (validate_tenant_state state) (tenants state).

Definition validate_service_batch_retention (latest : CommittedState) (b : ServiceBatch) : sres unit :=
  let tenant := bt_get (b_tenant b) (tenants latest) in
  let records := match tenant with Some t => service_records t | None => [] end in
  let idempotency_count := match tenant with Some t => len (service_idempotency t) | None => 0 end in
  _ ← ensure (negb (is_some (b_idempotency b) &&
                    (MAX_RETAINED_SERVICE_IDEMPOTENCY_ENTRIES <=? idempotency_count))) SLimitExceeded;
  let new_keys := len (List.filter (λ w, negb (bt_mem (w_namespace w, w_key w) records)) (b_writes b)) in
  _ ← ensure (negb (MAX_RETAINED_SERVICE_RECORD_KEYS <? saturating_add (len records) new_keys))
        SLimitExceeded;
  _ ← ensure (negb (MAX_RETAINED_SERVICE_VERSIONS_PER_TENANT <?
                      saturating_add (retained_versions records) (len (b_writes b)))) SLimitExceeded;
  for_each (λ w, ensure (negb (MAX_RETAINED_SERVICE_VERSIONS_PER_KEY <=?
                                 len (default [] (bt_get (w_namespace w, w_key w) records))))
                   SLimitExceeded) (b_writes b).

(** ** Service batches *)

(** One turn of the write loop. *)
Definition apply_write (latest_revision rev : Z) (tenant : text) (records : btree (text * text) (list ServiceRecord))
    (w : ServiceRecordWrite) : sres (btree (text * text) (list ServiceRecord) * ServiceRecordVersion) :=
  let h := default [] (bt_get (w_namespace w, w_key w) records) in
  _ ← validate_record_history latest_revision tenant (w_namespace w) (w_key w) h;
  _ ← check_expected (w_expected w) (sr_version <$> last h);
  version ← ok_or (checked_add u64_max (len h) 1) SLimitExceeded;
  d ← exact_digest (w_bytes w);
  let record := mk_service_record (mk_locator tenant (w_namespace w) (w_key w)) version rev d (w_bytes w) in
  Ok (bt_insert (w_namespace w, w_key w) (h ++ [record]) records,
      mk_record_version (w_namespace w) (w_key w) version d).

Fixpoint apply_writes (latest_revision rev : Z) (tenant : text)
    (records : btree (text * text) (list ServiceRecord)) (ws : list ServiceRecordWrite)
    : sres (btree (text * text) (list ServiceRecord) * list ServiceRecordVersion) :=
  match ws with
  | [] => Ok (records, [])
  | w :: rest =>
      p ← apply_write latest_revision rev tenant records w;
      q ← apply_writes latest_revision rev tenant p.1 rest;
      Ok (q.1, p.2 :: q.2)
  end.

Definition apply_service_batch (latest : CommittedState) (b : ServiceBatch)
    : sres (option CommittedState * ServiceBatchReceipt) :=
  _ ← validate_writes (b_writes b);
  let tenant := bt_get (b_tenant b) (tenants latest) in
  match (i ← b_idempotency b; t ← tenant; bt_get (si_operation i, si_key i) (service_idempotency t)),
        b_idempotency b with
  | Some entry, Some i =>
      _ ← validate_idempotency_entry latest (b_tenant b) entry;
      _ ← ensure (oeqb (se_request_digest entry) (si_request_digest i)) IdempotencyConflict;
      let r := se_receipt entry in
      Ok (None, mk_batch_receipt (br_revision r) (br_records r) (br_response r) true)
  | _, _ =>
      _ ← ensure (is_none_or (Z.eqb (revision latest)) (b_expected_store_revision b)) SRevisionConflict;
      _ ← validate_service_batch_retention latest b;
      rev ← next_revision (revision latest);
      let t := default empty_tenant tenant in
      p ← apply_writes (revision latest) rev (b_tenant b) (service_records t) (b_writes b);
      let t := set_service_records p.1 t in
      let receipt := mk_batch_receipt rev p.2 (b_response b) false in
      let t := match b_idempotency b with
               | Some i => set_service_idempotency
                             (bt_insert (si_operation i, si_key i)
                                (mk_service_entry (si_request_digest i) receipt)
                                (service_idempotency t)) t
               | None => t
               end in
      _ ← validate_tenant_service_retention t;
      Ok (Some (mk_state rev (bt_insert (b_tenant b) t (tenants latest))), receipt)
  end.

(** memory.rs [service_commit]. *)
Definition service_commit (s : InMemoryStore) (b : ServiceBatch) (c1 c2 : bool)
    : InMemoryStore * sres ServiceBatchReceipt :=
  if c1 then (s, Err SCancelled)
  else
    match last (history s) with
    | None => (s, Err SUnavailable)
    | Some latest =>
        match apply_service_batch latest b with
        | Err e => (s, Err e)
        | Ok (next, receipt) =>
            if br_replayed receipt then (s, Ok receipt)
            else if c2 then (s, Err SCancelled)
            else if fail_next_commit s then (mk_store (history s) false, Err SInjectedAbort)
            else match next with
                 | None => (s, Err SUnavailable)
                 | Some next => (mk_store (history s ++ [next]) false, Ok receipt)
                 end
        end
    end.

(** ** Worker leases *)

Definition transition_worker (locator : WorkerLocator) (current : option WorkerState)
    (u : WorkerUpdate) (rev : Z) : sres WorkerState :=
  match u with
  | Claim expected owner now expires_at =>
      _ ← check_expected expected (ws_version <$> current);
      _ ← ensure (negb (is_some_and (λ w, is_some (ws_lease_owner w) &&
                                          is_some_and (λ x, now <? x) (ws_lease_expires_at w)) current))
            SRevisionConflict;
      _ ← ensure (negb (is_some_and (λ w, now <? ws_heartbeat w) current)) SInvalidInput;
      version ← match current with Some w => increment (ws_version w) | None => Ok 1 end;
      token ← match current with Some w => increment (ws_fencing_token w) | None => Ok 1 end;
      let cursor := match current with Some w => ws_cursor w | None => [] end in
      d ← exact_digest cursor;
      Ok (mk_worker locator version rev d cursor now (Some owner) token (Some expires_at))
  | Checkpoint expected owner token cursor heartbeat expires_at =>
      w ← ok_or current SNotFound;
      _ ← check_expected expected (Some (ws_version w));
      _ ← ensure (negb (negb (opt_eqb (ws_lease_owner w) (Some owner)) ||
                        negb (ws_fencing_token w =? token) ||
                        is_none_or (λ x, x <=? heartbeat) (ws_lease_expires_at w) ||
                        (heartbeat <? ws_heartbeat w))) SRevisionConflict;
      version ← increment (ws_version w);
      d ← exact_digest cursor;
      Ok (mk_worker locator version rev d cursor heartbeat (Some owner) token (Some expires_at))
  | Release expected owner token heartbeat =>
      w ← ok_or current SNotFound;
      _ ← check_expected expected (Some (ws_version w));
      _ ← ensure (negb (negb (opt_eqb (ws_lease_owner w) (Some owner)) ||
                        negb (ws_fencing_token w =? token) ||
                        (heartbeat <? ws_heartbeat w))) SRevisionConflict;
      version ← increment (ws_version w);
      Ok (mk_worker locator version rev (ws_cursor_digest w) (ws_cursor w) heartbeat None token None)
  end.

Definition apply_worker_update (latest : CommittedState) (locator : WorkerLocator) (u : WorkerUpdate)
    : sres (CommittedState * WorkerState) :=
  _ ← validate_worker_update u;
  rev ← next_revision (revision latest);
  let t := default empty_tenant (bt_get (wl_tenant locator) (tenants latest)) in
  let current := bt_get (wl_worker locator) (worker_states t) in
  _ ← match current with
      | Some w => validate_worker_state (revision latest) locator w
      | None => Ok tt
      end;
  w ← transition_worker locator current u rev;
  let t := set_worker_states (bt_insert (wl_worker locator) w (worker_states t)) t in
  Ok (mk_state rev (bt_insert (wl_tenant locator) t (tenants latest)), w).

(** memory.rs [worker_update]. *)
Definition worker_update (s : InMemoryStore) (locator : WorkerLocator) (u : WorkerUpdate) (c1 c2 : bool)
    : InMemoryStore * sres WorkerState :=
  if c1 then (s, Err SCancelled)
  else
    match last (history s) with
    | None => (s, Err SUnavailable)
    | Some latest =>
        match apply_worker_update latest locator u with
        | Err e => (s, Err e)
        | Ok (next, w) =>
            if c2 then (s, Err SCancelled)
            else if fail_next_commit s then (mk_store (history s) false, Err SInjectedAbort)
            else (mk_store (history s ++ [next]) false, Ok w)
        end
    end.

Definition worker_get_from_state (state : CommittedState) (locator : WorkerLocator)
    : sres (option WorkerState) :=
  let worker := t ← bt_get (wl_tenant locator) (tenants state);
                bt_get (wl_worker locator) (worker_states t) in
  _ ← match worker with
      | Some w => validate_worker_state (revision state) locator w
      | None => Ok tt
      end;
  Ok worker.

(** ** Reads and recovery *)

Definition service_get_from_state (state : CommittedState) (locator : ServiceRecordLocator)
    (selection : ServiceRecordSelection) : sres (option ServiceRecord) :=
  match (t ← bt_get (loc_tenant locator) (tenants state);
         bt_get (loc_namespace locator, loc_key locator) (service_records t)) with
  | None => Ok None
  | Some h =>
      _ ← validate_record_history (revision state) (loc_tenant locator) (loc_namespace locator)
            (loc_key locator) h;
      match selection with
      | SelLatest => Ok (last h)
      | SelVersion v => if 0 <? v then Ok (h !! Z.to_nat (v - 1)) else Err SInvalidInput
      end
  end.

(** [items.truncate(limit)] and the continuation it leaves. *)
Definition paginate {A C} (limit : Z) (cursor : A → C) (items : list A) : list A * option C :=
  let has_more := limit <? len items in
  let items := take (Z.to_nat limit) items in
  (items, if has_more then cursor <$> last items else None).

Definition service_list_from_state (state : CommittedState) (q : ServiceListQuery)
    : sres ServiceListPage :=
  let scope := lq_scope q in
  _ ← ensure (is_none_or (λ c, bool_decide (lc_scope c = scope) && (lc_revision c =? revision state))
                (lq_cursor q)) CursorScopeMismatch;
  let after := lc_last_key <$> lq_cursor q in
  let records := match bt_get (ls_tenant scope) (tenants state) with
                 | Some t => service_records t
                 | None => []
                 end in
  let matching := omap (λ kv, last kv.2)
    (List.filter (λ kv, oeqb kv.1.1 (ls_namespace scope) && is_some (last kv.2) &&
                        is_none_or (λ p, starts_with p kv.1.2) (ls_key_prefix scope) &&
                        is_none_or (λ a, oltb a kv.1.2) after) records) in
  let matching := take (Z.to_nat (saturating_add (lq_limit q) 1)) matching in
  _ ← for_each (λ r,
        h ← ok_or (bt_get (ls_namespace scope, loc_key (sr_locator r)) records) corrupt;
        validate_record_history (revision state) (ls_tenant scope) (ls_namespace scope)
          (loc_key (sr_locator r)) h) matching;
  let p := paginate (lq_limit q)
             (λ r, mk_list_cursor scope (revision state) (loc_key (sr_locator r))) matching in
  Ok (mk_list_page (revision state) p.1 p.2).

Definition effect_recovery_from_state (state : CommittedState) (q : EffectRecoveryQuery)
    : sres EffectRecoveryPage :=
  _ ← ensure (is_none_or (λ c, oeqb (ec_tenant c) (eq_tenant q) && (ec_revision c =? revision state))
                (eq_cursor q)) CursorScopeMismatch;
  let after := ec_last_effect_id <$> eq_cursor q in
  let tenant := bt_get (eq_tenant q) (tenants state) in
  let records := match tenant with Some t => effect_records t | None => [] end in
  let journals := match tenant with Some t => effects t | None => [] end in
  let matching := map (λ kv, mk_recovery_item kv.2 (l ← bt_get kv.1 journals; last l))
    (List.filter (λ kv, is_none_or (λ a, oltb a kv.1) after) records) in
  let matching := take (Z.to_nat (saturating_add (eq_limit q) 1)) matching in
  _ ← for_each (λ item,
        d ← exact_digest (env_bytes (ri_record item));
        ensure (oeqb d (env_record_digest (ri_record item)) &&
                bool_decide (bt_get (env_effect_id (ri_record item)) records = Some (ri_record item)))
          corrupt) matching;
  let p := paginate (eq_limit q)
             (λ item, mk_effect_cursor (eq_tenant q) (revision state) (env_effect_id (ri_record item)))
             matching in
  Ok (mk_effect_page (revision state) p.1 p.2).

Definition outbox_key (r : OutboxRecord) : Z * text := (causal_revision r, message_id (message r)).

Definition outbox_recovery_from_state (state : CommittedState) (q : OutboxRecoveryQuery)
    : sres OutboxRecoveryPage :=
  _ ← ensure (is_none_or (λ c, oeqb (oc_tenant c) (oq_tenant q) && (oc_revision c =? revision state))
                (oq_cursor q)) CursorScopeMismatch;
  let after := (λ c, (oc_last_causal_revision c, oc_last_message_id c)) <$> oq_cursor q in
  let records := match bt_get (oq_tenant q) (tenants state) with Some t => outbox t | None => [] end in
  let matching := List.filter (λ r, is_none_or (λ a, oltb a (outbox_key r)) after) records in
  _ ← for_each (λ r, map_err (λ _, corrupt) (message_validate (message r))) matching;
  let matching := sort_by (λ a b, oleb (outbox_key a) (outbox_key b)) matching in
  let matching := take (Z.to_nat (saturating_add (oq_limit q) 1)) matching in
  let p := paginate (oq_limit q)
             (λ r, mk_outbox_cursor (oq_tenant q) (revision state) (causal_revision r)
                     (message_id (message r))) matching in
  Ok (mk_outbox_page (revision state) p.1 p.2).

End service.
End Service.
