(* ===== verification/StoreFacts.v ===== *)
(** * Repository facts

    The derivation graph stays acyclic, and the cycle search decides
    reachability within its fuel; context commits and effect journals are
    linked chains; the atom indexes are exactly the maps they are derived from;
    a committed tenant state is only ever extended. *)

From S2P Require Import Prelude Collections Canon BrokerAuth Protocol Catalog Store.
From stdpp Require Import relations sorting.
From Stdlib Require Import Sorting.Sorted.
Import Protocol Catalog Store.
Local Open Scope Z_scope.

Module StoreFacts.

#[local] Existing Instance ord_eq_dec.

(** ** The derivation graph *)

Definition derives (es : btree text ContextEdge) (a b : text) : Prop := b ∈ derived_targets es a.

Definition acyclic (es : btree text ContextEdge) : Prop := ∀ a, ¬ tc (derives es) a a.

Lemma derives_spec es a b : derives es a b ↔
  ∃ id e, In (id, e) es ∧ edge_kind e = DerivedFrom ∧ from_version e = a ∧ to_version e = b.
Proof.
  unfold derives, derived_targets, bt_values. rewrite list_elem_of_In, in_map_iff.
  split.
  - intros (e & <- & He). apply filter_In in He as [He Hb]. bsplit.
    match goal with H : oeqb _ _ = true |- _ => apply oeqb_eq in H; subst end.
    apply in_map_iff in He as ([id e'] & <- & Hin). by exists id, e'.
  - intros (id & e & Hin & Hk & <- & <-). exists e. split; [done|]. apply filter_In. split.
    + apply in_map_iff. by exists (id, e).
    + rewrite bool_decide_eq_true_2 by done. apply oeqb_refl.
Qed.

Lemma elem_of_rev {A} (x : A) l : x ∈ rev l ↔ x ∈ l.
Proof. rewrite !list_elem_of_In. symmetry. apply in_rev. Qed.

(** Derivation edges whose source has not been visited. *)
Definition unvisited (visited : list text) (e : ContextEdge) : bool :=
  bool_decide (edge_kind e = DerivedFrom) && negb (existsb (oeqb (from_version e)) visited).

Lemma unvisited_split (l : list ContextEdge) current visited :
  existsb (oeqb current) visited = false →
  (length (List.filter (λ e, bool_decide (edge_kind e = DerivedFrom) && oeqb (from_version e) current) l) +
   length (List.filter (unvisited (current :: visited)) l) = length (List.filter (unvisited visited) l))%nat.
Proof.
  intros Hv. induction l as [|e l IH]; simpl; [done|].
  assert (unvisited (current :: visited) e =
          bool_decide (edge_kind e = DerivedFrom) &&
          negb (oeqb (from_version e) current || existsb (oeqb (from_version e)) visited)) as -> by done.
  assert (unvisited visited e = bool_decide (edge_kind e = DerivedFrom) &&
          negb (existsb (oeqb (from_version e)) visited)) as -> by done.
  destruct (bool_decide (edge_kind e = DerivedFrom)); simpl; [|done].
  destruct (oeqb (from_version e) current) eqn:E; simpl.
  - apply oeqb_eq in E as ->. rewrite Hv; simpl. lia.
  - destruct (existsb (oeqb (from_version e)) visited); simpl; lia.
Qed.

(** The fuel of the search suffices: the stack plus the edges still to be
    pushed decreases at every turn. *)
Lemma cycle_loop_fuel es target fuel : ∀ pending visited,
  (length pending + length (List.filter (unvisited visited) (bt_values es)) < fuel)%nat →
  cycle_loop fuel es target pending visited ≠ None.
Proof.
  induction fuel as [|fuel IH]; intros pending visited Hf; [lia|].
  destruct pending as [|current pending]; cbn [cycle_loop]; [done|]. simpl length in Hf.
  destruct (oeqb current target); [done|].
  destruct (existsb (oeqb current) visited) eqn:Hv; [apply IH; lia|].
  cbv zeta. destruct (MAX_DERIVATION_VISITED <? _); [done|]. apply IH.
  pose proof (unvisited_split (bt_values es) current visited Hv).
  rewrite length_app, length_rev. unfold derived_targets. rewrite length_map. lia.
Qed.

Lemma cycle_loop_true es target fuel : ∀ pending visited,
  cycle_loop fuel es target pending visited = Some (Ok true) →
  ∃ p, p ∈ pending ∧ rtc (derives es) p target.
Proof.
  induction fuel as [|fuel IH]; intros [|current pending] visited; cbn [cycle_loop]; try done.
  destruct (oeqb current target) eqn:E.
  { apply oeqb_eq in E as ->. intros _. exists target. split; [left|constructor]. }
  destruct (existsb (oeqb current) visited).
  { intros (p & Hp & Hr)%IH. exists p. split; [by right|done]. }
  cbv zeta. destruct (MAX_DERIVATION_VISITED <? _); [done|].
  intros (p & Hp & Hr)%IH. apply elem_of_app in Hp as [Hp|Hp].
  - exists current. split; [left|]. econstructor; [|exact Hr]. unfold derives. by rewrite <- elem_of_rev.
  - exists p. split; [by right|done].
Qed.

Lemma existsb_oeqb_elem (x : text) l : existsb (oeqb x) l = true ↔ x ∈ l.
Proof.
  rewrite existsb_exists, list_elem_of_In. split.
  - by intros (y & Hy & ->%oeqb_eq).
  - intros Hin. exists x. split; [done|apply oeqb_refl].
Qed.

(** A search that ends without a hit has computed a set closed under
    derivation that does not contain the target. *)
Lemma cycle_loop_false es target fuel : ∀ pending visited,
  cycle_loop fuel es target pending visited = Some (Ok false) →
  target ∉ visited →
  (∀ v w, v ∈ visited → derives es v w → w ∈ visited ∨ w ∈ pending) →
  ∃ V : list text, (target ∉ V) ∧ visited ⊆ V ∧ pending ⊆ V ∧
    (∀ v w, v ∈ V → derives es v w → w ∈ V).
Proof.
  induction fuel as [|fuel IH]; intros [|current pending] visited; cbn [cycle_loop]; try done.
  { intros _ Ht Hcl. exists visited. split; [done|]. split; [done|]. split; [apply list_subseteq_nil|].
    intros v w Hv Hd. destruct (Hcl v w Hv Hd) as [|Hn]; [done|]. by apply elem_of_nil in Hn. }
  destruct (oeqb current target) eqn:E; [done|].
  assert (current ≠ target) as Hne by (intros ->; by rewrite oeqb_refl in E).
  destruct (existsb (oeqb current) visited) eqn:Hv.
  { apply existsb_oeqb_elem in Hv. intros Hl Ht Hcl.
    destruct (IH pending visited Hl Ht) as (V & HtV & HvV & HpV & HV).
    { intros v w Hvv Hd. destruct (Hcl v w Hvv Hd) as [|Hp]; [by left|].
      apply elem_of_cons in Hp as [->|]; [by left|by right]. }
    exists V. split; [done|]. split; [done|]. split; [|done].
    intros x [->|Hx]%elem_of_cons; auto. }
  cbv zeta. destruct (MAX_DERIVATION_VISITED <? _); [done|]. intros Hl Ht Hcl.
  destruct (IH _ _ Hl) as (V & HtV & HvV & HpV & HV).
  { rewrite not_elem_of_cons. split; [by apply not_eq_sym|done]. }
  { intros v w [->|Hvv]%elem_of_cons Hd.
    - right. apply elem_of_app. left. by apply elem_of_rev.
    - destruct (Hcl v w Hvv Hd) as [|Hp]; [left; by right|].
      apply elem_of_cons in Hp as [->|]; [left; left|right; apply elem_of_app; by right]. }
  exists V. split; [done|]. split; [intros x Hx; apply HvV; by right|]. split; [|done].
  intros x [->|Hx]%elem_of_cons; [apply HvV; left|]. apply HpV, elem_of_app. by right.
Qed.

Lemma closed_rtc {A} (R : relation A) (V : list A) x y :
  (∀ v w, v ∈ V → R v w → w ∈ V) → rtc R x y → x ∈ V → y ∈ V.
Proof. intros Hcl. induction 1 as [|x y z Hxy _ IH]; intros Hx; [done|]. by eapply IH, Hcl. Qed.

(** The cycle check decides whether the candidate's source is reachable from its
    target; it never runs out of fuel. *)
Lemma creates_derivation_cycle_spec es c b :
  edge_kind c = DerivedFrom → creates_derivation_cycle es c = Ok b →
  b = true ↔ rtc (derives es) (to_version c) (from_version c).
Proof.
  intros Hk. unfold creates_derivation_cycle. rewrite decide_False by (intros Hn; by apply Hn).
  pose proof (cycle_loop_fuel es (from_version c) (S (S (length es))) [to_version c] []) as Hfuel.
  assert (length (List.filter (unvisited []) (bt_values es)) ≤ length es)%nat as Hle.
  { etransitivity; [apply filter_length_le|]. unfold bt_values. by rewrite length_map. }
  destruct (cycle_loop _ es _ _ _) as [r|] eqn:El; [|exfalso; apply Hfuel; [simpl; lia|done]].
  simpl. intros ->. destruct b; split; try done.
  - intros _. apply cycle_loop_true in El as (p & Hp & Hr). by apply list_elem_of_singleton in Hp as ->.
  - intros Hr. exfalso. apply cycle_loop_false in El as (V & HtV & _ & HpV & HV).
    + apply HtV. eapply closed_rtc; [exact HV|exact Hr|]. apply HpV. left.
    + apply not_elem_of_nil.
    + intros v w Hv. by apply elem_of_nil in Hv.
Qed.

(** Adding an edge from [f] to [t] when [f] is not reachable from [t]. *)
Lemma tc_add_edge {A} (R R' : relation A) f t a b :
  (∀ x y, R' x y → R x y ∨ (x = f ∧ y = t)) →
  tc R' a b → tc R a b ∨ (rtc R a f ∧ rtc R t b).
Proof.
  intros HR. induction 1 as [x y Hxy|x y z Hxy Hyz IH].
  - destruct (HR _ _ Hxy) as [|[-> ->]]; [left; by constructor|right; split; constructor].
  - destruct (HR _ _ Hxy) as [Hx|[-> ->]].
    + destruct IH as [IH|[Hyf Htz]].
      * left. by eapply tc_l.
      * right. split; [by eapply rtc_l|done].
    + right. split; [constructor|]. destruct IH as [IH|[Hyf Htz]]; [by apply tc_rtc|].
      by etransitivity.
Qed.

Lemma acyclic_insert es e :
  acyclic es → bt_get (edge_id e) es = None → creates_derivation_cycle es e = Ok false →
  acyclic (bt_insert (edge_id e) e es).
Proof.
  intros Ha Hfresh Hc a Htc.
  assert (∀ x y, derives (bt_insert (edge_id e) e es) x y →
    derives es x y ∨ (edge_kind e = DerivedFrom ∧ x = from_version e ∧ y = to_version e)) as Hd.
  { intros x y (id & e' & Hin & Hk & Hf & Ht)%derives_spec.
    rewrite (bt_insert_fresh_perm _ _ _ Hfresh) in Hin.
    destruct Hin as [[= <- <-]|Hin]; [right; by subst|]. left. apply derives_spec. by exists id, e'. }
  destruct (decide (edge_kind e = DerivedFrom)) as [Hk|Hk].
  - destruct (tc_add_edge (derives es) (derives (bt_insert (edge_id e) e es))
                (from_version e) (to_version e) a a) as [Hold|[Haf Hta]]; [|exact Htc| |].
    + intros x y Hxy. destruct (Hd x y Hxy); [by left|right; tauto].
    + by apply (Ha a).
    + pose proof (creates_derivation_cycle_spec es e false Hk Hc) as [_ Hr].
      discriminate Hr. by etransitivity.
  - apply (Ha a). eapply tc_congruence with (f := id); [|exact Htc].
    intros x y Hxy. destruct (Hd _ _ Hxy) as [|(? & _)]; [done|contradiction].
Qed.

(** ** Linked chains *)

(** Every element is linked to its predecessor and its position. *)
Definition chained {A} (P : nat → option A → A → Prop) (l : list A) : Prop :=
  ∀ i x, l !! i = Some x → P i (match i with O => None | S j => l !! j end) x.

Lemma chained_nil {A} (P : nat → option A → A → Prop) : chained P [].
Proof. intros i x. by rewrite lookup_nil. Qed.

Lemma chained_snoc {A} (P : nat → option A → A → Prop) l x :
  chained P l → P (length l) (last l) x → chained P (l ++ [x]).
Proof.
  intros Hc Hx i y Hi. destruct (decide (i < length l)%nat) as [Hlt|Hge].
  - rewrite lookup_app_l in Hi by done. specialize (Hc i y Hi). destruct i as [|i]; [done|].
    rewrite lookup_app_l by lia. done.
  - rewrite lookup_app_r in Hi by lia. destruct (i - length l)%nat eqn:Ei; [|done].
    injection Hi as <-. assert (i = length l) as -> by lia. rewrite last_lookup in Hx.
    destruct (length l) as [|n] eqn:En.
    + by apply length_zero_iff_nil in En as ->.
    + by rewrite lookup_app_l by lia.
Qed.

(** ** The catalog of one tenant *)

(** The order by which a lineage's current version is chosen. *)
Definition age (a : ContextAtomV1) : Z * text := (observed_at (temporal a), version_id a).

(** [v] is the newest version of lineage [l]. *)
Definition newest (m : btree text ContextAtomV1) (l v : text) : Prop :=
  ∃ a, bt_get v m = Some a ∧ lineage_id a = l ∧
       ∀ v' a', bt_get v' m = Some a' → lineage_id a' = l → oleb (age a') (age a) = true.

Record catalog_wf (tenant : text) (m : btree text ContextAtomV1) (by_id current : btree text text)
    (es : btree text ContextEdge) : Prop := {
  cw_atoms : bt_wf m;
  cw_ids : bt_wf by_id;
  cw_current : bt_wf current;
  cw_edges : bt_wf es;
  cw_atom v a : bt_get v m = Some a →
    version_id a = v ∧ atom_validate a = Ok tt ∧ sc_tenant_id (scope a) = tenant;
  cw_index id v : bt_get id by_id = Some v ↔ ∃ a, bt_get v m = Some a ∧ atom_id a = id;
  cw_newest l v : bt_get l current = Some v → newest m l v;
  cw_lineage v a : bt_get v m = Some a → is_Some (bt_get (lineage_id a) current);
  cw_edge id e : bt_get id es = Some e →
    edge_id e = id ∧ edge_validate e = Ok tt ∧
    is_Some (bt_get (from_version e) m) ∧ is_Some (bt_get (to_version e) m);
  cw_acyclic : acyclic es }.

Lemma insert_immutable_ok {V} `{EqDecision V} (m m' : btree text V) k v :
  bt_wf m → insert_immutable m k v = Ok m' →
  bt_wf m' ∧ (∀ j, bt_get j m' = if oeqb j k then Some v else bt_get j m) ∧
  (∀ j w, bt_get j m = Some w → bt_get j m' = Some w) ∧
  ((bt_get k m = Some v ∧ m' = m) ∨ (bt_get k m = None ∧ m' = bt_insert k v m)).
Proof.
  intros Hwf. unfold insert_immutable. destruct (bt_get k m) as [w|] eqn:E.
  - destruct (decide (w = v)) as [->|]; [|done]. intros [= <-]. split; [done|].
    split; [|auto]. intros j. destruct (oeqb j k) eqn:Ej; [|done]. apply oeqb_eq in Ej as ->. done.
  - intros [= <-]. split; [by apply bt_wf_insert|]. split; [intros j; apply bt_get_insert|].
    split; [|by right]. intros j w Hj. rewrite bt_get_insert. destruct (oeqb j k) eqn:Ej; [|done].
    apply oeqb_eq in Ej as ->. congruence.
Qed.

Lemma age_inj m v v' a a' tenant by_id current es :
  catalog_wf tenant m by_id current es → bt_get v m = Some a → bt_get v' m = Some a' →
  age a = age a' → v = v'.
Proof.
  intros Hwf Hv Hv' He. destruct (cw_atom _ _ _ _ _ Hwf _ _ Hv) as [<- _].
  destruct (cw_atom _ _ _ _ _ Hwf _ _ Hv') as [<- _]. by injection He.
Qed.

(** The lineage index after one more atom: [m'] is [m] with [a] added. *)
Section add_atom.
Context (tenant : text) (m : btree text ContextAtomV1) (by_id current : btree text text)
  (es : btree text ContextEdge) (m' : btree text ContextAtomV1) (a : ContextAtomV1).
Context (Hwf : catalog_wf tenant m by_id current es).
Context (Hm' : ∀ j, bt_get j m' = if oeqb j (version_id a) then Some a else bt_get j m).
Context (Hsame : ∀ w, bt_get (version_id a) m = Some w → w = a).

Lemma add_atom_inv v b : bt_get v m' = Some b → b = a ∨ bt_get v m = Some b.
Proof. rewrite Hm'. destruct (oeqb v (version_id a)); [intros [= ->]; by left|by right]. Qed.

Lemma add_atom_new : bt_get (version_id a) m' = Some a.
Proof. by rewrite Hm', oeqb_refl. Qed.

Lemma add_atom_mono v b : bt_get v m = Some b → bt_get v m' = Some b.
Proof.
  intros Hb. rewrite Hm'. destruct (oeqb v (version_id a)) eqn:E; [|done].
  apply oeqb_eq in E as ->. f_equal. symmetry. by apply Hsame.
Qed.

Lemma newest_keep l v :
  bt_get l current = Some v →
  (l = lineage_id a → ∀ b, bt_get v m = Some b → oleb (age a) (age b) = true) → newest m' l v.
Proof.
  intros Hv Ha. destruct (cw_newest _ _ _ _ _ Hwf _ _ Hv) as (d & Hd & Hld & Hdm).
  exists d. split; [by apply add_atom_mono|]. split; [done|]. intros v' a' Hv' Hl'.
  destruct (add_atom_inv _ _ Hv') as [->|Hv'']; [|by eapply Hdm]. by apply Ha.
Qed.

Lemma newest_new :
  (∀ v b, bt_get v m = Some b → lineage_id b = lineage_id a → oleb (age b) (age a) = true) →
  newest m' (lineage_id a) (version_id a).
Proof.
  intros Hmax. exists a. split; [apply add_atom_new|]. split; [done|]. intros v b Hb Hl.
  destruct (add_atom_inv _ _ Hb) as [->|Hb']; [apply oleb_true; by right|by eapply Hmax].
Qed.

Definition lineage_index_ok (c : btree text text) : Prop :=
  bt_wf c ∧ (∀ l v, bt_get l c = Some v → newest m' l v) ∧
  (∀ v b, bt_get v m' = Some b → is_Some (bt_get (lineage_id b) c)).

Lemma lineage_index_keep :
  (∀ b v, bt_get (lineage_id a) current = Some v → bt_get v m = Some b → oleb (age a) (age b) = true) →
  is_Some (bt_get (lineage_id a) current) → lineage_index_ok current.
Proof.
  intros Hle Hs. split; [apply Hwf|]. split.
  - intros l v Hv. apply newest_keep; [done|]. intros -> b. by apply Hle.
  - intros v b Hb. destruct (add_atom_inv _ _ Hb) as [->|Hb']; [done|].
    by eapply (cw_lineage _ _ _ _ _ Hwf).
Qed.

Lemma lineage_index_replace :
  (∀ v b, bt_get v m = Some b → lineage_id b = lineage_id a → oleb (age b) (age a) = true) →
  lineage_index_ok (bt_insert (lineage_id a) (version_id a) current).
Proof.
  intros Hmax. split; [apply bt_wf_insert, Hwf|]. split.
  - intros l v. rewrite bt_get_insert. destruct (oeqb l (lineage_id a)) eqn:El.
    + apply oeqb_eq in El as ->. intros [= <-]. by apply newest_new.
    + intros Hv. apply newest_keep; [done|]. intros ->. by rewrite oeqb_refl in El.
  - intros v b Hb. rewrite bt_get_insert.
    destruct (oeqb (lineage_id b) (lineage_id a)) eqn:El; [by eexists|].
    destruct (add_atom_inv _ _ Hb) as [->|Hb']; [by rewrite oeqb_refl in El|].
    by eapply (cw_lineage _ _ _ _ _ Hwf).
Qed.

Lemma update_current_lineage_ok current' :
  update_current_lineage m' current a = Ok current' → lineage_index_ok current'.
Proof.
  unfold update_current_lineage. intros Hu. inv_ok Hu.
  destruct (bt_get (lineage_id a) current) as [v0|] eqn:Ecur.
  - destruct (cw_newest _ _ _ _ _ Hwf _ _ Ecur) as (b & Hb & Hlb & Hmax).
    rewrite (add_atom_mono _ _ Hb) in Hok. simpl in Hok. injection Hok as <-. injection Hu as <-.
    fold (age b) (age a). destruct (oltb (age b) (age a)) eqn:Elt.
    + apply lineage_index_replace. intros v d Hd Hl. apply oltb_lt in Elt.
      apply (oleb_trans _ (age b)); [by eapply Hmax|]. apply oleb_true. by left.
    + apply lineage_index_keep; [|by rewrite Ecur]. intros d v Hv Hd.
      assert (d = b) as -> by congruence.
      destruct (oleb (age a) (age b)) eqn:Ele; [done|]. apply oleb_olt, oltb_lt in Ele. congruence.
  - injection Hok as <-. injection Hu as <-. apply lineage_index_replace. intros v b Hb Hl.
    destruct (cw_lineage _ _ _ _ _ Hwf _ _ Hb) as [x Hx]. congruence.
Qed.

(** The whole catalog with [a] added under an unused or equal identity. *)
Lemma catalog_add_atom current' :
  bt_wf m' → atom_validate a = Ok tt → sc_tenant_id (scope a) = tenant →
  is_none_or (λ v, oeqb v (version_id a)) (bt_get (atom_id a) by_id) = true →
  update_current_lineage m' current a = Ok current' →
  catalog_wf tenant m' (bt_insert (atom_id a) (version_id a) by_id) current' es.
Proof.
  intros Hwf' Hv Hs Hid (Hcwf & Hnew & Hlin)%update_current_lineage_ok.
  split; try done; try apply Hwf.
  - apply bt_wf_insert, Hwf.
  - intros v b Hb. rewrite Hm' in Hb. destruct (oeqb v (version_id a)) eqn:E.
    + injection Hb as <-. apply oeqb_eq in E as ->. done.
    + by apply (cw_atom _ _ _ _ _ Hwf).
  - intros id v. rewrite bt_get_insert. destruct (oeqb id (atom_id a)) eqn:E.
    + apply oeqb_eq in E as ->. split.
      * intros [= <-]. exists a. split; [apply add_atom_new|done].
      * intros (b & Hb & Hbid). destruct (oeqb v (version_id a)) eqn:Ev; [by apply oeqb_eq in Ev as ->|].
        rewrite Hm', Ev in Hb. assert (bt_get (atom_id a) by_id = Some v) as Hg.
        { apply (cw_index _ _ _ _ _ Hwf). by exists b. }
        rewrite Hg in Hid; simpl in Hid. congruence.
    + rewrite (cw_index _ _ _ _ _ Hwf). split; intros (b & Hb & Hbid); exists b.
      * split; [by apply add_atom_mono|done].
      * destruct (add_atom_inv _ _ Hb) as [->|?]; [|done]. subst id. by rewrite oeqb_refl in E.
  - intros id e He. destruct (cw_edge _ _ _ _ _ Hwf _ _ He) as (? & ? & [x Hx] & [y Hy]).
    apply add_atom_mono in Hx, Hy. eauto.
Qed.

End add_atom.

(** ** Committed tenant states *)

Definition bt_sub {K V} `{TotalOrd K} (m m' : btree K V) : Prop :=
  ∀ k v, bt_get k m = Some v → bt_get k m' = Some v.
Definition bt_prefix {K A} `{TotalOrd K} (m m' : btree K (list A)) : Prop :=
  ∀ k l, bt_get k m = Some l → ∃ l', bt_get k m' = Some (l ++ l').

#[export] Instance bt_sub_preorder {K V} `{TotalOrd K} : PreOrder (bt_sub (K := K) (V := V)).
Proof. split; [by intros m k v|]. intros a b c Hab Hbc k v Hv. by apply Hbc, Hab. Qed.

#[export] Instance bt_prefix_preorder {K A} `{TotalOrd K} : PreOrder (bt_prefix (K := K) (A := A)).
Proof.
  split.
  - intros m k l Hl. exists []. by rewrite app_nil_r.
  - intros a b c Hab Hbc k l Hl. destruct (Hab _ _ Hl) as [l1 H1]. destruct (Hbc _ _ H1) as [l2 H2].
    exists (l1 ++ l2). by rewrite app_assoc.
Qed.

(** Appending to the list at one key. *)
Lemma bt_prefix_append {K A} `{TotalOrd K} (m : btree K (list A)) k l :
  bt_prefix m (bt_insert k (default [] (bt_get k m) ++ l) m).
Proof.
  intros j w Hj. rewrite bt_get_insert. destruct (oeqb j k) eqn:E.
  - apply oeqb_eq in E as ->. rewrite Hj. by exists l.
  - exists []. by rewrite app_nil_r.
Qed.

Lemma bt_sub_insert {K V} `{TotalOrd K} (m : btree K V) k v :
  bt_get k m = None → bt_sub m (bt_insert k v m).
Proof.
  intros Hn j w Hj. rewrite bt_get_insert. destruct (oeqb j k) eqn:E; [|done].
  apply oeqb_eq in E as ->. congruence.
Qed.

(** What a committed tenant state keeps for ever: immutable records are never
    replaced or removed, histories only grow at their end, and versions and
    fencing tokens never go back. *)
Record tenant_extends (t t' : TenantState) : Prop := {
  te_atoms : bt_sub (atoms t) (atoms t');
  te_ids : bt_sub (atom_versions_by_id t) (atom_versions_by_id t');
  te_edges : bt_sub (edges t) (edges t');
  te_bundles : bt_sub (bundles t) (bundles t');
  te_snapshots : bt_sub (snapshots t) (snapshots t');
  te_blobs : bt_sub (blobs t) (blobs t');
  te_idempotency : bt_sub (idempotency t) (idempotency t');
  te_service_idempotency : bt_sub (service_idempotency t) (service_idempotency t');
  te_commits : bt_prefix (context_commits t) (context_commits t');
  te_effects : bt_prefix (effects t) (effects t');
  te_service_records : bt_prefix (service_records t) (service_records t');
  te_outbox : outbox t `prefix_of` outbox t';
  te_records k r : bt_get k (effect_records t) = Some r →
    ∃ r', bt_get k (effect_records t') = Some r' ∧
          (r' = r ∨ env_effect_version r < env_effect_version r');
  te_workers k w : bt_get k (worker_states t) = Some w →
    ∃ w', bt_get k (worker_states t') = Some w' ∧
          (w' = w ∨ ws_version w < ws_version w') ∧ ws_fencing_token w ≤ ws_fencing_token w' }.

#[export] Instance tenant_extends_preorder : PreOrder tenant_extends.
Proof.
  split.
  - intros t. split; try done; eauto.
    intros k w Hw. exists w. split; [done|]. split; [by left|lia].
  - intros a b c [] []. split; try (etransitivity; eassumption).
    + intros k r Hr. destruct (te_records0 _ _ Hr) as (r1 & H1 & Hle1).
      destruct (te_records1 _ _ H1) as (r2 & H2 & Hle2). exists r2. split; [done|].
      destruct Hle1 as [->|], Hle2 as [->|]; auto with lia.
    + intros k w Hw. destruct (te_workers0 _ _ Hw) as (w1 & H1 & Hle1 & ?).
      destruct (te_workers1 _ _ H1) as (w2 & H2 & Hle2 & ?). exists w2. split; [done|].
      split; [|lia]. destruct Hle1 as [->|], Hle2 as [->|]; auto with lia.
Qed.

Definition commit_link (space : text) (i : nat) (prev : option ContextCommit) (c : ContextCommit) : Prop :=
  space_id c = space ∧ sequence c = Z.of_nat i + 1 ∧ parent_commit_id c = commit_id <$> prev ∧
  commit_validate c = Ok tt.

Definition journal_link (effect : text) (i : nat) (prev : option EffectJournalEvent)
    (e : EffectJournalEvent) : Prop :=
  je_effect_id e = effect ∧ je_sequence e = Z.of_nat i + 1 ∧
  je_expected_effect_version e = Z.of_nat i ∧
  je_previous_event_digest e = je_event_digest <$> prev ∧
  (∀ p, prev = Some p → je_to_state p = je_from_state e) ∧
  can_transition_to (je_from_state e) (je_to_state e) = true.

Definition outbox_id (r : OutboxRecord) : text := message_id (message r).

(** A step that leaves most of the tenant state alone. *)
Ltac extends :=
  split; simpl; try done; eauto;
  try (lazymatch goal with
       | |- ∀ k w, bt_get k (worker_states _) = _ → _ =>
           let k := fresh in let w := fresh in let H := fresh in
           solve [intros k w H; exists w; auto with lia]
       end).

Section tenant_wf.
Context (sha256 : list Z → list Z).

Definition envelope_ok (r : EffectRecordEnvelope) : Prop :=
  0 ≤ env_effect_version r ∧ 0 < len (env_bytes r) ≤ MAX_EFFECT_RECORD_BYTES ∧
  env_record_digest r = sha256_multihash sha256 (env_bytes r).

Definition blob_ok (b : BlobState) : Prop :=
  ∃ bytes, bs_bytes b = Some bytes ∧ digest (bs_reference b) = sha256_multihash sha256 bytes ∧
           len bytes = size_bytes (bs_reference b) ∧ len bytes ≤ MAX_BLOB_BYTES.

Record tenant_wf (tenant : text) (rev : Z) (t : TenantState) : Prop := {
  tw_catalog : catalog_wf tenant (atoms t) (atom_versions_by_id t) (current_versions_by_lineage t) (edges t);
  tw_bundles : bt_wf (bundles t);
  tw_bundle k b : bt_get k (bundles t) = Some b → bundle_id b = k ∧ bundle_validate b = Ok tt;
  tw_snapshots : bt_wf (snapshots t);
  tw_snapshot k s : bt_get k (snapshots t) = Some s → snapshot_id s = k ∧ snapshot_validate s = Ok tt;
  tw_commits : bt_wf (context_commits t);
  tw_commit k l : bt_get k (context_commits t) = Some l → l ≠ [] ∧ chained (commit_link k) l;
  tw_effects : bt_wf (effects t);
  tw_effect k l : bt_get k (effects t) = Some l → l ≠ [] ∧ chained (journal_link k) l;
  tw_records : bt_wf (effect_records t);
  tw_record k r : bt_get k (effect_records t) = Some r → env_effect_id r = k ∧ envelope_ok r;
  tw_blobs : bt_wf (blobs t);
  tw_blob k b : bt_get k (blobs t) = Some b → digest (bs_reference b) = k ∧ blob_ok b;
  tw_outbox_ids : NoDup (map outbox_id (outbox t));
  tw_outbox_order : StronglySorted Z.le (map causal_revision (outbox t));
  tw_outbox : Forall (λ r, message_validate (message r) = Ok tt ∧ 0 < causal_revision r ≤ rev) (outbox t);
  tw_idempotency : bt_wf (idempotency t);
  tw_receipt k d r : bt_get k (idempotency t) = Some (d, r) →
    replayed r = false ∧ 0 < receipt_revision r ≤ rev }.

Lemma acyclic_nil : acyclic [].
Proof. intros a Ha. inversion_clear Ha as [? ? H|? ? ? H _]; by apply elem_of_nil in H. Qed.

Lemma catalog_wf_empty tenant : catalog_wf tenant [] [] [] [].
Proof.
  split; first [apply bt_wf_nil|apply acyclic_nil|done|idtac].
  intros id v. split; [done|]. by intros (a & Ha & _).
Qed.

Lemma tenant_wf_empty tenant rev : tenant_wf tenant rev empty_tenant.
Proof. split; simpl. all: try done. 1: apply catalog_wf_empty. all: constructor. Qed.

(** Later revisions keep the bounds. *)
Lemma tenant_wf_mono tenant rev rev' t : rev ≤ rev' → tenant_wf tenant rev t → tenant_wf tenant rev' t.
Proof.
  intros Hle []. split; try done.
  - eapply Forall_impl; [done|]. simpl. intros r [? ?]. split; [done|lia].
  - intros k d r Hr. destruct (tw_receipt0 _ _ _ Hr). split; [done|lia].
Qed.

(** What the staging operations check of a mutation before it is staged. *)
Definition mutation_ok (tenant purp : text) (m : StagedMutation) : Prop :=
  match m with
  | MSnapshot s => snapshot_validate s = Ok tt
  | MAtoms l es =>
      Forall (λ a, atom_validate a = Ok tt ∧ sc_tenant_id (scope a) = tenant) l ∧
      Forall (λ e, edge_validate e = Ok tt) es
  | MBundle b => bundle_validate b = Ok tt
  | MContextCommit c => commit_validate c = Ok tt ∧ purpose c = purp
  | MEffectEvent e => event_validate e = Ok tt
  | MEffectRecord r => envelope_ok r
  | MBlob b => blob_ok (blob_state_in_memory b)
  | MOutbox m => message_validate m = Ok tt
  end.

Lemma apply_all_ok {X} (P : TenantState → Prop) (Q : X → Prop) (apply : TenantState → X → res TenantState) :
  (∀ t x t', P t → Q x → apply t x = Ok t' → P t' ∧ tenant_extends t t') →
  ∀ l t t', P t → Forall Q l → apply_all apply t l = Ok t' → P t' ∧ tenant_extends t t'.
Proof.
  intros Hstep. induction l as [|x l IH]; intros t t' HP HQ; simpl.
  - intros [= <-]. by split.
  - intros H. inv_ok H. inversion_clear HQ as [|? ? Hx Hl].
    destruct (Hstep _ _ _ HP Hx Hok) as [HP' He]. destruct (IH _ _ HP' Hl H) as [? ?].
    split; [done|]. by transitivity a.
Qed.

Lemma apply_atom_ok tenant rev t a t' :
  tenant_wf tenant rev t → atom_validate a = Ok tt ∧ sc_tenant_id (scope a) = tenant →
  apply_atom t a = Ok t' → tenant_wf tenant rev t' ∧ tenant_extends t t'.
Proof.
  intros Hwf [Hv Hs] H. unfold apply_atom in H. inv_ok H. inv_ok H. inv_ok H.
  destruct (insert_immutable_ok _ _ _ _ (cw_atoms _ _ _ _ _ (tw_catalog _ _ _ Hwf)) Hok0)
    as (Hm'wf & Hm' & Hsub & Hcase).
  assert (∀ w, bt_get (version_id a) (atoms t) = Some w → w = a) as Hsame.
  { intros w Hw. destruct Hcase as [[He _]|[Hn _]]; congruence. }
  rewrite (add_atom_new _ _ _ Hm') in Hok1. injection Hok1 as <-. inv_ok H. injection H as <-.
  assert (is_none_or (λ v, oeqb v (version_id a)) (bt_get (atom_id a) (atom_versions_by_id t)) = true) as Hid.
  { destruct (bt_get _ _) as [v|]; simpl in *; [|done]. by rewrite negb_involutive in Hok. }
  split.
  - pose proof (catalog_add_atom _ _ _ _ _ _ _ (tw_catalog _ _ _ Hwf) Hm' Hsame _ Hm'wf Hv Hs Hid Hok1).
    destruct Hwf. by split.
  - extends. intros k v Hk. rewrite bt_get_insert. destruct (oeqb k (atom_id a)) eqn:E; [|done].
    apply oeqb_eq in E as ->. rewrite Hk in Hid; simpl in Hid. by apply oeqb_eq in Hid as ->.
Qed.

Lemma apply_edge_ok tenant rev t e t' :
  tenant_wf tenant rev t → edge_validate e = Ok tt →
  apply_edge t e = Ok t' → tenant_wf tenant rev t' ∧ tenant_extends t t'.
Proof.
  intros Hwf Hv H. unfold apply_edge in H. inv_ok H. inv_ok H. inv_ok H. injection H as <-.
  bsplit. subst. case_in Hok; [done|]. bsplit.
  repeat match goal with H : bt_mem _ _ = true |- _ => apply bt_mem_true in H as [? ?] end.
  pose proof (tw_catalog _ _ _ Hwf) as Hc.
  destruct (insert_immutable_ok _ _ _ _ (cw_edges _ _ _ _ _ Hc) Hok1) as (Hewf & He & Hsub & Hcase).
  split.
  - assert (catalog_wf tenant (atoms t) (atom_versions_by_id t) (current_versions_by_lineage t) a0).
    { destruct Hc. split; try done.
      - intros id e'. rewrite He. destruct (oeqb id (edge_id e)) eqn:E; [|by auto].
        apply oeqb_eq in E as ->. intros [= <-]. eauto.
      - destruct Hcase as [[_ ->]|[Hn ->]]; [done|]. by apply acyclic_insert. }
    destruct Hwf. by split.
  - extends.
Qed.

Lemma opt_eqb_eq a b : opt_eqb a b = true ↔ a = b.
Proof.
  destruct a as [x|], b as [y|]; simpl; try (split; congruence).
  rewrite oeqb_eq. split; congruence.
Qed.

(** Appending one linked element to the list at a key. *)
Lemma chained_append {A} (P : text → nat → option A → A → Prop) (m : btree text (list A)) k x :
  (∀ j l, bt_get j m = Some l → l ≠ [] ∧ chained (P j) l) →
  P k (length (default [] (bt_get k m))) (last (default [] (bt_get k m))) x →
  ∀ j l, bt_get j (bt_insert k (default [] (bt_get k m) ++ [x]) m) = Some l → l ≠ [] ∧ chained (P j) l.
Proof.
  intros Hm Hx j l. rewrite bt_get_insert. destruct (oeqb j k) eqn:E; [|by apply Hm].
  apply oeqb_eq in E as ->. intros [= <-]. split; [by destruct (default _ _)|].
  apply chained_snoc; [|done]. destruct (bt_get k m) as [l|] eqn:Ek; simpl; [by apply (Hm k)|apply chained_nil].
Qed.

Lemma apply_context_commit_ok tenant rev t c t' :
  tenant_wf tenant rev t → commit_validate c = Ok tt →
  apply_context_commit t c = Ok t' → tenant_wf tenant rev t' ∧ tenant_extends t t'.
Proof.
  intros Hwf Hv H. unfold apply_context_commit in H. inv_ok H. inv_ok H. inv_ok Hok. injection H as <-.
  injection Hok as <-. apply checked_add_Some in Eo as [-> _]. bsplit. rewrite opt_eqb_eq in *.
  split; [|extends; apply bt_prefix_append].
  destruct Hwf. split; simpl; try done; [by apply bt_wf_insert|].
  apply (chained_append commit_link); [done|]. by unfold commit_link.
Qed.

Lemma event_validate_transition e :
  event_validate e = Ok tt → can_transition_to (je_from_state e) (je_to_state e) = true.
Proof. unfold event_validate. intros Hv. validator Hv. done. Qed.

Lemma apply_effect_event_ok tenant rev t e t' :
  tenant_wf tenant rev t → event_validate e = Ok tt →
  apply_effect_event t e = Ok t' → tenant_wf tenant rev t' ∧ tenant_extends t t'.
Proof.
  intros Hwf Hv H. unfold apply_effect_event in H. inv_ok H. inv_ok H. inv_ok Hok. injection H as <-.
  injection Hok as <-. apply checked_add_Some in Eo as [-> _]. bsplit. rewrite opt_eqb_eq in *.
  split; [|extends; apply bt_prefix_append].
  destruct Hwf. split; simpl; try done; [by apply bt_wf_insert|].
  apply (chained_append journal_link); [done|]. split; [done|]. split; [done|]. split; [done|].
  split; [done|]. split; [|by apply event_validate_transition].
  intros p Hp. rewrite Hp in *; simpl in *. bsplit. done.
Qed.

Lemma apply_effect_record_ok tenant rev t r t' :
  tenant_wf tenant rev t → envelope_ok r →
  apply_effect_record t r = Ok t' → tenant_wf tenant rev t' ∧ tenant_extends t t'.
Proof.
  intros Hwf Hv H. unfold apply_effect_record in H. inv_ok H. inv_ok H. injection H as <-. bsplit.
  split.
  - destruct Hwf. split; simpl; try done; [by apply bt_wf_insert|].
    intros k r'. rewrite bt_get_insert. destruct (oeqb k (env_effect_id r)) eqn:E; [|by auto].
    apply oeqb_eq in E as ->. by intros [= <-].
  - extends. intros k r0 Hk. rewrite bt_get_insert. destruct (oeqb k (env_effect_id r)) eqn:E; [|by eauto].
    apply oeqb_eq in E as ->. exists r. split; [done|]. right. rewrite Hk in Hok.
    inv_ok Hok. apply checked_add_Some in Eo as [-> _]. injection Hok as Hok. lia.
Qed.

Lemma apply_outbox_ok tenant rev t m t' :
  0 < rev → tenant_wf tenant rev t → message_validate m = Ok tt →
  apply_outbox t m rev = Ok t' → tenant_wf tenant rev t' ∧ tenant_extends t t'.
Proof.
  intros Hr Hwf Hv H. unfold apply_outbox in H. inv_ok H. injection H as <-. bsplit.
  split; [|extends; by apply prefix_app_r].
  destruct Hwf. split; simpl; try done.
  - rewrite map_app. apply NoDup_app. split; [done|]. split; [|apply NoDup_singleton].
    intros id Hid Hin. apply list_elem_of_singleton in Hin as ->.
    apply list_elem_of_In, in_map_iff in Hid as (r & Hr1 & Hr2).
    assert (existsb (λ r, oeqb (message_id (message r)) (message_id m)) (outbox t) = true); [|congruence].
    apply existsb_exists. exists r. split; [done|]. by apply oeqb_eq.
  - rewrite map_app. apply StronglySorted_app_2; [|done|repeat constructor].
    intros x1 x2 H1 H2%list_elem_of_singleton. subst x2. simpl.
    apply list_elem_of_In, in_map_iff in H1 as (r & <- & Hin). rewrite Forall_forall in tw_outbox0.
    destruct (tw_outbox0 r) as [_ ?]; [by apply list_elem_of_In|lia].
  - apply Forall_app. split; [done|]. repeat constructor; simpl; (done || lia).
Qed.

(** A keyed immutable insertion. *)
Lemma insert_immutable_keyed {V} `{EqDecision V} (Q : text → V → Prop) (m m' : btree text V) k v :
  bt_wf m → (∀ j w, bt_get j m = Some w → Q j w) → Q k v → insert_immutable m k v = Ok m' →
  bt_wf m' ∧ (∀ j w, bt_get j m' = Some w → Q j w) ∧ bt_sub m m'.
Proof.
  intros Hwf HQ Hv H. destruct (insert_immutable_ok _ _ _ _ Hwf H) as (? & Hm' & ? & _).
  split; [done|]. split; [|done]. intros j w. rewrite Hm'. destruct (oeqb j k) eqn:E; [|by apply HQ].
  apply oeqb_eq in E as ->. by intros [= <-].
Qed.

Lemma apply_mutation_ok tenant purp rev t m t' :
  0 < rev → tenant_wf tenant rev t → mutation_ok tenant purp m →
  apply_mutation rev t m = Ok t' → tenant_wf tenant rev t' ∧ tenant_extends t t'.
Proof.
  intros Hr Hwf Hm H. destruct m as [s|l es|b|c|e|r|b|m]; simpl in *.
  - inv_ok H. injection H as <-.
    destruct (insert_immutable_keyed (λ k s, snapshot_id s = k ∧ snapshot_validate s = Ok tt) _ _ _ _
                (tw_snapshots _ _ _ Hwf) (tw_snapshot _ _ _ Hwf) (conj eq_refl Hm) Hok) as (? & ? & ?).
    split; [destruct Hwf; by split|extends].
  - inv_ok H. destruct Hm as [Hl He].
    destruct (apply_all_ok _ _ _ (apply_atom_ok tenant rev) _ _ _ Hwf Hl Hok) as [Hwf1 Hx].
    destruct (apply_all_ok _ _ _ (apply_edge_ok tenant rev) _ _ _ Hwf1 He H) as [Hwf2 Hy].
    split; [done|]. by transitivity a.
  - inv_ok H. injection H as <-.
    destruct (insert_immutable_keyed (λ k s, bundle_id s = k ∧ bundle_validate s = Ok tt) _ _ _ _
                (tw_bundles _ _ _ Hwf) (tw_bundle _ _ _ Hwf) (conj eq_refl Hm) Hok) as (? & ? & ?).
    split; [destruct Hwf; by split|extends].
  - destruct Hm. by apply (apply_context_commit_ok _ _ _ c).
  - by apply (apply_effect_event_ok _ _ _ e).
  - by apply (apply_effect_record_ok _ _ _ r).
  - inv_ok H. injection H as <-.
    destruct (insert_immutable_keyed (λ k s, digest (bs_reference s) = k ∧ blob_ok s) _ _ _ _
                (tw_blobs _ _ _ Hwf) (tw_blob _ _ _ Hwf) (conj eq_refl Hm) Hok) as (? & ? & ?).
    split; [destruct Hwf; by split|extends].
  - by apply (apply_outbox_ok _ _ _ m).
Qed.

End tenant_wf.

End StoreFacts.
