(* ===== verification/ServiceFacts.v ===== *)
(** * Service repository facts

    The retained service state is self-consistent after every operation: record
    histories, replay receipts and worker leases always pass the validation that
    guards their use, so no operation ever reports its own state as corrupt; a
    worker lease has at most one live owner and its fencing token only grows. *)

From S2P Require Import Prelude Collections Canon BrokerAuth Protocol Catalog Store Service StoreFacts.
Import Protocol Catalog Store Service StoreFacts.
Local Open Scope Z_scope.

Module ServiceFacts.

Section facts.
Context (sha256 : list Z → list Z).
Context (sha_ok : ∀ m, Auth.digest_ok (sha256 m)).
Context (encoded_len : btree (text * text) (list ServiceRecord) →
                       btree (text * text) ServiceIdempotencyEntry →
                       btree text WorkerState → option Z).

Lemma exact_digest_ok bytes : exact_digest sha256 bytes = Ok (sha256_multihash sha256 bytes).
Proof.
  unfold exact_digest, content_digest_new, validate_multihash, sha256_multihash.
  destruct (sha_ok bytes) as [Hb Hl].
  pose proof (Auth.hex_canonical _ Hb Hl) as Hc. unfold Auth.canonical_hex in Hc. bsplit.
  rewrite len_app, H. simpl len. simpl starts_with. rewrite forallb_app, H0. done.
Qed.

(** ** Record histories *)

Definition prior_revision (prev : option ServiceRecord) : Z :=
  match prev with Some p => sr_store_revision p | None => 0 end.

Definition service_link (tenant : text) (k : text * text) (rev : Z) (i : nat)
    (prev : option ServiceRecord) (r : ServiceRecord) : Prop :=
  sr_locator r = mk_locator tenant k.1 k.2 ∧ sr_version r = Z.of_nat i + 1 ∧
  prior_revision prev < sr_store_revision r ≤ rev ∧
  0 < len (sr_bytes r) ≤ MAX_SERVICE_RECORD_BYTES ∧
  sr_digest r = sha256_multihash sha256 (sr_bytes r).

Lemma chained_cons {A} (P : nat → option A → A → Prop) x l :
  chained P (x :: l) ↔ P O None x ∧
  (∀ i y, l !! i = Some y → P (S i) (match i with O => Some x | S j => l !! j end) y).
Proof.
  split.
  - intros Hc. split; [by apply (Hc O)|]. intros i y Hi. specialize (Hc (S i) y Hi). by destruct i.
  - intros [H0 Hs] [|i] y; simpl; [by intros [= <-]|]. intros Hi. specialize (Hs i y Hi). by destruct i.
Qed.

Lemma history_loop_iff rev tenant k h : ∀ i prev,
  Z.of_nat i + len h ≤ u64_max →
  validate_history_loop sha256 rev tenant k.1 k.2 (Z.of_nat i) (prior_revision prev) h = Ok tt ↔
  (∀ j r, h !! j = Some r →
     service_link tenant k rev (i + j) (match j with O => prev | S n => h !! n end) r).
Proof.
  induction h as [|r h IH]; intros i prev Hlen; simpl; [split; [|done]; intros _ j r; by rewrite lookup_nil|].
  rewrite len_cons in Hlen. pose proof (len_nonneg h).
  unfold checked_add. rewrite (proj2 (Z.leb_le (Z.of_nat i + 1) u64_max)) by lia. rewrite exact_digest_ok. simpl.
  rewrite ensure_bind_ok. replace (Z.of_nat i + 1) with (Z.of_nat (S i)) by lia.
  fold (prior_revision (Some r)). rewrite (IH (S i) (Some r)) by lia. split.
  - intros (Hr & Hrest) [|j] y.
    + simpl. intros [= <-]. rewrite Nat.add_0_r. bsplit.
      repeat match goal with H : oeqb _ _ = true |- _ => apply oeqb_eq in H end.
      pose proof (len_nonneg (sr_bytes r)). simpl prior_revision in *.
      split; [destruct (sr_locator r); simpl in *; by subst|].
      split; [lia|]. split; [lia|]. split; [lia|]. done.
    + simpl. intros Hj. specialize (Hrest j y Hj). replace (i + S j)%nat with (S i + j)%nat by lia.
      by destruct j.
  - intros Hall. split.
    + destruct (Hall O r eq_refl) as (Hl & Hv & Hr & Hb & Hd). rewrite Nat.add_0_r in Hv.
      rewrite Hl, Hd; simpl. rewrite !oeqb_refl, Hv. simpl.
      rewrite (proj2 (Z.eqb_eq _ _)) by lia. rewrite (proj2 (Z.leb_gt _ _)) by lia.
      rewrite (proj2 (Z.ltb_ge _ _)) by lia. rewrite (proj2 (Z.eqb_neq _ _)) by lia.
      rewrite (proj2 (Z.ltb_ge _ _)) by lia. done.
    + intros j y Hj. specialize (Hall (S j) y Hj). simpl in Hall.
      replace (S i + j)%nat with (i + S j)%nat by lia. by destruct j.
Qed.

Lemma validate_record_history_iff rev tenant k h :
  len h ≤ u64_max →
  validate_record_history sha256 rev tenant k.1 k.2 h = Ok tt ↔ chained (service_link tenant k rev) h.
Proof. intros Hl. apply (history_loop_iff rev tenant k h O None). lia. Qed.

Lemma chained_impl {A} (P Q : nat → option A → A → Prop) l :
  (∀ i p x, P i p x → Q i p x) → chained P l → chained Q l.
Proof. intros HPQ Hc i x Hi. by apply HPQ, Hc. Qed.

Lemma service_link_mono tenant k rev rev' i p r :
  rev ≤ rev' → service_link tenant k rev i p r → service_link tenant k rev' i p r.
Proof. intros Hle (? & ? & ? & ? & ?). unfold service_link. intuition lia. Qed.

(** ** Retained service state *)

Definition sel_ok (v : text) (maximum : Z) : Prop := validate_selector v maximum false = Ok tt.

Definition version_ok (m : btree (text * text) (list ServiceRecord)) (rev : Z)
    (v : ServiceRecordVersion) : Prop :=
  sel_ok (srv_namespace v) MAX_SERVICE_NAMESPACE_BYTES ∧ sel_ok (srv_key v) MAX_SERVICE_KEY_BYTES ∧
  0 < srv_version v ∧
  ∃ h r, bt_get (srv_namespace v, srv_key v) m = Some h ∧
         h !! Z.to_nat (srv_version v - 1) = Some r ∧
         sr_digest r = srv_digest v ∧ sr_store_revision r = rev.

Definition entry_ok (rev : Z) (m : btree (text * text) (list ServiceRecord))
    (e : ServiceIdempotencyEntry) : Prop :=
  validate_response sha256 (br_response (se_receipt e)) = Ok tt ∧
  br_replayed (se_receipt e) = false ∧ 0 < br_revision (se_receipt e) ≤ rev ∧
  0 < len (br_records (se_receipt e)) ≤ MAX_SERVICE_BATCH_RECORDS ∧
  Forall (version_ok m (br_revision (se_receipt e))) (br_records (se_receipt e)).

Definition records_ok (tenant : text) (rev : Z) (m : btree (text * text) (list ServiceRecord)) : Prop :=
  bt_wf m ∧ ∀ k h, bt_get k m = Some h → h ≠ [] ∧ chained (service_link tenant k rev) h.

Definition counts_ok (t : TenantState) : Prop :=
  len (service_idempotency t) ≤ MAX_RETAINED_SERVICE_IDEMPOTENCY_ENTRIES ∧
  len (service_records t) ≤ MAX_RETAINED_SERVICE_RECORD_KEYS ∧
  Forall (λ h, len h ≤ MAX_RETAINED_SERVICE_VERSIONS_PER_KEY) (bt_values (service_records t)) ∧
  retained_versions (service_records t) ≤ MAX_RETAINED_SERVICE_VERSIONS_PER_TENANT.

(** A worker state the validation accepts, with counters that started at one. *)
Definition worker_ok (rev : Z) (locator : WorkerLocator) (w : WorkerState) : Prop :=
  ws_locator w = locator ∧ 0 < ws_version w ∧ 0 < ws_store_revision w ≤ rev ∧
  len (ws_cursor w) ≤ MAX_WORKER_CURSOR_BYTES ∧
  ws_cursor_digest w = sha256_multihash sha256 (ws_cursor w) ∧ ws_heartbeat w ≠ 0 ∧
  0 < ws_fencing_token w ∧
  match ws_lease_owner w, ws_lease_expires_at w with
  | Some owner, Some expiry => sel_ok owner MAX_WORKER_SELECTOR_BYTES ∧ ws_heartbeat w < expiry
  | None, None => True
  | _, _ => False
  end.

Lemma is_ok_unit {E} (r : result E unit) : is_ok r = true ↔ r = Ok tt.
Proof. destruct r as [[]|]; split; done. Qed.

Lemma worker_ok_valid rev locator w :
  worker_ok rev locator w → validate_worker_state sha256 rev locator w = Ok tt.
Proof.
  unfold validate_worker_state. intros (Hl & Hv & Hr & Hc & Hd & Hh & Ht & Hlease).
  rewrite exact_digest_ok. simpl. rewrite ensure_ok.
  rewrite negb_true_iff, !orb_false_iff, !negb_false_iff, bool_decide_eq_true, !Z.eqb_neq, !Z.ltb_ge, oeqb_eq.
  split_and!; try done; try lia. destruct (ws_lease_owner w) as [o|], (ws_lease_expires_at w) as [x|]; try done.
  destruct Hlease. rewrite andb_true_iff, is_ok_unit, Z.ltb_lt. done.
Qed.

Record service_wf (tenant : text) (rev : Z) (t : TenantState) : Prop := {
  sw_records : records_ok tenant rev (service_records t);
  sw_entries : bt_wf (service_idempotency t);
  sw_entry k e : bt_get k (service_idempotency t) = Some e → entry_ok rev (service_records t) e;
  sw_workers : bt_wf (worker_states t);
  sw_worker k w : bt_get k (worker_states t) = Some w →
    worker_ok rev (mk_worker_locator tenant k) w;
  sw_counts : counts_ok t }.

Lemma service_wf_empty tenant rev : service_wf tenant rev empty_tenant.
Proof.
  split; simpl. all: try done. 1: split; [constructor|done]. all: constructor.
Qed.

Lemma retention_counts t : validate_tenant_service_retention encoded_len t = Ok tt → counts_ok t.
Proof.
  intros H. unfold validate_tenant_service_retention in H. inv_ok H. bsplit. split_and!; try done.
  apply Forall_forall. intros h Hh. apply Z.ltb_ge. apply not_true_is_false. intros Hlt.
  match goal with H : existsb _ _ = false |- _ => rewrite <- not_true_iff_false in H; apply H end.
  apply existsb_exists. exists h. split; [by apply list_elem_of_In|done].
Qed.

Lemma version_ok_mono m m' rev v : bt_prefix m m' → version_ok m rev v → version_ok m' rev v.
Proof.
  intros Hp (? & ? & ? & h & r & Hh & Hr & ? & ?). split_and!; try done.
  destruct (Hp _ _ Hh) as [l' Hl']. exists (h ++ l'), r. split; [done|]. split; [|done].
  by apply lookup_app_l_Some.
Qed.

Lemma entry_ok_mono rev rev' m m' e :
  rev ≤ rev' → bt_prefix m m' → entry_ok rev m e → entry_ok rev' m' e.
Proof.
  intros Hle Hp (? & ? & ? & ? & Hv). split_and!; try done; try lia.
  eapply Forall_impl; [exact Hv|]. intros v. by apply version_ok_mono.
Qed.

Lemma records_ok_mono tenant rev rev' m : rev ≤ rev' → records_ok tenant rev m → records_ok tenant rev' m.
Proof.
  intros Hle [Hwf Hh]. split; [done|]. intros k h Hk. destruct (Hh _ _ Hk) as [Hne Hc].
  split; [done|]. eapply chained_impl; [|exact Hc]. intros i p r. by apply service_link_mono.
Qed.

Lemma worker_ok_mono rev rev' locator w : rev ≤ rev' → worker_ok rev locator w → worker_ok rev' locator w.
Proof. unfold worker_ok. intros Hle H. destruct_and! H. split_and!; try done; lia. Qed.

Lemma service_wf_mono tenant rev rev' t : rev ≤ rev' → service_wf tenant rev t → service_wf tenant rev' t.
Proof.
  intros Hle []. split; try done.
  - by eapply records_ok_mono.
  - intros k e He. by eapply entry_ok_mono; [exact Hle|reflexivity|eauto].
  - intros k w Hw. eapply worker_ok_mono; [exact Hle|]. eauto.
Qed.

(** ** Service batches *)

Lemma chained_last {A} (P : nat → option A → A → Prop) l x :
  chained P l → last l = Some x → ∃ i p, P i p x ∧ S i = length l.
Proof.
  intros Hc Hl. rewrite last_lookup in Hl. specialize (Hc _ _ Hl).
  exists (pred (length l)). eexists. split; [exact Hc|]. destruct l; [done|simpl; lia].
Qed.

Lemma apply_write_ok tenant latest rev m w p :
  rev = latest + 1 → 0 ≤ latest → records_ok tenant rev m →
  (∀ h, bt_get (w_namespace w, w_key w) m = Some h → len h < u64_max) →
  sel_ok (w_namespace w) MAX_SERVICE_NAMESPACE_BYTES → sel_ok (w_key w) MAX_SERVICE_KEY_BYTES →
  0 < len (w_bytes w) ≤ MAX_SERVICE_RECORD_BYTES →
  apply_write sha256 latest rev tenant m w = Ok p →
  records_ok tenant rev p.1 ∧ bt_prefix m p.1 ∧ version_ok p.1 rev p.2.
Proof.
  intros Hrev Hlat [Hwf Hm] Hmax Hns Hk Hb H. unfold apply_write in H. cbv zeta in H.
  set (k := (w_namespace w, w_key w)) in *. set (h := default [] (bt_get k m)) in *.
  assert (len h < u64_max) as Hh.
  { subst h. destruct (bt_get k m) as [h|] eqn:E; simpl; [by apply Hmax|]. unfold len; simpl. done. }
  inv_ok H. inv_ok H. inv_ok H. inv_ok H. rewrite exact_digest_ok in Hok2. injection Hok2 as <-.
  inv_ok Hok1. injection Hok1 as <-. apply checked_add_Some in Eo as [-> _]. injection H as <-.
  destruct a. apply (validate_record_history_iff latest tenant k) in Hok; [|lia].
  set (r := mk_service_record _ _ _ _ _).
  assert (chained (service_link tenant k rev) (h ++ [r])) as Hc.
  { apply chained_snoc.
    - eapply chained_impl; [|exact Hok]. intros i q x. apply service_link_mono. lia.
    - split; [done|]. split; [done|]. split; [|done]. simpl.
      destruct (last h) as [q|] eqn:El; simpl; [|lia].
      destruct (chained_last _ _ _ Hok El) as (i & q' & (_ & _ & Hr & _) & _). lia. }
  split; [|split].
  - split; [by apply bt_wf_insert|]. intros j l. simpl. rewrite bt_get_insert.
    destruct (oeqb j k) eqn:E; [|by apply Hm]. apply oeqb_eq in E as ->. intros [= <-].
    split; [by destruct h|done].
  - apply bt_prefix_append.
  - simpl. split; [done|]. split; [done|]. simpl. split; [pose proof (len_nonneg h); lia|].
    exists (h ++ [r]), r. split; [apply bt_get_insert_eq|]. split; [|done].
    replace (Z.to_nat (len h + 1 - 1)) with (length h) by (unfold len; lia).
    by rewrite lookup_app_r, Nat.sub_diag.
Qed.

(** What [validate_writes] guarantees of each write. *)
Definition write_ok (w : ServiceRecordWrite) : Prop :=
  sel_ok (w_namespace w) MAX_SERVICE_NAMESPACE_BYTES ∧ sel_ok (w_key w) MAX_SERVICE_KEY_BYTES ∧
  0 < len (w_bytes w) ≤ MAX_SERVICE_RECORD_BYTES.

Definition w_pos (w : ServiceRecordWrite) : text * text := (w_namespace w, w_key w).

Lemma validate_writes_loop_ok ws : ∀ total keys,
  validate_writes_loop total keys ws = Ok tt →
  Forall write_ok ws ∧ NoDup (map w_pos ws) ∧ (∀ k, k ∈ keys → k ∉ map w_pos ws).
Proof.
  induction ws as [|w ws IH]; intros total keys; simpl.
  { intros _. split; [constructor|]. split; [constructor|]. intros k _. apply not_elem_of_nil. }
  intros H. do 6 inv_ok H. destruct a, a0, a1. apply IH in H as (Hall & Hnd & Hk). bsplit.
  assert (w_pos w ∉ keys) as Hnew.
  { intros Hin. match goal with H : existsb _ _ = false |- _ => rewrite <- not_true_iff_false in H; apply H end.
    apply existsb_exists. exists (w_pos w). split; [by apply list_elem_of_In|apply oeqb_refl]. }
  pose proof (len_nonneg (w_bytes w)).
  split; [constructor; [|done]|split; [constructor; [|done]|]].
  - unfold write_ok, sel_ok. intuition lia.
  - apply Hk. left.
  - intros k Hin Hm. apply elem_of_cons in Hm as [->|Hm]; [done|]. apply (Hk k); [by right|done].
Qed.

Lemma validate_writes_ok ws : validate_writes ws = Ok tt →
  Forall write_ok ws ∧ NoDup (map w_pos ws) ∧ 0 < len ws ≤ MAX_SERVICE_BATCH_RECORDS.
Proof.
  unfold validate_writes. destruct (_ || _) eqn:E; [done|]. bsplit. intros Hl.
  apply validate_writes_loop_ok in Hl as (? & ? & _). pose proof (len_nonneg ws). intuition lia.
Qed.

(** Histories stay far below the width of their counters. *)
Definition short (m : btree (text * text) (list ServiceRecord)) (n : Z) : Prop :=
  ∀ k h, bt_get k m = Some h → len h ≤ n.

Lemma apply_write_short latest rev tenant m w p n :
  0 ≤ n → short m n → apply_write sha256 latest rev tenant m w = Ok p → short p.1 (n + 1).
Proof.
  intros Hn Hs H. unfold apply_write in H. cbv zeta in H. do 4 inv_ok H. injection H as <-. simpl.
  intros k h. rewrite bt_get_insert. destruct (oeqb k _) eqn:E.
  - intros [= <-]. rewrite len_app. destruct (bt_get (w_namespace w, w_key w) m) as [h|] eqn:Eh; simpl.
    + specialize (Hs _ _ Eh). unfold len in *; simpl; lia.
    + unfold len; simpl. lia.
  - intros Hk. specialize (Hs _ _ Hk). lia.
Qed.

Lemma apply_writes_ok tenant latest rev ws : ∀ m p n,
  rev = latest + 1 → 0 ≤ latest → records_ok tenant rev m → 0 ≤ n → short m n →
  n + len ws < u64_max → Forall write_ok ws →
  apply_writes sha256 latest rev tenant m ws = Ok p →
  records_ok tenant rev p.1 ∧ bt_prefix m p.1 ∧ Forall (version_ok p.1 rev) p.2 ∧ len p.2 = len ws.
Proof.
  induction ws as [|w ws IH]; intros m p n Hrev Hlat Hm Hn Hs Hlen Hws; simpl.
  { intros [= <-]. simpl. split; [done|]. split; [done|]. split; [constructor|done]. }
  intros H. inv_ok H. inv_ok H. injection H as <-. rewrite len_cons in Hlen. pose proof (len_nonneg ws).
  inversion_clear Hws as [|? ? (Hns & Hk & Hb) Hws'].
  destruct (apply_write_ok tenant latest rev m w a) as (Hr & Hp & Hv); try done.
  { intros h Hh. specialize (Hs _ _ Hh). lia. }
  pose proof (apply_write_short _ _ _ _ _ _ _ Hn Hs Hok) as Hs'.
  destruct (IH a.1 a0 (n + 1)) as (Hr' & Hp' & Hv' & Hl); try done; [lia|lia|]. simpl.
  split; [done|]. split; [by transitivity a.1|]. split.
  - constructor; [by eapply version_ok_mono|done].
  - rewrite !len_cons. lia.
Qed.

(** ** Committed states *)

Record state_wf (st : CommittedState) : Prop := {
  st_revision : 0 ≤ revision st;
  st_tenants : bt_wf (tenants st);
  st_tenant id t : bt_get id (tenants st) = Some t →
    tenant_wf sha256 id (revision st) t ∧ service_wf id (revision st) t }.

Definition state_extends (st st' : CommittedState) : Prop :=
  revision st ≤ revision st' ∧
  ∀ id t, bt_get id (tenants st) = Some t →
    ∃ t', bt_get id (tenants st') = Some t' ∧ tenant_extends t t'.

#[export] Instance state_extends_preorder : PreOrder state_extends.
Proof.
  split.
  - intros st. split; [done|]. intros id t Ht. by exists t.
  - intros a b c [Hr Hab] [Hr' Hbc]. split; [lia|]. intros id t Ht.
    destruct (Hab _ _ Ht) as (t1 & Ht1 & ?). destruct (Hbc _ _ Ht1) as (t2 & Ht2 & ?).
    exists t2. split; [done|]. by transitivity t1.
Qed.

Definition tenant_of (st : CommittedState) (id : text) : TenantState :=
  default empty_tenant (bt_get id (tenants st)).

Lemma tenant_of_wf st id : state_wf st →
  tenant_wf sha256 id (revision st) (tenant_of st id) ∧ service_wf id (revision st) (tenant_of st id).
Proof.
  intros Hwf. unfold tenant_of. destruct (bt_get id (tenants st)) as [t|] eqn:E; simpl.
  - by apply Hwf.
  - split; [apply tenant_wf_empty|apply service_wf_empty].
Qed.

(** Publishing the next state of one tenant. *)
Lemma state_update st id t' :
  state_wf st → tenant_extends (tenant_of st id) t' →
  tenant_wf sha256 id (revision st + 1) t' → service_wf id (revision st + 1) t' →
  state_wf (mk_state (revision st + 1) (bt_insert id t' (tenants st))) ∧
  state_extends st (mk_state (revision st + 1) (bt_insert id t' (tenants st))).
Proof.
  intros Hwf He Ht Hs. destruct Hwf as [Hr Hb Hall]. split.
  - split; simpl; [lia|by apply bt_wf_insert|]. intros j t. rewrite bt_get_insert.
    destruct (oeqb j id) eqn:E; [apply oeqb_eq in E as ->; by intros [= <-]|]. intros [? ?]%Hall.
    split; [apply (tenant_wf_mono _ _ (revision st)); [lia|done]|].
    apply (service_wf_mono _ (revision st)); [lia|done].
  - split; simpl; [lia|]. intros j t Hj. rewrite bt_get_insert. destruct (oeqb j id) eqn:E; [|by exists t].
    apply oeqb_eq in E as ->. exists t'. split; [done|]. unfold tenant_of in He. by rewrite Hj in He.
Qed.

(** Mutations do not touch the service part or the request log of a tenant. *)
Definition same_service (t t' : TenantState) : Prop :=
  service_records t' = service_records t ∧ service_idempotency t' = service_idempotency t ∧
  worker_states t' = worker_states t ∧ idempotency t' = idempotency t.

Lemma apply_all_service {X} (apply : TenantState → X → res TenantState) :
  (∀ t x t', apply t x = Ok t' → same_service t t') →
  ∀ l t t', apply_all apply t l = Ok t' → same_service t t'.
Proof.
  intros Hstep. induction l as [|x l IH]; intros t t'; simpl; [by intros [= <-]|].
  intros H. inv_ok H. apply Hstep in Hok as (? & ? & ? & ?). apply IH in H as (? & ? & ? & ?).
  unfold same_service. split_and!; congruence.
Qed.

Lemma apply_mutation_service rev t m t' : apply_mutation rev t m = Ok t' → same_service t t'.
Proof.
  destruct m as [s|l es|b|c|e|r|b|m]; simpl.
  2: { intros H. inv_ok H.
       apply apply_all_service in Hok as (? & ? & ? & ?).
       2: { intros t1 x t2 Hx. unfold apply_atom in Hx. do 4 inv_ok Hx. by injection Hx as <-. }
       apply apply_all_service in H as (? & ? & ? & ?).
       2: { intros t1 x t2 Hx. unfold apply_edge in Hx. do 3 inv_ok Hx. by injection Hx as <-. }
       unfold same_service. split_and!; congruence. }
  all: unfold apply_context_commit, apply_effect_event, apply_effect_record, apply_outbox; cbv zeta;
    intros H; repeat inv_ok H; by injection H as <-.
Qed.

Lemma service_wf_ext tenant rev t t' :
  service_records t' = service_records t → service_idempotency t' = service_idempotency t →
  worker_states t' = worker_states t → service_wf tenant rev t → service_wf tenant rev t'.
Proof.
  intros Hr Hi Hw []. unfold counts_ok in *.
  split; rewrite ?Hr, ?Hi, ?Hw; try done. unfold counts_ok. by rewrite Hr, Hi.
Qed.

(** ** Publishing a write transaction *)

Lemma tenant_wf_identity tid rev t k d :
  0 < rev → tenant_wf sha256 tid rev t →
  tenant_wf sha256 tid rev (set_idempotency (bt_insert k (d, mk_commit_receipt rev false) (idempotency t)) t).
Proof.
  intros Hr []. split; simpl; try done; [by apply bt_wf_insert|].
  intros j d' r. rewrite bt_get_insert. destruct (oeqb j k); [|by eauto]. intros [= <- <-]. simpl.
  split; [done|lia].
Qed.

(** The tenant state a publication leaves, from the one its mutations leave. *)
Definition with_request (identity : option IdempotencyIdentity) (receipt : CommitReceipt)
    (t : TenantState) : TenantState :=
  match identity with
  | Some i => set_idempotency (bt_insert (id_scope i, id_key i) (id_request_digest i, receipt)
                                 (idempotency t)) t
  | None => t
  end.

Lemma prepare_commit_inv latest tx identity next receipt :
  let tid := tenant_id (wr_context tx) in
  prepare_commit latest tx identity = Ok (Some next, receipt) →
  ∃ t, revision latest = expected_revision tx ∧
    (∀ i, identity = Some i → bt_get (id_scope i, id_key i) (idempotency (tenant_of latest tid)) = None) ∧
    apply_all (apply_mutation (revision latest + 1)) (tenant_of latest tid) (staged tx) = Ok t ∧
    receipt = mk_commit_receipt (revision latest + 1) false ∧
    next = mk_state (revision latest + 1) (bt_insert tid (with_request identity receipt t) (tenants latest)).
Proof.
  intros tid H. unfold prepare_commit in H. fold tid in H. cbv zeta in H.
  destruct (i ← identity; t ← bt_get tid (tenants latest); _) as [[d r]|] eqn:El.
  - destruct identity as [i|]; [|done]. inv_ok H. done.
  - inv_ok H. bsplit. do 2 inv_ok H. inv_ok Hok0. injection Hok0 as <-.
    apply checked_add_Some in Eo as [-> _]. injection H as <- <-. exists a0. split_and!; try done.
    intros i ->. unfold tenant_of. simpl in El. by destruct (bt_get tid (tenants latest)).
Qed.

Lemma prepare_commit_new latest tx identity next receipt :
  state_wf latest →
  Forall (mutation_ok sha256 (tenant_id (wr_context tx)) (access_purpose (wr_context tx))) (staged tx) →
  prepare_commit latest tx identity = Ok (Some next, receipt) →
  state_wf next ∧ state_extends latest next ∧ revision next = revision latest + 1 ∧
  revision latest = expected_revision tx ∧ receipt = mk_commit_receipt (revision next) false ∧
  (∀ id, id ≠ tenant_id (wr_context tx) → bt_get id (tenants next) = bt_get id (tenants latest)) ∧
  (∀ i, identity = Some i →
     bt_get (id_scope i, id_key i) (idempotency (tenant_of next (tenant_id (wr_context tx)))) =
       Some (id_request_digest i, receipt)).
Proof.
  set (tid := tenant_id (wr_context tx)). intros Hwf Hm H.
  apply prepare_commit_inv in H as (t & Hexp & Hfresh & Ha & -> & ->). fold tid in Hfresh, Ha |- *.
  destruct (tenant_of_wf latest tid Hwf) as [Htw Hsw]. pose proof (st_revision _ Hwf) as Hr.
  apply (tenant_wf_mono _ _ _ (revision latest + 1)) in Htw; [|lia].
  assert (0 < revision latest + 1) as Hpos by lia.
  destruct (apply_all_ok _ _ _ (λ t m t' Ht Hm', apply_mutation_ok sha256 tid (access_purpose (wr_context tx))
              (revision latest + 1) t m t' Hpos Ht Hm') _ _ _ Htw Hm Ha) as [Htw' Hex].
  assert (same_service (tenant_of latest tid) t) as Hsame.
  { eapply apply_all_service; [|exact Ha]. intros. by eapply apply_mutation_service. }
  apply (service_wf_mono _ _ (revision latest + 1)) in Hsw; [|lia].
  destruct Hsame as (Hsr & Hsi & Hwk & Hid). apply (service_wf_ext _ _ _ t Hsr Hsi Hwk) in Hsw.
  set (t' := with_request _ _ t).
  assert (tenant_wf sha256 tid (revision latest + 1) t' ∧ service_wf tid (revision latest + 1) t' ∧
          tenant_extends t t' ∧
          (∀ i, identity = Some i → bt_get (id_scope i, id_key i) (idempotency t') =
             Some (id_request_digest i, mk_commit_receipt (revision latest + 1) false)))
    as (Htw2 & Hsw2 & Hex2 & Hrec).
  { subst t'. unfold with_request. destruct identity as [i|]; [|done]. specialize (Hfresh i eq_refl). rewrite <- Hid in Hfresh.
    split_and!.
    - by apply tenant_wf_identity.
    - by apply (service_wf_ext _ _ t).
    - extends. by apply bt_sub_insert.
    - intros j [= <-]. apply bt_get_insert_eq. }
  destruct (state_update latest tid t' Hwf) as [Hnext Hext]; [by transitivity t|done|done|].
  split; [done|]. split; [done|]. split; [done|]. split; [done|]. split; [done|]. split.
  - intros id Hne. simpl. by apply bt_get_insert_ne.
  - intros i Hi. unfold tenant_of; simpl. rewrite bt_get_insert_eq. by apply Hrec.
Qed.

(** ** Publishing a service batch *)

Lemma short_counts t : counts_ok t → short (service_records t) MAX_RETAINED_SERVICE_VERSIONS_PER_KEY.
Proof.
  intros (_ & _ & Hf & _) k h Hk. rewrite Forall_forall in Hf. apply Hf.
  apply bt_get_In in Hk. apply list_elem_of_In, in_map_iff. by exists (k, h).
Qed.

Lemma tenant_wf_service tid rev t m e w :
  tenant_wf sha256 tid rev t →
  tenant_wf sha256 tid rev (set_worker_states w (set_service_idempotency e (set_service_records m t))).
Proof. intros []. by split. Qed.

(** A response built by its constructor validates. *)
Lemma response_new_valid status ct bytes r :
  response_new sha256 status ct bytes = Ok r → validate_response sha256 r = Ok tt.
Proof.
  unfold response_new, validate_response. intros H. inv_ok H. inv_ok H. rewrite exact_digest_ok in Hok0.
  injection Hok0 as <-. injection H as <-. simpl. rewrite exact_digest_ok. simpl. rewrite ensure_ok, oeqb_refl.
  simpl. by rewrite orb_false_r.
Qed.

(** Growing the histories and possibly recording one more receipt. *)
Lemma service_wf_entries tid rev t t' :
  service_wf tid rev t → records_ok tid rev (service_records t') → counts_ok t' →
  bt_prefix (service_records t) (service_records t') → worker_states t' = worker_states t →
  (service_idempotency t' = service_idempotency t ∨
   ∃ k e, service_idempotency t' = bt_insert k e (service_idempotency t) ∧
          entry_ok rev (service_records t') e) →
  service_wf tid rev t'.
Proof.
  intros [] Hr Hc Hp Hw Hi.
  assert (∀ k e, bt_get k (service_idempotency t) = Some e → entry_ok rev (service_records t') e) as Hold.
  { intros k e He. eapply entry_ok_mono; [reflexivity|exact Hp|by eauto]. }
  split; rewrite ?Hw; try done.
  - destruct Hi as [->|(k & e & -> & _)]; [done|by apply bt_wf_insert].
  - destruct Hi as [->|(k & e & -> & He)]; [done|]. intros j x. rewrite bt_get_insert.
    destruct (oeqb j k); [by intros [= <-]|by apply Hold].
Qed.

Definition with_service_request (identity : option ServiceIdempotency) (receipt : ServiceBatchReceipt)
    (t : TenantState) : TenantState :=
  match identity with
  | Some i => set_service_idempotency
                (bt_insert (si_operation i, si_key i) (mk_service_entry (si_request_digest i) receipt)
                   (service_idempotency t)) t
  | None => t
  end.

Lemma apply_service_batch_inv latest b next receipt :
  apply_service_batch sha256 encoded_len latest b = Ok (Some next, receipt) →
  let t := tenant_of latest (b_tenant b) in
  ∃ p, validate_writes (b_writes b) = Ok tt ∧
    (∀ i, b_idempotency b = Some i → bt_get (si_operation i, si_key i) (service_idempotency t) = None) ∧
    is_none_or (Z.eqb (revision latest)) (b_expected_store_revision b) = true ∧
    apply_writes sha256 (revision latest) (revision latest + 1) (b_tenant b) (service_records t)
      (b_writes b) = Ok p ∧
    receipt = mk_batch_receipt (revision latest + 1) p.2 (b_response b) false ∧
    let t' := with_service_request (b_idempotency b) receipt (set_service_records p.1 t) in
    validate_tenant_service_retention encoded_len t' = Ok tt ∧
    next = mk_state (revision latest + 1) (bt_insert (b_tenant b) t' (tenants latest)).
Proof.
  intros H. unfold apply_service_batch in H. inv_ok H. destruct a. cbv zeta in H.
  destruct (i ← b_idempotency b; t ← bt_get (b_tenant b) (tenants latest); _) as [e|] eqn:El.
  - destruct (b_idempotency b) as [i|]; [|done]. do 2 inv_ok H. done.
  - do 5 inv_ok H. unfold next_revision in *. inv_ok Hok2. injection Hok2 as <-.
    apply checked_add_Some in Eo as [-> _]. injection H as <- <-. destruct a2. exists a1. split_and!; try done.
    intros i Hi. rewrite Hi in El. simpl in El. unfold tenant_of.
    by destruct (bt_get (b_tenant b) (tenants latest)).
Qed.

Lemma apply_service_batch_new latest b next receipt :
  state_wf latest → validate_response sha256 (b_response b) = Ok tt →
  apply_service_batch sha256 encoded_len latest b = Ok (Some next, receipt) →
  state_wf next ∧ state_extends latest next ∧ revision next = revision latest + 1 ∧
  br_revision receipt = revision next ∧ br_replayed receipt = false ∧ br_response receipt = b_response b ∧
  (∀ id, id ≠ b_tenant b → bt_get id (tenants next) = bt_get id (tenants latest)) ∧
  (∀ i, b_idempotency b = Some i →
     bt_get (si_operation i, si_key i) (service_idempotency (tenant_of next (b_tenant b))) =
       Some (mk_service_entry (si_request_digest i) receipt)).
Proof.
  intros Hwf Hresp H. apply apply_service_batch_inv in H as (p & Hws & Hfresh & _ & Ha & -> & Hret & ->).
  set (tid := b_tenant b) in *. set (t := tenant_of latest tid) in *. set (rev := revision latest + 1) in *.
  apply validate_writes_ok in Hws as (Hws & _ & Hlen).
  destruct (tenant_of_wf latest tid Hwf) as [Htw Hsw]. fold t in Htw, Hsw. pose proof (st_revision _ Hwf) as Hr.
  apply (tenant_wf_mono _ _ _ rev) in Htw; [|lia]. apply (service_wf_mono _ _ rev) in Hsw; [|lia].
  destruct (apply_writes_ok tid (revision latest) rev (b_writes b) (service_records t) p
              MAX_RETAINED_SERVICE_VERSIONS_PER_KEY) as (Hrec & Hpre & Hvers & Hvl); try done.
  { apply Hsw. } { apply short_counts, Hsw. }
  { unfold MAX_SERVICE_BATCH_RECORDS, MAX_RETAINED_SERVICE_VERSIONS_PER_KEY, u64_max in *. lia. }
  set (receipt := mk_batch_receipt rev p.2 (b_response b) false) in *.
  set (t' := with_service_request _ receipt _) in *.
  assert (service_records t' = p.1 ∧ worker_states t' = worker_states t) as [Hsr Hsk]
    by (subst t'; unfold with_service_request; by destruct (b_idempotency b)).
  destruct (state_update latest tid t' Hwf) as [Hn He].
  - unfold t', with_service_request. destruct (b_idempotency b) as [i|]; [|extends].
    extends. by apply bt_sub_insert, Hfresh.
  - unfold t', with_service_request. destruct (b_idempotency b) as [i|]; destruct Htw; by split.
  - apply service_wf_entries with (t := t); try done. { by rewrite Hsr. } { by apply retention_counts. }
    { by rewrite Hsr. }
    subst t'. unfold with_service_request. destruct (b_idempotency b) as [i|]; [right|by left].
    exists (si_operation i, si_key i), (mk_service_entry (si_request_digest i) receipt).
    split; [done|]. simpl. unfold entry_ok; simpl. split_and!; try done; lia.
  - split_and!; try done.
    + intros id Hne. simpl. by apply bt_get_insert_ne.
    + intros i Hi. unfold tenant_of; simpl. rewrite bt_get_insert_eq. simpl.
      unfold t', with_service_request. rewrite Hi. apply bt_get_insert_eq.
Qed.

(** ** Worker leases *)

Lemma check_expected_ok e a : check_expected e a = Ok tt ↔
  match e with Absent => a = None | Version v => a = Some v end.
Proof.
  unfold check_expected. rewrite ensure_ok. destruct e as [|v], a as [x|]; try (split; congruence).
  rewrite Z.eqb_eq. split; congruence.
Qed.

Definition update_owner (u : WorkerUpdate) : text :=
  match u with Claim _ o _ _ | Checkpoint _ o _ _ _ _ | Release _ o _ _ => o end.
Definition update_time (u : WorkerUpdate) : Z :=
  match u with Claim _ _ now _ => now | Checkpoint _ _ _ _ h _ | Release _ _ _ h => h end.

(** The lease is held by nobody at time [now]. *)
Definition lease_free (now : Z) (w : WorkerState) : Prop :=
  ws_lease_owner w = None ∨ ∀ x, ws_lease_expires_at w = Some x → x ≤ now.

(** Each transition as its precondition and effect. *)
Definition worker_step (current : option WorkerState) (u : WorkerUpdate) (w' : WorkerState) : Prop :=
  ws_heartbeat w' = update_time u ∧
  match u, current with
  | Claim _ owner now x, None =>
      ws_version w' = 1 ∧ ws_fencing_token w' = 1 ∧ ws_cursor w' = [] ∧
      ws_lease_owner w' = Some owner ∧ ws_lease_expires_at w' = Some x
  | Claim _ owner now x, Some w =>
      lease_free now w ∧ ws_heartbeat w ≤ now ∧ ws_version w' = ws_version w + 1 ∧
      ws_fencing_token w' = ws_fencing_token w + 1 ∧ ws_cursor w' = ws_cursor w ∧
      ws_lease_owner w' = Some owner ∧ ws_lease_expires_at w' = Some x
  | Checkpoint _ owner token cursor h x, Some w =>
      ws_lease_owner w = Some owner ∧ ws_fencing_token w = token ∧
      (∃ x0, ws_lease_expires_at w = Some x0 ∧ h < x0) ∧ ws_heartbeat w ≤ h ∧
      ws_version w' = ws_version w + 1 ∧ ws_fencing_token w' = token ∧ ws_cursor w' = cursor ∧
      ws_lease_owner w' = Some owner ∧ ws_lease_expires_at w' = Some x
  | Release _ owner token h, Some w =>
      ws_lease_owner w = Some owner ∧ ws_fencing_token w = token ∧ ws_heartbeat w ≤ h ∧
      ws_version w' = ws_version w + 1 ∧ ws_fencing_token w' = token ∧ ws_cursor w' = ws_cursor w ∧
      ws_lease_owner w' = None ∧ ws_lease_expires_at w' = None
  | _, None => False
  end.

Lemma increment_ok v x : increment v = Ok x → x = v + 1.
Proof. unfold increment. intros H. inv_ok H. injection H as <-. by apply checked_add_Some in Eo as [-> _]. Qed.

Lemma transition_worker_step locator current u rev w' :
  transition_worker sha256 locator current u rev = Ok w' →
  worker_step current u w' ∧ ws_locator w' = locator ∧ ws_store_revision w' = rev ∧
  (ws_cursor_digest w' = sha256_multihash sha256 (ws_cursor w') ∨
   ∃ w, current = Some w ∧ ws_cursor_digest w' = ws_cursor_digest w ∧ ws_cursor w' = ws_cursor w).
Proof.
  destruct u as [e o now x|e o k c h x|e o k h]; simpl; intros H.
  - do 6 inv_ok H. rewrite exact_digest_ok in Hok4. injection Hok4 as <-. injection H as <-.
    split; [|split; [done|split; [done|by left]]]. split; [done|]. simpl.
    destruct current as [w|]; simpl in *.
    + apply increment_ok in Hok2 as ->, Hok3 as ->. bsplit. split; [|by split_and!].
      unfold lease_free. destruct (ws_lease_owner w) as [ow|]; [right|by left]. simpl in *.
      intros y Hy. rewrite Hy in *. simpl in *. bsplit. done.
    + injection Hok2 as <-. by injection Hok3 as <-.
  - inv_ok H. inv_ok Hok. injection Hok as <-. do 4 inv_ok H. rewrite exact_digest_ok in Hok2.
    injection Hok2 as <-. injection H as <-. apply increment_ok in Hok1 as ->. bsplit.
    match goal with H : opt_eqb _ _ = true |- _ => apply opt_eqb_eq in H end.
    split; [|split; [done|split; [done|by left]]]. split; [done|]. simpl. split_and!; try done.
    destruct (ws_lease_expires_at _) as [y|]; simpl in *; [|done]. bsplit. eauto.
  - inv_ok H. inv_ok Hok. injection Hok as <-. do 3 inv_ok H. injection H as <-.
    apply increment_ok in Hok1 as ->. bsplit.
    match goal with H : opt_eqb _ _ = true |- _ => apply opt_eqb_eq in H end.
    split; [|split; [done|split; [done|right; by eexists]]]. split; [done|]. simpl. split_and!; done.
Qed.

Lemma worker_step_mono w u w' : worker_step (Some w) u w' →
  ws_version w < ws_version w' ∧ ws_fencing_token w ≤ ws_fencing_token w' ∧ ws_heartbeat w ≤ ws_heartbeat w'.
Proof. intros [Ht H]. rewrite Ht. destruct u; simpl in *; destruct_and! H; lia. Qed.

Lemma transition_worker_ok rev locator current u w' :
  0 ≤ rev → validate_worker_update u = Ok tt → (∀ w, current = Some w → worker_ok rev locator w) →
  transition_worker sha256 locator current u (rev + 1) = Ok w' → worker_ok (rev + 1) locator w'.
Proof.
  intros Hr Hv Hw H. apply transition_worker_step in H as ([Ht Hs] & Hl & Hrev & Hd).
  unfold validate_worker_update in Hv.
  assert (ws_cursor_digest w' = sha256_multihash sha256 (ws_cursor w')) as Hd'.
  { destruct Hd as [|(w & Hc & -> & ->)]; [done|]. by apply (Hw w Hc). }
  unfold worker_ok. rewrite Hl, Hrev, Ht, Hd'.
  destruct u as [e o now x|e o k c h x|e o k h], current as [w|]; simpl in *; try done;
    do 2 inv_ok Hv; inv_ok Hv; bsplit; simpl in *; bsplit;
    repeat match goal with a : unit |- _ => destruct a end;
    try (destruct (Hw w eq_refl) as (_ & ? & _ & ? & _ & _ & ? & _));
    destruct_and! Hs;
    repeat match goal with H : ws_cursor w' = _ |- _ => rewrite H end;
    repeat match goal with H : ws_lease_owner w' = _ |- _ => rewrite H end;
    repeat match goal with H : ws_lease_expires_at w' = _ |- _ => rewrite H end;
    unfold sel_ok; split_and!; try done; try lia.
Qed.

Definition worker_of (st : CommittedState) (locator : WorkerLocator) : option WorkerState :=
  bt_get (wl_worker locator) (worker_states (tenant_of st (wl_tenant locator))).

Lemma apply_worker_update_new latest locator u next w' :
  state_wf latest → apply_worker_update sha256 latest locator u = Ok (next, w') →
  state_wf next ∧ state_extends latest next ∧ revision next = revision latest + 1 ∧
  worker_step (worker_of latest locator) u w' ∧ worker_of next locator = Some w' ∧
  (∀ id, id ≠ wl_tenant locator → bt_get id (tenants next) = bt_get id (tenants latest)).
Proof.
  intros Hwf H. unfold apply_worker_update in H. do 2 inv_ok H. destruct a.
  unfold next_revision in Hok0. inv_ok Hok0. injection Hok0 as <-. apply checked_add_Some in Eo as [-> _].
  do 2 inv_ok H. injection H as <- ->. destruct locator as [tid name]; simpl in *.
  fold (tenant_of latest tid) in *. set (t := tenant_of latest tid) in *.
  destruct (tenant_of_wf latest tid Hwf) as [Htw Hsw]. pose proof (st_revision _ Hwf) as Hr.
  pose proof (transition_worker_ok _ _ _ _ _ Hr Hok (sw_worker _ _ _ Hsw name) Hok1) as Hw'.
  apply transition_worker_step in Hok1 as (Hstep & _).
  apply (tenant_wf_mono _ _ _ (revision latest + 1)) in Htw; [|lia].
  apply (service_wf_mono _ _ (revision latest + 1)) in Hsw; [|lia].
  destruct (state_update latest tid (set_worker_states (bt_insert name w' (worker_states t)) t) Hwf)
    as [Hn He].
  - extends. intros k w Hk. rewrite bt_get_insert. destruct (oeqb k name) eqn:E.
    + apply oeqb_eq in E as ->. exists w'. fold t in Hk. rewrite Hk in Hstep.
      apply worker_step_mono in Hstep as (? & ? & ?). auto with lia.
    + exists w. auto with lia.
  - destruct Htw; by split.
  - destruct Hsw. split; try done; simpl; [by apply bt_wf_insert|]. intros k w. rewrite bt_get_insert.
    destruct (oeqb k name) eqn:E; [|by eauto]. apply oeqb_eq in E as ->. by intros [= <-].
  - split_and!; try done.
    + unfold worker_of, tenant_of; simpl. rewrite bt_get_insert_eq. simpl. apply bt_get_insert_eq.
    + intros id Hne. simpl. by apply bt_get_insert_ne.
Qed.

(** ** Sequences of lease transitions *)

(** The successive states of one worker under accepted updates. *)
Fixpoint worker_trace (current : option WorkerState) (l : list (WorkerUpdate * WorkerState)) : Prop :=
  match l with
  | [] => True
  | (u, w) :: rest => worker_step current u w ∧ worker_trace (Some w) rest
  end.

Lemma worker_trace_token w l u' w' :
  worker_trace (Some w) l → (u', w') ∈ l →
  ws_fencing_token w ≤ ws_fencing_token w' ∧ ws_heartbeat w ≤ update_time u' ∧
  (ws_fencing_token w' = ws_fencing_token w → ∀ o, ws_lease_owner w = Some o → update_owner u' = o) ∧
  (ws_lease_owner w = None → ws_fencing_token w < ws_fencing_token w').
Proof.
  revert w. induction l as [|[u x] l IH]; intros w; simpl; [by intros _ ?%elem_of_nil|].
  intros [Hs Hl] Hin. pose proof (worker_step_mono _ _ _ Hs) as (_ & Htok & Hhb). destruct Hs as [Ht Hs].
  apply elem_of_cons in Hin as [[= -> ->]|Hin].
  - split; [done|]. split; [by rewrite <- Ht|].
    destruct u as [e o now y|e o k c h y|e o k h]; simpl in *; destruct_and! Hs.
    + split; [lia|]. intros _. lia.
    + split; [intros _ o' Ho'; congruence|]. intros Hn. congruence.
    + split; [intros _ o' Ho'; congruence|]. intros Hn. congruence.
  - destruct (IH x Hl Hin) as (Ht1 & Hh1 & Ho1 & Hn1). split; [lia|]. split; [lia|]. split.
    + intros Heq o Ho. destruct u as [e o' now y|e o' k c h y|e o' k h]; simpl in *; destruct_and! Hs.
      * lia.
      * apply Ho1; [lia|congruence].
      * match goal with H : ws_lease_owner x = None |- _ => specialize (Hn1 H) end. lia.
    + intros Hn. destruct u as [e o' now y|e o' k c h y|e o' k h]; simpl in *; destruct_and! Hs; (lia || congruence).
Qed.

(** The same, as the successive results of [transition_worker]. *)
Fixpoint lease_trace (locator : WorkerLocator) (current : option WorkerState)
    (l : list (WorkerUpdate * Z * WorkerState)) : Prop :=
  match l with
  | [] => True
  | (u, rev, w) :: rest =>
      transition_worker sha256 locator current u rev = Ok w ∧ lease_trace locator (Some w) rest
  end.

Definition drop_revision (x : WorkerUpdate * Z * WorkerState) : WorkerUpdate * WorkerState := (x.1.1, x.2).

Lemma lease_trace_steps locator l : ∀ current,
  lease_trace locator current l → worker_trace current (map drop_revision l).
Proof.
  induction l as [|[[u r] w] l IH]; intros current; simpl; [done|].
  intros [Hw Hl]. apply transition_worker_step in Hw as [Hs _]. split; [done|by apply IH].
Qed.

Lemma worker_trace_drop l : ∀ current i u w,
  worker_trace current l → l !! i = Some (u, w) →
  worker_step (match i with O => current | S j => snd <$> l !! j end) u w ∧
  worker_trace (Some w) (drop (S i) l).
Proof.
  induction l as [|[u0 w0] l IH]; intros current [|i] u w; simpl; try done.
  - by intros [? ?] [= <- <-].
  - intros [_ Hl] Hi. destruct (IH (Some w0) i u w Hl Hi) as [Hs Hd]. split; [|done].
    by destruct i.
Qed.

Lemma worker_step_owner current u w o :
  worker_step current u w → ws_lease_owner w = Some o → update_owner u = o.
Proof. intros [_ Hs] Ho. destruct u, current; simpl in *; try done; destruct_and! Hs; congruence. Qed.

Lemma trace_pair l i j u w u' w' :
  worker_trace None l → l !! i = Some (u, w) → l !! j = Some (u', w') → (i ≤ j)%nat →
  ws_fencing_token w ≤ ws_fencing_token w' ∧ update_time u ≤ update_time u' ∧
  (ws_fencing_token w = ws_fencing_token w' → update_owner u = update_owner u').
Proof.
  intros Hl Hi Hj Hle. destruct (decide (i = j)) as [->|Hne].
  { rewrite Hi in Hj. injection Hj as <- <-. split; [lia|]. split; [lia|done]. }
  destruct (worker_trace_drop _ _ _ _ _ Hl Hi) as [Hs Hd]. pose proof (proj1 Hs) as Ht.
  assert (∀ o, ws_lease_owner w = Some o → update_owner u = o) as Hfirst
    by (intros o; by eapply worker_step_owner).
  assert ((u', w') ∈ drop (S i) l) as Hin.
  { apply list_elem_of_lookup_2 with (i := (j - S i)%nat). rewrite lookup_drop.
    by replace (S i + (j - S i))%nat with j by lia. }
  destruct (worker_trace_token _ _ _ _ Hd Hin) as (Htok & Hhb & Hown & Hnone).
  split; [done|]. split; [lia|]. intros Heq. destruct (ws_lease_owner w) as [o|] eqn:Eo.
  - rewrite (Hown (eq_sym Heq) o eq_refl). by apply Hfirst.
  - specialize (Hnone eq_refl). lia.
Qed.

(** C8: over any sequence of accepted updates of one worker, fencing tokens and
    clocks never go back, all updates under one token come from one owner, and a
    claim succeeds only when the lease before it is released or expired at its
    clock and takes the next token. *)
Theorem lease_exclusion locator l :
  lease_trace locator None l →
  (∀ i j u r w u' r' w', l !! i = Some (u, r, w) → l !! j = Some (u', r', w') → (i ≤ j)%nat →
     ws_fencing_token w ≤ ws_fencing_token w' ∧ update_time u ≤ update_time u' ∧
     (ws_fencing_token w = ws_fencing_token w' → update_owner u = update_owner u')) ∧
  (∀ i u r w e o now x r' w', l !! i = Some (u, r, w) → l !! S i = Some (Claim e o now x, r', w') →
     lease_free now w ∧ ws_fencing_token w' = ws_fencing_token w + 1).
Proof.
  intros Hl%lease_trace_steps. split.
  - intros i j u r w u' r' w' Hi Hj. apply (trace_pair _ _ _ _ _ _ _ Hl).
    + rewrite list_lookup_fmap, Hi. done.
    + rewrite list_lookup_fmap, Hj. done.
  - intros i u r w e o now x r' w' Hi Hi'.
    destruct (worker_trace_drop _ _ (S i) (Claim e o now x) w' Hl) as [[_ Hs] _].
    + rewrite list_lookup_fmap, Hi'. done.
    + rewrite list_lookup_fmap, Hi in Hs. simpl in Hs. tauto.
Qed.

(** ** Self-consistency *)

Lemma for_each_ok {X} (f : X → sres unit) l : for_each f l = Ok tt ↔ Forall (λ x, f x = Ok tt) l.
Proof.
  induction l as [|x l IH]; simpl; [split; constructor|]. rewrite bind_ok, Forall_cons.
  split; [intros ([] & ? & ?); tauto|]. intros [Hx Hl]. exists tt. tauto.
Qed.

Lemma history_valid tid rev t k h :
  service_wf tid rev t → bt_get k (service_records t) = Some h →
  validate_record_history sha256 rev tid k.1 k.2 h = Ok tt.
Proof.
  intros Hs Hh. apply validate_record_history_iff.
  - pose proof (short_counts _ (sw_counts _ _ _ Hs) _ _ Hh).
    unfold MAX_RETAINED_SERVICE_VERSIONS_PER_KEY, u64_max in *. lia.
  - destruct (sw_records _ _ _ Hs) as [_ Hall]. by apply Hall.
Qed.

Lemma entry_valid st tid t k e :
  state_wf st → bt_get tid (tenants st) = Some t → bt_get k (service_idempotency t) = Some e →
  validate_idempotency_entry sha256 st tid e = Ok tt.
Proof.
  intros Hwf Ht He. destruct (st_tenant _ Hwf _ _ Ht) as [_ Hs].
  destruct (sw_entry _ _ _ Hs _ _ He) as (Hresp & Hrep & Hrev & Hlen & Hall).
  unfold validate_idempotency_entry. rewrite Hresp. simpl. rewrite ensure_bind_ok, Hrep. split.
  - rewrite negb_true_iff, !orb_false_iff, !Z.eqb_neq, !Z.ltb_ge. split_and!; try done; lia.
  - apply for_each_ok. eapply Forall_impl; [exact Hall|].
    intros v (Hn & Hk & Hv & h & r & Hh & Hr & Hd & Hrv). unfold receipt_record_ok.
    rewrite Hn, Hk. simpl. rewrite ensure_bind_ok. split; [apply negb_true_iff, Z.eqb_neq; lia|].
    rewrite Ht. simpl. rewrite Hh. simpl. rewrite Hr. simpl. rewrite ensure_ok, Hd, Hrv, oeqb_refl, Z.eqb_refl.
    done.
Qed.

Lemma bt_entries_Forall {K V} `{TotalOrd K} (m : btree K V) (P : K * V → Prop) :
  bt_wf m → (∀ k v, bt_get k m = Some v → P (k, v)) → Forall P m.
Proof.
  intros Hwf HP. apply Forall_forall. intros [k v] Hin%list_elem_of_In. by apply HP, bt_In_get.
Qed.

Lemma retention_valid t n :
  counts_ok t → encoded_len (service_records t) (service_idempotency t) (worker_states t) = Some n →
  n ≤ MAX_RETAINED_SERVICE_STATE_BYTES → validate_tenant_service_retention encoded_len t = Ok tt.
Proof.
  intros (Hc1 & Hc2 & Hc3 & Hc4) Hn Hle. unfold validate_tenant_service_retention.
  rewrite ensure_bind_ok, Hn. simpl. rewrite ensure_ok, !negb_true_iff, !orb_false_iff, !Z.ltb_ge.
  split_and!; try done. apply not_true_is_false. intros Hx. apply existsb_exists in Hx as (h & Hin & Hlt).
  apply Z.ltb_lt in Hlt. rewrite Forall_forall in Hc3. specialize (Hc3 h (proj2 (list_elem_of_In _ _) Hin)). lia.
Qed.

Lemma committed_state_valid st :
  state_wf st →
  (∀ id t, bt_get id (tenants st) = Some t → ∃ n,
     encoded_len (service_records t) (service_idempotency t) (worker_states t) = Some n ∧
     n ≤ MAX_RETAINED_SERVICE_STATE_BYTES) →
  validate_committed_service_state sha256 encoded_len st = Ok tt.
Proof.
  intros Hwf Henc. apply for_each_ok, bt_entries_Forall; [apply Hwf|]. intros id t Ht.
  destruct (st_tenant _ Hwf _ _ Ht) as [_ Hs]. destruct (Henc _ _ Ht) as (n & Hn & Hle).
  unfold validate_tenant_state. apply bind_ok. exists tt. split; [by apply (retention_valid _ n (sw_counts _ _ _ Hs))|].
  apply bind_ok. exists tt. split.
  { apply for_each_ok, (bt_entries_Forall (service_records t)); [apply (sw_records _ _ _ Hs)|].
    intros [ns key] h Hh. by apply (history_valid id _ t (ns, key) h). }
  apply bind_ok. exists tt. split.
  { apply for_each_ok, Forall_fmap, (bt_entries_Forall (service_idempotency t)); [apply Hs|].
    intros k e He. by eapply entry_valid. }
  apply for_each_ok, (bt_entries_Forall (worker_states t)); [apply Hs|].
  intros k w Hw. apply worker_ok_valid. by apply Hs.
Qed.

End facts.
End ServiceFacts.
