(* ===== verification/StoreRun.v ===== *)
(** * Runs of the repository

    The repository as a transition system: every operation that publishes a
    state, in any order and with any cancellation and failure injection. The
    theorems hold of every reachable store: its history is the list of its
    revisions and never changes but at its end; publication is serialized by the
    expected revision; a request identity is applied once and replayed for ever. *)

From S2P Require Import Prelude Collections Canon BrokerAuth Protocol Catalog Store Service.
From S2P Require Import StoreFacts ServiceFacts.
From stdpp Require Import relations.
Import Protocol Catalog Store Service StoreFacts ServiceFacts.
Local Open Scope Z_scope.

Module StoreRun.

Section run.
Context (sha256 : list Z → list Z).
Context (sha_ok : ∀ m, Auth.digest_ok (sha256 m)).
Context (encoded_len : btree (text * text) (list ServiceRecord) →
                       btree (text * text) ServiceIdempotencyEntry →
                       btree text WorkerState → option Z).

(** ** Write transactions built through the staging operations

    Effect envelopes and blobs come from their constructors. Some fields of the
    Rust envelope are public, but its bytes are private, so a caller outside
    model.rs starts from [EffectRecordEnvelope::new]; altering a field of the
    result afterwards, which no code of the repository does, is not modelled. *)

Inductive built : WriteTx → Prop :=
| built_begin tenant purp ctx expected c tx :
    access_context_new tenant purp = Ok ctx → begin_write ctx expected c = Ok tx → built tx
| built_snapshot tx c s tx' : built tx → stage_snapshot tx c s = Ok tx' → built tx'
| built_atoms tx c l es tx' : built tx → publish_atoms tx c l es = Ok tx' → built tx'
| built_bundle tx c b tx' : built tx → put_bundle tx c b = Ok tx' → built tx'
| built_commit tx c k tx' : built tx → append_context_commit tx c k = Ok tx' → built tx'
| built_event tx c e tx' : built tx → append_effect_event tx c e = Ok tx' → built tx'
| built_record tx c id v d bytes r tx' :
    built tx → 0 ≤ v → envelope_new sha256 id v d bytes = Ok r →
    put_effect_record tx c r = Ok tx' → built tx'
| built_blob tx c ref bytes b tx' :
    built tx → blob_record_new ref bytes = Ok b → put_blob sha256 tx c b = Ok tx' → built tx'
| built_outbox tx c m tx' : built tx → enqueue_outbox tx c m = Ok tx' → built tx'.

Definition staged_ok (tx : WriteTx) : Prop :=
  Forall (mutation_ok sha256 (tenant_id (wr_context tx)) (access_purpose (wr_context tx))) (staged tx).

Lemma stage_ok tx c m tx' :
  staged_ok tx → mutation_ok sha256 (tenant_id (wr_context tx)) (access_purpose (wr_context tx)) m →
  stage tx c m = Ok tx' → staged_ok tx'.
Proof.
  intros Hs Hm H. unfold stage in H. inv_ok H. injection H as <-. unfold staged_ok; simpl.
  apply Forall_app. split; [done|by constructor].
Qed.

Lemma validate_ok r : validate r = Ok tt ↔ r = Ok tt.
Proof. destruct r as [[]|]; simpl; split; congruence. Qed.

Lemma validate_atoms_ok tenant l : validate_atoms tenant l = Ok tt →
  Forall (λ a, atom_validate a = Ok tt ∧ sc_tenant_id (scope a) = tenant) l.
Proof.
  induction l as [|a l IH]; simpl; [constructor|]. intros H. do 2 inv_ok H. destruct a0.
  apply validate_ok in Hok. apply oeqb_eq in Hok0. constructor; [done|by apply IH].
Qed.

Lemma validate_edges_ok l : validate_edges l = Ok tt → Forall (λ e, edge_validate e = Ok tt) l.
Proof.
  induction l as [|e l IH]; simpl; [constructor|]. intros H. inv_ok H. destruct a.
  apply validate_ok in Hok. constructor; [done|by apply IH].
Qed.

Lemma blob_record_ok ref bytes b :
  blob_record_new ref bytes = Ok b → sha256_multihash sha256 (blob_bytes b) = digest (blob_reference b) →
  blob_ok sha256 (blob_state_in_memory b).
Proof.
  unfold blob_record_new. destruct (_ || _) eqn:E; [done|]. intros [= <-] Hd. bsplit. exists bytes. simpl in *.
  split_and!; done.
Qed.

Lemma envelope_new_ok id v d bytes r :
  0 ≤ v → envelope_new sha256 id v d bytes = Ok r → envelope_ok sha256 r.
Proof.
  intros Hv. unfold envelope_new. destruct (_ || _) eqn:E; [done|]. intros [= <-]. bsplit.
  match goal with H : oeqb _ _ = true |- _ => apply oeqb_eq in H end. pose proof (len_nonneg bytes).
  unfold envelope_ok; simpl. split_and!; (done || lia).
Qed.

(** Every staged mutation has passed its record's validator. *)
Lemma built_staged tx : built tx → staged_ok tx.
Proof.
  induction 1 as [t p ctx x c tx _ H|tx c s tx' _ IH H|tx c l es tx' _ IH H|tx c b tx' _ IH H
    |tx c k tx' _ IH H|tx c e tx' _ IH H|tx c id v d bs r tx' _ IH Hv He H
    |tx c ref bs b tx' _ IH Hb H|tx c m tx' _ IH H].
  - unfold begin_write in H. inv_ok H. injection H as <-. constructor.
  - unfold stage_snapshot in H. inv_ok H. destruct a. apply validate_ok in Hok. by apply (stage_ok _ _ _ _ IH) in H.
  - unfold publish_atoms in H. destruct (len l =? 0); [done|]. do 2 inv_ok H. destruct a, a0.
    apply validate_atoms_ok in Hok. apply validate_edges_ok in Hok0. by apply (stage_ok _ _ _ _ IH) in H.
  - unfold put_bundle in H. inv_ok H. destruct a. apply validate_ok in Hok. by apply (stage_ok _ _ _ _ IH) in H.
  - unfold append_context_commit in H. do 2 inv_ok H. destruct a. apply validate_ok in Hok.
    apply oeqb_eq in Hok0. by apply (stage_ok _ _ _ _ IH) in H.
  - unfold append_effect_event in H. inv_ok H. destruct a. apply validate_ok in Hok. by apply (stage_ok _ _ _ _ IH) in H.
  - eapply stage_ok; [exact IH| |exact H]. by eapply envelope_new_ok.
  - unfold put_blob in H. inv_ok H. apply oeqb_eq in Hok. eapply stage_ok; [exact IH| |exact H].
    by eapply blob_record_ok.
  - unfold enqueue_outbox in H. inv_ok H. destruct a. by apply (stage_ok _ _ _ _ IH) in H.
Qed.

(** ** Steps *)

Inductive step : InMemoryStore → InMemoryStore → Prop :=
| step_commit s tx c1 c2 identity s' r :
    built tx → commit s tx c1 c2 identity = (s', r) → step s s'
| step_service s b c1 c2 status ct bytes s' r :
    response_new sha256 status ct bytes = Ok (b_response b) →
    service_commit sha256 encoded_len s b c1 c2 = (s', r) → step s s'
| step_worker s locator u c1 c2 s' r :
    worker_update sha256 s locator u c1 c2 = (s', r) → step s s'
| step_arm s : step s (arm_failure s).

Definition reachable (s : InMemoryStore) : Prop := rtc step default_store s.

(** The committed history: one state per revision, each extending the last. *)
Record store_wf (s : InMemoryStore) : Prop := {
  sw_nonempty : history s ≠ [];
  sw_state i st : history s !! i = Some st → revision st = Z.of_nat i ∧ state_wf sha256 st;
  sw_extends i st st' : history s !! i = Some st → history s !! S i = Some st' → state_extends st st' }.

Lemma default_store_wf : store_wf default_store.
Proof.
  split; simpl; [done| |].
  - intros [|i] st; simpl; [|by rewrite lookup_nil]. intros [= <-]. split; [done|].
    split; [done|constructor|done].
  - intros [|i] st st'; simpl; [done|by rewrite lookup_nil].
Qed.

Lemma last_state_wf s latest : store_wf s → last (history s) = Some latest →
  state_wf sha256 latest ∧ Z.of_nat (length (history s)) = revision latest + 1.
Proof.
  intros Hwf Hl. rewrite last_lookup in Hl. destruct (sw_state _ Hwf _ _ Hl) as [Hr Hst].
  split; [done|]. pose proof (sw_nonempty _ Hwf). destruct (history s); [done|]. simpl in *. lia.
Qed.

(** Publishing one more state. *)
Lemma publish_wf s latest next f :
  store_wf s → last (history s) = Some latest → state_wf sha256 next →
  state_extends latest next → revision next = revision latest + 1 →
  store_wf (mk_store (history s ++ [next]) f).
Proof.
  intros Hwf Hl Hn He Hr. destruct (last_state_wf _ _ Hwf Hl) as [_ Hlen]. split; simpl.
  - by destruct (history s).
  - intros i st Hi. destruct (decide (i < length (history s))%nat).
    + rewrite lookup_app_l in Hi by done. by apply (sw_state _ Hwf).
    + rewrite lookup_app_r in Hi by lia. destruct (i - length (history s))%nat eqn:Ei; [|done].
      injection Hi as <-. split; [lia|done].
  - intros i st st' Hi Hi'. destruct (decide (S i < length (history s))%nat).
    + rewrite lookup_app_l in Hi, Hi' by lia. by apply (sw_extends _ Hwf i).
    + rewrite lookup_app_r in Hi' by lia. destruct (S i - length (history s))%nat eqn:Ei; [|done].
      injection Hi' as <-. rewrite lookup_app_l in Hi by lia.
      rewrite last_lookup in Hl. replace (pred (length (history s))) with i in Hl by lia.
      assert (st = latest) as -> by congruence. done.
Qed.

(** What a step does to the history. *)
Definition appends (s s' : InMemoryStore) : Prop :=
  history s' = history s ∨
  ∃ latest next, last (history s) = Some latest ∧ history s' = history s ++ [next] ∧
    state_wf sha256 next ∧ state_extends latest next ∧ revision next = revision latest + 1.

Lemma commit_appends s tx c1 c2 identity s' r :
  store_wf s → built tx → commit s tx c1 c2 identity = (s', r) → appends s s'.
Proof.
  intros Hwf Hb%built_staged H. unfold commit in H. destruct c1; [left; by injection H as <- _|].
  destruct (_ || _); [left; by injection H as <- _|].
  destruct (last (history s)) as [latest|] eqn:El; [|left; by injection H as <- _].
  destruct (prepare_commit latest tx identity) as [[[next|] receipt]|e] eqn:Ep;
    [|left; by injection H as <- _|left; by injection H as <- _].
  destruct c2; [left; by injection H as <- _|].
  destruct (fail_next_commit s); [left; by injection H as <- _|]. injection H as <- _.
  destruct (last_state_wf _ _ Hwf El) as [Hst _].
  destruct (prepare_commit_new sha256 _ _ _ _ _ Hst Hb Ep) as (Hn & He & Hr & _).
  right. by exists latest, next.
Qed.

Lemma service_appends s b c1 c2 s' r :
  store_wf s → validate_response sha256 (b_response b) = Ok tt →
  service_commit sha256 encoded_len s b c1 c2 = (s', r) → appends s s'.
Proof.
  intros Hwf Hv H. unfold service_commit in H. destruct c1; [left; by injection H as <- _|].
  destruct (last (history s)) as [latest|] eqn:El; [|left; by injection H as <- _].
  destruct (apply_service_batch _ _ latest b) as [[next receipt]|e] eqn:Ep; [|left; by injection H as <- _].
  destruct (br_replayed receipt); [left; by injection H as <- _|].
  destruct c2; [left; by injection H as <- _|].
  destruct (fail_next_commit s); [left; by injection H as <- _|].
  destruct next as [next|]; [|left; by injection H as <- _]. injection H as <- _.
  destruct (last_state_wf _ _ Hwf El) as [Hst _].
  destruct (apply_service_batch_new sha256 sha_ok encoded_len _ _ _ _ Hst Hv Ep) as (Hn & He & Hr & _).
  right. by exists latest, next.
Qed.

Lemma worker_appends s locator u c1 c2 s' r :
  store_wf s → worker_update sha256 s locator u c1 c2 = (s', r) → appends s s'.
Proof.
  intros Hwf H. unfold worker_update in H. destruct c1; [left; by injection H as <- _|].
  destruct (last (history s)) as [latest|] eqn:El; [|left; by injection H as <- _].
  destruct (apply_worker_update _ latest locator u) as [[next w]|e] eqn:Ep; [|left; by injection H as <- _].
  destruct c2; [left; by injection H as <- _|].
  destruct (fail_next_commit s); [left; by injection H as <- _|]. injection H as <- _.
  destruct (last_state_wf _ _ Hwf El) as [Hst _].
  destruct (apply_worker_update_new sha256 sha_ok _ _ _ _ _ Hst Ep) as (Hn & He & Hr & _).
  right. by exists latest, next.
Qed.

Lemma step_appends s s' : store_wf s → step s s' → appends s s'.
Proof.
  intros Hwf Hs. destruct Hs.
  - by eapply commit_appends.
  - eapply service_appends; [done| |done]. by eapply response_new_valid.
  - by eapply worker_appends.
  - by left.
Qed.

Lemma step_wf s s' : store_wf s → step s s' → store_wf s'.
Proof.
  intros Hwf Hs. apply step_appends in Hs as [He|(latest & next & Hl & He & ? & ? & ?)]; [| |done].
  - destruct Hwf. split; rewrite ?He; done.
  - pose proof (publish_wf s latest next (fail_next_commit s') Hwf Hl) as Hp.
    destruct s'; simpl in *. subst. by apply Hp.
Qed.

Lemma run_wf s s' : store_wf s → rtc step s s' → store_wf s'.
Proof. intros Hwf. induction 1 as [|x y z Hxy _ IH]; [done|]. by apply IH, (step_wf x). Qed.

Lemma run_prefix s s' : store_wf s → rtc step s s' → history s `prefix_of` history s'.
Proof.
  intros Hwf Hr. induction Hr as [|x y z Hxy _ IH]; [done|].
  transitivity (history y); [|by apply IH, (step_wf x)].
  apply step_appends in Hxy as [->|(? & ? & _ & -> & _)]; [done|by apply prefix_app_r|done].
Qed.

Lemma reachable_wf s : reachable s → store_wf s.
Proof. apply run_wf, default_store_wf. Qed.

(** ** Publication *)

(** The request log entry of an identity in a state. *)
Definition request_of (st : CommittedState) (tenant : text) (i : IdempotencyIdentity)
    : option (text * CommitReceipt) :=
  bt_get (id_scope i, id_key i) (idempotency (tenant_of st tenant)).

Definition rejected (s s' : InMemoryStore) (r : res CommitReceipt) : Prop :=
  history s' = history s ∧ ∃ e, r = Err e.

Definition published (s s' : InMemoryStore) (tx : WriteTx) (identity : option IdempotencyIdentity)
    (r : res CommitReceipt) : Prop :=
  ∃ latest next, last (history s) = Some latest ∧ history s' = history s ++ [next] ∧
    r = Ok (mk_commit_receipt (revision next) false) ∧
    revision latest = expected_revision tx ∧ revision next = revision latest + 1 ∧
    state_extends latest next ∧
    (∀ id, id ≠ tenant_id (wr_context tx) → bt_get id (tenants next) = bt_get id (tenants latest)) ∧
    (∀ i, identity = Some i → request_of next (tenant_id (wr_context tx)) i =
       Some (id_request_digest i, mk_commit_receipt (revision next) false)).

Definition replayed_request (s s' : InMemoryStore) (tx : WriteTx) (identity : option IdempotencyIdentity)
    (r : res CommitReceipt) : Prop :=
  ∃ latest i old, last (history s) = Some latest ∧ s' = s ∧ identity = Some i ∧
    request_of latest (tenant_id (wr_context tx)) i = Some (id_request_digest i, old) ∧
    r = Ok (mk_commit_receipt (receipt_revision old) true).

Lemma prepare_commit_replay latest tx identity receipt :
  prepare_commit latest tx identity = Ok (None, receipt) →
  ∃ i old, identity = Some i ∧
    request_of latest (tenant_id (wr_context tx)) i = Some (id_request_digest i, old) ∧
    receipt = mk_commit_receipt (receipt_revision old) true.
Proof.
  unfold prepare_commit, request_of, tenant_of. cbv zeta. intros H.
  destruct identity as [i|]; simpl in H; [|do 3 inv_ok H; done].
  destruct (bt_get (tenant_id (wr_context tx)) (tenants latest)) as [t|] eqn:Et; simpl in *.
  - destruct (bt_get (id_scope i, id_key i) (idempotency t)) as [[d old]|] eqn:Ei; [|do 3 inv_ok H; done].
    inv_ok H. injection H as <-. apply oeqb_eq in Hok as ->. exists i, old. by rewrite Ei.
  - do 3 inv_ok H. done.
Qed.

Lemma commit_cases s tx c1 c2 identity s' r :
  store_wf s → built tx → commit s tx c1 c2 identity = (s', r) →
  rejected s s' r ∨ published s s' tx identity r ∨ replayed_request s s' tx identity r.
Proof.
  intros Hwf Hb%built_staged H. unfold commit in H.
  assert (∀ s0 e, history s0 = history s → (s0, Err e) = (s', r) → rejected s s' r) as Hrej.
  { intros s0 e Hs [= <- <-]. split; [done|by eexists]. }
  destruct c1; [left; eapply Hrej; [|exact H]; done|]. destruct (_ || _); [left; eapply Hrej; [|exact H]; done|].
  destruct (last (history s)) as [latest|] eqn:El; [|left; eapply Hrej; [|exact H]; done].
  destruct (prepare_commit latest tx identity) as [[[next|] receipt]|e] eqn:Ep; [| |left; eapply Hrej; [|exact H]; done].
  - destruct c2; [left; eapply Hrej; [|exact H]; done|]. destruct (fail_next_commit s); [left; eapply Hrej; [|exact H]; done|].
    injection H as <- <-. right; left. destruct (last_state_wf _ _ Hwf El) as [Hst _].
    destruct (prepare_commit_new sha256 _ _ _ _ _ Hst Hb Ep) as (Hn & He & Hr & Hx & -> & Ho & Hi).
    exists latest, next. split_and!; try done.
  - injection H as <- <-. right; right. apply prepare_commit_replay in Ep as (i & old & ? & ? & ->).
    by exists latest, i, old.
Qed.

(** The latest state of a later store extends the latest state of this one. *)
Lemma run_extends s s' st st' :
  store_wf s → rtc step s s' → last (history s) = Some st → last (history s') = Some st' →
  state_extends st st'.
Proof.
  intros Hwf Hr. revert st. induction Hr as [x|x y z Hxy Hyz IH]; intros st Hst Hst'.
  - assert (st = st') as -> by congruence. done.
  - pose proof (step_wf _ _ Hwf Hxy) as Hwfy.
    apply step_appends in Hxy as [He|(latest & next & Hl & He & _ & Hx & _)]; [| |done].
    + apply IH; [done|by rewrite He|done].
    + assert (st = latest) as -> by congruence. transitivity next; [done|].
      apply IH; [done|rewrite He; apply last_snoc|done].
Qed.

(** The request log of every later state keeps a recorded request. *)
Lemma request_kept st st' tenant i x :
  state_extends st st' → request_of st tenant i = Some x → request_of st' tenant i = Some x.
Proof.
  intros [_ He]. unfold request_of, tenant_of.
  destruct (bt_get tenant (tenants st)) as [t|] eqn:Et; [|done]. simpl. intros Hq.
  destruct (He _ _ Et) as (t' & Ht' & Hext). rewrite Ht'. simpl. by apply (te_idempotency _ _ Hext).
Qed.

(** ** Theorems *)

(** C2: every store reachable by commits, service batches, worker updates and
    injected failures, in any order, has revision [i] at position [i] of its
    history; every state in it is well formed (validated records, exact atom and
    lineage indexes, acyclic derivation, linked commit and journal chains, unique
    outbox messages, consistent service histories, receipts and leases), and each
    state extends the one before it. *)
Theorem store_invariant s : reachable s → store_wf s.
Proof. apply reachable_wf. Qed.

(** C11: the outcome of [commit] on a reachable store is one of three: an error
    that leaves the history as it is; the publication of exactly one next
    revision, only when the expected revision is the latest, which changes no
    other tenant and records the request identity; or the receipt of the earlier
    identical request, with the store unchanged. *)
Theorem commit_outcomes s tx c1 c2 identity s' r :
  reachable s → built tx → commit s tx c1 c2 identity = (s', r) →
  rejected s s' r ∨ published s s' tx identity r ∨ replayed_request s s' tx identity r.
Proof. intros Hr. by apply commit_cases, reachable_wf. Qed.

Lemma find_revision_lookup s i st :
  store_wf s → history s !! i = Some st → find_revision (Z.of_nat i) (history s) = Some st.
Proof.
  intros Hwf Hi. pose proof (λ j x H, proj1 (sw_state s Hwf j x H)) as Hrev. revert Hrev Hi.
  unfold find_revision. generalize (history s). intros l.
  cut (∀ n, (∀ j x, l !! j = Some x → revision x = Z.of_nat (n + j)) → l !! i = Some st →
            List.find (λ st0, revision st0 =? Z.of_nat (n + i)) l = Some st); [intros H; apply (H O)|].
  revert i. induction l as [|x l IH]; intros i n Hrev; [by rewrite lookup_nil|].
  simpl. rewrite (Hrev O x eq_refl). destruct i as [|i]; simpl.
  - intros [= <-]. by rewrite Z.eqb_refl.
  - intros Hi. rewrite (proj2 (Z.eqb_neq _ _)) by lia. replace (n + S i)%nat with (S n + i)%nat by lia.
    apply IH; [|done]. intros j y Hj. rewrite (Hrev (S j) y Hj). lia.
Qed.

Lemma begin_read_lookup s ctx sel c tx :
  store_wf s → begin_read s ctx sel c = Ok tx →
  history s !! Z.to_nat (revision (rd_state tx)) = Some (rd_state tx) ∧ rd_context tx = ctx.
Proof.
  intros Hwf H. unfold begin_read in H. do 2 inv_ok H. injection H as <-. split; [|done]. simpl.
  inv_ok Hok0. injection Hok0 as <-. destruct sel as [|r].
  - rewrite last_lookup in Eo. destruct (sw_state _ Hwf _ _ Eo) as [-> _]. by rewrite Nat2Z.id.
  - apply find_some in Eo as [Hin _]. apply list_elem_of_In, list_elem_of_lookup_1 in Hin as [i Hi].
    destruct (sw_state _ Hwf _ _ Hi) as [-> _]. by rewrite Nat2Z.id.
Qed.

(** C15: a snapshot is immutable and stays readable: a read transaction opened at
    any time can be opened again at its revision after any further operations,
    with the identical state. *)
Theorem snapshot_stable s s' ctx sel c tx :
  reachable s → begin_read s ctx sel c = Ok tx → rtc step s s' →
  begin_read s' ctx (Revision (revision (rd_state tx))) false = Ok tx.
Proof.
  intros Hr%reachable_wf H Hs. destruct (begin_read_lookup _ _ _ _ _ Hr H) as [Hi <-].
  destruct (run_prefix _ _ Hr Hs) as [l Hl]. pose proof (run_wf _ _ Hr Hs) as Hwf'.
  assert (history s' !! Z.to_nat (revision (rd_state tx)) = Some (rd_state tx)) as Hi'.
  { rewrite Hl. by apply lookup_app_l_Some. }
  unfold begin_read. simpl. pose proof (find_revision_lookup _ _ _ Hwf' Hi') as Hf.
  destruct (sw_state _ Hwf' _ _ Hi') as [Hrev _]. rewrite <- Hrev in Hf. rewrite Hf. simpl. by destruct tx.
Qed.

(** C7: no lost updates: after a transaction has published on an expected
    revision, no other transaction with that expected revision ever publishes,
    whatever runs in between. *)
Theorem no_lost_update s tx c1 c2 identity s1 r s2 tx' d1 d2 identity' s3 r' :
  reachable s → built tx → built tx' → expected_revision tx' = expected_revision tx →
  commit s tx c1 c2 identity = (s1, Ok r) → replayed r = false → rtc step s1 s2 →
  commit s2 tx' d1 d2 identity' = (s3, Ok r') → replayed r' = true.
Proof.
  intros Hr%reachable_wf Hb Hb' Hexp H Hn Hs H'.
  pose proof (step_wf _ _ Hr (step_commit _ _ _ _ _ _ _ Hb H)) as Hw1.
  pose proof (run_wf _ _ Hw1 Hs) as Hw2.
  destruct (commit_cases _ _ _ _ _ _ _ Hr Hb H) as [[_ [e [=]]]|[Hp|(? & ? & ? & _ & _ & _ & _ & [= ->])]]; [|done].
  destruct Hp as (latest & next & Hl & Hh & _ & He & Hrev & _).
  destruct (commit_cases _ _ _ _ _ _ _ Hw2 Hb' H') as [[_ [e [=]]]|[Hp|(? & ? & ? & _ & _ & _ & _ & [= ->])]]; [|done].
  destruct Hp as (latest2 & next2 & Hl2 & _ & _ & He2 & _). exfalso.
  assert (state_extends next latest2) as [Hle _].
  { eapply run_extends; [exact Hw1|exact Hs| |exact Hl2]. rewrite Hh. apply last_snoc. }
  lia.
Qed.

Lemma commit_request s tx c1 c2 i s1 r :
  store_wf s → built tx → commit s tx c1 c2 (Some i) = (s1, Ok r) →
  ∃ st old, last (history s1) = Some st ∧
    request_of st (tenant_id (wr_context tx)) i = Some (id_request_digest i, old) ∧
    receipt_revision old = receipt_revision r.
Proof.
  intros Hr Hb H.
  destruct (commit_cases _ _ _ _ _ _ _ Hr Hb H) as [[_ [e [=]]]|[Hp|Hp]].
  - destruct Hp as (latest & next & Hl & Hh & [= ->] & He & Hrev & _ & _ & Hreq).
    exists next. eexists. split; [rewrite Hh; apply last_snoc|]. split; [by apply Hreq|done].
  - destruct Hp as (latest & i' & old & Hl & -> & [= <-] & Hreq & [= ->]). by exists latest, old.
Qed.

Lemma commit_hit s st tx c2 i d old :
  last (history s) = Some st → request_of st (tenant_id (wr_context tx)) i = Some (d, old) →
  (len (staged tx) =? 0) ||
    (existsb is_outbox (staged tx) && negb (existsb (λ m, negb (is_outbox m)) (staged tx))) = false →
  commit s tx false c2 (Some i) =
    (s, if oeqb d (id_request_digest i) then Ok (mk_commit_receipt (receipt_revision old) true)
        else Err InvalidRecord).
Proof.
  intros Hl Hq Hst. unfold commit. rewrite Hst, Hl. unfold prepare_commit. cbv zeta.
  unfold request_of, tenant_of in Hq.
  destruct (bt_get (tenant_id (wr_context tx)) (tenants st)) as [t|]; [|done]. simpl in *. rewrite Hq.
  unfold ensure. by destruct (oeqb d (id_request_digest i)).
Qed.

(** C4: exactly-once publication: once [commit] has answered a request identity,
    every later commit of the same tenant, scope and key, whatever it stages and
    expects, leaves the store unchanged and answers with the original revision
    when the request digest is the same and [InvalidRecord] when it differs. *)
Theorem commit_exactly_once s tx c1 c2 i s1 r s2 tx' d i' :
  reachable s → built tx → commit s tx c1 c2 (Some i) = (s1, Ok r) → rtc step s1 s2 →
  tenant_id (wr_context tx') = tenant_id (wr_context tx) →
  id_scope i' = id_scope i → id_key i' = id_key i →
  (len (staged tx') =? 0) ||
    (existsb is_outbox (staged tx') && negb (existsb (λ m, negb (is_outbox m)) (staged tx'))) = false →
  commit s2 tx' false d (Some i') =
    (s2, if oeqb (id_request_digest i) (id_request_digest i')
         then Ok (mk_commit_receipt (receipt_revision r) true) else Err InvalidRecord).
Proof.
  intros Hr%reachable_wf Hb H Hs Ht Hsc Hk Hst.
  pose proof (step_wf _ _ Hr (step_commit _ _ _ _ _ _ _ Hb H)) as Hw1.
  destruct (commit_request _ _ _ _ _ _ _ Hr Hb H) as (st1 & old & Hl1 & Hq & <-).
  pose proof (run_wf _ _ Hw1 Hs) as Hw2.
  destruct (last (history s2)) as [st2|] eqn:Hl2; [|apply last_None in Hl2; by destruct (sw_nonempty _ Hw2)].
  pose proof (request_kept _ _ _ _ _ (run_extends _ _ _ _ Hw1 Hs Hl1 Hl2) Hq) as Hq2.
  eapply commit_hit; [exact Hl2| |exact Hst]. unfold request_of in *. by rewrite Ht, Hsc, Hk.
Qed.

(** ** Service batches *)

Definition service_request_of (st : CommittedState) (tenant : text) (i : ServiceIdempotency)
    : option ServiceIdempotencyEntry :=
  bt_get (si_operation i, si_key i) (service_idempotency (tenant_of st tenant)).

Lemma service_request_kept st st' tenant i e :
  state_extends st st' → service_request_of st tenant i = Some e →
  service_request_of st' tenant i = Some e.
Proof.
  intros [_ He]. unfold service_request_of, tenant_of.
  destruct (bt_get tenant (tenants st)) as [t|] eqn:Et; [|done]. simpl. intros Hq.
  destruct (He _ _ Et) as (t' & Ht' & Hext). rewrite Ht'. simpl. by apply (te_service_idempotency _ _ Hext).
Qed.

(** A batch whose request is already recorded. *)
Lemma service_batch_hit st b i e :
  state_wf sha256 st → b_idempotency b = Some i → validate_writes (b_writes b) = Ok tt →
  service_request_of st (b_tenant b) i = Some e →
  apply_service_batch sha256 encoded_len st b =
    if oeqb (se_request_digest e) (si_request_digest i)
    then Ok (None, mk_batch_receipt (br_revision (se_receipt e)) (br_records (se_receipt e))
                     (br_response (se_receipt e)) true)
    else Err IdempotencyConflict.
Proof.
  intros Hwf Hi Hv Hq. unfold apply_service_batch. rewrite Hv, Hi. cbv zeta. simpl.
  unfold service_request_of, tenant_of in Hq.
  destruct (bt_get (b_tenant b) (tenants st)) as [t|] eqn:Et; [|done]. simpl in *. rewrite Hq.
  rewrite (entry_valid sha256 st _ t _ e Hwf Et Hq). simpl. unfold ensure.
  by destruct (oeqb (se_request_digest e) (si_request_digest i)).
Qed.

Lemma apply_service_batch_replay st b receipt :
  apply_service_batch sha256 encoded_len st b = Ok (None, receipt) →
  ∃ i e, b_idempotency b = Some i ∧ service_request_of st (b_tenant b) i = Some e ∧
    se_request_digest e = si_request_digest i ∧ br_revision receipt = br_revision (se_receipt e) ∧
    br_records receipt = br_records (se_receipt e) ∧ br_response receipt = br_response (se_receipt e).
Proof.
  intros H. unfold apply_service_batch in H. inv_ok H. cbv zeta in H. unfold service_request_of, tenant_of.
  destruct (b_idempotency b) as [i|] eqn:Ei; simpl in H; [|do 5 inv_ok H; done].
  destruct (bt_get (b_tenant b) (tenants st)) as [t|] eqn:Et; simpl in *; [|do 5 inv_ok H; done].
  destruct (bt_get (si_operation i, si_key i) (service_idempotency t)) as [e|] eqn:Ee; [|do 5 inv_ok H; done].
  do 2 inv_ok H. apply oeqb_eq in Hok1. injection H as <-. exists i, e. done.
Qed.

(** After a batch with an identity is answered, the latest state records it. *)
Lemma service_commit_request s b c1 c2 i s1 r :
  store_wf s → validate_response sha256 (b_response b) = Ok tt → b_idempotency b = Some i →
  service_commit sha256 encoded_len s b c1 c2 = (s1, Ok r) →
  ∃ st e, last (history s1) = Some st ∧ service_request_of st (b_tenant b) i = Some e ∧
    se_request_digest e = si_request_digest i ∧ br_revision r = br_revision (se_receipt e) ∧
    br_records r = br_records (se_receipt e) ∧ br_response r = br_response (se_receipt e).
Proof.
  intros Hwf Hv Hi H. unfold service_commit in H. destruct c1; [done|].
  destruct (last (history s)) as [st|] eqn:El; [|done].
  destruct (apply_service_batch _ _ st b) as [[next receipt]|e] eqn:Ep; [|done].
  destruct (last_state_wf _ _ Hwf El) as [Hst _]. destruct next as [next|].
  - destruct (apply_service_batch_new sha256 sha_ok encoded_len _ _ _ _ Hst Hv Ep)
      as (_ & _ & _ & _ & Hrep & _ & _ & Hreq). rewrite Hrep in H.
    destruct c2; [done|]. destruct (fail_next_commit s); [done|]. injection H as <- <-.
    exists next, (mk_service_entry (si_request_digest i) receipt).
    split; [apply last_snoc|]. split; [by apply Hreq|]. done.
  - pose proof Ep as Ep'. apply apply_service_batch_replay in Ep as (i' & e & Hi' & Hreq & Hd & Hx).
    assert (i' = i) as -> by congruence. destruct (br_replayed receipt).
    + injection H as <- <-. by exists st, e.
    + destruct c2; [done|]. by destruct (fail_next_commit s).
Qed.

(** C12: exactly-once service batches: once [service_commit] has answered a
    request identity, every later valid batch of the same tenant, operation and
    key leaves the store unchanged and answers with the original revision,
    record versions and exact response when the request digest is the same, and
    with [IdempotencyConflict] when it differs; the retained receipt is never
    found corrupt. *)
Theorem service_exactly_once s b c1 c2 status ct bytes i s1 r s2 b' d i' :
  reachable s → response_new sha256 status ct bytes = Ok (b_response b) → b_idempotency b = Some i →
  service_commit sha256 encoded_len s b c1 c2 = (s1, Ok r) → rtc step s1 s2 →
  b_tenant b' = b_tenant b → b_idempotency b' = Some i' → validate_writes (b_writes b') = Ok tt →
  si_operation i' = si_operation i → si_key i' = si_key i →
  service_commit sha256 encoded_len s2 b' false d =
    (s2, if oeqb (si_request_digest i) (si_request_digest i')
         then Ok (mk_batch_receipt (br_revision r) (br_records r) (br_response r) true)
         else Err IdempotencyConflict).
Proof.
  intros Hr%reachable_wf Hresp Hi H Hs Ht Hi' Hv Hop Hk.
  apply response_new_valid in Hresp as Hval; [|done].
  pose proof (step_wf _ _ Hr (step_service _ _ _ _ _ _ _ _ _ Hresp H)) as Hw1.
  destruct (service_commit_request _ _ _ _ _ _ _ Hr Hval Hi H) as (st1 & e & Hl1 & Hq & <- & -> & -> & ->).
  pose proof (run_wf _ _ Hw1 Hs) as Hw2.
  destruct (last (history s2)) as [st2|] eqn:Hl2; [|apply last_None in Hl2; by destruct (sw_nonempty _ Hw2)].
  pose proof (service_request_kept _ _ _ _ _ (run_extends _ _ _ _ Hw1 Hs Hl1 Hl2) Hq) as Hq2.
  destruct (last_state_wf _ _ Hw2 Hl2) as [Hst2 _].
  unfold service_commit. rewrite Hl2. rewrite (service_batch_hit st2 b' i' e Hst2 Hi' Hv).
  - by destruct (oeqb _ _).
  - unfold service_request_of in *. by rewrite Ht, Hop, Hk.
Qed.

(** C16: the retained service state of a reachable store is never found corrupt:
    the full validation that guards reopening a store accepts its latest state
    whenever every tenant's service state fits the retained-bytes limit. *)
Theorem service_state_valid s st :
  reachable s → last (history s) = Some st →
  (∀ id t, bt_get id (tenants st) = Some t → ∃ n,
     encoded_len (service_records t) (service_idempotency t) (worker_states t) = Some n ∧
     n ≤ MAX_RETAINED_SERVICE_STATE_BYTES) →
  validate_committed_service_state sha256 encoded_len st = Ok tt.
Proof.
  intros Hr%reachable_wf Hl Henc. destruct (last_state_wf _ _ Hr Hl) as [Hst _].
  by apply committed_state_valid.
Qed.

End run.
End StoreRun.
