(* ===== verification/StoreQueries.v ===== *)
(** * Repository queries

    Continuation cursors enumerate a snapshot exactly once and in order; the
    active-atom query answers with the newest version of a lineage; the cycle
    check terminates with the right answer; rebuilding the atom indexes of an
    older encoding yields the indexes the repository would have maintained. *)

From S2P Require Import Prelude Collections Canon BrokerAuth Protocol Catalog Store Service.
From S2P Require Import StoreFacts ServiceFacts StoreRun.
From stdpp Require Import relations sorting.
From Stdlib Require Import Sorting.Sorted.
Import Protocol Catalog Store Service StoreFacts ServiceFacts StoreRun.
Local Open Scope Z_scope.

Module StoreQueries.

(** ** Cursors over an ordered list *)

Section paging.
Context {A K : Type} `{TotalOrd K} (key : A → K).

Definition after (a : option K) (l : list A) : list A :=
  List.filter (λ x, is_none_or (λ k, oltb k (key x)) a) l.

Lemma after_none l : after None l = l.
Proof. unfold after; simpl. induction l as [|x l IH]; simpl; [done|by f_equal]. Qed.

(** The elements after [x] in an ordered list. *)
Lemma after_suffix pre x suf :
  StronglySorted olt (map key (pre ++ x :: suf)) → after (Some (key x)) (pre ++ x :: suf) = suf.
Proof.
  unfold after. rewrite map_app. intros Hs. apply StronglySorted_app in Hs as (Hlt & _ & Hx). simpl in Hx.
  rewrite List.filter_app. inversion_clear Hx as [|? ? Hsuf Hall].
  assert (List.filter (λ y, oltb (key x) (key y)) pre = []) as Hpre.
  { clear Hall Hsuf. induction pre as [|y pre IH]; simpl; [done|].
    rewrite IH. 2: { intros a b Ha. apply Hlt. simpl. by right. }
    destruct (oltb (key x) (key y)) eqn:E; [|done]. apply oltb_lt in E. exfalso.
    apply (olt_irrefl (key x)). transitivity (key y); [done|]. apply Hlt; left. }
  simpl is_none_or. rewrite Hpre. simpl. destruct (oltb (key x) (key x)) eqn:E;
    [apply oltb_lt in E; by apply olt_irrefl in E|].
  clear -Hall. induction suf as [|y suf IH]; simpl in *; [done|]. inversion_clear Hall as [|? ? Hy Hrest].
  apply oltb_lt in Hy. rewrite Hy. by rewrite IH.
Qed.

Lemma last_take_split n (suf : list A) :
  (0 < n < length suf)%nat → ∃ pre x rest, suf = pre ++ x :: rest ∧ take n suf = pre ++ [x].
Proof.
  revert suf. induction n as [|n IH]; intros [|y suf] Hn; simpl in *; try lia.
  destruct n as [|n].
  - exists [], y, suf. by rewrite take_0.
  - destruct (IH suf) as (pre & x & rest & -> & Ht); [lia|]. exists (y :: pre), x, rest. by rewrite Ht.
Qed.

(** One page after the cursor and the key to continue from. *)
Definition page (limit : nat) (a : option K) (l : list A) : list A * option K :=
  (take limit (after a l),
   if (limit <? length (after a l))%nat then key <$> last (take limit (after a l)) else None).

Fixpoint pages (fuel limit : nat) (a : option K) (l : list A) : option (list A) :=
  match fuel with
  | O => None
  | S fuel =>
      match page limit a l with
      | (items, None) => Some items
      | (items, Some k) => rest ← pages fuel limit (Some k) l; Some (items ++ rest)
      end
  end.

Lemma pages_suffix limit l fuel : ∀ pre suf a,
  (0 < limit)%nat → StronglySorted olt (map key l) → l = pre ++ suf → after a l = suf →
  (length suf < fuel)%nat → pages fuel limit a l = Some suf.
Proof.
  induction fuel as [|fuel IH]; intros pre suf a Hlim Hs Hl Ha Hf; [lia|]. simpl. rewrite Ha.
  destruct (Nat.ltb_spec limit (length suf)) as [Hlt|Hge].
  - destruct (last_take_split limit suf) as (p & x & rest & -> & Ht); [lia|]. rewrite Ht, last_snoc. simpl.
    rewrite (IH (pre ++ p ++ [x]) rest (Some (key x))); [|done|done| | |].
    + simpl. by rewrite <- app_assoc.
    + rewrite Hl. by rewrite <- !app_assoc.
    + subst l. rewrite app_assoc in Hs |- *. by apply after_suffix.
    + rewrite !length_app in Hf. simpl in Hf. lia.
  - by rewrite take_ge.
Qed.

Lemma pages_all limit l :
  (0 < limit)%nat → StronglySorted olt (map key l) → pages (S (length l)) limit None l = Some l.
Proof. intros Hlim Hs. apply (pages_suffix limit l _ []); try done; [apply after_none|lia]. Qed.

End paging.

Lemma filter_and {A} (p q : A → bool) l :
  List.filter (λ x, p x && q x) l = List.filter p (List.filter q l).
Proof.
  induction l as [|x l IH]; simpl; [done|]. rewrite IH.
  destruct (q x); simpl; [|by rewrite andb_false_r]. by rewrite andb_true_r.
Qed.

Lemma sorted_filter {K V} `{TotalOrd K} (p : K * V → bool) (m : btree K V) :
  bt_wf m → StronglySorted olt (map fst (List.filter p m)).
Proof.
  unfold bt_wf, bt_keys. induction m as [|[k v] m IH]; simpl; [constructor|]. intros Hs.
  inversion_clear Hs as [|? ? Hm Hk]. destruct (p (k, v)); simpl; [|by apply IH].
  constructor; [by apply IH|]. rewrite Forall_forall in *. intros j Hj. apply Hk.
  apply list_elem_of_In, in_map_iff in Hj as (x & <- & Hx). apply filter_In in Hx as [Hx _].
  apply list_elem_of_In, in_map_iff. by exists x.
Qed.

(** The look-ahead of one element decides whether more than a page matches. *)
Lemma has_more {A B} (f : A → B) limit m : 0 < limit →
  (limit <? len (map f (take (Z.to_nat (limit + 1)) m))) = (Z.to_nat limit <? length m)%nat.
Proof.
  intros Hlim. unfold len. rewrite length_map, length_take.
  destruct (Z.ltb_spec limit (Z.of_nat (Z.to_nat (limit + 1) `min` length m)%nat)),
    (Nat.ltb_spec (Z.to_nat limit) (length m)); try done; lia.
Qed.

(** ** Atom queries *)

(** The atoms of the snapshot's tenant that match the selector, in order. *)
Definition matching_entries (tx : ReadTx) (sel : AtomSelector) : btree text ContextAtomV1 :=
  List.filter (λ e, is_none_or (λ k, bool_decide (atom_kind e.2 = k)) (sel_kind sel))
    (match rd_tenant tx with Some t => atoms t | None => [] end).

Definition atom_cursor (tx : ReadTx) (k : text) : AtomCursor := mk_atom_cursor (revision (rd_state tx)) k.

Lemma query_atoms_page tx sel limit a :
  (∀ t v x, rd_tenant tx = Some t → bt_get v (atoms t) = Some x → version_id x = v) →
  (∀ t, rd_tenant tx = Some t → bt_wf (atoms t)) → 0 < limit ≤ MAX_QUERY_PAGE_ITEMS →
  query_atoms tx false sel limit (atom_cursor tx <$> a) =
    let p := page fst (Z.to_nat limit) a (matching_entries tx sel) in
    Ok (mk_atom_page (map snd p.1) (atom_cursor tx <$> p.2)).
Proof.
  intros Hkey Hwf Hlim. unfold query_atoms. simpl check. simpl mbind.
  rewrite (proj2 (Z.eqb_neq limit 0)), (proj2 (Z.ltb_ge MAX_QUERY_PAGE_ITEMS limit)) by lia. simpl orb.
  assert (is_some_and (λ cur, negb (cur_revision cur =? revision (rd_state tx))) (atom_cursor tx <$> a) = false) as ->.
  { destruct a; simpl; [by rewrite Z.eqb_refl|done]. }
  cbv zeta iota. set (all := match rd_tenant tx with Some t => atoms t | None => [] end).
  set (m := after fst a (matching_entries tx sel)).
  assert (List.filter (λ '(version, x), is_none_or (λ cur, oltb (cur_last_version cur) version) (atom_cursor tx <$> a) &&
            is_none_or (λ k, bool_decide (atom_kind x = k)) (sel_kind sel)) all = m) as ->.
  { subst m. unfold after, matching_entries. rewrite <- filter_and. apply filter_ext. intros [v x].
    by destruct a. }
  assert (∀ e, e ∈ m → version_id e.2 = e.1) as Hm.
  { intros [v x] Hin%list_elem_of_In. subst m. unfold after, matching_entries in Hin.
    apply filter_In in Hin as [Hin _]. apply filter_In in Hin as [Hin _]. simpl.
    destruct (rd_tenant tx) as [t|] eqn:Et; [|done]. apply (Hkey t v x eq_refl).
    apply bt_In_get; [by apply Hwf|done]. }
  unfold page. fold m. simpl fst. simpl snd.
  rewrite has_more by lia.
  destruct (Nat.ltb_spec (Z.to_nat limit) (length m)) as [Hlt|Hge].
  - rewrite firstn_map, take_take. replace (Z.to_nat limit `min` Z.to_nat (limit + 1))%nat with (Z.to_nat limit) by lia.
    do 2 f_equal. change (map snd) with (fmap (M := list) (@snd text ContextAtomV1)). rewrite fmap_last.
    destruct (last (take (Z.to_nat limit) m)) as [e|] eqn:El; simpl; [|done].
    rewrite (Hm e); [done|]. apply last_Some_elem_of in El. by apply subseteq_take in El.
  - by rewrite !take_ge by lia.
Qed.

(** A client that follows the continuation cursors of [query_atoms]. *)
Fixpoint fetch_atoms (fuel : nat) (tx : ReadTx) (sel : AtomSelector) (limit : Z)
    (cursor : option AtomCursor) : res (option (list ContextAtomV1)) :=
  match fuel with
  | O => Ok None
  | S fuel =>
      p ← query_atoms tx false sel limit cursor;
      match page_next p with
      | None => Ok (Some (page_items p))
      | Some c =>
          rest ← fetch_atoms fuel tx sel limit (Some c);
          Ok (app (page_items p) <$> rest)
      end
  end.

Lemma fetch_atoms_pages tx sel limit fuel :
  (∀ t v x, rd_tenant tx = Some t → bt_get v (atoms t) = Some x → version_id x = v) →
  (∀ t, rd_tenant tx = Some t → bt_wf (atoms t)) → 0 < limit ≤ MAX_QUERY_PAGE_ITEMS →
  ∀ a, fetch_atoms fuel tx sel limit (atom_cursor tx <$> a) =
       Ok (map snd <$> pages fst fuel (Z.to_nat limit) a (matching_entries tx sel)).
Proof.
  intros Hkey Hwf Hlim. induction fuel as [|fuel IH]; intros a; [done|]. cbn [fetch_atoms].
  rewrite query_atoms_page by done. cbn [pages].
  destruct (page fst (Z.to_nat limit) a (matching_entries tx sel)) as [items [k|]]; [|done].
  specialize (IH (Some k)). simpl in IH |- *. rewrite IH. simpl.
  destruct (pages fst fuel (Z.to_nat limit) (Some k) (matching_entries tx sel)); simpl; [|done].
  by rewrite map_app.
Qed.

(** ** Rebuilding the atom indexes *)

(** The lineage index of a catalog is determined by its atoms. *)
Lemma newest_unique tenant m by_id current es l v v' :
  catalog_wf tenant m by_id current es → newest m l v → newest m l v' → v = v'.
Proof.
  intros Hwf (a & Ha & Hla & Hmax) (b & Hb & Hlb & Hmax').
  eapply (age_inj m v v' a b); [exact Hwf|done|done|].
  apply oleb_antisym; [by eapply Hmax'|by eapply Hmax].
Qed.

Lemma catalog_indexes_unique tenant m by_id by_id' current current' es es' :
  catalog_wf tenant m by_id current es → catalog_wf tenant m by_id' current' es' →
  by_id' = by_id ∧ current' = current.
Proof.
  intros H1 H2. split; apply bt_ext; try apply H1; try apply H2.
  - intros id. apply option_eq. intros v. rewrite (cw_index _ _ _ _ _ H1), (cw_index _ _ _ _ _ H2). done.
  - intros l. destruct (bt_get l current') as [v'|] eqn:E', (bt_get l current) as [v|] eqn:E; [|exfalso|exfalso|done].
    + f_equal. eapply newest_unique; [exact H1|by eapply (cw_newest _ _ _ _ _ H2)|by eapply (cw_newest _ _ _ _ _ H1)].
    + destruct (cw_newest _ _ _ _ _ H2 _ _ E') as (a & Ha & <- & _).
      destruct (cw_lineage _ _ _ _ _ H1 _ _ Ha). congruence.
    + destruct (cw_newest _ _ _ _ _ H1 _ _ E) as (a & Ha & <- & _).
      destruct (cw_lineage _ _ _ _ _ H2 _ _ Ha). congruence.
Qed.

Lemma bt_get_snoc {K V} `{TotalOrd K} (m : btree K V) k v j :
  k ∉ bt_keys m → bt_get j (m ++ [(k, v)]) = if oeqb j k then Some v else bt_get j m.
Proof.
  induction m as [|[k' v'] m IH]; intros Hn; simpl; [done|].
  apply not_elem_of_cons in Hn as [Hne Hn]. rewrite (IH Hn).
  destruct (oeqb j k') eqn:E; [|done]. apply oeqb_eq in E as ->.
  destruct (oeqb k' k) eqn:E2; [|done]. apply oeqb_eq in E2 as ->. by destruct Hne.
Qed.

Lemma bt_wf_app_l {K V} `{TotalOrd K} (m m' : btree K V) : bt_wf (m ++ m') → bt_wf m.
Proof. unfold bt_wf, bt_keys. rewrite map_app. apply StronglySorted_app_1_l. Qed.

(** The atoms before position [n] of the iteration, with the indexes built so far. *)
Lemma rebuild_loop_ok tenant all by_id0 current0 es rest : ∀ done_ by_id current,
  catalog_wf tenant all by_id0 current0 es → all = done_ ++ rest →
  catalog_wf tenant done_ by_id current [] →
  ∃ p, rebuild_loop all by_id current (bt_values rest) = Ok p ∧ catalog_wf tenant all p.1 p.2 [].
Proof.
  induction rest as [|[v a] rest IH]; intros done_ by_id current Hall Heq Hd; simpl.
  { exists (by_id, current). rewrite app_nil_r in Heq. by subst. }
  pose proof (cw_atoms _ _ _ _ _ Hall) as Hwf. rewrite Heq in Hwf.
  assert (v ∉ bt_keys done_) as Hnew.
  { apply bt_wf_NoDup in Hwf. unfold bt_keys in Hwf. rewrite map_app in Hwf. simpl in Hwf.
    apply NoDup_app in Hwf as (_ & Hx & _). intros Hin. apply (Hx v Hin). left. }
  assert (bt_get v all = Some a) as Hva.
  { rewrite Heq. apply bt_In_get; [done|]. apply in_or_app. right. by left. }
  destruct (cw_atom _ _ _ _ _ Hall _ _ Hva) as (Hver & Hval & Hten).
  set (m' := done_ ++ [(v, a)]).
  assert (∀ j, bt_get j m' = if oeqb j (version_id a) then Some a else bt_get j done_) as Hm'.
  { intros j. rewrite Hver. by apply bt_get_snoc. }
  assert (∀ j x, bt_get j done_ = Some x → bt_get j all = Some x) as Hsub.
  { intros j x Hj. rewrite Heq. apply bt_In_get; [done|]. apply in_or_app. left. by apply bt_get_In. }
  assert (∀ w, bt_get (version_id a) done_ = Some w → w = a) as Hsame.
  { intros w Hw. apply Hsub in Hw. rewrite Hver in Hw. congruence. }
  assert (is_none_or (λ x, oeqb x (version_id a)) (bt_get (atom_id a) by_id) = true) as Hid.
  { destruct (bt_get (atom_id a) by_id) as [x|] eqn:Ex; simpl; [|done].
    apply (cw_index _ _ _ _ _ Hd) in Ex as (b & Hb & Hbid). apply oeqb_eq. rewrite Hver.
    assert (bt_get (atom_id a) by_id0 = Some x) as H1 by (apply (cw_index _ _ _ _ _ Hall); exists b; auto).
    assert (bt_get (atom_id a) by_id0 = Some v) as H2 by (apply (cw_index _ _ _ _ _ Hall); exists a; auto).
    congruence. }
  assert (∃ c, update_current_lineage all current a = Ok c ∧ update_current_lineage m' current a = Ok c)
    as (c & Hc & Hc').
  { unfold update_current_lineage. destruct (bt_get (lineage_id a) current) as [x|] eqn:Ex; simpl; [|eauto].
    destruct (cw_newest _ _ _ _ _ Hd _ _ Ex) as (b & Hb & _).
    rewrite (Hsub _ _ Hb), (add_atom_mono _ _ _ Hm' Hsame _ _ Hb). simpl. eauto. }
  unfold ensure.
  assert (is_some_and (λ x, negb (oeqb x (version_id a))) (bt_get (atom_id a) by_id) = false) as ->.
  { destruct (bt_get (atom_id a) by_id); simpl in *; [by rewrite Hid|done]. }
  simpl. rewrite Hc. simpl.
  apply (IH m'); [done|by rewrite Heq; unfold m'; rewrite <- app_assoc|].
  apply (catalog_add_atom _ _ _ _ _ _ _ Hd Hm' Hsame); try done.
  unfold m'. apply (bt_wf_app_l _ rest). by rewrite <- app_assoc.
Qed.

(** ** Effect recovery *)

Definition recovery_item (t : TenantState) (kv : text * EffectRecordEnvelope) : EffectRecoveryItem :=
  mk_recovery_item kv.2 (l ← bt_get kv.1 (effects t); last l).

Definition effect_cursor (st : CommittedState) (tenant k : text) : EffectRecoveryCursor :=
  mk_effect_cursor tenant (revision st) k.

Lemma filter_after_fst {V} (a : option text) (m : btree text V) (f : text → EffectRecoveryCursor) :
  (∀ k, ec_last_effect_id (f k) = k) →
  List.filter (λ kv, is_none_or (λ x, oltb x kv.1) (ec_last_effect_id <$> (f <$> a))) m = after fst a m.
Proof. intros Hf. unfold after. apply filter_ext. intros [k v]. destruct a; simpl; [by rewrite Hf|done]. Qed.

Section recovery.
Context (sha256 : list Z → list Z).
Context (sha_ok : ∀ m, Auth.digest_ok (sha256 m)).
Context (st : CommittedState) (tenant : text) (t : TenantState).
Context (Ht : bt_get tenant (tenants st) = Some t).
Context (Hwf : tenant_wf sha256 tenant (revision st) t).

Lemma recovery_checked l :
  l ⊆ effect_records t →
  for_each (λ item,
    d ← exact_digest sha256 (env_bytes (ri_record item));
    ensure (oeqb d (env_record_digest (ri_record item)) &&
            bool_decide (bt_get (env_effect_id (ri_record item)) (effect_records t) = Some (ri_record item)))
      corrupt) (map (recovery_item t) l) = Ok tt.
Proof.
  intros Hl. apply for_each_ok, Forall_fmap, Forall_forall. intros [k r] Hin%Hl. simpl.
  apply list_elem_of_In, (bt_In_get _ _ _ (tw_records _ _ _ _ Hwf)) in Hin.
  destruct (tw_record _ _ _ _ Hwf _ _ Hin) as (-> & _ & _ & Hd).
  rewrite exact_digest_ok by done. simpl. rewrite Hd, oeqb_refl, bool_decide_eq_true_2 by done. done.
Qed.

Lemma effect_recovery_page limit a :
  0 < limit ≤ MAX_SERVICE_PAGE_ITEMS →
  effect_recovery_from_state sha256 st (mk_effect_query tenant limit (effect_cursor st tenant <$> a)) =
    let p := page fst (Z.to_nat limit) a (effect_records t) in
    Ok (mk_effect_page (revision st) (map (recovery_item t) p.1) (effect_cursor st tenant <$> p.2)).
Proof.
  intros Hlim. unfold effect_recovery_from_state. simpl. rewrite Ht.
  assert (is_none_or (λ c, oeqb (ec_tenant c) tenant && (ec_revision c =? revision st))
            (effect_cursor st tenant <$> a) = true) as ->
    by (destruct a; simpl; [by rewrite oeqb_refl, Z.eqb_refl|done]). simpl.
  rewrite (filter_after_fst a (effect_records t) (effect_cursor st tenant)) by done.
  set (m := after fst a (effect_records t)).
  assert (m ⊆ effect_records t) as Hm.
  { intros x Hx%list_elem_of_In. unfold m, after in Hx. apply filter_In in Hx as [Hx _]. by apply list_elem_of_In. }
  change (map (λ kv, mk_recovery_item kv.2 (l ← bt_get kv.1 (effects t); last l)) m) with (map (recovery_item t) m).
  assert (saturating_add limit 1 = limit + 1) as ->
    by (unfold saturating_add, MAX_SERVICE_PAGE_ITEMS, u64_max in *; lia).
  rewrite firstn_map, recovery_checked; [|intros x Hx%subseteq_take; auto]. simpl.
  unfold paginate, page. fold m. simpl. rewrite firstn_map, take_take.
  replace (Z.to_nat limit `min` Z.to_nat (limit + 1))%nat with (Z.to_nat limit) by lia.
  rewrite has_more by lia.
  do 2 f_equal. destruct (Z.to_nat limit <? length m)%nat; [|done].
  change (map (recovery_item t)) with (fmap (M := list) (recovery_item t)). rewrite fmap_last.
  destruct (last (take (Z.to_nat limit) m)) as [[k r]|] eqn:El; simpl; [|done]. unfold effect_cursor.
  apply last_Some_elem_of, subseteq_take, Hm, list_elem_of_In in El.
  apply (bt_In_get _ _ _ (tw_records _ _ _ _ Hwf)) in El.
  by destruct (tw_record _ _ _ _ Hwf _ _ El) as [-> _].
Qed.

End recovery.

(** A client that follows the continuation cursors of effect recovery. *)
Fixpoint fetch_effects (sha256 : list Z → list Z) (fuel : nat) (st : CommittedState)
    (q : EffectRecoveryQuery) : sres (option (list EffectRecoveryItem)) :=
  match fuel with
  | O => Ok None
  | S fuel =>
      p ← effect_recovery_from_state sha256 st q;
      match ep_next p with
      | None => Ok (Some (ep_items p))
      | Some c =>
          rest ← fetch_effects sha256 fuel st (mk_effect_query (eq_tenant q) (eq_limit q) (Some c));
          Ok (app (ep_items p) <$> rest)
      end
  end.

Lemma fetch_effects_pages sha256 st tenant t limit fuel :
  (∀ m, Auth.digest_ok (sha256 m)) → bt_get tenant (tenants st) = Some t →
  tenant_wf sha256 tenant (revision st) t → 0 < limit ≤ MAX_SERVICE_PAGE_ITEMS →
  ∀ a, fetch_effects sha256 fuel st (mk_effect_query tenant limit (effect_cursor st tenant <$> a)) =
       Ok (map (recovery_item t) <$> pages fst fuel (Z.to_nat limit) a (effect_records t)).
Proof.
  intros Hsha Ht Hwf Hlim. induction fuel as [|fuel IH]; intros a; [done|]. cbn [fetch_effects].
  rewrite (effect_recovery_page sha256 Hsha st tenant t Ht Hwf) by done. cbn [pages].
  destruct (page fst (Z.to_nat limit) a (effect_records t)) as [items [k|]]; [|done].
  specialize (IH (Some k)). simpl in IH |- *. rewrite IH. simpl.
  destruct (pages fst fuel (Z.to_nat limit) (Some k) (effect_records t)); simpl; [|done].
  by rewrite map_app.
Qed.

(** ** The cycle check *)

Lemma cycle_loop_err es target fuel : ∀ pending visited e,
  NoDup visited → cycle_loop fuel es target pending visited = Some (Err e) →
  ∃ V : list text, e = StoreLimitExceeded ∧ NoDup V ∧ MAX_DERIVATION_VISITED < len V ∧
    V ⊆ visited ++ pending ++ map to_version (bt_values es).
Proof.
  induction fuel as [|fuel IH]; intros [|current pending] visited e Hnd; cbn [cycle_loop]; try done.
  destruct (oeqb current target); [done|]. destruct (existsb (oeqb current) visited) eqn:Hv.
  { intros H. destruct (IH _ _ _ Hnd H) as (V & -> & HV & Hlen & Hsub). exists V. split_and!; try done.
    intros x Hx. specialize (Hsub x Hx). rewrite !elem_of_app, elem_of_cons in *. tauto. }
  assert (NoDup (current :: visited)) as Hnd'.
  { constructor; [|done]. intros Hin%existsb_oeqb_elem. congruence. }
  cbv zeta. destruct (MAX_DERIVATION_VISITED <? len (current :: visited)) eqn:Hl.
  - intros [= <-]. exists (current :: visited). bsplit. split_and!; try done.
    intros x. rewrite !elem_of_app, !elem_of_cons. tauto.
  - intros H. destruct (IH _ _ _ Hnd' H) as (V & -> & HV & Hlen & Hsub). exists V. split_and!; try done.
    intros x Hx. specialize (Hsub x Hx). rewrite !elem_of_app, elem_of_cons, elem_of_rev in Hsub.
    rewrite !elem_of_app, elem_of_cons. destruct Hsub as [[->|?]|[[Hd|?]|?]]; [tauto|tauto| |tauto|tauto].
    right; right. apply derives_spec in Hd as (id & ed & Hin & _ & _ & <-). apply list_elem_of_In, in_map_iff.
    exists ed. split; [done|]. apply in_map_iff. by exists (id, ed).
Qed.

(** C14: the depth-first cycle check terminates within its fuel and is exact: for
    a derivation edge its answer is whether the edge's source is reachable from
    its target along stored derivation edges, and it gives that answer, rather
    than the visited-set limit, on every graph of fewer than 100,000 edges. *)
Theorem cycle_check_exact es c :
  edge_kind c = DerivedFrom →
  cycle_loop (S (S (length es))) es (from_version c) [to_version c] [] ≠ None ∧
  (∀ b, creates_derivation_cycle es c = Ok b →
     b = true ↔ rtc (derives es) (to_version c) (from_version c)) ∧
  (len es < MAX_DERIVATION_VISITED → ∃ b, creates_derivation_cycle es c = Ok b).
Proof.
  intros Hk.
  assert (cycle_loop (S (S (length es))) es (from_version c) [to_version c] [] ≠ None) as Hfuel.
  { apply cycle_loop_fuel. simpl. pose proof (filter_length_le (unvisited []) (bt_values es)) as Hle.
    unfold bt_values in *. rewrite length_map in Hle. lia. }
  split; [done|]. split; [intros b; by apply creates_derivation_cycle_spec|]. intros Hlen.
  unfold creates_derivation_cycle. rewrite decide_False by (intros Hn; by apply Hn).
  destruct (cycle_loop _ es _ _ _) as [[b|e]|] eqn:El; [by exists b| |done]. exfalso.
  apply cycle_loop_err in El as (V & _ & Hnd & Hlong & Hsub); [|constructor].
  assert (length V ≤ length (to_version c :: map to_version (bt_values es)))%nat as Hle.
  { apply NoDup_incl_length; [by apply NoDup_ListNoDup|]. intros x Hx%list_elem_of_In. by apply list_elem_of_In, Hsub. }
  simpl in Hle. unfold bt_values in Hle. rewrite !length_map in Hle. unfold len in *. lia.
Qed.

Section run.
Context (sha256 : list Z → list Z).
Context (sha_ok : ∀ m, Auth.digest_ok (sha256 m)).
Context (encoded_len : btree (text * text) (list ServiceRecord) →
                       btree (text * text) ServiceIdempotencyEntry →
                       btree text WorkerState → option Z).

Lemma read_state_wf s ctx sel c tx :
  reachable sha256 encoded_len s → begin_read s ctx sel c = Ok tx → state_wf sha256 (rd_state tx).
Proof.
  intros Hr%reachable_wf H; [|done]. destruct (begin_read_lookup sha256 _ _ _ _ _ Hr H) as [Hi _].
  by apply (sw_state _ _ Hr) in Hi as [_ ?].
Qed.

Lemma read_tenant_wf s ctx sel c tx t :
  reachable sha256 encoded_len s → begin_read s ctx sel c = Ok tx → rd_tenant tx = Some t →
  tenant_wf sha256 (tenant_id (rd_context tx)) (revision (rd_state tx)) t.
Proof. intros Hr H Ht. by apply (st_tenant _ _ (read_state_wf _ _ _ _ _ Hr H)). Qed.

(** C17: following the continuation cursors of [query_atoms] on one snapshot, with
    any page size, returns every atom of the tenant that matches the selector
    exactly once, in version order, and terminates. *)
Theorem atom_query_complete s ctx sel c tx selector limit :
  reachable sha256 encoded_len s → begin_read s ctx sel c = Ok tx → 0 < limit ≤ MAX_QUERY_PAGE_ITEMS →
  fetch_atoms (S (length (matching_entries tx selector))) tx selector limit None =
    Ok (Some (map snd (matching_entries tx selector))).
Proof.
  intros Hr H Hlim. pose proof (λ t, read_tenant_wf _ _ _ _ _ t Hr H) as Hwf.
  rewrite (fetch_atoms_pages tx selector limit _ ) with (a := None); [|..|done].
  - rewrite pages_all; [done|lia|]. apply sorted_filter.
    destruct (rd_tenant tx) as [t|]; [|constructor]. apply (Hwf t eq_refl).
  - intros t v x Ht Hx. by apply (cw_atom _ _ _ _ _ (tw_catalog _ _ _ _ (Hwf t Ht)) _ _ Hx).
  - intros t Ht. apply (Hwf t Ht).
Qed.

(** C24: [get_active_atom_by_id] never reports an inconsistent index on a reachable
    store, and returns an atom exactly when it is stored under the requested
    identity, is active, and is the newest version of its lineage. *)
Theorem active_atom_exact s ctx sel c tx id :
  reachable sha256 encoded_len s → begin_read s ctx sel c = Ok tx →
  ∃ r, get_active_atom_by_id tx false id = Ok r ∧
    ∀ a, r = Some a ↔ ∃ t, rd_tenant tx = Some t ∧ bt_get (version_id a) (atoms t) = Some a ∧
                         atom_id a = id ∧ lifecycle a = Active ∧
                         newest (atoms t) (lineage_id a) (version_id a).
Proof.
  intros Hr H. pose proof (λ t, read_tenant_wf _ _ _ _ _ t Hr H) as Hwf. unfold get_active_atom_by_id. simpl.
  destruct (rd_tenant tx) as [t|] eqn:Et; [|by exists None; split; [done|]; intros a; split; [|intros (? & ? & _)]].
  specialize (Hwf t eq_refl). apply tw_catalog in Hwf.
  destruct (bt_get id (atom_versions_by_id t)) as [v|] eqn:Ev.
  - pose proof Ev as Ev'. apply (cw_index _ _ _ _ _ Hwf) in Ev' as (a & Ha & Hid). unfold indexed_atom.
    rewrite Ha. simpl. rewrite Hid, oeqb_refl. simpl. eexists. split; [done|]. intros b.
    destruct (cw_atom _ _ _ _ _ Hwf _ _ Ha) as (Hva & _).
    destruct (cw_lineage _ _ _ _ _ Hwf _ _ Ha) as [v1 Hv1]. rewrite Hv1. split.
    + case_match eqn:Eb; [|done]. intros [= ->]. bsplit. apply opt_eqb_eq in H1. injection H1 as ->.
      exists t. rewrite Hva. split_and!; try done. by apply (cw_newest _ _ _ _ _ Hwf).
    + intros (t' & [= <-] & Hb & Hbid & Hact & Hnew).
      assert (bt_get id (atom_versions_by_id t) = Some (version_id b)) as Hb2.
      { apply (cw_index _ _ _ _ _ Hwf). by exists b. }
      assert (version_id b = v) as <- by congruence. assert (a = b) as -> by congruence.
      rewrite bool_decide_eq_true_2 by done.
      assert (v1 = version_id b) as ->.
      { eapply newest_unique; [exact Hwf|by apply (cw_newest _ _ _ _ _ Hwf)|done]. }
      by rewrite (proj2 (opt_eqb_eq _ _)).
  - exists None. split; [done|]. intros a. split; [done|]. intros (t' & [= <-] & Ha & Hid & _).
    assert (bt_get id (atom_versions_by_id t) = Some (version_id a)); [|congruence].
    apply (cw_index _ _ _ _ _ Hwf). by exists a.
Qed.

(** C25: rebuilding the atom indexes from the atoms alone, whatever indexes an older
    encoding carried, yields exactly the indexes the repository maintains. *)
Theorem rebuild_indexes_exact s ctx sel c tx t by_id current :
  reachable sha256 encoded_len s → begin_read s ctx sel c = Ok tx → rd_tenant tx = Some t →
  len (atoms t) ≤ MAX_LEGACY_ATOM_INDEX_REBUILD_ITEMS →
  rebuild_atom_indexes (set_current_versions_by_lineage current (set_atom_versions_by_id by_id t)) = Ok t.
Proof.
  intros Hr H Ht Hlen. pose proof (read_tenant_wf _ _ _ _ _ t Hr H Ht) as Hwf. apply tw_catalog in Hwf.
  unfold rebuild_atom_indexes. simpl. rewrite (proj2 (Z.ltb_ge _ _)) by done.
  destruct (rebuild_loop_ok _ _ _ _ _ (atoms t) [] [] [] Hwf eq_refl (catalog_wf_empty _)) as (p & -> & Hp).
  simpl. destruct (catalog_indexes_unique _ _ _ _ _ _ _ _ Hwf Hp) as [Hi Hc]. rewrite Hi, Hc. by destruct t.
Qed.

(** C18: following the continuation cursors of effect recovery on one snapshot
    returns every current effect record of the tenant exactly once, in effect
    order, each with the last event of its journal, and never finds a record
    corrupt. *)
Theorem effect_recovery_complete s ctx sel c tx t limit :
  reachable sha256 encoded_len s → begin_read s ctx sel c = Ok tx → rd_tenant tx = Some t →
  0 < limit ≤ MAX_SERVICE_PAGE_ITEMS →
  fetch_effects sha256 (S (length (effect_records t))) (rd_state tx)
    (mk_effect_query (tenant_id (rd_context tx)) limit None) =
  Ok (Some (map (recovery_item t) (effect_records t))).
Proof.
  intros Hr H Ht Hlim. pose proof (read_tenant_wf _ _ _ _ _ t Hr H Ht) as Hwf.
  rewrite (fetch_effects_pages sha256 (rd_state tx) (tenant_id (rd_context tx)) t limit _ sha_ok Ht Hwf Hlim) with (a := None).
  rewrite pages_all; [done|lia|]. apply Hwf.
Qed.

End run.

End StoreQueries.
