(* ===== verification/StoreWitness.v ===== *)
(** * Repository witnesses

    A concrete run of the repository: one transaction with a snapshot, two atoms
    and a derivation edge, an effect record and an outbox message; a service
    batch; and a worker lease handed over. Every repository theorem is applied
    to it. The digest function here is a constant of the right shape. *)

From S2P Require Import Prelude Collections Canon BrokerAuth Protocol Catalog Store Service.
From S2P Require Import StoreFacts ServiceFacts StoreRun StoreQueries.
From stdpp Require Import relations.
Import Protocol Catalog Store Service StoreFacts ServiceFacts StoreRun StoreQueries.
Local Open Scope Z_scope.

Module StoreWitness.

Definition sha0 (_ : list Z) : list Z := repeat 0 32.
Definition enc0 (_ : btree (text * text) (list ServiceRecord))
    (_ : btree (text * text) ServiceIdempotencyEntry) (_ : btree text WorkerState) : option Z := Some 0.

Lemma sha0_ok m : Auth.digest_ok (sha0 m).
Proof. split; [|reflexivity]. unfold sha0. repeat constructor; unfold CanonFacts.byte_ok; lia. Qed.

Definition v1 (family : string) : SchemaVersion := mk_schema (str_bytes family) 1.
Definition tenant : text := str_bytes "tenant".
Definition ctx : AccessContext := mk_access tenant (str_bytes "coding").

Definition atom (id version : string) (time : Z) : ContextAtomV1 :=
  mk_atom (v1 "cigar.atom") (str_bytes id) (str_bytes "lineage") (str_bytes version) (str_bytes "content")
    Documentation (InlineText (str_bytes "text"))
    (mk_source (str_bytes "file:///readme") None (str_bytes "r1") (str_bytes "snap"))
    (mk_scope tenant [str_bytes "project"]) (mk_temporal 0 None time)
    (mk_governance Internal [str_bytes "coding"] [] Data) (mk_quality 900000 800000 1)
    (mk_retrieval [] true false) Active None [].

Definition edge : ContextEdge :=
  mk_edge (v1 "cigar.edge") (str_bytes "edge") (str_bytes "v2") (str_bytes "v1") DerivedFrom
    (str_bytes "prov") Active None [].
Definition snapshot : SourceSnapshot :=
  mk_snapshot (v1 "cigar.source-snapshot") (str_bytes "s1") (str_bytes "file:///") (str_bytes "r1") 5
    (str_bytes "manifest") 1 10 true [].
Definition record : EffectRecordEnvelope :=
  mk_envelope (str_bytes "effect") 0 (sha256_multihash sha0 [1]) [1].
Definition message : OutboxMessage := mk_message (str_bytes "m1") (str_bytes "topic") (str_bytes "payload").

Definition w0 : WriteTx := mk_write ctx 0 [].
Definition w1 : WriteTx := mk_write ctx 0 [MSnapshot snapshot].
Definition w2 : WriteTx := mk_write ctx 0 (staged w1 ++ [MAtoms [atom "a1" "v1" 1; atom "a2" "v2" 2] [edge]]).
Definition w3 : WriteTx := mk_write ctx 0 (staged w2 ++ [MEffectRecord record]).
Definition tx : WriteTx := mk_write ctx 0 (staged w3 ++ [MOutbox message]).

Lemma tx_built : built sha0 tx.
Proof.
  apply (built_outbox sha0 w3 false message); [|reflexivity].
  apply (built_record sha0 w2 false (str_bytes "effect") 0 (sha256_multihash sha0 [1]) [1] record);
    [|lia|reflexivity|reflexivity].
  apply (built_atoms sha0 w1 false [atom "a1" "v1" 1; atom "a2" "v2" 2] [edge]); [|reflexivity].
  apply (built_snapshot sha0 w0 false snapshot); [|reflexivity].
  by apply (built_begin sha0 tenant (str_bytes "coding") ctx 0 false).
Qed.

Lemma w1_built : built sha0 w1.
Proof.
  apply (built_snapshot sha0 w0 false snapshot); [|reflexivity].
  by apply (built_begin sha0 tenant (str_bytes "coding") ctx 0 false).
Qed.

Definition identity : IdempotencyIdentity :=
  mk_identity (str_bytes "scope") (str_bytes "key") (str_bytes "digest").

Definition store1 : InMemoryStore := Eval vm_compute in (commit default_store tx false false (Some identity)).1.
Definition receipt1 : CommitReceipt := mk_commit_receipt 1 false.

Lemma commit1 : commit default_store tx false false (Some identity) = (store1, Ok receipt1).
Proof. vm_compute. reflexivity. Qed.

Lemma start_reachable : reachable sha0 enc0 default_store.
Proof. constructor. Qed.

Lemma store1_reachable : reachable sha0 enc0 store1.
Proof. apply rtc_once. exact (step_commit _ _ _ _ _ _ _ _ _ tx_built commit1). Qed.

Definition state1 : CommittedState := Eval vm_compute in default (mk_state 0 []) (last (history store1)).
Definition tenant1 : TenantState := Eval vm_compute in tenant_of state1 tenant.
Definition read1 : ReadTx := mk_read state1 ctx.

Lemma read1_ok : begin_read store1 ctx Latest false = Ok read1.
Proof. vm_compute. reflexivity. Qed.

Lemma store_invariant_witness : store_wf sha0 store1.
Proof. exact (store_invariant sha0 sha0_ok enc0 store1 store1_reachable). Defined.

Lemma commit_outcomes_witness :
  rejected default_store store1 (Ok receipt1) ∨ published default_store store1 tx (Some identity) (Ok receipt1) ∨
  replayed_request default_store store1 tx (Some identity) (Ok receipt1).
Proof.
  exact (commit_outcomes sha0 sha0_ok enc0 default_store tx false false (Some identity) store1 (Ok receipt1)
           start_reachable tx_built commit1).
Defined.

Lemma snapshot_stable_witness :
  begin_read store1 ctx (Revision 0) false = Ok (mk_read (mk_state 0 []) ctx).
Proof.
  refine (snapshot_stable sha0 sha0_ok enc0 default_store store1 ctx Latest false (mk_read (mk_state 0 []) ctx)
            start_reachable eq_refl store1_reachable).
Defined.

Lemma no_lost_update_witness : replayed (mk_commit_receipt 1 true) = true.
Proof.
  refine (no_lost_update sha0 sha0_ok enc0 default_store tx false false (Some identity) store1 receipt1 store1
            w1 false false (Some identity) store1 (mk_commit_receipt 1 true)
            start_reachable tx_built w1_built eq_refl commit1 eq_refl (rtc_refl _ _) _).
  vm_compute. reflexivity.
Defined.

Lemma commit_exactly_once_witness :
  commit store1 w1 false false (Some identity) = (store1, Ok (mk_commit_receipt 1 true)).
Proof.
  exact (commit_exactly_once sha0 sha0_ok enc0 default_store tx false false identity store1 receipt1 store1
           w1 false identity start_reachable tx_built commit1 (rtc_refl _ _) eq_refl eq_refl eq_refl eq_refl).
Defined.

(** ** A service batch *)

Definition response : ServiceResponse :=
  mk_response 200 (str_bytes "application/json") (sha256_multihash sha0 [7]) [7].
Definition write1 : ServiceRecordWrite := mk_record_write (str_bytes "ns") (str_bytes "k") Absent [1; 2].
Definition service_identity : ServiceIdempotency :=
  mk_service_idempotency (str_bytes "op") (str_bytes "key") (str_bytes "digest").
Definition batch : ServiceBatch := mk_batch tenant None [write1] (Some service_identity) response.

Definition store2 : InMemoryStore := Eval vm_compute in (service_commit sha0 enc0 store1 batch false false).1.
Definition receipt2 : ServiceBatchReceipt :=
  mk_batch_receipt 2 [mk_record_version (str_bytes "ns") (str_bytes "k") 1 (sha256_multihash sha0 [1; 2])]
    response false.

Lemma service2 : service_commit sha0 enc0 store1 batch false false = (store2, Ok receipt2).
Proof. vm_compute. reflexivity. Qed.

Lemma response_ok : response_new sha0 200 (str_bytes "application/json") [7] = Ok (b_response batch).
Proof. vm_compute. reflexivity. Qed.

Lemma store2_reachable : reachable sha0 enc0 store2.
Proof.
  eapply rtc_r; [exact store1_reachable|]. exact (step_service _ _ _ _ _ _ _ _ _ _ _ response_ok service2).
Qed.

Lemma service_exactly_once_witness :
  service_commit sha0 enc0 store2 batch false false =
    (store2, Ok (mk_batch_receipt 2 (br_records receipt2) response true)).
Proof.
  exact (service_exactly_once sha0 sha0_ok enc0 store1 batch false false 200 (str_bytes "application/json") [7]
           service_identity store2 receipt2 store2 batch false service_identity store1_reachable response_ok
           eq_refl service2 (rtc_refl _ _) eq_refl eq_refl eq_refl eq_refl eq_refl).
Defined.

Definition state2 : CommittedState := Eval vm_compute in default (mk_state 0 []) (last (history store2)).

Lemma service_state_valid_witness : validate_committed_service_state sha0 enc0 state2 = Ok tt.
Proof.
  refine (service_state_valid sha0 sha0_ok enc0 store2 state2 store2_reachable _ _).
  - vm_compute. reflexivity.
  - intros id t _. exists 0. split; [reflexivity|vm_compute; discriminate].
Defined.

(** ** A worker lease handed over *)

Definition worker : WorkerLocator := mk_worker_locator tenant (str_bytes "w").
Definition lease (version time token : Z) (owner : string) (expiry : Z) : WorkerState :=
  mk_worker worker version time (sha256_multihash sha0 []) [] time (Some (str_bytes owner)) token (Some expiry).
Definition claim1 : WorkerUpdate := Claim Absent (str_bytes "alice") 1 5.
Definition claim2 : WorkerUpdate := Claim (Version 1) (str_bytes "bob") 6 9.
Definition handover : list (WorkerUpdate * Z * WorkerState) :=
  [(claim1, 1, lease 1 1 1 "alice" 5); (claim2, 6, lease 2 6 2 "bob" 9)].

Lemma lease_exclusion_witness :
  lease_free 6 (lease 1 1 1 "alice" 5) ∧
  ws_fencing_token (lease 2 6 2 "bob" 9) = ws_fencing_token (lease 1 1 1 "alice" 5) + 1.
Proof.
  refine (proj2 (lease_exclusion sha0 sha0_ok worker handover _) O claim1 1 (lease 1 1 1 "alice" 5)
            (Version 1) (str_bytes "bob") 6 9 6 (lease 2 6 2 "bob" 9) eq_refl eq_refl).
  vm_compute. auto.
Defined.

(** ** Queries *)

Lemma cycle_check_exact_witness :
  creates_derivation_cycle [] edge = Ok false ∧ ¬ rtc (derives []) (str_bytes "v1") (str_bytes "v2").
Proof.
  split; [reflexivity|]. intros Hr.
  pose proof (proj1 (proj2 (cycle_check_exact [] edge eq_refl)) false eq_refl) as [_ Hb].
  specialize (Hb Hr). discriminate.
Defined.

Lemma atom_query_complete_witness :
  fetch_atoms 3 read1 (mk_selector None) 1 None = Ok (Some [atom "a1" "v1" 1; atom "a2" "v2" 2]).
Proof.
  refine (atom_query_complete sha0 sha0_ok enc0 store1 ctx Latest false read1 (mk_selector None) 1
            store1_reachable read1_ok _). vm_compute. split; [reflexivity|discriminate].
Defined.

Lemma active_atom_exact_witness :
  get_active_atom_by_id read1 false (str_bytes "a2") = Ok (Some (atom "a2" "v2" 2)) ∧
  newest (atoms tenant1) (str_bytes "lineage") (str_bytes "v2").
Proof.
  destruct (active_atom_exact sha0 sha0_ok enc0 store1 ctx Latest false read1 (str_bytes "a2")
              store1_reachable read1_ok) as (r & Hr & Hiff).
  assert (get_active_atom_by_id read1 false (str_bytes "a2") = Ok (Some (atom "a2" "v2" 2))) as Hc
    by (vm_compute; reflexivity).
  rewrite Hc in Hr. injection Hr as <-. split; [exact Hc|].
  destruct (proj1 (Hiff _) eq_refl) as (t & Ht & _ & _ & _ & Hn). injection Ht as <-. exact Hn.
Defined.

Lemma rebuild_indexes_exact_witness :
  rebuild_atom_indexes (set_current_versions_by_lineage [] (set_atom_versions_by_id [] tenant1)) = Ok tenant1.
Proof.
  refine (rebuild_indexes_exact sha0 sha0_ok enc0 store1 ctx Latest false read1 tenant1 [] []
            store1_reachable read1_ok _ _); vm_compute; [reflexivity|discriminate].
Defined.

Lemma effect_recovery_complete_witness :
  fetch_effects sha0 2 state1 (mk_effect_query tenant 1 None) = Ok (Some [mk_recovery_item record None]).
Proof.
  refine (effect_recovery_complete sha0 sha0_ok enc0 store1 ctx Latest false read1 tenant1 1
            store1_reachable read1_ok _ _); vm_compute; [reflexivity|]. split; [reflexivity|discriminate].
Defined.

End StoreWitness.
